(** * A shallow embedding of [advanced-vector/vector.h]

    The header defines two class templates: [RawMemory<T>], which owns a block
    of uninitialised storage, and [Vector<T>], which keeps the first [size_]
    slots of such a block constructed.  The embedding keeps the structure of
    the source:

    - storage is a heap of blocks, a block is a list of slots, a slot is
      either raw or holds a constructed [T];
    - [T*] is a block address with an element offset;
    - every [Vector] object lives in an object store under its own identity,
      so [this == &rhs] is a comparison of identities;
    - C++ control flow (normal return, a propagating exception, undefined
      behaviour) is the three-way [outcome] of a state monad; stack unwinding
      runs the destructors of the locals that are in scope;
    - [operator new] and the element type's operations that are not
      [noexcept] can fail; which call fails is decided by a fault schedule
      that is part of the state, so that a theorem quantified over all states
      covers every failure point;
    - every construction, assignment, destruction, allocation and release is
      recorded in a trace, which is what statements about ordering and about
      "no element is copied" refer to.

    [operator new] is asked for bytes: [Allocate(n)] passes [n * sizeof(T)],
    computed in [size_t], so the product wraps, and the block that comes back
    has room for as many elements as those bytes hold.  A request for more
    than [PTRDIFF_MAX] bytes cannot be satisfied.

    [PushBack] takes its argument by reference and reads it only after the
    elements have been transferred to the new block, so its argument is an
    [operand]: an object outside the heap, or the object a pointer designates,
    which can be an element of the vector itself.  [Emplace] reads its
    arguments before it changes any element; it is given the value that the
    constructor call produces from the argument pack.

    The algorithms of the standard library that the header calls
    ([std::uninitialized_copy_n], [std::move_backward], ...) are not part of
    the header; they are written out here for pointers, as the C++ standard
    specifies them.  The private static helpers of [Vector] ([Allocate],
    [Deallocate], [DestroyN], [CopyConstruct], [Destroy]) are called nowhere
    in the header; they are embedded after the public members. *)

From Stdlib Require Import ZArith Lia String.
From stdpp Require Import base numbers option list gmap fin_maps.

Local Open Scope nat_scope.

(** ** Storage *)

(** A slot of a block: uninitialised, or holding a live object. *)
Inductive slot (T : Type) : Type :=
  | Raw
  | Live (x : T).
Arguments Raw {T}.
Arguments Live {T} x.

(** [T*]: the block pointed into ([None] for a pointer derived from
    [nullptr]) and the element offset inside it. *)
Record ptr : Type := Ptr { p_base : option positive; p_off : nat }.

Definition ptr_add (p : ptr) (n : nat) : ptr := Ptr (p_base p) (p_off p + n).
Definition ptr_sub (p : ptr) (n : nat) : ptr := Ptr (p_base p) (p_off p - n).

Infix "+ₚ" := ptr_add (at level 50, left associativity).
Infix "-ₚ" := ptr_sub (at level 50, left associativity).

#[global] Instance ptr_eq_dec : EqDecision ptr.
Proof. solve_decision. Defined.

(** The source compares sizes with [>] and [>=] as well. *)
#[global] Instance nat_gt_dec' (x y : nat) : Decision (x > y) := decide (y < x).
#[global] Instance nat_ge_dec' (x y : nat) : Decision (x ≥ y) := decide (y ≤ x).

(** [size_t] is 64 bits wide; arithmetic on it wraps. *)
Definition size_t_bits : Z := 64.
Definition to_size_t (z : Z) : nat := Z.to_nat (z mod 2 ^ size_t_bits).
Definition size_add (a b : nat) : nat := to_size_t (Z.of_nat a + Z.of_nat b).
Definition size_sub (a b : nat) : nat := to_size_t (Z.of_nat a - Z.of_nat b).
Definition size_mul (a b : nat) : nat := to_size_t (Z.of_nat a * Z.of_nat b).

(** The largest byte count [operator new] can deliver: [PTRDIFF_MAX]. *)
Definition max_bytes : N := 2 ^ 63 - 1.

(** [RawMemory<T>]: [buffer_] and [capacity_]. *)
Record RawMemory : Type := mkRaw { buffer_ : option positive; capacity_ : nat }.

(** [Vector<T>]: [data_] and [size_]. *)
Record Vector : Type := mkVec { data_ : RawMemory; size_ : nat }.

#[global] Instance RawMemory_eq_dec : EqDecision RawMemory.
Proof. solve_decision. Defined.
#[global] Instance Vector_eq_dec : EqDecision Vector.
Proof. solve_decision. Defined.

(** ** The element type *)

(** The operations of [T] the container invokes. *)
Inductive elem_op : Type :=
  | ValueInit    (* T() *)
  | ArgsCtor     (* T(args...) for an arbitrary argument pack *)
  | CopyCtor     (* T(const T&) *)
  | MoveCtor     (* T(T&&) *)
  | CopyAssign   (* operator=(const T&) *)
  | MoveAssign.  (* operator=(T&&) *)

#[global] Instance elem_op_eq_dec : EqDecision elem_op.
Proof. solve_decision. Defined.

(** What the container needs to know about [T]: its size in bytes, the
    value-initialised value, the state a moved-from object is left in, which
    operations are not [noexcept], and whether [T] has a copy constructor. *)
Class Elem (T : Type) : Type := {
  sizeof : positive;
  sizeof_is_size_t : (Z.pos sizeof <? 2 ^ size_t_bits)%Z = true;
  value_init : T;
  moved_from : T → T;
  may_throw : elem_op → bool;
  is_copy_constructible : bool
}.

Definition is_nothrow_move_constructible (T : Type) `{Elem T} : bool :=
  negb (may_throw MoveCtor).

(** The largest number of objects of type [T] a block can hold:
    [PTRDIFF_MAX / sizeof(T)]. *)
Definition max_alloc (T : Type) `{Elem T} : N := (max_bytes / Npos sizeof)%N.

(** The byte count [n * sizeof(T)] is below the wrap-around of [size_t]. *)
Definition fits_size_t (T : Type) `{Elem T} (n : nat) : Prop :=
  (Z.of_nat n * Z.pos sizeof < 2 ^ size_t_bits)%Z.

(** The argument of a call that takes a [const T&] or a [T&&]: an object of
    the caller that lives outside the heap and holds [x], or the object at
    [p], which can be an element of a vector. *)
Inductive operand (T : Type) : Type :=
  | Outside (x : T)
  | Element (p : ptr).
Arguments Outside {T} x.
Arguments Element {T} p.

(** ** Events *)

Inductive event : Type :=
  | EvNew (l : positive) (n : nat)        (* operator new returned block l, room for n elements *)
  | EvDelete (l : positive)               (* operator delete released block l *)
  | EvCtor (k : elem_op) (p : ptr)        (* a T was constructed at p by constructor k *)
  | EvAssign (k : elem_op) (p : ptr)      (* the T at p was assigned to by k *)
  | EvDtor (p : ptr)                      (* the T at p was destroyed *)
  | EvLocalCtor (k : elem_op)             (* a T was constructed in a local side buffer *)
  | EvLocalDtor.                          (* the T in the local side buffer was destroyed *)

#[global] Instance event_eq_dec : EqDecision event.
Proof. solve_decision. Defined.

Section Model.
Context {T : Type} `{ET : Elem T}.

(** ** Program state *)

Record World : Type := mkWorld {
  heap : gmap positive (list (slot T));   (* allocated blocks *)
  vecs : gmap nat Vector;                 (* Vector objects, by identity *)
  new_faults : list bool;                 (* one entry per operator new call; true: bad_alloc *)
  elem_faults : list bool;                (* one entry per call of a throwing operation of T *)
  trace : list event
}.

Definition set_heap (h : gmap positive (list (slot T))) (w : World) : World :=
  mkWorld h (vecs w) (new_faults w) (elem_faults w) (trace w).
Definition set_vecs (v : gmap nat Vector) (w : World) : World :=
  mkWorld (heap w) v (new_faults w) (elem_faults w) (trace w).
Definition set_new_faults (f : list bool) (w : World) : World :=
  mkWorld (heap w) (vecs w) f (elem_faults w) (trace w).
Definition set_elem_faults (f : list bool) (w : World) : World :=
  mkWorld (heap w) (vecs w) (new_faults w) f (trace w).
Definition add_event (e : event) (w : World) : World :=
  mkWorld (heap w) (vecs w) (new_faults w) (elem_faults w) (trace w ++ [e]).

(** ** Control flow *)

Inductive outcome (A : Type) : Type :=
  | Ok (a : A) (w : World)      (* normal completion *)
  | Throw (w : World)           (* an exception propagates out *)
  | Undefined.                  (* undefined behaviour / failed assert *)
Arguments Ok {A} a w.
Arguments Throw {A} w.
Arguments Undefined {A}.

Definition M (A : Type) : Type := World → outcome A.

Definition ret {A} (a : A) : M A := λ w, Ok a w.
Definition bind {A B} (m : M A) (f : A → M B) : M B := λ w,
  match m w with
  | Ok a w' => f a w'
  | Throw w' => Throw w'
  | Undefined => Undefined
  end.
Definition undefined {A} : M A := λ _, Undefined.

(** [unwinding m cleanup]: run [m]; if an exception leaves it, run
    [cleanup] (destructors of locals, or a catch block that rethrows) and
    let the exception propagate. *)
Definition unwinding {A} (m : M A) (cleanup : M unit) : M A := λ w,
  match m w with
  | Throw w' =>
      match cleanup w' with
      | Ok _ w'' => Throw w''
      | Throw w'' => Undefined    (* std::terminate *)
      | Undefined => Undefined
      end
  | r => r
  end.

Definition log (e : event) : M unit := λ w, Ok tt (add_event e w).

End Model.

Arguments World T : clear implicits.
Arguments outcome T A : clear implicits.
Arguments M T A : clear implicits.
Arguments Ok {T A} a w.
Arguments Throw {T A} w.
Arguments Undefined {T A}.

Declare Scope cpp_scope.
Delimit Scope cpp_scope with cpp.
Notation "x ← m ; k" := (bind m (λ x, k))
  (at level 20, m at level 100, k at level 200, only parsing) : cpp_scope.
Notation "m ;; k" := (bind m (λ _, k))
  (at level 100, k at level 200, only parsing, right associativity) : cpp_scope.
Local Open Scope cpp_scope.

(** ** Primitive operations on storage and on elements *)

Section Primitives.
Context {T : Type} `{ET : Elem T}.

(** The slot a pointer designates.  Dereferencing a pointer that is null,
    dangling or out of the bounds of its block is undefined. *)
Definition read_slot (p : ptr) : M T (slot T) := λ w,
  match p_base p with
  | Some l =>
      match heap w !! l with
      | Some blk =>
          match blk !! p_off p with
          | Some s => Ok s w
          | None => Undefined
          end
      | None => Undefined
      end
  | None => Undefined
  end.

Definition write_slot (p : ptr) (s : slot T) : M T unit := λ w,
  match p_base p with
  | Some l =>
      match heap w !! l with
      | Some blk =>
          if decide (p_off p < length blk)
          then Ok tt (set_heap (<[l := <[p_off p := s]> blk]> (heap w)) w)
          else Undefined
      | None => Undefined
      end
  | None => Undefined
  end.

(** Reading the value of an object requires the object to be alive. *)
Definition load (p : ptr) : M T T :=
  s ← read_slot p;
  match s with
  | Live x => ret x
  | Raw => undefined
  end.

(** A call of operation [k] of [T].  When [k] is [noexcept] nothing can
    happen; otherwise the next entry of the fault schedule decides whether
    the call throws.  An operation that throws has no effect. *)
Definition may_fail (k : elem_op) : M T unit := λ w,
  if may_throw k then
    match elem_faults w with
    | true :: fs => Throw (set_elem_faults fs w)
    | false :: fs => Ok tt (set_elem_faults fs w)
    | [] => Ok tt w
    end
  else Ok tt w.

(** [new (p) T(args...)] where constructor [k] produces the value [x]. *)
Definition construct_at (p : ptr) (k : elem_op) (x : T) : M T unit :=
  _ ← read_slot p;
  may_fail k;;
  write_slot p (Live x);;
  log (EvCtor k p).

(** [new (dst) T(src[0])] *)
Definition copy_construct (dst src : ptr) : M T unit :=
  x ← load src;
  construct_at dst CopyCtor x.

(** [new (dst) T(std::move(src[0]))] *)
Definition move_construct (dst src : ptr) : M T unit :=
  x ← load src;
  construct_at dst MoveCtor x;;
  write_slot src (Live (moved_from x)).

(** [new (dst) T()] *)
Definition value_construct (dst : ptr) : M T unit :=
  construct_at dst ValueInit value_init.

(** [new (dst) T(value)] for [k = CopyCtor] and [new (dst) T(std::move(value))]
    for [k = MoveCtor], where [value] is a reference: the object referred to
    is read when the constructor runs, and the move constructor leaves it in
    its moved-from state. *)
Definition construct_from (dst : ptr) (k : elem_op) (value : operand T) : M T unit :=
  match value with
  | Outside x => construct_at dst k x
  | Element src =>
      x ← load src;
      construct_at dst k x;;
      if decide (k = MoveCtor) then write_slot src (Live (moved_from x)) else ret tt
  end.

(** [p[0] = x] where [x] is what assignment operator [k] stores. *)
Definition assign_at (p : ptr) (k : elem_op) (x : T) : M T unit :=
  _ ← load p;
  may_fail k;;
  write_slot p (Live x);;
  log (EvAssign k p).

(** [dst[0] = src[0]] *)
Definition copy_assign (dst src : ptr) : M T unit :=
  x ← load src;
  assign_at dst CopyAssign x.

(** [dst[0] = std::move(src[0])] *)
Definition move_assign (dst src : ptr) : M T unit :=
  x ← load src;
  assign_at dst MoveAssign x;;
  write_slot src (Live (moved_from x)).

(** [std::destroy_at(p)] *)
Definition destroy_at (p : ptr) : M T unit :=
  _ ← load p;
  write_slot p Raw;;
  log (EvDtor p).

(** [p - q] as [ptrdiff_t]; both must point into the same array. *)
Definition ptr_diff (p q : ptr) : M T Z :=
  if decide (p_base p = p_base q)
  then ret (Z.of_nat (p_off p) - Z.of_nat (p_off q))%Z
  else undefined.

(** ** Algorithms of the standard library, for pointers *)

(** [std::destroy_n(first, n)] *)
Fixpoint destroy_n (first : ptr) (n : nat) : M T unit :=
  match n with
  | 0 => ret tt
  | S n' => destroy_at first;; destroy_n (first +ₚ 1) n'
  end.

(** The loop shared by the [std::uninitialized_*] algorithms: construct
    [n] objects from [cur] on with [step]; if a construction throws, the
    objects constructed so far, that is [result, cur), are destroyed and
    the exception is rethrown. *)
Fixpoint uninitialized_loop (step : ptr → ptr → M T unit)
    (first result cur : ptr) (n : nat) : M T unit :=
  match n with
  | 0 => ret tt
  | S n' =>
      unwinding (step cur first)
                (destroy_n result (p_off cur - p_off result));;
      uninitialized_loop step (first +ₚ 1) result (cur +ₚ 1) n'
  end.

(** [std::uninitialized_copy_n(first, n, result)] *)
Definition uninitialized_copy_n (first : ptr) (n : nat) (result : ptr) : M T unit :=
  uninitialized_loop copy_construct first result result n.

(** [std::uninitialized_move_n(first, n, result)] *)
Definition uninitialized_move_n (first : ptr) (n : nat) (result : ptr) : M T unit :=
  uninitialized_loop move_construct first result result n.

(** [std::uninitialized_value_construct_n(first, n)] *)
Definition uninitialized_value_construct_n (first : ptr) (n : nat) : M T unit :=
  uninitialized_loop (λ cur _, value_construct cur) first first first n.

(** [std::uninitialized_copy(first, last, result)] *)
Definition uninitialized_copy (first last result : ptr) : M T unit :=
  d ← ptr_diff last first;
  uninitialized_copy_n first (Z.to_nat d) result.

(** The forward loop of [std::copy] and [std::move]:
    [for (n = last - first; n > 0; --n) { result[0] = first[0]; ++result; ++first; }] *)
Fixpoint assign_forward (step : ptr → ptr → M T unit)
    (first result : ptr) (n : nat) : M T unit :=
  match n with
  | 0 => ret tt
  | S n' => step result first;; assign_forward step (first +ₚ 1) (result +ₚ 1) n'
  end.

(** [std::copy(first, last, result)] *)
Definition std_copy (first last result : ptr) : M T unit :=
  d ← ptr_diff last first;
  assign_forward copy_assign first result (Z.to_nat d).

(** [std::move(first, last, result)], the algorithm *)
Definition std_move (first last result : ptr) : M T unit :=
  d ← ptr_diff last first;
  assign_forward move_assign first result (Z.to_nat d).

(** [std::move_backward(first, last, d_last)]:
    [for (n = last - first; n > 0; --n) { --d_last; --last; d_last[0] = std::move(last[0]); }] *)
Fixpoint move_backward_loop (last d_last : ptr) (n : nat) : M T unit :=
  match n with
  | 0 => ret tt
  | S n' =>
      move_assign (d_last -ₚ 1) (last -ₚ 1);;
      move_backward_loop (last -ₚ 1) (d_last -ₚ 1) n'
  end.

Definition std_move_backward (first last d_last : ptr) : M T unit :=
  d ← ptr_diff last first;
  move_backward_loop last d_last (Z.to_nat d).

End Primitives.

(** ** [RawMemory<T>] *)

Section RawMemoryOps.
Context {T : Type} `{ET : Elem T}.

(** [operator new(size)] for a block of [size] bytes.  It throws [bad_alloc]
    when the request cannot be satisfied at all or when the fault schedule
    says so; otherwise it returns a block that is not in use, all raw, with
    room for [size / sizeof(T)] objects. *)
Definition operator_new (size : nat) : M T positive := λ w,
  if decide (N.of_nat size ≤ max_bytes)%N then
    match new_faults w with
    | true :: fs => Throw (set_new_faults fs w)
    | fs =>
        let l := fresh (dom (heap w)) in
        let n := size / Pos.to_nat sizeof in
        Ok l (add_event (EvNew l n)
               (set_heap (<[l := replicate n Raw]> (heap w))
                 (set_new_faults (tail fs) w)))
    end
  else Throw w.

(** [operator delete]: nothing for [nullptr]; releasing a block that is not
    allocated is undefined. *)
Definition operator_delete (buf : option positive) : M T unit := λ w,
  match buf with
  | None => Ok tt w
  | Some l =>
      match heap w !! l with
      | Some _ => Ok tt (add_event (EvDelete l) (set_heap (delete l (heap w)) w))
      | None => Undefined
      end
  end.

(** [static T* Allocate(size_t n)]:
    [n != 0 ? static_cast<T*>(operator new(n * sizeof(T))) : nullptr], the
    product being computed in [size_t]. *)
Definition Allocate (n : nat) : M T (option positive) :=
  if decide (n ≠ 0)
  then l ← operator_new (size_mul n (Pos.to_nat sizeof)); ret (Some l)
  else ret None.

(** [static void Deallocate(T* buf) noexcept] *)
Definition Deallocate (buf : option positive) : M T unit := operator_delete buf.

(** [RawMemory() = default] *)
Definition RawMemory_default : RawMemory := mkRaw None 0.

(** [explicit RawMemory(size_t capacity)] *)
Definition RawMemory_ctor (capacity : nat) : M T RawMemory :=
  b ← Allocate capacity;
  ret (mkRaw b capacity).

(** [~RawMemory()] *)
Definition RawMemory_dtor (rm : RawMemory) : M T unit := Deallocate (buffer_ rm).

(** [T* operator+(size_t offset) noexcept] *)
Definition RawMemory_plus (rm : RawMemory) (offset : nat) : ptr :=
  Ptr (buffer_ rm) offset.

(** [T& operator[](size_t index) noexcept], with its [assert]. *)
Definition RawMemory_at (rm : RawMemory) (index : nat) : M T ptr :=
  if decide (index < capacity_ rm) then ret (Ptr (buffer_ rm) index) else undefined.

(** [void Swap(RawMemory& other) noexcept]: the new values of [*this] and
    of [other]. *)
Definition RawMemory_Swap (this other : RawMemory) : RawMemory * RawMemory :=
  (mkRaw (buffer_ other) (capacity_ other), mkRaw (buffer_ this) (capacity_ this)).

(** [T* GetAddress() noexcept] *)
Definition GetAddress (rm : RawMemory) : ptr := Ptr (buffer_ rm) 0.

(** [size_t Capacity() const] *)
Definition RawMemory_Capacity (rm : RawMemory) : nat := capacity_ rm.

End RawMemoryOps.

(** ** [Vector<T>] *)

Section VectorOps.
Context {T : Type} `{ET : Elem T}.

(** Access to the object [this] points to. *)
Definition get_vec (this : nat) : M T Vector := λ w,
  match vecs w !! this with
  | Some v => Ok v w
  | None => Undefined
  end.
Definition put_vec (this : nat) (v : Vector) : M T unit := λ w,
  Ok tt (set_vecs (<[this := v]> (vecs w)) w).
Definition del_vec (this : nat) : M T unit := λ w,
  Ok tt (set_vecs (delete this (vecs w)) w).
(** Storage for a local [Vector]. *)
Definition local_vec : M T nat := λ w, Ok (fresh (dom (vecs w))) w.

Definition set_data (this : nat) (d : RawMemory) : M T unit :=
  v ← get_vec this; put_vec this (mkVec d (size_ v)).
Definition set_size (this : nat) (n : nat) : M T unit :=
  v ← get_vec this; put_vec this (mkVec (data_ v) n).

(** [iterator begin() noexcept] *)
Definition begin_ (this : nat) : M T ptr :=
  v ← get_vec this; ret (GetAddress (data_ v)).

(** [iterator end() noexcept] *)
Definition end_ (this : nat) : M T ptr :=
  v ← get_vec this; ret (GetAddress (data_ v) +ₚ size_ v).

(** [const_iterator cbegin() const noexcept] *)
Definition cbegin (this : nat) : M T ptr := begin_ this.

(** [const_iterator cend() const noexcept] *)
Definition cend (this : nat) : M T ptr := end_ this.

(** [size_t Size() const noexcept] *)
Definition Size (this : nat) : M T nat :=
  v ← get_vec this; ret (size_ v).

(** [size_t Capacity() const noexcept] *)
Definition Capacity (this : nat) : M T nat :=
  v ← get_vec this; ret (RawMemory_Capacity (data_ v)).

(** [T& operator[](size_t index) noexcept], with its [assert]. *)
Definition Vector_at (this : nat) (index : nat) : M T ptr :=
  v ← get_vec this;
  if decide (index < size_ v) then RawMemory_at (data_ v) index else undefined.

(** [Vector() = default] *)
Definition Vector_default (this : nat) : M T unit :=
  put_vec this (mkVec RawMemory_default 0).

(** [~Vector()], followed by the destructor of the member [data_]. *)
Definition Vector_dtor (this : nat) : M T unit :=
  v ← get_vec this;
  destroy_n (GetAddress (data_ v)) (size_ v);;
  RawMemory_dtor (data_ v);;
  del_vec this.

(** [explicit Vector(size_t size)].  When the body throws, the member
    [data_] is destroyed and the object never comes to exist. *)
Definition Vector_sized (this : nat) (size : nat) : M T unit :=
  d ← RawMemory_ctor size;
  put_vec this (mkVec d size);;
  unwinding
    (v ← get_vec this;
     uninitialized_value_construct_n (GetAddress (data_ v)) size)
    (RawMemory_dtor d;; del_vec this).

(** [Vector(const Vector& other)] *)
Definition Vector_copy (this other : nat) : M T unit :=
  o ← get_vec other;
  d ← RawMemory_ctor (size_ o);
  put_vec this (mkVec d (size_ o));;
  unwinding
    (v ← get_vec this;
     o ← get_vec other;
     uninitialized_copy_n (GetAddress (data_ o)) (size_ v) (GetAddress (data_ v)))
    (RawMemory_dtor d;; del_vec this).

(** The transfer of [n] elements into a new block that [Emplace],
    [Reserve] and [PushBack] share:
    [if constexpr (is_nothrow_move_constructible_v<T> || !is_copy_constructible_v<T>)]
    move, otherwise copy. *)
Definition transfer_n (first : ptr) (n : nat) (result : ptr) : M T unit :=
  if is_nothrow_move_constructible T || negb is_copy_constructible
  then uninitialized_move_n first n result
  else uninitialized_copy_n first n result.

(** [iterator Emplace(const_iterator pos, Args&&... args)]: [k] is the
    constructor that [args...] selects and [x] the value it produces. *)
Definition Emplace (this : nat) (pos : ptr) (k : elem_op) (x : T) : M T ptr :=
  b ← begin_ this;
  d ← ptr_diff pos b;
  let offset := to_size_t d in
  v ← get_vec this;
  c ← Capacity this;
  (if decide (size_ v < c) then
     e ← end_ this;
     if decide (pos = e) then
       construct_at (RawMemory_plus (data_ v) offset) k x
     else
       (* the temporary object in the side buffer *)
       may_fail k;; log (EvLocalCtor k);;
       last ← RawMemory_at (data_ v) (size_sub (size_ v) 1);
       move_construct (RawMemory_plus (data_ v) (size_ v)) last;;
       b ← begin_ this;
       e ← end_ this;
       std_move_backward (b +ₚ offset) (e -ₚ 1) e;;
       p ← RawMemory_at (data_ v) offset;
       assign_at p MoveAssign x;;
       log EvLocalDtor
   else
     let new_capacity := if decide (size_ v = 0) then 1 else size_mul (size_ v) 2 in
     new_data ← RawMemory_ctor new_capacity;
     old ← unwinding
       (construct_at (RawMemory_plus new_data offset) k x;;
        transfer_n (GetAddress (data_ v)) offset (GetAddress new_data);;
        transfer_n (GetAddress (data_ v) +ₚ offset) (size_sub (size_ v) offset)
                   (GetAddress new_data +ₚ offset +ₚ 1);;
        destroy_n (GetAddress (data_ v)) (size_ v);;
        let '(d', nd') := RawMemory_Swap (data_ v) new_data in
        set_data this d';;
        ret nd')
       (RawMemory_dtor new_data);
     RawMemory_dtor old);;
  v ← get_vec this;
  set_size this (size_add (size_ v) 1);;
  b ← begin_ this;
  ret (b +ₚ offset).

(** [iterator Insert(const_iterator pos, const T& value)] *)
Definition Insert_copy (this : nat) (pos : ptr) (value : T) : M T ptr :=
  Emplace this pos CopyCtor value.

(** [iterator Insert(const_iterator pos, T&& value)] *)
Definition Insert_move (this : nat) (pos : ptr) (value : T) : M T ptr :=
  Emplace this pos MoveCtor value.

(** [iterator Erase(const_iterator pos)] *)
Definition Erase (this : nat) (pos : ptr) : M T ptr :=
  b ← begin_ this;
  d ← ptr_diff pos b;
  let offset := to_size_t d in
  e ← end_ this;
  std_move (b +ₚ offset +ₚ 1) e (b +ₚ offset);;
  v ← get_vec this;
  destroy_at (RawMemory_plus (data_ v) (size_sub (size_ v) 1));;
  set_size this (size_sub (size_ v) 1);;
  b ← begin_ this;
  ret (b +ₚ offset).

(** [T& EmplaceBack(Args&&... args)] *)
Definition EmplaceBack (this : nat) (k : elem_op) (x : T) : M T ptr :=
  v ← get_vec this;
  Emplace this (RawMemory_plus (data_ v) (size_ v)) k x.

(** [void Swap(Vector& other) noexcept] *)
Definition Swap (this other : nat) : M T unit :=
  if decide (this = other) then ret tt
  else
    v ← get_vec this;
    o ← get_vec other;
    let '(d, od) := RawMemory_Swap (data_ v) (data_ o) in
    put_vec this (mkVec d (size_ o));;
    put_vec other (mkVec od (size_ v)).

(** [Vector(Vector&& other) noexcept]: the members get their default
    initialisers, then the body swaps. *)
Definition Vector_move (this other : nat) : M T unit :=
  put_vec this (mkVec RawMemory_default 0);;
  v ← get_vec this;
  o ← get_vec other;
  let '(d, od) := RawMemory_Swap (data_ v) (data_ o) in
  put_vec this (mkVec d (size_ v));;
  put_vec other (mkVec od (size_ o));;
  v ← get_vec this;
  o ← get_vec other;
  put_vec this (mkVec (data_ v) (size_ o));;
  put_vec other (mkVec (data_ o) (size_ v)).

(** [Vector& operator=(const Vector& rhs)] *)
Definition Vector_assign (this rhs : nat) : M T unit :=
  if decide (this = rhs) then ret tt
  else
    r ← get_vec rhs;
    v ← get_vec this;
    if decide (size_ r > RawMemory_Capacity (data_ v)) then
      rhs_copy ← local_vec;
      Vector_copy rhs_copy rhs;;
      Swap this rhs_copy;;
      Vector_dtor rhs_copy
    else
      (if decide (size_ v > size_ r)
       then destroy_n (GetAddress (data_ v) +ₚ size_ r) (size_sub (size_ v) (size_ r))
       else ret tt);;
      if decide (size_ r = 0) then
        set_size this (size_ r)
      else
        (if decide (size_ v >= size_ r) then
           std_copy (GetAddress (data_ r)) (GetAddress (data_ r) +ₚ size_ r)
                    (GetAddress (data_ v))
         else
           std_copy (GetAddress (data_ r)) (GetAddress (data_ r) +ₚ size_ v)
                    (GetAddress (data_ v));;
           uninitialized_copy (GetAddress (data_ r) +ₚ size_ v)
                              (GetAddress (data_ r) +ₚ size_ r)
                              (GetAddress (data_ v) +ₚ size_ v));;
        set_size this (size_ r).

(** [Vector& operator=(Vector&& rhs) noexcept] *)
Definition Vector_move_assign (this rhs : nat) : M T unit :=
  if decide (this ≠ rhs) then Swap this rhs else ret tt.

(** [void Reserve(size_t new_capacity)] *)
Definition Reserve (this : nat) (new_capacity : nat) : M T unit :=
  v ← get_vec this;
  if decide (new_capacity ≤ RawMemory_Capacity (data_ v)) then ret tt
  else
    new_data ← RawMemory_ctor new_capacity;
    old ← unwinding
      (transfer_n (GetAddress (data_ v)) (size_ v) (GetAddress new_data);;
       destroy_n (GetAddress (data_ v)) (size_ v);;
       let '(d', nd') := RawMemory_Swap (data_ v) new_data in
       set_data this d';;
       ret nd')
      (RawMemory_dtor new_data);
    RawMemory_dtor old.

(** [void Resize(size_t new_size)] *)
Definition Resize (this : nat) (new_size : nat) : M T unit :=
  v ← get_vec this;
  (if decide (new_size < size_ v) then
     destroy_n (GetAddress (data_ v) +ₚ new_size) (size_sub (size_ v) new_size)
   else if decide (new_size > size_ v) then
     Reserve this new_size;;
     v ← get_vec this;
     uninitialized_value_construct_n (GetAddress (data_ v) +ₚ size_ v)
                                     (size_sub new_size (size_ v))
   else ret tt);;
  set_size this new_size.

(** The body the two [PushBack] overloads share; they differ in the
    constructor [k] that builds the new element from the object [value]
    refers to.  On the reallocating path that object is read after the
    elements have been transferred. *)
Definition PushBack_with (k : elem_op) (this : nat) (value : operand T) : M T unit :=
  v ← get_vec this;
  c ← Capacity this;
  (if decide (size_ v = c) then
     let new_capacity := if decide (size_ v = 0) then 1 else size_mul (size_ v) 2 in
     new_data ← RawMemory_ctor new_capacity;
     old ← unwinding
       (transfer_n (GetAddress (data_ v)) (size_ v) (GetAddress new_data);;
        construct_from (RawMemory_plus new_data (size_ v)) k value;;
        destroy_n (GetAddress (data_ v)) (size_ v);;
        let '(d', nd') := RawMemory_Swap (data_ v) new_data in
        set_data this d';;
        ret nd')
       (RawMemory_dtor new_data);
     RawMemory_dtor old
   else
     construct_from (RawMemory_plus (data_ v) (size_ v)) k value);;
  v ← get_vec this;
  set_size this (size_add (size_ v) 1).

(** [void PushBack(const T& value)] *)
Definition PushBack_copy (this : nat) (value : operand T) : M T unit :=
  PushBack_with CopyCtor this value.

(** [void PushBack(T&& value)] *)
Definition PushBack_move (this : nat) (value : operand T) : M T unit :=
  PushBack_with MoveCtor this value.

(** [void PopBack() noexcept], with its [assert]. *)
Definition PopBack (this : nat) : M T unit :=
  v ← get_vec this;
  if decide (size_ v > 0) then
    set_size this (size_sub (size_ v) 1);;
    v ← get_vec this;
    destroy_at (GetAddress (data_ v) +ₚ size_ v)
  else undefined.

(** The private static helpers. *)

(** [static T* Allocate(size_t n)], the same expression as in [RawMemory] *)
Definition Vector_Allocate (n : nat) : M T (option positive) :=
  if decide (n ≠ 0)
  then l ← operator_new (size_mul n (Pos.to_nat sizeof)); ret (Some l)
  else ret None.

(** [static void Deallocate(T* buf) noexcept] *)
Definition Vector_Deallocate (buf : option positive) : M T unit := operator_delete buf.

(** [static void Destroy(T* buf) noexcept]: [buf->~T()] *)
Definition Destroy (buf : ptr) : M T unit := destroy_at buf.

(** [static void DestroyN(T* buf, size_t n) noexcept]:
    [for (size_t i = 0; i != n; ++i) Destroy(buf + i);], with [todo] the
    number of iterations that remain. *)
Fixpoint DestroyN_loop (buf : ptr) (i todo : nat) : M T unit :=
  match todo with
  | 0 => ret tt
  | S todo' => Destroy (buf +ₚ i);; DestroyN_loop buf (size_add i 1) todo'
  end.

Definition DestroyN (buf : ptr) (n : nat) : M T unit := DestroyN_loop buf 0 n.

(** [static void CopyConstruct(T* buf, const T& elem)]: [new (buf) T(elem)] *)
Definition CopyConstruct (buf : ptr) (elem : T) : M T unit :=
  construct_at buf CopyCtor elem.

End VectorOps.

(** * Element types and states used in the examples *)

(** [int]: every operation copies the value and none can throw. *)
#[global] Instance IntElem : Elem Z := {|
  sizeof := 4;
  sizeof_is_size_t := eq_refl;
  value_init := 0%Z;
  moved_from := λ x, x;
  may_throw := λ _, false;
  is_copy_constructible := true
|}.

(** A type like [std::string]: moving is [noexcept] and leaves the source
    empty; copying and constructing from arguments allocate and can throw. *)
#[global] Instance StrElem : Elem string := {|
  sizeof := 32;
  sizeof_is_size_t := eq_refl;
  value_init := EmptyString;
  moved_from := λ _, EmptyString;
  may_throw := λ k,
    match k with
    | ArgsCtor | CopyCtor | CopyAssign => true
    | ValueInit | MoveCtor | MoveAssign => false
    end;
  is_copy_constructible := true
|}.

(** A type whose move assignment can throw and whose other operations
    cannot; values are numbers and moving leaves the source as it is. *)
Definition MoveAssignThrows : Elem nat := {|
  sizeof := 8;
  sizeof_is_size_t := eq_refl;
  value_init := 0;
  moved_from := λ x, x;
  may_throw := λ k,
    match k with
    | MoveAssign => true
    | _ => false
    end;
  is_copy_constructible := true
|}.

(** The elements of the vector [this], slot by slot: what [operator[]]
    would find at the indices below [size_]. *)
Definition contents {T : Type} (w : World T) (this : nat) : option (list (slot T)) :=
  match vecs w !! this with
  | Some v =>
      match buffer_ (data_ v) with
      | Some l =>
          match heap w !! l with
          | Some blk => Some (take (size_ v) blk)
          | None => None
          end
      | None => Some []
      end
  | None => None
  end.

(** Object 0 is the [int] vector {1, 2} with capacity 2. *)
Definition w_12 : World Z :=
  mkWorld {[1%positive := [Live 1%Z; Live 2%Z]]}
          {[0 := mkVec (mkRaw (Some 1%positive) 2) 2]} [] [] [].

(** Object 0 is the empty [int] vector, without a block. *)
Definition w_empty : World Z :=
  mkWorld ∅ {[0 := mkVec (mkRaw None 0) 0]} [] [] [].

(** Object 0 is the [int] vector {1, 42, 2} with capacity 4. *)
Definition w_1_42_2 : World Z :=
  mkWorld {[1%positive := [Live 1%Z; Live 42%Z; Live 2%Z; Raw]]}
          {[0 := mkVec (mkRaw (Some 1%positive) 4) 3]} [] [] [].

(** Object 0 is the [int] vector {1, 2} with capacity 2, object 1 the [int]
    vector {7} with capacity 1. *)
Definition w_12_7 : World Z :=
  mkWorld {[1%positive := [Live 1%Z; Live 2%Z]; 2%positive := [Live 7%Z]]}
          {[0 := mkVec (mkRaw (Some 1%positive) 2) 2;
            1 := mkVec (mkRaw (Some 2%positive) 1) 1]} [] [] [].

(** Object 0 is the string vector {"a"} with capacity 1; the next call of a
    throwing operation of the element type throws. *)
Definition w_a_faulty : World string :=
  mkWorld {[1%positive := [Live "a"%string]]}
          {[0 := mkVec (mkRaw (Some 1%positive) 1) 1]} [] [true] [].

(** Object 0 is the string vector {"x", "y"} with capacity 2, object 1 the
    string vector {"z"} with capacity 1; the next call of a throwing
    operation of the element type throws. *)
Definition w_xy_z_faulty : World string :=
  mkWorld {[1%positive := [Live "x"%string; Live "y"%string];
            2%positive := [Live "z"%string]]}
          {[0 := mkVec (mkRaw (Some 1%positive) 2) 2;
            1 := mkVec (mkRaw (Some 2%positive) 1) 1]} [] [true] [].

(** Object 0 is the vector {1, 2, 3} with capacity 4; the next call of a
    throwing operation of the element type throws. *)
Definition w_123_faulty : World nat :=
  mkWorld {[1%positive := [Live 1; Live 2; Live 3; Raw]]}
          {[0 := mkVec (mkRaw (Some 1%positive) 4) 3]} [] [true] [].

(** Object 0 is the string vector {"a"} with capacity 1; no failure is
    scheduled. *)
Definition w_a : World string :=
  mkWorld {[1%positive := [Live "a"%string]]}
          {[0 := mkVec (mkRaw (Some 1%positive) 1) 1]} [] [] [].

(** Object 0 is the string vector {"a"} with capacity 1; the next call of
    [operator new] fails. *)
Definition w_a_nomem : World string :=
  mkWorld {[1%positive := [Live "a"%string]]}
          {[0 := mkVec (mkRaw (Some 1%positive) 1) 1]} [true] [] [].

(** A type whose copy constructor, copy assignment and value initialisation
    can throw and whose move constructor can throw as well, so that the
    container copies its elements when it reallocates; values are numbers. *)
Definition T3 : Type := nat.
Definition CopyOnly : Elem T3 := {|
  sizeof := 8;
  sizeof_is_size_t := eq_refl;
  value_init := 0;
  moved_from := λ _, 0;
  may_throw := λ k,
    match k with
    | CopyCtor | CopyAssign | MoveCtor | ValueInit => true
    | ArgsCtor | MoveAssign => false
    end;
  is_copy_constructible := true
|}.

(** Object 0 is the vector {1, 2, 3} of such elements with capacity 3; the
    second call of a throwing operation of the element type throws. *)
Definition w_copy_faulty : World T3 :=
  mkWorld {[1%positive := [Live 1; Live 2; Live 3]]}
          {[0 := mkVec (mkRaw (Some 1%positive) 3) 3]} [] [false; true] [].

(** The same vector; the fourth call of a throwing operation of the element
    type throws. *)
Definition w_copy_resize : World T3 :=
  mkWorld {[1%positive := [Live 1; Live 2; Live 3]]}
          {[0 := mkVec (mkRaw (Some 1%positive) 3) 3]} [] [false; false; false; true] [].

(** * Specification vocabulary *)

Section Vocabulary.
Context {T : Type} `{ET : Elem T}.
Implicit Types (w : World T) (h : gmap positive (list (slot T))) (vs : gmap nat Vector)
               (b : list (slot T)) (buf : option positive).

(** No failure is scheduled. *)
Definition clean w : Prop := new_faults w = [] ∧ elem_faults w = [].

(** [spec m w Q]: when [m] returns from [w], the result satisfies [Q]; and
    [m] does return from [w] unless a failure is scheduled. *)
Definition spec {A} (m : M T A) w (Q : A → World T → Prop) : Prop :=
  match m w with
  | Ok a w' => Q a w' ∧ (clean w → clean w')
  | Throw _ | Undefined => ¬ clean w
  end.

(** [yields m w a h v]: [m] returns [a] and leaves heap [h] and objects [v]. *)
Definition yields {A} (m : M T A) w (a : A) h v : Prop :=
  spec m w (λ a' w', a' = a ∧ heap w' = h ∧ vecs w' = v).

(** The block [buf] points to has the slots [b]; a null pointer has none. *)
Definition block_rep h buf b : Prop :=
  match buf with
  | Some l => h !! l = Some b
  | None => b = []
  end.

(** The heap with the slots of [buf]'s block replaced. *)
Definition upd h buf b : gmap positive (list (slot T)) :=
  match buf with
  | Some l => <[l := b]> h
  | None => h
  end.

(** Two buffer pointers that do not designate the same block. *)
Definition apart (buf1 buf2 : option positive) : Prop :=
  ∀ l, buf1 = Some l → buf2 ≠ Some l.

(** The value left in the slot that a left shift vacates last. *)
Definition left_hole (h0 : T) (xs : list T) : T :=
  fold_left (λ _ x, moved_from x) xs h0.

(** The value left in the slot that a right shift vacates last. *)
Definition right_hole (h0 : T) (xs : list T) : T :=
  match xs with
  | [] => h0
  | x :: _ => moved_from x
  end.

(** What [Allocate] returns for [n] elements from heap [h]. *)
Definition new_buf h (n : nat) : option positive :=
  if decide (n ≠ 0) then Some (fresh (dom h)) else None.

(** The heap with [buf]'s block released. *)
Definition del h buf : gmap positive (list (slot T)) :=
  match buf with
  | Some l => delete l h
  | None => h
  end.

(** From heap [h] and objects [vs], [m] returns [a] and leaves [h'], [vs']. *)
Definition runs {A} h vs (m : M T A) (a : A) h' vs' : Prop :=
  ∀ w, heap w = h → vecs w = vs → yields m w a h' vs'.

(** From heap [h] and objects [vs], what [m] returns and leaves satisfies [Q]. *)
Definition triple {A} h vs (m : M T A)
    (Q : A → gmap positive (list (slot T)) → gmap nat Vector → Prop) : Prop :=
  ∀ w, heap w = h → vecs w = vs → spec m w (λ a w', Q a (heap w') (vecs w')).

(** What a transferred-from element is left as: moved-from when the
    transfer moves, unchanged when it copies. *)
Definition transferred (x : T) : T :=
  if is_nothrow_move_constructible T || negb is_copy_constructible
  then moved_from x else x.

(** The object [this] is a vector with elements [xs], capacity [cap] and
    buffer [buf]: the first [length xs] slots of its block are alive and
    hold [xs], the remaining slots are raw. *)
Definition vec_rep_mem h vs (this : nat) xs (cap : nat) buf : Prop :=
  vs !! this = Some (mkVec (mkRaw buf cap) (length xs)) ∧
  block_rep h buf (map Live xs ++ replicate (cap - length xs) Raw) ∧
  length xs ≤ cap ∧
  (N.of_nat cap ≤ max_alloc T)%N.

Definition vec_rep w (this : nat) xs (cap : nat) buf : Prop :=
  vec_rep_mem (heap w) (vecs w) this xs cap buf.

(** The capacity the growing operations ask for. *)
Definition grown (size : nat) : nat := if decide (size = 0) then 1 else size * 2.

(** The state an operation ends in, when it ends. *)
Definition final {A} (o : outcome T A) : option (World T) :=
  match o with
  | Ok _ w' | Throw w' => Some w'
  | Undefined => None
  end.

(** [m] only appends to the trace. *)
Definition extends {A} (m : M T A) : Prop :=
  ∀ w w', final (m w) = Some w' → trace w `prefix_of` trace w'.

(** [operator new] fails for a request of [n] elements: the request cannot
    be satisfied at all, or a [bad_alloc] is scheduled for the next call. *)
Definition alloc_fails w (n : nat) : Prop :=
  ¬ (N.of_nat n ≤ max_alloc T)%N ∨ head (new_faults w) = Some true.

(** The next call of operation [k] of the element type throws. *)
Definition op_fails w (k : elem_op) : Prop :=
  may_throw k = true ∧ head (elem_faults w) = Some true.

(** The object the operand [value] refers to is alive in heap [h]. *)
Definition operand_alive h (value : operand T) : Prop :=
  match value with
  | Outside _ => True
  | Element p =>
      ∃ l b x, p_base p = Some l ∧ h !! l = Some b ∧ b !! p_off p = Some (Live x)
  end.

(** The elements of a vector after a [PushBack] that returns, [k] being the
    constructor that the overload uses for the new element; [xs], [cap] and
    [buf] are the elements, the capacity and the block before the call.  An
    object outside the heap is appended as it is.  An element of the vector
    itself is appended as it is when there is room, and a move leaves that
    element moved-from; on a full vector it is read after the transfer, so
    what is appended is what the transfer has left in its place.  Other
    operands are not described. *)
Definition pushed (k : elem_op) (value : operand T) (xs : list T) (cap : nat) buf
    : option (list T) :=
  match value with
  | Outside x => Some (xs ++ [x])
  | Element p =>
      if decide (p_base p = buf) then
        match xs !! p_off p with
        | Some x =>
            Some (if decide (length xs < cap)
                  then (if decide (k = MoveCtor)
                        then <[p_off p := moved_from x]> xs else xs) ++ [x]
                  else xs ++ [transferred x])
        | None => None
        end
      else None
  end.

(** The insertions that grow a full vector, with their arguments; positions
    are element offsets from [begin()].  The object inserted is one of the
    caller, outside the heap: [PushBack] is called with [Outside value]. *)
Inductive insertion : Type :=
  | ByPushBackCopy (value : T)
  | ByPushBackMove (value : T)
  | ByEmplaceBack (k : elem_op) (x : T)
  | ByEmplace (p : nat) (k : elem_op) (x : T)
  | ByInsertCopy (p : nat) (value : T)
  | ByInsertMove (p : nat) (value : T).

Definition run_insertion (this : nat) (op : insertion) : M T unit :=
  match op with
  | ByPushBackCopy value => PushBack_copy this (Outside value)
  | ByPushBackMove value => PushBack_move this (Outside value)
  | ByEmplaceBack k x => EmplaceBack this k x;; ret tt
  | ByEmplace p k x => b ← begin_ this; Emplace this (b +ₚ p) k x;; ret tt
  | ByInsertCopy p value => b ← begin_ this; Insert_copy this (b +ₚ p) value;; ret tt
  | ByInsertMove p value => b ← begin_ this; Insert_move this (b +ₚ p) value;; ret tt
  end.

(** The position an insertion names, when it names one. *)
Definition insertion_offset (op : insertion) : option nat :=
  match op with
  | ByEmplace p _ _ | ByInsertCopy p _ | ByInsertMove p _ => Some p
  | _ => None
  end.

(** The operations that change one vector, with their arguments; positions
    are element offsets from [begin()]. *)
Inductive operation : Type :=
  | DoInsert (op : insertion)
  | DoReserve (new_capacity : nat)
  | DoResize (new_size : nat)
  | DoPopBack
  | DoErase (i : nat).

Definition run_operation (this : nat) (op : operation) : M T unit :=
  match op with
  | DoInsert op => run_insertion this op
  | DoReserve new_capacity => Reserve this new_capacity
  | DoResize new_size => Resize this new_size
  | DoPopBack => PopBack this
  | DoErase i => b ← begin_ this; Erase this (b +ₚ i);; ret tt
  end.

(** The block a [Reserve] or [Resize] names has a byte count below the
    wrap-around of [size_t]. *)
Definition request_fits (op : operation) : Prop :=
  match op with
  | DoReserve n | DoResize n => fits_size_t T n
  | _ => True
  end.

(** The positions an operation names are inside a vector of [size]
    elements. *)
Definition positions_valid (size : nat) (op : operation) : Prop :=
  match op with
  | DoInsert op => ∀ p, insertion_offset op = Some p → p ≤ size
  | DoErase i => i < size
  | _ => True
  end.

(** The object [this] is a vector in a consistent state. *)
Definition represented w (this : nat) : Prop :=
  ∃ xs cap buf, vec_rep w this xs cap buf.

(** From [w] to [w'] nothing has changed outside the vector [this] and its
    block [buf]: every other object is as it was, and so is every block that
    existed other than [buf]'s. *)
Definition untouched_outside w w' (this : nat) buf : Prop :=
  (∀ o, o ≠ this → vecs w' !! o = vecs w !! o) ∧
  (∀ l b, buf ≠ Some l → heap w !! l = Some b → heap w' !! l = Some b).

(** The block a vector has after an operation is the one it had or one that
    did not exist before. *)
Definition same_or_new h buf buf' : Prop :=
  buf' = buf ∨ ∀ l, buf' = Some l → h !! l = None.

(** ** The operations as functions on the sequence of elements *)

Definition model_insertion (op : insertion) (xs : list T) : list T :=
  match op with
  | ByPushBackCopy value | ByPushBackMove value => xs ++ [value]
  | ByEmplaceBack _ x => xs ++ [x]
  | ByEmplace p _ x | ByInsertCopy p x | ByInsertMove p x => take p xs ++ x :: drop p xs
  end.

Definition model_operation (op : operation) (xs : list T) : list T :=
  match op with
  | DoInsert op => model_insertion op xs
  | DoReserve _ => xs
  | DoResize new_size => take new_size xs ++ replicate (new_size - length xs) value_init
  | DoPopBack => take (length xs - 1) xs
  | DoErase i => take i xs ++ drop (S i) xs
  end.

(** The capacity after an operation on a vector of [size] elements and
    capacity [cap]. *)
Definition model_capacity (op : operation) (size cap : nat) : nat :=
  match op with
  | DoInsert _ => if decide (size < cap) then cap else grown cap
  | DoReserve n | DoResize n => if decide (n ≤ cap) then cap else n
  | DoPopBack | DoErase _ => cap
  end.

(** Operations one after the other, in the code and on the sequence. *)
Fixpoint run_operations (this : nat) (ops : list operation) : M T unit :=
  match ops with
  | [] => ret tt
  | op :: ops' => run_operation this op;; run_operations this ops'
  end.

Definition model_operations (ops : list operation) (xs : list T) : list T :=
  fold_left (λ ys op, model_operation op ys) ops xs.

(** Every operation of [ops] names positions inside the sequence it is
    applied to. *)
Fixpoint positions_valid_all (ops : list operation) (xs : list T) : Prop :=
  match ops with
  | [] => True
  | op :: ops' =>
      positions_valid (length xs) op ∧ positions_valid_all ops' (model_operation op xs)
  end.

(** An operation can run to completion on a vector of [size] elements and
    capacity [cap]: its positions are valid, [PopBack] finds an element, and
    the block it asks for, if any, can be allocated. *)
Definition can_complete (op : operation) (size cap : nat) : Prop :=
  positions_valid size op ∧
  (op = DoPopBack → 0 < size) ∧
  (N.of_nat (model_capacity op size cap) ≤ max_alloc T)%N.

(** Each operation of [ops] can complete on the vector the operations
    before it leave. *)
Fixpoint can_complete_all (ops : list operation) (xs : list T) (cap : nat) : Prop :=
  match ops with
  | [] => True
  | op :: ops' =>
      can_complete op (length xs) cap ∧
      can_complete_all ops' (model_operation op xs) (model_capacity op (length xs) cap)
  end.

(** The capacity after the operations [ops], applied one after the other to
    a vector of elements [xs] and capacity [cap]. *)
Fixpoint model_capacities (ops : list operation) (xs : list T) (cap : nat) : nat :=
  match ops with
  | [] => cap
  | op :: ops' =>
      model_capacities ops' (model_operation op xs) (model_capacity op (length xs) cap)
  end.

(** An operation that does not need more capacity than the vector has: an
    insertion into a vector that is not full, a [Reserve] or [Resize] within
    the capacity, any [PopBack] or [Erase]. *)
Definition within_capacity (op : operation) (size cap : nat) : Prop :=
  match op with
  | DoInsert _ => size < cap
  | DoReserve n | DoResize n => n ≤ cap
  | DoPopBack | DoErase _ => True
  end.

Fixpoint within_capacity_all (ops : list operation) (xs : list T) (cap : nat) : Prop :=
  match ops with
  | [] => True
  | op :: ops' =>
      within_capacity op (length xs) cap ∧ within_capacity_all ops' (model_operation op xs) cap
  end.

(** ** What is done to the elements *)

(** Every event that [m] adds to the trace satisfies [P], however [m]
    ends. *)
Definition emits {A} (P : event → Prop) (m : M T A) : Prop :=
  ∀ w w', final (m w) = Some w' → ∃ evs, trace w' = trace w ++ evs ∧ Forall P evs.

(** An element is copied: constructed by the copy constructor or assigned to
    by the copy assignment. *)
Definition is_copy (e : event) : Prop :=
  match e with
  | EvCtor CopyCtor _ | EvAssign CopyAssign _ | EvLocalCtor CopyCtor => True
  | _ => False
  end.

(** An element is constructed by the move constructor. *)
Definition is_move_construction (e : event) : Prop :=
  match e with
  | EvCtor MoveCtor _ | EvLocalCtor MoveCtor => True
  | _ => False
  end.

(** The constructor an insertion builds the new element with. *)
Definition insertion_ctor (op : insertion) : elem_op :=
  match op with
  | ByPushBackCopy _ | ByInsertCopy _ _ => CopyCtor
  | ByPushBackMove _ | ByInsertMove _ _ => MoveCtor
  | ByEmplaceBack k _ | ByEmplace _ k _ => k
  end.

(** The constructor that transfers the elements into a new block. *)
Definition transfer_ctor : elem_op :=
  if is_nothrow_move_constructible T || negb is_copy_constructible
  then MoveCtor else CopyCtor.

(** ** Code that stays away from another vector *)

(** The vector [other] is the object [vo] with the slots [bo] in its block,
    and the vector [this], if it exists, has a different block. *)
Definition beside (this other : nat) (vo : Vector) b w : Prop :=
  vecs w !! other = Some vo ∧
  block_rep (heap w) (buffer_ (data_ vo)) b ∧
  ∀ v, vecs w !! this = Some v → apart (buffer_ (data_ vo)) (buffer_ (data_ v)).

(** [m], when it returns from a state that satisfies [I], leaves a state
    that satisfies [I] and returns a value that satisfies [Φ]. *)
Definition keeps {A} (I : World T → Prop) (m : M T A) (Φ : A → Prop) : Prop :=
  ∀ w a w', I w → m w = Ok a w' → I w' ∧ Φ a.

(** ** Runs under arbitrary fault schedules *)

(** The state [w] with other fault schedules. *)
Definition with_faults (nf ef : list bool) w : World T :=
  mkWorld (heap w) (vecs w) nf ef (trace w).

Definition retarget {A} (nf ef : list bool) (o : outcome T A) : outcome T A :=
  match o with
  | Ok a w' => Ok a (with_faults nf ef w')
  | Throw w' => Throw (with_faults nf ef w')
  | Undefined => Undefined
  end.

(** [m] neither consults nor changes the fault schedules: it calls neither
    [operator new] nor an operation of the element type that can throw. *)
Definition oblivious {A} (m : M T A) : Prop :=
  ∀ w nf ef, m (with_faults nf ef w) = retarget nf ef (m w).

(** From heap [h] and objects [vs], under every fault schedule: [m] has no
    undefined behaviour, what it returns and leaves satisfies [Q], and what
    it leaves when it throws satisfies [E]. *)
Definition total {A} h vs (m : M T A)
    (Q : A → gmap positive (list (slot T)) → gmap nat Vector → Prop)
    (E : gmap positive (list (slot T)) → gmap nat Vector → Prop) : Prop :=
  ∀ w, heap w = h → vecs w = vs →
    match m w with
    | Ok a w' => Q a (heap w') (vecs w')
    | Throw w' => E (heap w') (vecs w')
    | Undefined => False
    end.

(** Postconditions: exactly this result and memory; this memory; never. *)
Definition exactly {A} (a : A) h vs : A → gmap positive (list (slot T)) → gmap nat Vector → Prop :=
  λ a' h' vs', a' = a ∧ h' = h ∧ vs' = vs.
Definition left_as h vs : gmap positive (list (slot T)) → gmap nat Vector → Prop :=
  λ h' vs', h' = h ∧ vs' = vs.
Definition never : gmap positive (list (slot T)) → gmap nat Vector → Prop :=
  λ _ _, False.

End Vocabulary.

(** * Reasoning about the embedding *)

(** ** Arithmetic on [size_t] below the wrap-around *)

Lemma to_size_t_small (z : Z) : (0 ≤ z < 2 ^ 64)%Z → to_size_t z = Z.to_nat z.
Proof. intros Hz. unfold to_size_t, size_t_bits. by rewrite Z.mod_small. Qed.

Lemma size_add_small (a b : nat) :
  (Z.of_nat a + Z.of_nat b < 2 ^ 64)%Z → size_add a b = a + b.
Proof. intros Hb. unfold size_add. rewrite to_size_t_small; lia. Qed.

Lemma size_sub_small (a b : nat) :
  b ≤ a → (Z.of_nat a < 2 ^ 64)%Z → size_sub a b = a - b.
Proof. intros Hle Hb. unfold size_sub. rewrite to_size_t_small; lia. Qed.

Lemma size_mul_small (a b : nat) :
  (Z.of_nat a * Z.of_nat b < 2 ^ 64)%Z → size_mul a b = a * b.
Proof. intros Hb. unfold size_mul. rewrite to_size_t_small; lia. Qed.

Lemma to_size_t_of_nat (n : nat) : (Z.of_nat n < 2 ^ 64)%Z → to_size_t (Z.of_nat n) = n.
Proof. intros Hb. rewrite to_size_t_small; lia. Qed.

(** ** The size of a block in elements and in bytes *)

Section AllocationSizes.
Context {T : Type} `{ET : Elem T}.

Lemma sizeof_bound : (Z.pos sizeof < 2 ^ 64)%Z.
Proof. pose proof sizeof_is_size_t as H. unfold size_t_bits in H. lia. Qed.

Lemma max_alloc_spec (n : nat) :
  (N.of_nat n ≤ max_alloc T)%N ↔ (Z.of_nat n * Z.pos sizeof ≤ 2 ^ 63 - 1)%Z.
Proof.
  unfold max_alloc, max_bytes.
  pose proof (N.Div0.mul_div_le (2 ^ 63 - 1) (N.pos sizeof)) as Hle.
  pose proof (N.mul_succ_div_gt (2 ^ 63 - 1) (N.pos sizeof) ltac:(done)) as Hgt.
  set (q := ((2 ^ 63 - 1) / N.pos sizeof)%N) in *.
  assert (((2 : N) ^ 63 - 1)%N = Z.to_N (2 ^ 63 - 1)) as HM by reflexivity.
  rewrite HM in Hle, Hgt. split; intros Hn; nia.
Qed.

Lemma max_alloc_bound (n : nat) : (N.of_nat n ≤ max_alloc T)%N → (Z.of_nat n < 2 ^ 63)%Z.
Proof. rewrite max_alloc_spec. nia. Qed.

(** A count that can be allocated has a byte count below the wrap-around,
    and so has twice that count. *)
Lemma max_alloc_fits (n : nat) : (N.of_nat n ≤ max_alloc T)%N → fits_size_t T n.
Proof. rewrite max_alloc_spec. unfold fits_size_t, size_t_bits. lia. Qed.

Lemma grown_fits (cap : nat) : (N.of_nat cap ≤ max_alloc T)%N → fits_size_t T (grown cap).
Proof.
  rewrite max_alloc_spec. pose proof sizeof_bound.
  unfold fits_size_t, size_t_bits, grown. case_decide; [subst; lia|nia].
Qed.

Lemma fits_size_t_le (n m : nat) : n ≤ m → fits_size_t T m → fits_size_t T n.
Proof. unfold fits_size_t. nia. Qed.

(** Below the wrap-around the block has room for the elements asked for,
    and the request can be satisfied exactly when the count is at most
    [max_alloc]. *)
Lemma size_mul_sizeof (n : nat) :
  fits_size_t T n → size_mul n (Pos.to_nat sizeof) = n * Pos.to_nat sizeof.
Proof. intros Hn. apply size_mul_small. unfold fits_size_t, size_t_bits in Hn. lia. Qed.

Lemma block_slots (n : nat) :
  fits_size_t T n → size_mul n (Pos.to_nat sizeof) / Pos.to_nat sizeof = n.
Proof. intros Hn. rewrite size_mul_sizeof by done. apply Nat.div_mul. lia. Qed.

Lemma block_bytes (n : nat) :
  fits_size_t T n →
  (N.of_nat (size_mul n (Pos.to_nat sizeof)) ≤ max_bytes)%N ↔ (N.of_nat n ≤ max_alloc T)%N.
Proof.
  intros Hn. rewrite size_mul_sizeof by done. rewrite max_alloc_spec.
  unfold max_bytes. lia.
Qed.

(** Above it the block is too small for them. *)
Lemma block_slots_wrapped (n : nat) :
  ¬ fits_size_t T n → size_mul n (Pos.to_nat sizeof) / Pos.to_nat sizeof < n.
Proof.
  intros Hn. unfold fits_size_t, size_t_bits in Hn.
  unfold size_mul, to_size_t, size_t_bits.
  set (s := Pos.to_nat sizeof). assert (0 < s) as Hs by (unfold s; lia).
  assert (Z.of_nat s = Z.pos sizeof) as Hsz by (unfold s; lia).
  pose proof (Z.mod_pos_bound (Z.of_nat n * Z.of_nat s) (2 ^ 64) ltac:(lia)) as Hm.
  apply Nat.Div0.div_lt_upper_bound. nia.
Qed.

End AllocationSizes.

(** ** A program logic for runs without undefined behaviour *)

Section Logic.
Context {T : Type} `{ET : Elem T}.
Implicit Types (w : World T) (h : gmap positive (list (slot T))) (v : gmap nat Vector).

Lemma spec_Ok {A} (m : M T A) w Q a w' : spec m w Q → m w = Ok a w' → Q a w'.
Proof. unfold spec. intros Hs Hm. rewrite Hm in Hs. tauto. Qed.

Lemma spec_returns {A} (m : M T A) w Q :
  spec m w Q → clean w → ∃ a w', m w = Ok a w' ∧ Q a w'.
Proof.
  unfold spec. intros Hs Hc. destruct (m w) as [a w'| |]; [|done..].
  exists a, w'. tauto.
Qed.

Lemma spec_mono {A} (m : M T A) w (Q Q' : A → World T → Prop) :
  spec m w Q → (∀ a w', Q a w' → Q' a w') → spec m w Q'.
Proof.
  unfold spec. intros Hs HQ. destruct (m w) as [a w'| |]; [|done..].
  split; [apply HQ|]; tauto.
Qed.

Lemma spec_ret {A} (a : A) w (Q : A → World T → Prop) : Q a w → spec (ret a) w Q.
Proof. unfold spec, ret. tauto. Qed.

Lemma spec_bind {A B} (m : M T A) (f : A → M T B) w Q1 Q :
  spec m w Q1 → (∀ a w1, Q1 a w1 → spec (f a) w1 Q) → spec (bind m f) w Q.
Proof.
  unfold spec, bind. intros Hm Hf. destruct (m w) as [a w1| |]; [|done..].
  destruct Hm as [HQ Hc]. specialize (Hf a w1 HQ).
  destruct (f a w1) as [b w2| |]; [|tauto..].
  split; [tauto|]. intros Hw. apply Hf, Hc, Hw.
Qed.

Lemma yields_bind {A B} (m : M T A) (f : A → M T B) w a h v Q :
  yields m w a h v →
  (∀ w1, heap w1 = h → vecs w1 = v → spec (f a) w1 Q) →
  spec (bind m f) w Q.
Proof.
  intros Hm Hf. eapply spec_bind; [exact Hm|].
  intros a' w1 (-> & Hh & Hv). by apply Hf.
Qed.

Lemma spec_unwinding {A} (m : M T A) c w Q : spec m w Q → spec (unwinding m c) w Q.
Proof.
  unfold spec, unwinding. destruct (m w) as [a w1|w1|]; [done| |done].
  intros Hn. by destruct (c w1).
Qed.

Lemma yields_ret {A} (a : A) w : yields (ret a) w a (heap w) (vecs w).
Proof. by apply spec_ret. Qed.

Lemma yields_eq {A} (m : M T A) w a h v h' v' :
  yields m w a h v → h = h' → v = v' → yields m w a h' v'.
Proof. by intros ? <- <-. Qed.

(** *** Primitive operations *)

Lemma yields_log e w : yields (log e) w tt (heap w) (vecs w).
Proof. unfold yields, spec, log. simpl. tauto. Qed.

Lemma yields_may_fail k w : yields (may_fail k) w tt (heap w) (vecs w).
Proof.
  unfold yields, spec, may_fail, clean.
  destruct (may_throw k); [|simpl; tauto].
  destruct (elem_faults w) as [|[] fs] eqn:E; simpl.
  - tauto.
  - intros [_ ?]. discriminate.
  - split; [done|]. intros [_ ?]. discriminate.
Qed.

Lemma yields_read_slot w l b i s :
  heap w !! l = Some b → b !! i = Some s →
  yields (read_slot (Ptr (Some l) i)) w s (heap w) (vecs w).
Proof.
  intros Hl Hi. unfold yields, spec, read_slot. simpl. rewrite Hl, Hi. tauto.
Qed.

Lemma yields_load w l b i x :
  heap w !! l = Some b → b !! i = Some (Live x) →
  yields (load (Ptr (Some l) i)) w x (heap w) (vecs w).
Proof.
  intros Hl Hi. unfold load. eapply yields_bind; [by eapply yields_read_slot|].
  intros w1 <- <-. apply yields_ret.
Qed.

Lemma yields_write_slot w l b i s :
  heap w !! l = Some b → i < length b →
  yields (write_slot (Ptr (Some l) i) s) w tt (<[l := <[i := s]> b]> (heap w)) (vecs w).
Proof.
  intros Hl Hi. unfold yields, spec, write_slot. simpl. rewrite Hl.
  rewrite decide_True by done. simpl. tauto.
Qed.

End Logic.

(** ** Blocks seen through a possibly null buffer pointer *)

Section Blocks.
Context {T : Type}.
Implicit Types (h : gmap positive (list (slot T))) (b : list (slot T))
               (buf : option positive).

Lemma apart_sym buf1 buf2 : apart buf1 buf2 → apart buf2 buf1.
Proof. unfold apart. intros Ha l -> E. by eapply Ha. Qed.

Lemma block_rep_upd h0 h buf b b' :
  block_rep h0 buf b → length b' = length b → block_rep (upd h buf b') buf b'.
Proof.
  destruct buf as [l|]; simpl.
  - intros _ _. apply lookup_insert_eq.
  - intros -> Hl. by apply nil_length_inv.
Qed.

Lemma block_rep_upd_eq h0 h buf b b' b'' :
  block_rep h0 buf b → length b' = length b → b'' = b' →
  block_rep (upd h buf b') buf b''.
Proof. intros Hb Hl ->. by eapply block_rep_upd. Qed.

Lemma block_rep_upd_ne h buf1 buf2 b b' :
  apart buf1 buf2 → block_rep h buf1 b → block_rep (upd h buf2 b') buf1 b.
Proof.
  destruct buf1 as [l1|], buf2 as [l2|]; simpl; try done.
  intros Ha Hl. rewrite lookup_insert_ne; [done|].
  intros ->. by eapply Ha.
Qed.

Lemma block_rep_inj h buf b1 b2 : block_rep h buf b1 → block_rep h buf b2 → b1 = b2.
Proof. destruct buf; simpl; congruence. Qed.

Lemma upd_upd h buf b1 b2 : upd (upd h buf b1) buf b2 = upd h buf b2.
Proof. destruct buf; simpl; [apply insert_insert_eq|done]. Qed.

Lemma upd_id h buf b : block_rep h buf b → upd h buf b = h.
Proof. destruct buf; simpl; [apply insert_id|done]. Qed.

Lemma upd_comm h buf1 buf2 b1 b2 :
  apart buf1 buf2 → upd (upd h buf1 b1) buf2 b2 = upd (upd h buf2 b2) buf1 b1.
Proof.
  destruct buf1 as [l1|], buf2 as [l2|]; simpl; try done.
  intros Ha. apply insert_insert_ne. intros ->. by eapply Ha.
Qed.

Lemma upd_upd_ne h buf1 buf2 b1 b2 b1' :
  apart buf1 buf2 →
  upd (upd (upd h buf1 b1) buf2 b2) buf1 b1' = upd (upd h buf1 b1') buf2 b2.
Proof.
  intros Ha. rewrite (upd_comm _ buf2 buf1) by by apply apart_sym.
  by rewrite upd_upd.
Qed.

Lemma block_rep_nonempty h buf b : block_rep h buf b → b ≠ [] → ∃ l, buf = Some l.
Proof. destruct buf; simpl; [eauto|done]. Qed.

(** Lists with a distinguished middle slot. *)
Lemma insert_middle (pre post : list (slot T)) s0 s i :
  i = length pre → <[i := s]> (pre ++ s0 :: post) = pre ++ s :: post.
Proof.
  intros ->. rewrite insert_app_r_alt by done. by rewrite Nat.sub_diag.
Qed.

Lemma lookup_middle (pre post : list (slot T)) s i :
  i = length pre → (pre ++ s :: post) !! i = Some s.
Proof. intros ->. by apply list_lookup_middle. Qed.

Lemma length_middle (pre post : list (slot T)) s i :
  i = length pre → i < length (pre ++ s :: post).
Proof. intros ->. rewrite length_app. simpl. lia. Qed.

End Blocks.

(** ** Element operations on blocks *)

Section ElementSpecs.
Context {T : Type} `{ET : Elem T}.
Implicit Types (w : World T) (b : list (slot T)) (buf : option positive).

Lemma yields_read w buf b i s :
  block_rep (heap w) buf b → b !! i = Some s →
  yields (read_slot (Ptr buf i)) w s (heap w) (vecs w).
Proof.
  destruct buf as [l|]; simpl.
  - apply yields_read_slot.
  - by intros ->.
Qed.

Lemma yields_load_at w buf b i x :
  block_rep (heap w) buf b → b !! i = Some (Live x) →
  yields (load (Ptr buf i)) w x (heap w) (vecs w).
Proof.
  destruct buf as [l|]; simpl.
  - apply yields_load.
  - by intros ->.
Qed.

Lemma yields_write w buf b i s :
  block_rep (heap w) buf b → i < length b →
  yields (write_slot (Ptr buf i) s) w tt (upd (heap w) buf (<[i := s]> b)) (vecs w).
Proof.
  destruct buf as [l|]; simpl.
  - apply yields_write_slot.
  - intros -> Hi. simpl in Hi. lia.
Qed.

Lemma yields_construct_at w buf b i k x :
  block_rep (heap w) buf b → i < length b →
  yields (construct_at (Ptr buf i) k x) w tt
         (upd (heap w) buf (<[i := Live x]> b)) (vecs w).
Proof.
  intros Hb Hi. unfold construct_at.
  destruct (lookup_lt_is_Some_2 b i Hi) as [s Hs].
  eapply yields_bind; [by eapply yields_read|]. intros w1 Hh1 Hv1.
  eapply yields_bind; [apply yields_may_fail|]. intros w2 Hh2 Hv2.
  eapply yields_bind; [eapply yields_write; [rewrite Hh2, Hh1; exact Hb|done]|].
  intros w3 Hh3 Hv3.
  eapply yields_eq; [apply yields_log|congruence..].
Qed.

Lemma yields_assign_at w buf b i k x y :
  block_rep (heap w) buf b → b !! i = Some (Live y) →
  yields (assign_at (Ptr buf i) k x) w tt
         (upd (heap w) buf (<[i := Live x]> b)) (vecs w).
Proof.
  intros Hb Hi. unfold assign_at.
  eapply yields_bind; [by eapply yields_load_at|]. intros w1 Hh1 Hv1.
  eapply yields_bind; [apply yields_may_fail|]. intros w2 Hh2 Hv2.
  eapply yields_bind;
    [eapply yields_write; [rewrite Hh2, Hh1; exact Hb|by eapply lookup_lt_Some]|].
  intros w3 Hh3 Hv3.
  eapply yields_eq; [apply yields_log|congruence..].
Qed.

Lemma yields_destroy_at w buf b i x :
  block_rep (heap w) buf b → b !! i = Some (Live x) →
  yields (destroy_at (Ptr buf i)) w tt (upd (heap w) buf (<[i := Raw]> b)) (vecs w).
Proof.
  intros Hb Hi. unfold destroy_at.
  eapply yields_bind; [by eapply yields_load_at|]. intros w1 Hh1 Hv1.
  eapply yields_bind;
    [eapply yields_write; [rewrite Hh1; exact Hb|by eapply lookup_lt_Some]|].
  intros w2 Hh2 Hv2.
  eapply yields_eq; [apply yields_log|congruence..].
Qed.

(** Copy construction from another block. *)
Lemma yields_copy_construct w bufd bufs bd bs i j x :
  block_rep (heap w) bufs bs → bs !! j = Some (Live x) →
  block_rep (heap w) bufd bd → i < length bd →
  yields (copy_construct (Ptr bufd i) (Ptr bufs j)) w tt
         (upd (heap w) bufd (<[i := Live x]> bd)) (vecs w).
Proof.
  intros Hs Hj Hd Hi. unfold copy_construct.
  eapply yields_bind; [by eapply yields_load_at|]. intros w1 Hh1 Hv1.
  eapply yields_eq; [eapply yields_construct_at; [rewrite Hh1; exact Hd|done]|congruence..].
Qed.

(** Move construction from another block. *)
Lemma yields_move_construct w bufd bufs bd bs i j x :
  apart bufs bufd →
  block_rep (heap w) bufs bs → bs !! j = Some (Live x) →
  block_rep (heap w) bufd bd → i < length bd →
  yields (move_construct (Ptr bufd i) (Ptr bufs j)) w tt
         (upd (upd (heap w) bufd (<[i := Live x]> bd)) bufs (<[j := Live (moved_from x)]> bs))
         (vecs w).
Proof.
  intros Ha Hs Hj Hd Hi. unfold move_construct.
  eapply yields_bind; [by eapply yields_load_at|]. intros w1 Hh1 Hv1.
  eapply yields_bind; [eapply yields_construct_at; [rewrite Hh1; exact Hd|done]|].
  intros w2 Hh2 Hv2.
  eapply yields_eq;
    [eapply yields_write;
     [rewrite Hh2, Hh1; by apply block_rep_upd_ne|by eapply lookup_lt_Some]
    |congruence..].
Qed.

(** Move construction inside one block. *)
Lemma yields_move_construct_within w buf b i j x :
  i ≠ j →
  block_rep (heap w) buf b → b !! j = Some (Live x) → i < length b →
  yields (move_construct (Ptr buf i) (Ptr buf j)) w tt
         (upd (heap w) buf (<[j := Live (moved_from x)]> (<[i := Live x]> b)))
         (vecs w).
Proof.
  intros Hij Hb Hj Hi. unfold move_construct.
  eapply yields_bind; [by eapply yields_load_at|]. intros w1 Hh1 Hv1.
  eapply yields_bind; [eapply yields_construct_at; [rewrite Hh1; exact Hb|done]|].
  intros w2 Hh2 Hv2.
  eapply yields_eq;
    [eapply yields_write;
     [rewrite Hh2, Hh1; eapply block_rep_upd; [exact Hb|apply length_insert]
     |rewrite length_insert; by eapply lookup_lt_Some]
    |rewrite Hh2, Hh1; by rewrite upd_upd|congruence].
Qed.

(** Copy assignment from another block. *)
Lemma yields_copy_assign w bufd bufs bd bs i j x y :
  block_rep (heap w) bufs bs → bs !! j = Some (Live x) →
  block_rep (heap w) bufd bd → bd !! i = Some (Live y) →
  yields (copy_assign (Ptr bufd i) (Ptr bufs j)) w tt
         (upd (heap w) bufd (<[i := Live x]> bd)) (vecs w).
Proof.
  intros Hs Hj Hd Hi. unfold copy_assign.
  eapply yields_bind; [by eapply yields_load_at|]. intros w1 Hh1 Hv1.
  eapply yields_eq; [eapply yields_assign_at; [rewrite Hh1; exact Hd|done]|congruence..].
Qed.

(** Move assignment inside one block. *)
Lemma yields_move_assign_within w buf b i j x y :
  i ≠ j →
  block_rep (heap w) buf b → b !! j = Some (Live x) → b !! i = Some (Live y) →
  yields (move_assign (Ptr buf i) (Ptr buf j)) w tt
         (upd (heap w) buf (<[j := Live (moved_from x)]> (<[i := Live x]> b)))
         (vecs w).
Proof.
  intros Hij Hb Hj Hi. unfold move_assign.
  eapply yields_bind; [by eapply yields_load_at|]. intros w1 Hh1 Hv1.
  eapply yields_bind; [eapply yields_assign_at; [rewrite Hh1; exact Hb|done]|].
  intros w2 Hh2 Hv2.
  eapply yields_eq;
    [eapply yields_write;
     [rewrite Hh2, Hh1; eapply block_rep_upd; [exact Hb|apply length_insert]
     |rewrite length_insert; by eapply lookup_lt_Some]
    |rewrite Hh2, Hh1; by rewrite upd_upd|congruence].
Qed.

Lemma yields_ptr_diff w buf i j :
  yields (ptr_diff (Ptr buf i) (Ptr buf j)) w (Z.of_nat i - Z.of_nat j)%Z (heap w) (vecs w).
Proof. unfold ptr_diff. simpl. rewrite decide_True by done. apply yields_ret. Qed.

End ElementSpecs.

(** ** The loops of the standard algorithms *)

Section LoopSpecs.
Context {T : Type} `{ET : Elem T}.
Implicit Types (w : World T) (b pre post mid : list (slot T)) (xs ys : list T)
               (buf : option positive).

Lemma ptr_add_Ptr buf i n : Ptr buf i +ₚ n = Ptr buf (i + n).
Proof. done. Qed.

Lemma ptr_sub_Ptr buf i n : Ptr buf i -ₚ n = Ptr buf (i - n).
Proof. done. Qed.

Lemma yields_destroy_n w buf pre xs post i :
  block_rep (heap w) buf (pre ++ map Live xs ++ post) → i = length pre →
  yields (destroy_n (Ptr buf i) (length xs)) w tt
         (upd (heap w) buf (pre ++ replicate (length xs) Raw ++ post)) (vecs w).
Proof.
  revert w pre i. induction xs as [|x xs IH]; intros w pre i Hb Hi; simpl in *.
  - eapply yields_eq; [apply yields_ret| |done]. symmetry. by apply upd_id.
  - eapply yields_bind.
    { eapply yields_destroy_at; [exact Hb|]. by apply lookup_middle. }
    intros w1 Hh1 Hv1. rewrite (insert_middle _ _ _ _ _ Hi) in Hh1.
    rewrite ptr_add_Ptr.
    eapply yields_eq.
    + apply (IH w1 (pre ++ [Raw]) (i + 1)).
      * rewrite Hh1, <- app_assoc. simpl.
        eapply block_rep_upd; [exact Hb|]. rewrite !length_app. simpl. lia.
      * rewrite length_app. simpl. lia.
    + rewrite Hh1, upd_upd, <- app_assoc. done.
    + done.
Qed.

(** Transfer of a range into another block, where [step] constructs the
    destination from the source and leaves [σ x] in the source. *)
Lemma yields_uninitialized_transfer (step : ptr → ptr → M T unit) (σ : T → T)
    bufs bufd result :
  (∀ w bd bs i j x,
     block_rep (heap w) bufs bs → bs !! j = Some (Live x) →
     block_rep (heap w) bufd bd → i < length bd →
     yields (step (Ptr bufd i) (Ptr bufs j)) w tt
            (upd (upd (heap w) bufd (<[i := Live x]> bd)) bufs (<[j := Live (σ x)]> bs))
            (vecs w)) →
  apart bufs bufd →
  ∀ xs w pre_s post_s pre_d mid post_d i j,
  block_rep (heap w) bufs (pre_s ++ map Live xs ++ post_s) → j = length pre_s →
  block_rep (heap w) bufd (pre_d ++ mid ++ post_d) → i = length pre_d →
  length mid = length xs →
  yields (uninitialized_loop step (Ptr bufs j) result (Ptr bufd i) (length xs)) w tt
         (upd (upd (heap w) bufd (pre_d ++ map Live xs ++ post_d))
              bufs (pre_s ++ map (Live ∘ σ) xs ++ post_s))
         (vecs w).
Proof.
  intros Hstep Ha.
  induction xs as [|x xs IH];
    intros w pre_s post_s pre_d mid post_d i j Hs Hj Hd Hi Hlen; simpl in *.
  - destruct mid; [|done]. simpl in *.
    eapply yields_eq; [apply yields_ret| |done]. symmetry.
    rewrite (upd_id _ bufd) by done. by apply upd_id.
  - destruct mid as [|s0 mid]; [done|]. simpl in Hlen, Hd.
    eapply yields_bind.
    { apply spec_unwinding.
      eapply Hstep; [exact Hs|by apply lookup_middle|exact Hd|by apply length_middle]. }
    intros w1 Hh1 Hv1.
    rewrite (insert_middle _ _ _ _ _ Hi), (insert_middle _ _ _ _ _ Hj) in Hh1.
    rewrite !ptr_add_Ptr.
    eapply yields_eq.
    + apply (IH w1 (pre_s ++ [Live (σ x)]) post_s (pre_d ++ [Live x]) mid post_d).
      * rewrite Hh1, <- app_assoc. simpl.
        eapply block_rep_upd; [exact Hs|].
        rewrite !length_app. simpl.
        rewrite !length_app, !length_map. done.
      * rewrite length_app. simpl. lia.
      * rewrite Hh1, <- app_assoc. simpl.
        apply block_rep_upd_ne; [by apply apart_sym|].
        eapply block_rep_upd; [exact Hd|]. rewrite !length_app. simpl.
        rewrite !length_app. done.
      * rewrite length_app. simpl. lia.
      * lia.
    + rewrite Hh1, <- !app_assoc. simpl.
      rewrite upd_upd_ne by done.
      by rewrite upd_upd_ne by by apply apart_sym.
    + done.
Qed.

Lemma yields_uninitialized_move_n w bufs bufd xs pre_s post_s pre_d mid post_d i j :
  apart bufs bufd →
  block_rep (heap w) bufs (pre_s ++ map Live xs ++ post_s) → j = length pre_s →
  block_rep (heap w) bufd (pre_d ++ mid ++ post_d) → i = length pre_d →
  length mid = length xs →
  yields (uninitialized_move_n (Ptr bufs j) (length xs) (Ptr bufd i)) w tt
         (upd (upd (heap w) bufd (pre_d ++ map Live xs ++ post_d))
              bufs (pre_s ++ map (Live ∘ moved_from) xs ++ post_s))
         (vecs w).
Proof.
  intros Ha. unfold uninitialized_move_n.
  apply yields_uninitialized_transfer; [|done].
  intros. by apply yields_move_construct.
Qed.

Lemma yields_uninitialized_copy_n w bufs bufd xs pre_s post_s pre_d mid post_d i j :
  apart bufs bufd →
  block_rep (heap w) bufs (pre_s ++ map Live xs ++ post_s) → j = length pre_s →
  block_rep (heap w) bufd (pre_d ++ mid ++ post_d) → i = length pre_d →
  length mid = length xs →
  yields (uninitialized_copy_n (Ptr bufs j) (length xs) (Ptr bufd i)) w tt
         (upd (heap w) bufd (pre_d ++ map Live xs ++ post_d)) (vecs w).
Proof.
  intros Ha Hs Hj Hd Hi Hlen. unfold uninitialized_copy_n.
  eapply yields_eq.
  - eapply (yields_uninitialized_transfer copy_construct id bufs bufd);
      [|exact Ha|exact Hs|exact Hj|exact Hd|exact Hi|exact Hlen].
    intros w' bd bs i' j' x Hs' Hj' Hd' Hi'.
    eapply yields_eq; [by eapply yields_copy_construct| |done].
    symmetry. apply upd_id. unfold id. rewrite (list_insert_id bs) by done.
    by apply block_rep_upd_ne.
  - apply upd_id. by apply block_rep_upd_ne.
  - done.
Qed.

Lemma yields_uninitialized_value_construct_n w buf pre mid post i first result :
  block_rep (heap w) buf (pre ++ mid ++ post) → i = length pre →
  yields (uninitialized_loop (λ cur _, value_construct cur) first result (Ptr buf i)
                             (length mid)) w tt
         (upd (heap w) buf (pre ++ replicate (length mid) (Live value_init) ++ post))
         (vecs w).
Proof.
  revert w pre i first. induction mid as [|s0 mid IH]; intros w pre i first Hb Hi; simpl in *.
  - eapply yields_eq; [apply yields_ret| |done]. symmetry. by apply upd_id.
  - eapply yields_bind.
    { apply spec_unwinding. unfold value_construct.
      eapply yields_construct_at; [exact Hb|by apply length_middle]. }
    intros w1 Hh1 Hv1. rewrite (insert_middle _ _ _ _ _ Hi) in Hh1.
    rewrite ptr_add_Ptr.
    eapply yields_eq.
    + apply (IH w1 (pre ++ [Live value_init]) (i + 1)).
      * rewrite Hh1, <- app_assoc. simpl.
        eapply block_rep_upd; [exact Hb|]. rewrite !length_app. simpl. lia.
      * rewrite length_app. simpl. lia.
    + rewrite Hh1, upd_upd, <- app_assoc. done.
    + done.
Qed.

(** [std::copy] between two blocks. *)
Lemma yields_copy_forward w bufs bufd xs ys pre_s post_s pre_d post_d i j :
  apart bufs bufd →
  block_rep (heap w) bufs (pre_s ++ map Live xs ++ post_s) → j = length pre_s →
  block_rep (heap w) bufd (pre_d ++ map Live ys ++ post_d) → i = length pre_d →
  length ys = length xs →
  yields (assign_forward copy_assign (Ptr bufs j) (Ptr bufd i) (length xs)) w tt
         (upd (heap w) bufd (pre_d ++ map Live xs ++ post_d)) (vecs w).
Proof.
  intros Ha. revert w ys pre_s pre_d i j.
  induction xs as [|x xs IH]; intros w ys pre_s pre_d i j Hs Hj Hd Hi Hlen; simpl in *.
  - destruct ys; [|done]. simpl in *.
    eapply yields_eq; [apply yields_ret| |done]. symmetry. by apply upd_id.
  - destruct ys as [|y ys]; [done|]. simpl in Hlen, Hd.
    eapply yields_bind.
    { eapply yields_copy_assign;
        [exact Hs|by apply lookup_middle|exact Hd|by apply lookup_middle]. }
    intros w1 Hh1 Hv1. rewrite (insert_middle _ _ _ _ _ Hi) in Hh1.
    rewrite !ptr_add_Ptr.
    eapply yields_eq.
    + apply (IH w1 ys (pre_s ++ [Live x]) (pre_d ++ [Live x])).
      * rewrite Hh1, <- app_assoc. simpl. by apply block_rep_upd_ne.
      * rewrite length_app. simpl. lia.
      * rewrite Hh1, <- app_assoc. simpl.
        eapply block_rep_upd; [exact Hd|]. rewrite !length_app. simpl.
        rewrite !length_app, !length_map. lia.
      * rewrite length_app. simpl. lia.
      * lia.
    + rewrite Hh1, upd_upd, <- app_assoc. done.
    + done.
Qed.

End LoopSpecs.

(** ** Shifting a range inside one block *)

Section ShiftSpecs.
Context {T : Type} `{ET : Elem T}.
Implicit Types (w : World T) (b pre post : list (slot T)) (xs : list T)
               (buf : option positive).

Lemma right_hole_snoc h0 xs x : right_hole h0 (xs ++ [x]) = right_hole (moved_from x) xs.
Proof. by destruct xs. Qed.

Lemma insert_middle2 pre post (a c s : slot T) i :
  i = length pre → <[i + 1 := s]> (pre ++ a :: c :: post) = pre ++ a :: s :: post.
Proof.
  intros ->. rewrite (cons_middle a), app_assoc.
  rewrite (insert_middle (pre ++ [a]) post c s).
  - by rewrite <- app_assoc.
  - rewrite length_app. simpl. lia.
Qed.

Lemma lookup_middle2 pre post (a c : slot T) i :
  i = length pre → (pre ++ a :: c :: post) !! (i + 1) = Some c.
Proof.
  intros ->. rewrite (cons_middle a), app_assoc.
  apply lookup_middle. rewrite length_app. simpl. lia.
Qed.

(** The loop of [std::move(first, last, first - 1)]. *)
Lemma yields_move_left w buf xs pre h0 post i :
  block_rep (heap w) buf (pre ++ Live h0 :: map Live xs ++ post) → i = length pre →
  yields (assign_forward move_assign (Ptr buf (i + 1)) (Ptr buf i) (length xs)) w tt
         (upd (heap w) buf (pre ++ map Live xs ++ Live (left_hole h0 xs) :: post))
         (vecs w).
Proof.
  revert w pre h0 i. induction xs as [|x xs IH]; intros w pre h0 i Hb Hi; simpl in *.
  - eapply yields_eq; [apply yields_ret| |done]. symmetry. by apply upd_id.
  - eapply yields_bind.
    { eapply (yields_move_assign_within _ _ _ i (i + 1));
        [lia|exact Hb|by apply lookup_middle2|by apply lookup_middle]. }
    intros w1 Hh1 Hv1.
    rewrite (insert_middle _ _ _ _ _ Hi), (insert_middle2 _ _ _ _ _ _ Hi) in Hh1.
    rewrite !ptr_add_Ptr.
    eapply yields_eq.
    + apply (IH w1 (pre ++ [Live x]) (moved_from x) (i + 1)).
      * rewrite Hh1, <- app_assoc. simpl.
        eapply block_rep_upd; [exact Hb|]. rewrite !length_app. done.
      * rewrite length_app. simpl. lia.
    + rewrite Hh1, upd_upd, <- app_assoc. done.
    + done.
Qed.

(** The loop of [std::move_backward(first, last, last + 1)]. *)
Lemma yields_move_right w buf xs pre h0 post la da :
  block_rep (heap w) buf (pre ++ map Live xs ++ Live h0 :: post) →
  la = length pre + length xs → da = la + 1 →
  yields (move_backward_loop (Ptr buf la) (Ptr buf da) (length xs)) w tt
         (upd (heap w) buf (pre ++ Live (right_hole h0 xs) :: map Live xs ++ post))
         (vecs w).
Proof.
  revert w h0 post la da.
  induction xs as [|x xs IH] using rev_ind; intros w h0 post la da Hb Hla Hda.
  - simpl in *. eapply yields_eq; [apply yields_ret| |done]. symmetry. by apply upd_id.
  - rewrite length_app, Nat.add_1_r in *. simpl.
    rewrite map_app in Hb. simpl in Hb. rewrite <- app_assoc in Hb. simpl in Hb.
    rewrite !ptr_sub_Ptr.
    assert (Hi : la - 1 = length (pre ++ map Live xs)).
    { rewrite length_app, length_map. lia. }
    replace (da - 1) with (la - 1 + 1) by lia.
    rewrite app_assoc in Hb.
    eapply yields_bind.
    { eapply (yields_move_assign_within _ _ _ (la - 1 + 1) (la - 1));
        [lia|exact Hb|by apply lookup_middle|by apply lookup_middle2]. }
    intros w1 Hh1 Hv1.
    rewrite (insert_middle2 _ _ _ _ _ _ Hi), (insert_middle _ _ _ _ _ Hi) in Hh1.
    rewrite <- app_assoc in Hh1, Hb.
    eapply yields_eq.
    + apply (IH w1 (moved_from x) (Live x :: post) (la - 1) (la - 1 + 1)).
      * rewrite Hh1. eapply block_rep_upd; [exact Hb|].
        rewrite !length_app. simpl. done.
      * lia.
      * done.
    + rewrite Hh1, upd_upd, right_hole_snoc, map_app, <- app_assoc. done.
    + done.
Qed.

Lemma yields_std_move_left w buf xs pre h0 post i first last :
  block_rep (heap w) buf (pre ++ Live h0 :: map Live xs ++ post) → i = length pre →
  first = i + 1 → last = i + 1 + length xs →
  yields (std_move (Ptr buf first) (Ptr buf last) (Ptr buf i)) w tt
         (upd (heap w) buf (pre ++ map Live xs ++ Live (left_hole h0 xs) :: post))
         (vecs w).
Proof.
  intros Hb Hi -> ->. unfold std_move.
  eapply yields_bind; [apply yields_ptr_diff|]. intros w1 Hh1 Hv1.
  replace (Z.to_nat _) with (length xs) by lia.
  eapply yields_eq; [apply yields_move_left; [rewrite Hh1; exact Hb|done]|congruence..].
Qed.

Lemma yields_std_move_backward w buf xs pre h0 post first last d_last :
  block_rep (heap w) buf (pre ++ map Live xs ++ Live h0 :: post) →
  first = length pre → last = first + length xs → d_last = last + 1 →
  yields (std_move_backward (Ptr buf first) (Ptr buf last) (Ptr buf d_last)) w tt
         (upd (heap w) buf (pre ++ Live (right_hole h0 xs) :: map Live xs ++ post))
         (vecs w).
Proof.
  intros Hb -> -> ->. unfold std_move_backward.
  eapply yields_bind; [apply yields_ptr_diff|]. intros w1 Hh1 Hv1.
  replace (Z.to_nat _) with (length xs) by lia.
  eapply yields_eq;
    [apply yields_move_right; [rewrite Hh1; exact Hb|done..]|congruence..].
Qed.

Lemma yields_std_copy w bufs bufd xs ys pre_s post_s pre_d post_d i j last :
  apart bufs bufd →
  block_rep (heap w) bufs (pre_s ++ map Live xs ++ post_s) → j = length pre_s →
  block_rep (heap w) bufd (pre_d ++ map Live ys ++ post_d) → i = length pre_d →
  length ys = length xs → last = j + length xs →
  yields (std_copy (Ptr bufs j) (Ptr bufs last) (Ptr bufd i)) w tt
         (upd (heap w) bufd (pre_d ++ map Live xs ++ post_d)) (vecs w).
Proof.
  intros Ha Hs Hj Hd Hi Hlen ->. unfold std_copy.
  eapply yields_bind; [apply yields_ptr_diff|]. intros w1 Hh1 Hv1.
  replace (Z.to_nat _) with (length xs) by lia.
  eapply yields_eq;
    [eapply yields_copy_forward; [done|rewrite Hh1; exact Hs|done|rewrite Hh1; exact Hd|done..]
    |congruence..].
Qed.

Lemma yields_uninitialized_copy w bufs bufd xs pre_s post_s pre_d mid post_d i j last :
  apart bufs bufd →
  block_rep (heap w) bufs (pre_s ++ map Live xs ++ post_s) → j = length pre_s →
  block_rep (heap w) bufd (pre_d ++ mid ++ post_d) → i = length pre_d →
  length mid = length xs → last = j + length xs →
  yields (uninitialized_copy (Ptr bufs j) (Ptr bufs last) (Ptr bufd i)) w tt
         (upd (heap w) bufd (pre_d ++ map Live xs ++ post_d)) (vecs w).
Proof.
  intros Ha Hs Hj Hd Hi Hlen ->. unfold uninitialized_copy.
  eapply yields_bind; [apply yields_ptr_diff|]. intros w1 Hh1 Hv1.
  replace (Z.to_nat _) with (length xs) by lia.
  eapply yields_eq;
    [eapply yields_uninitialized_copy_n;
       [done|rewrite Hh1; exact Hs|done|rewrite Hh1; exact Hd|done..]
    |congruence..].
Qed.

End ShiftSpecs.

(** ** Allocation and object access *)

Section StorageSpecs.
Context {T : Type} `{ET : Elem T}.
Implicit Types (w : World T) (h : gmap positive (list (slot T))) (vs : gmap nat Vector)
               (b : list (slot T)) (buf : option positive).

Lemma fresh_unused h : h !! fresh (dom h) = None.
Proof. apply not_elem_of_dom, is_fresh. Qed.

Lemma new_buf_apart h n buf b : block_rep h buf b → apart buf (new_buf h n).
Proof.
  unfold new_buf. intros Hb l -> E. simpl in Hb.
  destruct (decide (n ≠ 0)); [|done]. injection E as <-.
  by rewrite fresh_unused in Hb.
Qed.

Lemma new_buf_block h n : block_rep (upd h (new_buf h n) (replicate n Raw))
                                    (new_buf h n) (replicate n Raw).
Proof.
  unfold new_buf. destruct (decide (n ≠ 0)) as [Hn|Hn]; simpl.
  - apply lookup_insert_eq.
  - by replace n with 0 by lia.
Qed.

Lemma block_rep_del_ne h buf1 buf2 b :
  apart buf1 buf2 → block_rep h buf1 b → block_rep (del h buf2) buf1 b.
Proof.
  destruct buf1 as [l1|], buf2 as [l2|]; simpl; try done.
  intros Ha Hl. rewrite lookup_delete_ne; [done|].
  intros ->. by eapply Ha.
Qed.

Lemma del_upd_new h n b : del (upd h (new_buf h n) b) (new_buf h n) = h.
Proof.
  unfold new_buf. destruct (decide (n ≠ 0)); simpl; [|done].
  rewrite delete_insert_eq. apply delete_id, fresh_unused.
Qed.

Lemma yields_operator_new w size :
  (N.of_nat size ≤ max_bytes)%N →
  yields (operator_new size) w (fresh (dom (heap w)))
         (<[fresh (dom (heap w)) := replicate (size / Pos.to_nat sizeof) Raw]> (heap w))
         (vecs w).
Proof.
  intros Hn. unfold yields, spec, operator_new, clean.
  rewrite decide_True by done.
  destruct (new_faults w) as [|[] fs] eqn:E; simpl.
  - tauto.
  - intros [? _]. discriminate.
  - split; [done|]. intros [? _]. discriminate.
Qed.

Lemma yields_RawMemory_ctor w n :
  (N.of_nat n ≤ max_alloc T)%N →
  yields (RawMemory_ctor n) w (mkRaw (new_buf (heap w) n) n)
         (upd (heap w) (new_buf (heap w) n) (replicate n Raw)) (vecs w).
Proof.
  intros Hn. pose proof (max_alloc_fits n Hn) as Hfit.
  unfold RawMemory_ctor, Allocate, new_buf.
  destruct (decide (n ≠ 0)); simpl.
  - eapply yields_bind.
    { eapply yields_bind; [by apply yields_operator_new, block_bytes|].
      rewrite block_slots by done.
      intros w1 Hh1 Hv1. eapply yields_eq; [apply yields_ret|exact Hh1|exact Hv1]. }
    intros w1 Hh1 Hv1. eapply yields_eq; [apply yields_ret|done..].
  - eapply yields_bind; [apply yields_ret|].
    intros w1 Hh1 Hv1. eapply yields_eq; [apply yields_ret|done..].
Qed.

Lemma yields_RawMemory_dtor w buf cap b :
  block_rep (heap w) buf b →
  yields (RawMemory_dtor (mkRaw buf cap)) w tt (del (heap w) buf) (vecs w).
Proof.
  unfold RawMemory_dtor, Deallocate, yields, spec, operator_delete.
  destruct buf as [l|]; simpl; [|tauto].
  intros ->. simpl. tauto.
Qed.

Lemma yields_get_vec w this v :
  vecs w !! this = Some v → yields (get_vec this) w v (heap w) (vecs w).
Proof. intros Hv. unfold yields, spec, get_vec. rewrite Hv. tauto. Qed.

Lemma yields_put_vec w this v :
  yields (put_vec this v) w tt (heap w) (<[this := v]> (vecs w)).
Proof. unfold yields, spec, put_vec. simpl. tauto. Qed.

Lemma yields_del_vec w this :
  yields (del_vec this) w tt (heap w) (delete this (vecs w)).
Proof. unfold yields, spec, del_vec. simpl. tauto. Qed.

Lemma yields_local_vec w :
  yields local_vec w (fresh (dom (vecs w))) (heap w) (vecs w).
Proof. unfold yields, spec, local_vec. simpl. tauto. Qed.

Lemma yields_RawMemory_at w rm index :
  index < capacity_ rm →
  yields (RawMemory_at rm index) w (Ptr (buffer_ rm) index) (heap w) (vecs w).
Proof. intros Hi. unfold RawMemory_at. rewrite decide_True by done. apply yields_ret. Qed.

End StorageSpecs.

(** ** Judgements on explicit memory *)

Section Triples.
Context {T : Type} `{ET : Elem T}.
Implicit Types (w : World T) (h : gmap positive (list (slot T))) (vs : gmap nat Vector)
               (b : list (slot T)) (buf : option positive).

Lemma triple_bind {A B} h vs (m : M T A) (f : A → M T B) a h1 vs1 Q :
  runs h vs m a h1 vs1 → triple h1 vs1 (f a) Q → triple h vs (bind m f) Q.
Proof.
  intros Hm Hf w Hh Hv. eapply yields_bind; [by apply Hm|].
  intros w1 Hh1 Hv1. by apply Hf.
Qed.

Lemma triple_bind_triple {A B} h vs (m : M T A) (f : A → M T B) Q1 Q :
  triple h vs m Q1 → (∀ a h1 vs1, Q1 a h1 vs1 → triple h1 vs1 (f a) Q) →
  triple h vs (bind m f) Q.
Proof.
  intros Hm Hf w Hh Hv. eapply spec_bind; [by apply Hm|].
  intros a w1 HQ. simpl in HQ. by eapply Hf.
Qed.

Lemma triple_ret {A} h vs (a : A) (Q : A → _ → _ → Prop) : Q a h vs → triple h vs (ret a) Q.
Proof. intros HQ w <- <-. by apply spec_ret. Qed.

Lemma triple_runs {A} h vs (m : M T A) a h' vs' (Q : A → _ → _ → Prop) :
  runs h vs m a h' vs' → Q a h' vs' → triple h vs m Q.
Proof.
  intros Hm HQ w Hh Hv. eapply spec_mono; [by apply Hm|].
  intros a' w' (-> & <- & <-). exact HQ.
Qed.

Lemma triple_unwinding {A} h vs (m : M T A) c Q :
  triple h vs m Q → triple h vs (unwinding m c) Q.
Proof. intros Hm w Hh Hv. apply spec_unwinding. by apply Hm. Qed.

Lemma triple_mono {A} h vs (m : M T A) (Q Q' : A → _ → _ → Prop) :
  triple h vs m Q → (∀ a h' vs', Q a h' vs' → Q' a h' vs') → triple h vs m Q'.
Proof.
  intros Hm HQ w Hh Hv. eapply spec_mono; [by apply Hm|].
  intros a w'. apply HQ.
Qed.

Lemma runs_bind {A B} h vs (m : M T A) (f : A → M T B) a h1 vs1 c h2 vs2 :
  runs h vs m a h1 vs1 → runs h1 vs1 (f a) c h2 vs2 → runs h vs (bind m f) c h2 vs2.
Proof.
  intros Hm Hf w Hh Hv. eapply yields_bind; [by apply Hm|].
  intros w1 Hh1 Hv1. by apply Hf.
Qed.

Lemma runs_eq {A} h vs (m : M T A) a h1 vs1 h2 vs2 :
  runs h vs m a h1 vs1 → h1 = h2 → vs1 = vs2 → runs h vs m a h2 vs2.
Proof. by intros ? <- <-. Qed.

Lemma runs_unwinding {A} h vs (m : M T A) c a h' vs' :
  runs h vs m a h' vs' → runs h vs (unwinding m c) a h' vs'.
Proof. intros Hm w Hh Hv. apply spec_unwinding. by apply Hm. Qed.

(** *** The primitive steps, on explicit memory *)

Lemma runs_ret {A} h vs (a : A) : runs h vs (ret a) a h vs.
Proof. intros w <- <-. apply yields_ret. Qed.

Lemma runs_log h vs e : runs h vs (log e) tt h vs.
Proof. intros w <- <-. apply yields_log. Qed.

Lemma runs_may_fail h vs k : runs h vs (may_fail k) tt h vs.
Proof. intros w <- <-. apply yields_may_fail. Qed.

Lemma runs_get_vec h vs this v : vs !! this = Some v → runs h vs (get_vec this) v h vs.
Proof. intros Hv w <- <-. by apply yields_get_vec. Qed.

Lemma runs_put_vec h vs this v : runs h vs (put_vec this v) tt h (<[this := v]> vs).
Proof. intros w <- <-. apply yields_put_vec. Qed.

Lemma runs_del_vec h vs this : runs h vs (del_vec this) tt h (delete this vs).
Proof. intros w <- <-. apply yields_del_vec. Qed.

Lemma runs_local_vec h vs : runs h vs local_vec (fresh (dom vs)) h vs.
Proof. intros w <- <-. apply yields_local_vec. Qed.

Lemma runs_set_data h vs this v d :
  vs !! this = Some v → runs h vs (set_data this d) tt h (<[this := mkVec d (size_ v)]> vs).
Proof.
  intros Hv. unfold set_data.
  eapply runs_bind; [by apply runs_get_vec|]. apply runs_put_vec.
Qed.

Lemma runs_set_size h vs this v n :
  vs !! this = Some v → runs h vs (set_size this n) tt h (<[this := mkVec (data_ v) n]> vs).
Proof.
  intros Hv. unfold set_size.
  eapply runs_bind; [by apply runs_get_vec|]. apply runs_put_vec.
Qed.

Lemma runs_begin h vs this v :
  vs !! this = Some v → runs h vs (begin_ this) (Ptr (buffer_ (data_ v)) 0) h vs.
Proof.
  intros Hv. unfold begin_.
  eapply runs_bind; [by apply runs_get_vec|]. apply runs_ret.
Qed.

Lemma runs_end h vs this v :
  vs !! this = Some v → runs h vs (end_ this) (Ptr (buffer_ (data_ v)) (size_ v)) h vs.
Proof.
  intros Hv. unfold end_.
  eapply runs_bind; [by apply runs_get_vec|]. apply runs_ret.
Qed.

Lemma runs_Capacity h vs this v :
  vs !! this = Some v → runs h vs (Capacity this) (capacity_ (data_ v)) h vs.
Proof.
  intros Hv. unfold Capacity.
  eapply runs_bind; [by apply runs_get_vec|]. apply runs_ret.
Qed.

Lemma runs_ptr_diff h vs buf i j :
  runs h vs (ptr_diff (Ptr buf i) (Ptr buf j)) (Z.of_nat i - Z.of_nat j)%Z h vs.
Proof. intros w <- <-. apply yields_ptr_diff. Qed.

Lemma runs_RawMemory_at h vs rm index :
  index < capacity_ rm → runs h vs (RawMemory_at rm index) (Ptr (buffer_ rm) index) h vs.
Proof. intros Hi w <- <-. by apply yields_RawMemory_at. Qed.

Lemma runs_RawMemory_ctor h vs n :
  (N.of_nat n ≤ max_alloc T)%N →
  runs h vs (RawMemory_ctor n) (mkRaw (new_buf h n) n)
       (upd h (new_buf h n) (replicate n Raw)) vs.
Proof. intros Hn w <- <-. by apply yields_RawMemory_ctor. Qed.

Lemma runs_RawMemory_dtor h vs buf cap b :
  block_rep h buf b → runs h vs (RawMemory_dtor (mkRaw buf cap)) tt (del h buf) vs.
Proof. intros Hb w <- <-. by eapply yields_RawMemory_dtor. Qed.

Lemma runs_read_slot h vs buf (b : list (slot T)) i s :
  block_rep h buf b → b !! i = Some s → runs h vs (read_slot (Ptr buf i)) s h vs.
Proof. intros Hb Hi w <- <-. by eapply yields_read. Qed.

Lemma runs_write_slot h vs buf (b : list (slot T)) i s :
  block_rep h buf b → i < length b →
  runs h vs (write_slot (Ptr buf i) s) tt (upd h buf (<[i := s]> b)) vs.
Proof. intros Hb Hi w <- <-. by eapply yields_write. Qed.

Lemma runs_load h vs buf (b : list (slot T)) i x :
  block_rep h buf b → b !! i = Some (Live x) → runs h vs (load (Ptr buf i)) x h vs.
Proof. intros Hb Hi w <- <-. by eapply yields_load_at. Qed.

Lemma runs_construct_at h vs buf pre s0 post i k x :
  block_rep h buf (pre ++ s0 :: post) → i = length pre →
  runs h vs (construct_at (Ptr buf i) k x) tt (upd h buf (pre ++ Live x :: post)) vs.
Proof.
  intros Hb Hi w <- <-.
  eapply yields_eq;
    [eapply yields_construct_at; [exact Hb|by apply length_middle]
    |by rewrite insert_middle|done].
Qed.

Lemma runs_assign_at h vs buf pre y post i k x :
  block_rep h buf (pre ++ Live y :: post) → i = length pre →
  runs h vs (assign_at (Ptr buf i) k x) tt (upd h buf (pre ++ Live x :: post)) vs.
Proof.
  intros Hb Hi w <- <-.
  eapply yields_eq;
    [eapply yields_assign_at; [exact Hb|by apply lookup_middle]
    |by rewrite insert_middle|done].
Qed.

Lemma runs_destroy_at h vs buf pre y post i :
  block_rep h buf (pre ++ Live y :: post) → i = length pre →
  runs h vs (destroy_at (Ptr buf i)) tt (upd h buf (pre ++ Raw :: post)) vs.
Proof.
  intros Hb Hi w <- <-.
  eapply yields_eq;
    [eapply yields_destroy_at; [exact Hb|by apply lookup_middle]
    |by rewrite insert_middle|done].
Qed.

Lemma runs_destroy_n h vs buf pre xs post i n :
  block_rep h buf (pre ++ map Live xs ++ post) → i = length pre → n = length xs →
  runs h vs (destroy_n (Ptr buf i) n) tt (upd h buf (pre ++ replicate n Raw ++ post)) vs.
Proof. intros Hb Hi -> w <- <-. by apply yields_destroy_n. Qed.

(** [new (data + i + 1) T(std::move(data[i]))] *)
Lemma runs_move_construct_next h vs buf pre x s0 post i :
  block_rep h buf (pre ++ Live x :: s0 :: post) → i = length pre →
  runs h vs (move_construct (Ptr buf (i + 1)) (Ptr buf i)) tt
       (upd h buf (pre ++ Live (moved_from x) :: Live x :: post)) vs.
Proof.
  intros Hb Hi w <- <-.
  eapply yields_eq.
  - eapply (yields_move_construct_within _ _ _ (i + 1) i);
      [lia|exact Hb|by apply lookup_middle|].
    subst i. rewrite length_app. simpl. lia.
  - by rewrite (insert_middle2 _ _ _ _ _ _ Hi), (insert_middle _ _ _ _ _ Hi).
  - done.
Qed.

Lemma runs_std_move_backward h vs buf xs pre (y0 : T) post first last d_last :
  block_rep h buf (pre ++ map Live xs ++ Live y0 :: post) →
  first = length pre → last = first + length xs → d_last = last + 1 →
  runs h vs (std_move_backward (Ptr buf first) (Ptr buf last) (Ptr buf d_last)) tt
       (upd h buf (pre ++ Live (right_hole y0 xs) :: map Live xs ++ post)) vs.
Proof. intros Hb ? ? ? w <- <-. by apply yields_std_move_backward. Qed.

Lemma runs_std_move_left h vs buf xs pre (y0 : T) post i first last :
  block_rep h buf (pre ++ Live y0 :: map Live xs ++ post) → i = length pre →
  first = i + 1 → last = i + 1 + length xs →
  runs h vs (std_move (Ptr buf first) (Ptr buf last) (Ptr buf i)) tt
       (upd h buf (pre ++ map Live xs ++ Live (left_hole y0 xs) :: post)) vs.
Proof. intros Hb ? ? ? w <- <-. by apply yields_std_move_left. Qed.

Lemma runs_std_copy h vs bufs bufd xs ys pre_s post_s pre_d post_d i j last :
  apart bufs bufd →
  block_rep h bufs (pre_s ++ map Live xs ++ post_s) → j = length pre_s →
  block_rep h bufd (pre_d ++ map Live ys ++ post_d) → i = length pre_d →
  length ys = length xs → last = j + length xs →
  runs h vs (std_copy (Ptr bufs j) (Ptr bufs last) (Ptr bufd i)) tt
       (upd h bufd (pre_d ++ map Live xs ++ post_d)) vs.
Proof. intros Ha Hs ? Hd ? ? ? w <- <-. by eapply yields_std_copy. Qed.

Lemma runs_uninitialized_copy h vs bufs bufd xs pre_s post_s pre_d mid post_d i j last :
  apart bufs bufd →
  block_rep h bufs (pre_s ++ map Live xs ++ post_s) → j = length pre_s →
  block_rep h bufd (pre_d ++ mid ++ post_d) → i = length pre_d →
  length mid = length xs → last = j + length xs →
  runs h vs (uninitialized_copy (Ptr bufs j) (Ptr bufs last) (Ptr bufd i)) tt
       (upd h bufd (pre_d ++ map Live xs ++ post_d)) vs.
Proof. intros Ha Hs ? Hd ? ? ? w <- <-. by eapply yields_uninitialized_copy. Qed.

Lemma runs_uninitialized_copy_n h vs bufs bufd xs pre_s post_s pre_d mid post_d i j n :
  apart bufs bufd →
  block_rep h bufs (pre_s ++ map Live xs ++ post_s) → j = length pre_s →
  block_rep h bufd (pre_d ++ mid ++ post_d) → i = length pre_d →
  length mid = length xs → n = length xs →
  runs h vs (uninitialized_copy_n (Ptr bufs j) n (Ptr bufd i)) tt
       (upd h bufd (pre_d ++ map Live xs ++ post_d)) vs.
Proof. intros Ha Hs ? Hd ? ? -> w <- <-. by eapply yields_uninitialized_copy_n. Qed.

Lemma runs_uninitialized_value_construct_n h vs buf pre mid post i n :
  block_rep h buf (pre ++ mid ++ post) → i = length pre → n = length mid →
  runs h vs (uninitialized_value_construct_n (Ptr buf i) n) tt
       (upd h buf (pre ++ replicate n (Live value_init) ++ post)) vs.
Proof.
  intros Hb Hi -> w <- <-. unfold uninitialized_value_construct_n.
  by apply yields_uninitialized_value_construct_n.
Qed.

Lemma runs_transfer_n h vs bufs bufd xs pre_s post_s pre_d mid post_d i j n :
  apart bufs bufd →
  block_rep h bufs (pre_s ++ map Live xs ++ post_s) → j = length pre_s →
  block_rep h bufd (pre_d ++ mid ++ post_d) → i = length pre_d →
  length mid = length xs → n = length xs →
  runs h vs (transfer_n (Ptr bufs j) n (Ptr bufd i)) tt
       (upd (upd h bufd (pre_d ++ map Live xs ++ post_d))
            bufs (pre_s ++ map Live (map transferred xs) ++ post_s)) vs.
Proof.
  intros Ha Hs Hj Hd Hi Hlen -> w <- <-. unfold transfer_n, transferred.
  destruct (is_nothrow_move_constructible T || negb is_copy_constructible).
  - eapply yields_eq; [by eapply yields_uninitialized_move_n| |done].
    by rewrite map_map.
  - eapply yields_eq; [by eapply yields_uninitialized_copy_n| |done].
    rewrite map_id. symmetry. apply upd_id. by apply block_rep_upd_ne.
Qed.

End Triples.

(** ** The operations of [Vector] *)

(** Collapse successive updates of the same blocks. *)
Ltac norm_heap :=
  repeat (rewrite upd_upd ||
          rewrite upd_upd_ne by (assumption || (apply apart_sym; assumption))).

(** [vec_rep] in a state that is given explicitly. *)
Ltac concrete_rep :=
  split; [reflexivity|split; [reflexivity|split; [simpl; lia|by vm_compute]]].

(** Goals about the lengths of concatenated blocks. *)
Ltac solve_length :=
  repeat (progress (rewrite ?length_app, ?length_map, ?length_replicate, ?length_insert;
                    simpl));
  lia.

Section VectorSpecs.
Context {T : Type} `{ET : Elem T}.
Implicit Types (w : World T) (h : gmap positive (list (slot T))) (vs : gmap nat Vector)
               (b : list (slot T)) (buf : option positive) (xs pre suf : list T).

Lemma runs_Erase h vs this pre x suf cap buf :
  vec_rep_mem h vs this (pre ++ x :: suf) cap buf →
  runs h vs (Erase this (Ptr buf (length pre))) (Ptr buf (length pre))
       (upd h buf (map Live (pre ++ suf) ++ replicate (cap - length (pre ++ suf)) Raw))
       (<[this := mkVec (mkRaw buf cap) (length (pre ++ suf))]> vs).
Proof.
  intros (Hv & Hb & Hle & Hcap). pose proof (max_alloc_bound _ Hcap) as Hlt.
  rewrite length_app in *. simpl in *.
  rewrite map_app in Hb. simpl in Hb. rewrite <- app_assoc in Hb. simpl in Hb.
  unfold Erase.
  eapply runs_bind; [by apply runs_begin|]. simpl.
  eapply runs_bind; [apply runs_ptr_diff|].
  rewrite to_size_t_small by lia.
  replace (Z.to_nat _) with (length pre) by lia.
  eapply runs_bind; [by apply runs_end|]. simpl.
  rewrite !ptr_add_Ptr. simpl.
  eapply runs_bind.
  { eapply (runs_std_move_left _ _ _ suf (map Live pre) x);
      [exact Hb|by rewrite length_map|lia|lia]. }
  eapply runs_bind; [by apply runs_get_vec|]. simpl.
  unfold RawMemory_plus. simpl.
  rewrite size_sub_small by lia.
  eapply runs_bind.
  { eapply (runs_destroy_at _ _ _ (map Live pre ++ map Live suf)).
    - rewrite <- app_assoc. eapply block_rep_upd; [exact Hb|].
      rewrite !length_app. simpl. rewrite !length_app. simpl. lia.
    - rewrite length_app, !length_map. lia. }
  rewrite upd_upd.
  eapply runs_bind; [by eapply runs_set_size|]. simpl.
  eapply runs_bind; [eapply runs_begin; apply lookup_insert_eq|]. simpl.
  eapply runs_eq; [apply runs_ret| |].
  - f_equal. rewrite map_app, <- !app_assoc. do 2 f_equal.
    by replace (cap - (length pre + length suf))
      with (S (cap - (length pre + S (length suf)))) by lia.
  - do 2 f_equal. lia.
Qed.

(** [Emplace] with room left, at the end. *)
Lemma runs_Emplace_end h vs this xs cap buf k x :
  vec_rep_mem h vs this xs cap buf → length xs < cap →
  runs h vs (Emplace this (Ptr buf (length xs)) k x) (Ptr buf (length xs))
       (upd h buf (map Live (xs ++ [x]) ++ replicate (cap - S (length xs)) Raw))
       (<[this := mkVec (mkRaw buf cap) (S (length xs))]> vs).
Proof.
  intros (Hv & Hb & Hle & Hcap) Hlt. pose proof (max_alloc_bound _ Hcap) as Hmax.
  unfold Emplace.
  eapply runs_bind; [by apply runs_begin|]. simpl.
  eapply runs_bind; [apply runs_ptr_diff|].
  rewrite to_size_t_small by lia.
  replace (Z.to_nat _) with (length xs) by lia.
  eapply runs_bind; [by apply runs_get_vec|]. simpl.
  eapply runs_bind; [by apply runs_Capacity|]. simpl.
  eapply runs_bind.
  { rewrite decide_True by done.
    eapply runs_bind; [by apply runs_end|]. simpl.
    rewrite decide_True by done. unfold RawMemory_plus. simpl.
    replace (cap - length xs) with (S (cap - S (length xs))) in Hb by lia.
    eapply (runs_construct_at _ _ _ (map Live xs)); [exact Hb|by rewrite length_map]. }
  eapply runs_bind; [by apply runs_get_vec|]. simpl.
  rewrite size_add_small by lia.
  eapply runs_bind; [by eapply runs_set_size|]. simpl.
  eapply runs_bind; [eapply runs_begin; apply lookup_insert_eq|]. simpl.
  eapply runs_eq; [apply runs_ret| |].
  - f_equal. rewrite map_app, <- app_assoc. done.
  - do 2 f_equal. lia.
Qed.

(** [Emplace] with room left, before an existing element. *)
Lemma runs_Emplace_middle h vs this pre ys z cap buf k x :
  vec_rep_mem h vs this (pre ++ ys ++ [z]) cap buf →
  length (pre ++ ys ++ [z]) < cap →
  runs h vs (Emplace this (Ptr buf (length pre)) k x) (Ptr buf (length pre))
       (upd h buf (map Live (pre ++ x :: ys ++ [z]) ++
                   replicate (cap - S (length (pre ++ ys ++ [z]))) Raw))
       (<[this := mkVec (mkRaw buf cap) (S (length (pre ++ ys ++ [z])))]> vs).
Proof.
  intros (Hv & Hb & Hle & Hcap) Hlt. pose proof (max_alloc_bound _ Hcap) as Hmax.
  rewrite !length_app in *. simpl in *.
  set (n := length pre + (length ys + 1)) in *.
  replace (cap - n) with (S (cap - S n)) in Hb by lia.
  rewrite !map_app in Hb. simpl in Hb. rewrite <- !app_assoc in Hb. simpl in Hb.
  unfold Emplace.
  eapply runs_bind; [by apply runs_begin|]. simpl.
  eapply runs_bind; [apply runs_ptr_diff|].
  rewrite to_size_t_small by lia.
  replace (Z.to_nat _) with (length pre) by lia.
  eapply runs_bind; [by apply runs_get_vec|]. simpl.
  eapply runs_bind; [by apply runs_Capacity|]. simpl.
  eapply runs_bind.
  { rewrite decide_True by done.
    eapply runs_bind; [by apply runs_end|]. simpl.
    rewrite decide_False by (intros [=]; lia).
    eapply runs_bind; [apply runs_may_fail|].
    eapply runs_bind; [apply runs_log|].
    rewrite size_sub_small by lia.
    eapply runs_bind; [apply runs_RawMemory_at; simpl; lia|]. simpl.
    unfold RawMemory_plus. simpl.
    eapply runs_bind.
    { replace n with (n - 1 + 1) at 1 by lia.
      eapply (runs_move_construct_next _ _ _ (map Live pre ++ map Live ys)).
      - rewrite <- app_assoc. exact Hb.
      - solve_length. }
    eapply runs_bind; [by apply runs_begin|]. simpl.
    eapply runs_bind; [by apply runs_end|]. simpl.
    rewrite !ptr_add_Ptr, !ptr_sub_Ptr. simpl.
    eapply runs_bind.
    { eapply (runs_std_move_backward _ _ _ ys (map Live pre)).
      - rewrite <- app_assoc. eapply block_rep_upd; [exact Hb|].
        solve_length.
      - by rewrite length_map.
      - lia.
      - lia. }
    rewrite upd_upd.
    eapply runs_bind; [apply runs_RawMemory_at; simpl; lia|]. simpl.
    eapply runs_bind.
    { eapply (runs_assign_at _ _ _ (map Live pre)).
      - eapply block_rep_upd; [exact Hb|].
        solve_length.
      - by rewrite length_map. }
    rewrite upd_upd. apply runs_log. }
  eapply runs_bind; [by apply runs_get_vec|]. simpl.
  rewrite size_add_small by lia.
  eapply runs_bind; [by eapply runs_set_size|]. simpl.
  eapply runs_bind; [eapply runs_begin; apply lookup_insert_eq|]. simpl.
  eapply runs_eq; [apply runs_ret| |].
  - f_equal. rewrite !map_app. simpl. rewrite !map_app. simpl.
    rewrite <- !app_assoc. simpl. by rewrite <- !app_assoc.
  - do 2 f_equal. lia.
Qed.

Lemma grown_gt size : size < grown size.
Proof. unfold grown. case_decide; lia. Qed.

Lemma del_upd h buf b : del (upd h buf b) buf = del h buf.
Proof. destruct buf; simpl; [apply delete_insert_eq|done]. Qed.

Lemma replicate_split (a c n : nat) (s : slot T) :
  a + c ≤ n → replicate n s = replicate a s ++ replicate c s ++ replicate (n - a - c) s.
Proof.
  intros Hle. rewrite <- !replicate_add. f_equal. lia.
Qed.

(** [Emplace] into a full vector. *)
Lemma runs_Emplace_full h vs this pre suf cap buf k x :
  vec_rep_mem h vs this (pre ++ suf) cap buf →
  length (pre ++ suf) = cap →
  (N.of_nat (grown cap) ≤ max_alloc T)%N →
  let nb := new_buf h (grown cap) in
  runs h vs (Emplace this (Ptr buf (length pre)) k x) (Ptr nb (length pre))
       (del (upd h nb (map Live (pre ++ x :: suf) ++ replicate (grown cap - S cap) Raw)) buf)
       (<[this := mkVec (mkRaw nb (grown cap)) (S cap)]> vs).
Proof.
  intros (Hv & Hb & Hle & Hcap) Hfull Hgrown nb.
  pose proof (max_alloc_bound _ Hcap) as Hmax.
  pose proof (max_alloc_bound _ Hgrown) as Hgmax.
  pose proof (grown_gt cap) as Hgt.
  assert (Ha : apart buf nb) by (by eapply new_buf_apart).
  rewrite Hfull in Hv, Hb. rewrite Nat.sub_diag in Hb. simpl in Hb.
  rewrite length_app in Hfull.
  rewrite app_nil_r, map_app in Hb.
  unfold Emplace.
  eapply runs_bind; [by apply runs_begin|]. simpl.
  eapply runs_bind; [apply runs_ptr_diff|].
  rewrite to_size_t_small by lia.
  replace (Z.to_nat _) with (length pre) by lia.
  eapply runs_bind; [by apply runs_get_vec|]. simpl.
  eapply runs_bind; [by apply runs_Capacity|]. simpl.
  eapply runs_bind.
  { rewrite decide_False by lia.
    assert (Hg : (if decide (cap = 0) then 1 else size_mul cap 2) = grown cap).
    { unfold grown. case_decide; [done|]. apply size_mul_small.
      unfold grown in Hgmax. rewrite decide_False in Hgmax by done. lia. }
    rewrite Hg.
    eapply runs_bind; [by apply runs_RawMemory_ctor|]. fold nb.
    pose proof (new_buf_block h (grown cap)) as Hnb. fold nb in Hnb.
    rewrite (replicate_split (length pre) (S (length suf)) (grown cap)) in Hnb by lia.
    simpl in Hnb.
    rewrite (replicate_split (length pre) (S (length suf)) (grown cap)) by lia.
    simpl.
    eapply runs_bind.
    { apply runs_unwinding. unfold RawMemory_plus, GetAddress. simpl.
      eapply runs_bind.
      { eapply (runs_construct_at _ _ _ (replicate (length pre) Raw));
          [exact Hnb|by rewrite length_replicate]. }
      rewrite upd_upd.
      eapply runs_bind.
      { eapply (runs_transfer_n _ _ buf nb pre [] (map Live suf) []
                  (replicate (length pre) Raw)); simpl.
        - done.
        - by apply block_rep_upd_ne.
        - done.
        - eapply block_rep_upd; [exact Hnb|]. solve_length.
        - done.
        - by rewrite length_replicate.
        - done. }
      rewrite upd_upd. rewrite !ptr_add_Ptr. simpl.
      rewrite size_sub_small by lia.
      eapply runs_bind.
      { eapply (runs_transfer_n _ _ buf nb suf (map Live (map transferred pre)) []
                  (map Live pre ++ [Live x]) (replicate (length suf) Raw)); simpl.
        - done.
        - rewrite app_nil_r. eapply block_rep_upd; [exact Hb|].
          solve_length.
        - solve_length.
        - rewrite <- app_assoc. simpl. apply block_rep_upd_ne; [by apply apart_sym|].
          eapply block_rep_upd; [exact Hnb|]. solve_length.
        - solve_length.
        - by rewrite length_replicate.
        - lia. }
      norm_heap.
      eapply runs_bind.
      { eapply (runs_destroy_n _ _ buf [] (map transferred pre ++ map transferred suf) []);
          simpl.
        - eapply block_rep_upd_eq; [exact Hb|solve_length|].
          by rewrite map_app, !app_nil_r.
        - done.
        - solve_length. }
      rewrite upd_upd. unfold RawMemory_Swap. simpl.
      eapply runs_bind; [by eapply runs_set_data|].
      apply runs_ret. }
    eapply (runs_RawMemory_dtor _ _ buf).
    eapply block_rep_upd; [exact Hb|]. solve_length. }
  simpl.
  eapply runs_bind; [apply runs_get_vec, lookup_insert_eq|]. simpl.
  rewrite size_add_small by lia.
  eapply runs_bind; [eapply runs_set_size; apply lookup_insert_eq|]. simpl.
  eapply runs_bind; [eapply runs_begin; apply lookup_insert_eq|]. simpl.
  eapply runs_eq; [apply runs_ret| |].
  - rewrite del_upd. f_equal. f_equal.
    rewrite map_app. simpl. rewrite <- !app_assoc. simpl. do 3 f_equal.
    f_equal. lia.
  - rewrite insert_insert_eq. do 3 f_equal. lia.
Qed.

(** The construction of the new element of [PushBack] from an operand: an
    object outside the heap, or an element of the block the new element is
    constructed in, or an element of another block. *)
Lemma runs_construct_from_outside h vs buf (ps qs : list (slot T)) (s0 : slot T) i k x :
  block_rep h buf (ps ++ s0 :: qs) → i = length ps →
  runs h vs (construct_from (Ptr buf i) k (Outside x)) tt
       (upd h buf (ps ++ Live x :: qs)) vs.
Proof. intros Hb Hi. simpl. by eapply runs_construct_at. Qed.

Lemma runs_construct_from_within h vs buf (ps qs : list (slot T)) (s0 : slot T) i j k x :
  block_rep h buf (ps ++ s0 :: qs) → i = length ps → ps !! j = Some (Live x) →
  runs h vs (construct_from (Ptr buf i) k (Element (Ptr buf j))) tt
       (upd h buf ((if decide (k = MoveCtor) then <[j := Live (moved_from x)]> ps else ps)
                   ++ Live x :: qs)) vs.
Proof.
  intros Hb Hi Hj. pose proof (lookup_lt_Some _ _ _ Hj) as Hlt. simpl.
  eapply runs_bind.
  { eapply runs_load; [exact Hb|]. by rewrite lookup_app_l. }
  eapply runs_bind; [by eapply runs_construct_at|].
  case_decide.
  - eapply runs_eq.
    + eapply runs_write_slot; [eapply block_rep_upd; [exact Hb|solve_length]|].
      rewrite length_app. lia.
    + rewrite upd_upd. f_equal. by rewrite insert_app_l.
    + done.
  - apply runs_ret.
Qed.

Lemma runs_construct_from_other h vs bd bs (ps qs : list (slot T)) (s0 : slot T) (srcs : list T) i j k x :
  apart bd bs →
  block_rep h bd (ps ++ s0 :: qs) → i = length ps →
  block_rep h bs (map Live srcs) → srcs !! j = Some x →
  runs h vs (construct_from (Ptr bd i) k (Element (Ptr bs j))) tt
       (upd (upd h bd (ps ++ Live x :: qs)) bs
            (map Live (if decide (k = MoveCtor) then <[j := moved_from x]> srcs else srcs)))
       vs.
Proof.
  intros Ha Hd Hi Hs Hj. pose proof (lookup_lt_Some _ _ _ Hj) as Hlt. simpl.
  eapply runs_bind.
  { eapply runs_load; [exact Hs|]. by rewrite list_lookup_fmap, Hj. }
  eapply runs_bind; [by eapply runs_construct_at|].
  assert (Hs' : block_rep (upd h bd (ps ++ Live x :: qs)) bs (map Live srcs)).
  { apply block_rep_upd_ne; [by apply apart_sym|done]. }
  case_decide.
  - eapply runs_eq.
    + eapply runs_write_slot; [exact Hs'|]. by rewrite length_map.
    + f_equal. by rewrite list_fmap_insert.
    + done.
  - eapply runs_eq; [apply runs_ret| |done]. symmetry. by apply upd_id.
Qed.

(** [PushBack] with room left, for any operand whose construction leaves
    the elements [ys] followed by the new element [y]. *)
Lemma runs_PushBack_room_from h vs this xs cap buf k value ys y :
  vec_rep_mem h vs this xs cap buf → length xs < cap →
  length ys = length xs →
  (∀ qs : list (slot T), block_rep h buf (map Live xs ++ Raw :: qs) →
     runs h vs (construct_from (Ptr buf (length xs)) k value) tt
          (upd h buf (map Live ys ++ Live y :: qs)) vs) →
  runs h vs (PushBack_with k this value) tt
       (upd h buf (map Live (ys ++ [y]) ++ replicate (cap - S (length xs)) Raw))
       (<[this := mkVec (mkRaw buf cap) (S (length xs))]> vs).
Proof.
  intros (Hv & Hb & Hle & Hcap) Hlt Hys Hcons. pose proof (max_alloc_bound _ Hcap) as Hmax.
  unfold PushBack_with.
  eapply runs_bind; [by apply runs_get_vec|]. simpl.
  eapply runs_bind; [by apply runs_Capacity|]. simpl.
  eapply runs_bind.
  { rewrite decide_False by lia. unfold RawMemory_plus. simpl.
    replace (cap - length xs) with (S (cap - S (length xs))) in Hb by lia.
    by apply Hcons. }
  eapply runs_bind; [by apply runs_get_vec|]. simpl.
  rewrite size_add_small by lia.
  eapply runs_eq; [by eapply runs_set_size| |].
  - f_equal. rewrite map_app, <- app_assoc. done.
  - do 2 f_equal. lia.
Qed.

Lemma runs_PushBack_room h vs this xs cap buf k x :
  vec_rep_mem h vs this xs cap buf → length xs < cap →
  runs h vs (PushBack_with k this (Outside x)) tt
       (upd h buf (map Live (xs ++ [x]) ++ replicate (cap - S (length xs)) Raw))
       (<[this := mkVec (mkRaw buf cap) (S (length xs))]> vs).
Proof.
  intros Hrep Hlt. apply runs_PushBack_room_from; [done|done|done|].
  intros qs Hb. eapply runs_construct_from_outside; [exact Hb|by rewrite length_map].
Qed.

(** The same when the operand is element [i] of the vector itself: the
    element is appended, and a move leaves element [i] moved-from. *)
Lemma runs_PushBack_room_own h vs this xs cap buf k i x :
  vec_rep_mem h vs this xs cap buf → length xs < cap → xs !! i = Some x →
  runs h vs (PushBack_with k this (Element (Ptr buf i))) tt
       (upd h buf (map Live ((if decide (k = MoveCtor) then <[i := moved_from x]> xs else xs)
                             ++ [x])
                   ++ replicate (cap - S (length xs)) Raw))
       (<[this := mkVec (mkRaw buf cap) (S (length xs))]> vs).
Proof.
  intros Hrep Hlt Hx. apply runs_PushBack_room_from; [done|done| |].
  { case_decide; [by rewrite length_insert|done]. }
  intros qs Hb.
  eapply runs_eq.
  - eapply runs_construct_from_within; [exact Hb|by rewrite length_map|].
    by rewrite list_lookup_fmap, Hx.
  - f_equal. f_equal. case_decide; [by rewrite list_fmap_insert|done].
  - done.
Qed.

(** [PushBack] onto a full vector, for any operand whose construction,
    after the transfer, leaves [zs] in the old block and the new element
    [y] in the new one. *)
Lemma runs_PushBack_full_from h vs this xs cap buf k value y zs :
  vec_rep_mem h vs this xs cap buf →
  length xs = cap →
  (N.of_nat (grown cap) ≤ max_alloc T)%N →
  let nb := new_buf h (grown cap) in
  length zs = length xs →
  (∀ h2 (qs : list (slot T)) n, n = length xs → apart buf nb →
     block_rep h2 nb (map Live xs ++ Raw :: qs) →
     block_rep h2 buf (map Live (map transferred xs)) →
     runs h2 vs (construct_from (Ptr nb n) k value) tt
          (upd (upd h2 nb (map Live xs ++ Live y :: qs)) buf (map Live zs)) vs) →
  runs h vs (PushBack_with k this value) tt
       (del (upd h nb (map Live (xs ++ [y]) ++ replicate (grown cap - S cap) Raw)) buf)
       (<[this := mkVec (mkRaw nb (grown cap)) (S cap)]> vs).
Proof.
  intros (Hv & Hb & Hle & Hcap) Hfull Hgrown nb Hzs Hcons.
  pose proof (max_alloc_bound _ Hcap) as Hmax.
  pose proof (max_alloc_bound _ Hgrown) as Hgmax.
  pose proof (grown_gt cap) as Hgt.
  assert (Ha : apart buf nb) by (by eapply new_buf_apart).
  rewrite Hfull in Hv, Hb. rewrite Nat.sub_diag in Hb. simpl in Hb.
  rewrite app_nil_r in Hb.
  unfold PushBack_with.
  eapply runs_bind; [by apply runs_get_vec|]. simpl.
  eapply runs_bind; [by apply runs_Capacity|]. simpl.
  eapply runs_bind.
  { rewrite decide_True by done.
    assert (Hg : (if decide (cap = 0) then 1 else size_mul cap 2) = grown cap).
    { unfold grown. case_decide; [done|]. apply size_mul_small.
      unfold grown in Hgmax. rewrite decide_False in Hgmax by done. lia. }
    rewrite Hg.
    eapply runs_bind; [by apply runs_RawMemory_ctor|]. fold nb.
    pose proof (new_buf_block h (grown cap)) as Hnb. fold nb in Hnb.
    rewrite (replicate_split (length xs) 1 (grown cap)) in Hnb by lia.
    simpl in Hnb.
    rewrite (replicate_split (length xs) 1 (grown cap)) by lia.
    simpl.
    eapply runs_bind.
    { apply runs_unwinding. unfold RawMemory_plus, GetAddress. simpl.
      eapply runs_bind.
      { eapply (runs_transfer_n _ _ buf nb xs [] [] []
                  (replicate (length xs) Raw)); simpl.
        - done.
        - eapply block_rep_upd_ne; [done|]. by rewrite app_nil_r.
        - done.
        - exact Hnb.
        - done.
        - by rewrite length_replicate.
        - done. }
      norm_heap.
      eapply runs_bind.
      { apply Hcons; [done|done| |].
        - apply block_rep_upd_ne; [by apply apart_sym|].
          eapply block_rep_upd_eq; [exact Hnb|solve_length|reflexivity].
        - eapply block_rep_upd_eq; [exact Hb|solve_length|by rewrite app_nil_r]. }
      norm_heap.
      eapply runs_bind.
      { eapply (runs_destroy_n _ _ buf [] zs []); simpl.
        - eapply block_rep_upd_eq; [exact Hb|solve_length|by rewrite app_nil_r].
        - done.
        - lia. }
      norm_heap. unfold RawMemory_Swap. simpl.
      eapply runs_bind; [by eapply runs_set_data|].
      apply runs_ret. }
    eapply (runs_RawMemory_dtor _ _ buf).
    eapply block_rep_upd; [exact Hb|]. solve_length. }
  simpl.
  eapply runs_bind; [apply runs_get_vec, lookup_insert_eq|]. simpl.
  rewrite size_add_small by lia.
  eapply runs_eq; [eapply runs_set_size; apply lookup_insert_eq| |].
  - rewrite del_upd. f_equal. f_equal.
    rewrite map_app. simpl. rewrite <- !app_assoc. simpl. do 3 f_equal. lia.
  - rewrite insert_insert_eq. do 3 f_equal. lia.
Qed.

Lemma runs_PushBack_full h vs this xs cap buf k x :
  vec_rep_mem h vs this xs cap buf →
  length xs = cap →
  (N.of_nat (grown cap) ≤ max_alloc T)%N →
  let nb := new_buf h (grown cap) in
  runs h vs (PushBack_with k this (Outside x)) tt
       (del (upd h nb (map Live (xs ++ [x]) ++ replicate (grown cap - S cap) Raw)) buf)
       (<[this := mkVec (mkRaw nb (grown cap)) (S cap)]> vs).
Proof.
  intros Hrep Hfull Hgrown nb.
  apply (runs_PushBack_full_from h vs this xs cap buf k (Outside x) x (map transferred xs));
    [done|done|done|by rewrite length_map|].
  intros h2 qs n -> Ha Hnb Hb.
  eapply runs_eq.
  - eapply runs_construct_from_outside; [exact Hnb|by rewrite length_map].
  - symmetry. apply upd_id. by apply block_rep_upd_ne.
  - done.
Qed.

(** The same when the operand is element [i] of the vector itself.  The
    element is read after the transfer: what is appended is what the transfer
    left in its place. *)
Lemma runs_PushBack_full_own h vs this xs cap buf k i x :
  vec_rep_mem h vs this xs cap buf →
  length xs = cap →
  (N.of_nat (grown cap) ≤ max_alloc T)%N →
  xs !! i = Some x →
  let nb := new_buf h (grown cap) in
  runs h vs (PushBack_with k this (Element (Ptr buf i))) tt
       (del (upd h nb (map Live (xs ++ [transferred x]) ++ replicate (grown cap - S cap) Raw))
            buf)
       (<[this := mkVec (mkRaw nb (grown cap)) (S cap)]> vs).
Proof.
  intros Hrep Hfull Hgrown Hx nb.
  apply (runs_PushBack_full_from h vs this xs cap buf k (Element (Ptr buf i)) (transferred x)
           (if decide (k = MoveCtor)
            then <[i := moved_from (transferred x)]> (map transferred xs)
            else map transferred xs));
    [done|done|done| |].
  { case_decide; by rewrite ?length_insert, length_map. }
  intros h2 qs n -> Ha Hnb Hb.
  eapply (runs_construct_from_other h2 vs nb buf (map Live xs) qs Raw (map transferred xs));
    [by apply apart_sym|exact Hnb|by rewrite length_map|exact Hb|].
  by rewrite list_lookup_fmap, Hx.
Qed.

(** The copy constructor. *)
Lemma runs_Vector_copy h vs this other ys cap buf :
  vec_rep_mem h vs other ys cap buf → this ≠ other →
  let nb := new_buf h (length ys) in
  runs h vs (Vector_copy this other) tt
       (upd h nb (map Live ys))
       (<[this := mkVec (mkRaw nb (length ys)) (length ys)]> vs).
Proof.
  intros (Hv & Hb & Hle & Hcap) Hne nb.
  assert (Hn : (N.of_nat (length ys) ≤ max_alloc T)%N) by lia.
  assert (Ha : apart buf nb) by (by eapply new_buf_apart).
  unfold Vector_copy.
  eapply runs_bind; [by apply runs_get_vec|]. simpl.
  eapply runs_bind; [by apply runs_RawMemory_ctor|]. fold nb.
  eapply runs_bind; [apply runs_put_vec|].
  pose proof (new_buf_block h (length ys)) as Hnb. fold nb in Hnb.
  eapply runs_eq.
  - apply runs_unwinding.
    eapply runs_bind; [apply runs_get_vec, lookup_insert_eq|]. simpl.
    eapply runs_bind; [apply runs_get_vec; by rewrite lookup_insert_ne|]. simpl.
    unfold GetAddress. simpl.
    eapply (runs_uninitialized_copy_n _ _ buf nb ys [] _ [] (replicate (length ys) Raw) []);
      simpl.
    + done.
    + by apply block_rep_upd_ne.
    + done.
    + by rewrite app_nil_r.
    + done.
    + by rewrite length_replicate.
    + done.
  - norm_heap. by rewrite app_nil_r.
  - done.
Qed.

Lemma runs_Swap h vs this other v o :
  this ≠ other → vs !! this = Some v → vs !! other = Some o →
  runs h vs (Swap this other) tt h
       (<[other := mkVec (data_ v) (size_ v)]> (<[this := mkVec (data_ o) (size_ o)]> vs)).
Proof.
  intros Hne Hv Ho. unfold Swap. rewrite decide_False by done.
  eapply runs_bind; [by apply runs_get_vec|].
  eapply runs_bind; [by apply runs_get_vec|].
  unfold RawMemory_Swap. simpl.
  eapply runs_bind; [apply runs_put_vec|].
  eapply runs_eq; [apply runs_put_vec|done|].
  by destruct v as [[] ?], o as [[] ?].
Qed.

(** The destructor. *)
Lemma runs_Vector_dtor h vs this xs cap buf :
  vec_rep_mem h vs this xs cap buf →
  runs h vs (Vector_dtor this) tt (del h buf) (delete this vs).
Proof.
  intros (Hv & Hb & Hle & Hcap). unfold Vector_dtor.
  eapply runs_bind; [by apply runs_get_vec|]. simpl.
  eapply runs_bind.
  { unfold GetAddress. simpl.
    eapply (runs_destroy_n _ _ buf [] xs); [exact Hb|done..]. }
  eapply runs_bind.
  { eapply runs_RawMemory_dtor. eapply block_rep_upd; [exact Hb|]. solve_length. }
  eapply runs_eq; [apply runs_del_vec| |done].
  apply del_upd.
Qed.

Lemma fresh_vec_unused vs : vs !! fresh (dom vs) = None.
Proof. apply not_elem_of_dom, is_fresh. Qed.

(** Copy assignment when the source does not fit: copy and swap. *)
Lemma runs_Vector_assign_realloc h vs this rhs xs ys capa capb bufa bufb :
  this ≠ rhs →
  vec_rep_mem h vs this xs capa bufa → vec_rep_mem h vs rhs ys capb bufb →
  capa < length ys →
  let nb := new_buf h (length ys) in
  runs h vs (Vector_assign this rhs) tt
       (del (upd h nb (map Live ys)) bufa)
       (<[this := mkVec (mkRaw nb (length ys)) (length ys)]> vs).
Proof.
  intros Hne Hrepa Hrepb Hlt nb.
  pose proof Hrepa as (Hva & Hba & Hlea & Hcapa).
  pose proof Hrepb as (Hvb & Hbb & Hleb & Hcapb).
  assert (Hanb : apart bufa nb) by (by eapply new_buf_apart).
  pose proof (fresh_vec_unused vs) as Hfresh.
  set (tmp := fresh (dom vs)) in *.
  assert (Hta : this ≠ tmp) by (intros ->; congruence).
  assert (Htb : tmp ≠ rhs) by (intros ->; congruence).
  unfold Vector_assign. rewrite decide_False by done.
  eapply runs_bind; [by apply runs_get_vec|].
  eapply runs_bind; [by apply runs_get_vec|]. simpl.
  rewrite decide_True by (unfold RawMemory_Capacity; simpl; lia).
  eapply runs_bind; [apply runs_local_vec|]. fold tmp.
  eapply runs_bind; [by eapply runs_Vector_copy|]. fold nb.
  eapply runs_bind.
  { eapply runs_Swap; [done|by rewrite lookup_insert_ne|apply lookup_insert_eq]. }
  simpl.
  eapply runs_eq.
  - eapply (runs_Vector_dtor _ _ tmp xs capa bufa). repeat split.
    + apply lookup_insert_eq.
    + by apply block_rep_upd_ne.
    + done.
    + done.
  - done.
  - rewrite delete_insert_eq, delete_insert_ne by done.
    by rewrite delete_insert_eq, delete_id.
Qed.

Lemma replicate_join (n m c : nat) (s : slot T) :
  n ≤ m → m ≤ c → replicate (m - n) s ++ replicate (c - m) s = replicate (c - n) s.
Proof. intros ? ?. rewrite <- replicate_add. f_equal. lia. Qed.

(** Copy assignment into the block in place. *)
Lemma runs_Vector_assign_inplace h vs this rhs xs ys capa capb bufa bufb :
  this ≠ rhs → apart bufa bufb →
  vec_rep_mem h vs this xs capa bufa → vec_rep_mem h vs rhs ys capb bufb →
  length ys ≤ capa →
  runs h vs (Vector_assign this rhs) tt
       (upd h bufa (map Live ys ++ replicate (capa - length ys) Raw))
       (<[this := mkVec (mkRaw bufa capa) (length ys)]> vs).
Proof.
  intros Hne Hab (Hva & Hba & Hlea & Hcapa) (Hvb & Hbb & Hleb & Hcapb) Hfit.
  pose proof (max_alloc_bound _ Hcapa) as Hmax.
  assert (Hba' : apart bufb bufa) by (by apply apart_sym).
  unfold Vector_assign. rewrite decide_False by done.
  eapply runs_bind; [by apply runs_get_vec|].
  eapply runs_bind; [by apply runs_get_vec|]. simpl.
  rewrite decide_False by (unfold RawMemory_Capacity; simpl; lia).
  unfold GetAddress. simpl. rewrite !ptr_add_Ptr. simpl.
  destruct (decide (length xs > length ys)) as [Hgt|Hngt].
  - (* the surplus is destroyed first *)
    rewrite <- (take_drop (length ys) xs) in Hba.
    rewrite map_app, <- app_assoc in Hba.
    assert (Hl1 : length (take (length ys) xs) = length ys) by (rewrite length_take; lia).
    assert (Hl2 : length (drop (length ys) xs) = length xs - length ys)
      by (by rewrite length_drop).
    rewrite size_sub_small by lia.
    eapply runs_bind.
    { eapply (runs_destroy_n _ _ bufa (map Live (take (length ys) xs))
                (drop (length ys) xs)); [exact Hba|solve_length|lia]. }
    rewrite take_drop, replicate_join by lia.
    destruct (decide (length ys = 0)) as [Hz|Hnz].
    + eapply runs_eq; [by eapply runs_set_size| |by rewrite Hz].
      f_equal. destruct ys; [|done]. done.
    + rewrite decide_True by lia.
      eapply runs_bind.
      { eapply (runs_std_copy _ _ bufb bufa ys (take (length ys) xs) [] _ []); simpl.
        - done.
        - by apply block_rep_upd_ne.
        - done.
        - eapply block_rep_upd; [exact Hba|]. solve_length.
        - done.
        - done.
        - done. }
      norm_heap. simpl. eapply runs_eq; [by eapply runs_set_size|done..].
  - eapply runs_bind; [apply runs_ret|].
    destruct (decide (length ys = 0)) as [Hz|Hnz].
    + eapply runs_eq; [by eapply runs_set_size| |by rewrite Hz].
      symmetry. apply upd_id.
      destruct ys; [|done]. destruct xs; [|simpl in *; lia]. done.
    + destruct (decide (length xs ≥ length ys)) as [Hge|Hnge].
      * assert (Hlen : length xs = length ys) by lia.
        rewrite Hlen in Hba.
        eapply runs_bind.
        { eapply (runs_std_copy _ _ bufb bufa ys xs [] _ []); simpl; done. }
        simpl. eapply runs_eq; [by eapply runs_set_size|done..].
      * rewrite <- (take_drop (length xs) ys) in Hbb.
        rewrite map_app, <- app_assoc in Hbb.
        assert (Hl1 : length (take (length xs) ys) = length xs)
          by (rewrite length_take; lia).
        assert (Hl2 : length (drop (length xs) ys) = length ys - length xs)
          by (by rewrite length_drop).
        rewrite (replicate_split (length ys - length xs) 0 (capa - length xs)) in Hba by lia.
        simpl in Hba.
        eapply runs_bind.
        { eapply runs_bind.
          - eapply (runs_std_copy _ _ bufb bufa (take (length xs) ys) xs [] _ []); simpl.
            + done.
            + exact Hbb.
            + done.
            + exact Hba.
            + done.
            + done.
            + lia.
          - eapply (runs_uninitialized_copy _ _ bufb bufa (drop (length xs) ys)
                      (map Live (take (length xs) ys)) _
                      (map Live (take (length xs) ys))
                      (replicate (length ys - length xs) Raw)); simpl.
            + done.
            + by apply block_rep_upd_ne.
            + solve_length.
            + eapply block_rep_upd; [exact Hba|]. solve_length.
            + solve_length.
            + solve_length.
            + lia. }
        norm_heap. simpl.
        eapply runs_eq; [by eapply runs_set_size| |done].
        f_equal. rewrite app_assoc, <- map_app, take_drop. f_equal. f_equal. lia.
Qed.

(** The sized constructor. *)
Lemma runs_Vector_sized h vs this n :
  (N.of_nat n ≤ max_alloc T)%N →
  let nb := new_buf h n in
  runs h vs (Vector_sized this n) tt
       (upd h nb (map Live (replicate n value_init)))
       (<[this := mkVec (mkRaw nb n) n]> vs).
Proof.
  intros Hn nb. unfold Vector_sized.
  eapply runs_bind; [by apply runs_RawMemory_ctor|]. fold nb.
  eapply runs_bind; [apply runs_put_vec|].
  pose proof (new_buf_block h n) as Hnb. fold nb in Hnb.
  eapply runs_eq.
  - apply runs_unwinding.
    eapply runs_bind; [apply runs_get_vec, lookup_insert_eq|]. simpl.
    unfold GetAddress. simpl.
    eapply (runs_uninitialized_value_construct_n _ _ nb [] (replicate n Raw) []); simpl.
    + by rewrite app_nil_r.
    + done.
    + by rewrite length_replicate.
  - norm_heap. rewrite app_nil_r. f_equal. simpl.
    clear. induction n as [|n IH]; simpl; [done|by rewrite IH].
  - done.
Qed.

(** [Reserve] beyond the capacity. *)
Lemma runs_Reserve_grow h vs this xs cap buf n :
  vec_rep_mem h vs this xs cap buf → cap < n → (N.of_nat n ≤ max_alloc T)%N →
  let nb := new_buf h n in
  runs h vs (Reserve this n) tt
       (del (upd h nb (map Live xs ++ replicate (n - length xs) Raw)) buf)
       (<[this := mkVec (mkRaw nb n) (length xs)]> vs).
Proof.
  intros (Hv & Hb & Hle & Hcap) Hlt Hn nb.
  assert (Ha : apart buf nb) by (by eapply new_buf_apart).
  unfold Reserve.
  eapply runs_bind; [by apply runs_get_vec|]. simpl.
  rewrite decide_False by (unfold RawMemory_Capacity; simpl; lia).
  eapply runs_bind; [by apply runs_RawMemory_ctor|]. fold nb.
  pose proof (new_buf_block h n) as Hnb. fold nb in Hnb.
  rewrite (replicate_split (length xs) 0 n) in Hnb |- * by lia. simpl in Hnb |- *.
  rewrite Nat.sub_0_r in Hnb |- *.
  eapply runs_bind.
  { apply runs_unwinding. unfold GetAddress. simpl.
    eapply runs_bind.
    { eapply (runs_transfer_n _ _ buf nb xs [] _ [] (replicate (length xs) Raw)); simpl.
      - done.
      - by apply block_rep_upd_ne.
      - done.
      - exact Hnb.
      - done.
      - by rewrite length_replicate.
      - done. }
    norm_heap.
    eapply runs_bind.
    { eapply (runs_destroy_n _ _ buf [] (map transferred xs)); simpl.
      - eapply block_rep_upd; [exact Hb|]. solve_length.
      - done.
      - solve_length. }
    norm_heap. unfold RawMemory_Swap. simpl.
    eapply runs_bind; [by eapply runs_set_data|].
    apply runs_ret. }
  eapply runs_eq.
  - eapply (runs_RawMemory_dtor _ _ buf). eapply block_rep_upd; [exact Hb|]. solve_length.
  - by rewrite del_upd.
  - done.
Qed.

(** [PopBack] of a non-empty vector. *)
Lemma runs_PopBack h vs this pre x cap buf :
  vec_rep_mem h vs this (pre ++ [x]) cap buf →
  runs h vs (PopBack this) tt
       (upd h buf (map Live pre ++ replicate (cap - length pre) Raw))
       (<[this := mkVec (mkRaw buf cap) (length pre)]> vs).
Proof.
  intros (Hv & Hb & Hle & Hcap). pose proof (max_alloc_bound _ Hcap) as Hmax.
  rewrite length_app in *. simpl in *.
  rewrite map_app in Hb. simpl in Hb. rewrite <- app_assoc in Hb. simpl in Hb.
  unfold PopBack.
  eapply runs_bind; [by apply runs_get_vec|]. simpl.
  rewrite decide_True by lia. rewrite size_sub_small by lia.
  eapply runs_bind; [by eapply runs_set_size|]. simpl.
  eapply runs_bind; [apply runs_get_vec, lookup_insert_eq|]. simpl.
  unfold GetAddress. rewrite ptr_add_Ptr. simpl.
  eapply runs_eq.
  - eapply (runs_destroy_at _ _ buf (map Live pre)); [exact Hb|]. rewrite length_map. lia.
  - f_equal. f_equal.
    by replace (cap - length pre) with (S (cap - (length pre + 1))) by lia.
  - do 3 f_equal. lia.
Qed.

Lemma map_Live_replicate (n : nat) (x : T) :
  map Live (replicate n x) = replicate n (Live x).
Proof. induction n as [|n IH]; simpl; [done|by rewrite IH]. Qed.

Lemma upd_del_comm h buf1 buf2 (b : list (slot T)) :
  apart buf1 buf2 → upd (del h buf2) buf1 b = del (upd h buf1 b) buf2.
Proof.
  destruct buf1 as [l1|], buf2 as [l2|]; simpl; try done.
  intros Ha. rewrite delete_insert_ne; [done|]. intros ->. by eapply Ha.
Qed.

(** [Resize] to a smaller size. *)
Lemma runs_Resize_shrink h vs this xs cap buf n :
  vec_rep_mem h vs this xs cap buf → n < length xs →
  runs h vs (Resize this n) tt
       (upd h buf (map Live (take n xs) ++ replicate (cap - n) Raw))
       (<[this := mkVec (mkRaw buf cap) n]> vs).
Proof.
  intros (Hv & Hb & Hle & Hcap) Hlt. pose proof (max_alloc_bound _ Hcap) as Hmax.
  assert (Hl1 : length (take n xs) = n) by (rewrite length_take; lia).
  assert (Hl2 : length (drop n xs) = length xs - n) by (by rewrite length_drop).
  rewrite <- (take_drop n xs) in Hb at 1. rewrite map_app, <- app_assoc in Hb.
  unfold Resize.
  eapply runs_bind; [by apply runs_get_vec|]. simpl.
  rewrite decide_True by done. rewrite size_sub_small by lia.
  unfold GetAddress. rewrite ptr_add_Ptr. simpl.
  eapply runs_bind.
  { eapply (runs_destroy_n _ _ buf (map Live (take n xs)) (drop n xs));
      [exact Hb|solve_length|lia]. }
  rewrite replicate_join by lia.
  by eapply runs_eq; [by eapply runs_set_size|..].
Qed.

(** [Resize] to a larger size that fits the capacity. *)
Lemma runs_Resize_grow_room h vs this xs cap buf n :
  vec_rep_mem h vs this xs cap buf → length xs < n → n ≤ cap →
  runs h vs (Resize this n) tt
       (upd h buf (map Live (xs ++ replicate (n - length xs) value_init) ++
                   replicate (cap - n) Raw))
       (<[this := mkVec (mkRaw buf cap) n]> vs).
Proof.
  intros (Hv & Hb & Hle & Hcap) Hlt Hfit. pose proof (max_alloc_bound _ Hcap) as Hmax.
  rewrite (replicate_split (n - length xs) 0 (cap - length xs)) in Hb by lia.
  simpl in Hb. rewrite Nat.sub_0_r in Hb.
  replace (cap - length xs - (n - length xs)) with (cap - n) in Hb by lia.
  unfold Resize.
  eapply runs_bind; [by apply runs_get_vec|]. simpl.
  rewrite decide_False by lia. rewrite decide_True by lia.
  eapply runs_bind.
  { eapply runs_bind.
    { unfold Reserve. eapply runs_bind; [by apply runs_get_vec|]. simpl.
      rewrite decide_True by (unfold RawMemory_Capacity; simpl; lia). apply runs_ret. }
    eapply runs_bind; [by apply runs_get_vec|]. simpl.
    rewrite size_sub_small by lia.
    unfold GetAddress. rewrite ptr_add_Ptr. simpl.
    eapply (runs_uninitialized_value_construct_n _ _ buf (map Live xs)
              (replicate (n - length xs) Raw));
      [exact Hb|by rewrite length_map|by rewrite length_replicate]. }
  eapply runs_eq; [by eapply runs_set_size| |done].
  f_equal. by rewrite map_app, map_Live_replicate, <- app_assoc.
Qed.

(** [Resize] to a size beyond the capacity. *)
Lemma runs_Resize_grow_realloc h vs this xs cap buf n :
  vec_rep_mem h vs this xs cap buf → cap < n → (N.of_nat n ≤ max_alloc T)%N →
  let nb := new_buf h n in
  runs h vs (Resize this n) tt
       (del (upd h nb (map Live (xs ++ replicate (n - length xs) value_init))) buf)
       (<[this := mkVec (mkRaw nb n) n]> vs).
Proof.
  intros Hrep Hlt Hn nb. pose proof Hrep as (Hv & Hb & Hle & Hcap).
  pose proof (max_alloc_bound _ Hn) as Hmax.
  assert (Ha : apart nb buf) by (apply apart_sym; by eapply new_buf_apart).
  unfold Resize.
  eapply runs_bind; [by apply runs_get_vec|]. simpl.
  rewrite decide_False by lia. rewrite decide_True by lia.
  eapply runs_bind.
  { eapply runs_bind; [eapply runs_Reserve_grow; [exact Hrep|lia|done]|]. fold nb.
    eapply runs_bind; [apply runs_get_vec, lookup_insert_eq|]. simpl.
    rewrite size_sub_small by lia.
    unfold GetAddress. rewrite ptr_add_Ptr. simpl.
    eapply (runs_uninitialized_value_construct_n _ _ nb (map Live xs)
              (replicate (n - length xs) Raw) []).
    - rewrite app_nil_r. apply block_rep_del_ne; [done|].
      eapply block_rep_upd; [apply (new_buf_block h n)|]. solve_length.
    - by rewrite length_map.
    - by rewrite length_replicate. }
  eapply runs_eq; [eapply runs_set_size; apply lookup_insert_eq| |].
  - rewrite upd_del_comm by done. rewrite upd_upd.
    by rewrite app_nil_r, map_app, map_Live_replicate.
  - by rewrite insert_insert_eq.
Qed.

End VectorSpecs.

(** ** The trace only grows *)

Section Traces.
Context {T : Type} `{ET : Elem T}.
Implicit Types (w : World T).

Lemma extends_ret {A} (a : A) : extends (ret a : M T A).
Proof. intros w w' [= <-]. done. Qed.

Lemma extends_undefined {A} : extends (@undefined T A).
Proof. intros w w' [=]. Qed.

Lemma extends_bind {A B} (m : M T A) (f : A → M T B) :
  extends m → (∀ a, extends (f a)) → extends (bind m f).
Proof.
  intros Hm Hf w w'. unfold bind. specialize (Hm w).
  destruct (m w) as [a w1|w1|]; simpl in *; [|apply Hm|done].
  intros Hw'. etrans; [by apply Hm|]. by eapply Hf.
Qed.

Lemma extends_unwinding {A} (m : M T A) c :
  extends m → extends c → extends (unwinding m c).
Proof.
  intros Hm Hc w w'. unfold unwinding. specialize (Hm w).
  destruct (m w) as [a w1|w1|]; simpl in *; [apply Hm| |done].
  specialize (Hc w1). destruct (c w1) as [[] w2|w2|]; simpl in *; [|done..].
  intros [= <-]. etrans; [by apply Hm|by apply Hc].
Qed.

Lemma extends_log e : extends (@log T e).
Proof. intros w w' [= <-]. simpl. by apply prefix_app_r. Qed.

Lemma extends_may_fail k : extends (may_fail k).
Proof.
  intros w w'. unfold may_fail.
  destruct (may_throw k); [|by intros [= <-]].
  destruct (elem_faults w) as [|[] fs]; by intros [= <-].
Qed.

Lemma extends_read_slot p : extends (@read_slot T p).
Proof.
  intros w w'. unfold read_slot.
  destruct (p_base p) as [l|]; [|done].
  destruct (heap w !! l) as [blk|]; [|done].
  destruct (blk !! p_off p); [|done]. by intros [= <-].
Qed.

Lemma extends_write_slot p s : extends (@write_slot T p s).
Proof.
  intros w w'. unfold write_slot.
  destruct (p_base p) as [l|]; [|done].
  destruct (heap w !! l) as [blk|]; [|done].
  case_decide; [|done]. by intros [= <-].
Qed.

Lemma extends_get_vec this : extends (@get_vec T this).
Proof. intros w w'. unfold get_vec. destruct (vecs w !! this); [|done]. by intros [= <-]. Qed.

Lemma extends_put_vec this v : extends (@put_vec T this v).
Proof. by intros w w' [= <-]. Qed.

Lemma extends_operator_new n : extends (operator_new n : M T positive).
Proof.
  intros w w'. unfold operator_new. case_decide; [|by intros [= <-]].
  destruct (new_faults w) as [|[] fs]; intros [= <-]; simpl; try done.
  all: by apply prefix_app_r.
Qed.

Lemma extends_operator_delete buf : extends (@operator_delete T buf).
Proof.
  intros w w'. unfold operator_delete. destruct buf as [l|]; [|by intros [= <-]].
  destruct (heap w !! l); [|done]. intros [= <-]. simpl. by apply prefix_app_r.
Qed.

Lemma extends_load p : extends (@load T p).
Proof.
  apply extends_bind; [apply extends_read_slot|].
  intros [|x]; [apply extends_undefined|apply extends_ret].
Qed.

Lemma extends_construct_at p k x : extends (construct_at p k x).
Proof.
  unfold construct_at.
  repeat (apply extends_bind; [|intros]);
    auto using extends_read_slot, extends_may_fail, extends_write_slot, extends_log.
Qed.

Lemma extends_copy_construct dst src : extends (copy_construct dst src).
Proof.
  unfold copy_construct.
  apply extends_bind; [apply extends_load|intros; apply extends_construct_at].
Qed.

Lemma extends_move_construct dst src : extends (move_construct dst src).
Proof.
  unfold move_construct.
  apply extends_bind; [apply extends_load|intros x].
  apply extends_bind; [apply extends_construct_at|intros; apply extends_write_slot].
Qed.

Lemma extends_destroy_at p : extends (@destroy_at T p).
Proof.
  unfold destroy_at.
  apply extends_bind; [apply extends_load|intros x].
  apply extends_bind; [apply extends_write_slot|intros; apply extends_log].
Qed.

Lemma extends_destroy_n p n : extends (@destroy_n T p n).
Proof.
  revert p. induction n as [|n IH]; intros p; simpl.
  - apply extends_ret.
  - apply extends_bind; [apply extends_destroy_at|intros; apply IH].
Qed.

Lemma extends_uninitialized_loop (step : ptr → ptr → M T unit) first result cur n :
  (∀ p q, extends (step p q)) → extends (uninitialized_loop step first result cur n).
Proof.
  intros Hstep. revert first cur. induction n as [|n IH]; intros first cur; simpl.
  - apply extends_ret.
  - apply extends_bind; [|intros; apply IH].
    apply extends_unwinding; [apply Hstep|apply extends_destroy_n].
Qed.

Lemma extends_transfer_n first n result : extends (transfer_n first n result).
Proof.
  unfold transfer_n, uninitialized_move_n, uninitialized_copy_n.
  destruct (_ || _); apply extends_uninitialized_loop;
    auto using extends_move_construct, extends_copy_construct.
Qed.

Lemma extends_RawMemory_dtor rm : extends (@RawMemory_dtor T rm).
Proof. apply extends_operator_delete. Qed.

Lemma extends_set_data this d : extends (@set_data T this d).
Proof.
  unfold set_data.
  apply extends_bind; [apply extends_get_vec|intros; apply extends_put_vec].
Qed.

Lemma extends_set_size this n : extends (@set_size T this n).
Proof.
  unfold set_size.
  apply extends_bind; [apply extends_get_vec|intros; apply extends_put_vec].
Qed.

Lemma extends_begin this : extends (@begin_ T this).
Proof.
  unfold begin_.
  apply extends_bind; [apply extends_get_vec|intros; apply extends_ret].
Qed.

End Traces.


(** ** The first steps of [Emplace] into a full vector *)

Section EmplaceFull.
Context {T : Type} `{ET : Elem T}.
Implicit Types (w : World T).

Lemma vec_rep_ext w w' this xs cap buf :
  heap w' = heap w → vecs w' = vecs w →
  vec_rep w this xs cap buf → vec_rep w' this xs cap buf.
Proof. unfold vec_rep. by intros -> ->. Qed.

Lemma bind_Ok {A B} (m : M T A) (f : A → M T B) w a w1 :
  m w = Ok a w1 → bind m f w = f a w1.
Proof. unfold bind. by intros ->. Qed.

Lemma bind_assoc_at {A B C} (m : M T A) (f : A → M T B) (g : B → M T C) w :
  bind (bind m f) g w = bind m (λ a, bind (f a) g) w.
Proof. unfold bind. by destruct (m w). Qed.

Lemma get_vec_Ok w this v : vecs w !! this = Some v → get_vec this w = Ok v w.
Proof. unfold get_vec. by intros ->. Qed.

Lemma begin_Ok w this v :
  vecs w !! this = Some v → begin_ this w = Ok (GetAddress (data_ v)) w.
Proof. intros Hv. unfold begin_. by rewrite (bind_Ok _ _ _ _ _ (get_vec_Ok _ _ _ Hv)). Qed.

Lemma Capacity_Ok w this v :
  vecs w !! this = Some v → Capacity this w = Ok (capacity_ (data_ v)) w.
Proof. intros Hv. unfold Capacity. by rewrite (bind_Ok _ _ _ _ _ (get_vec_Ok _ _ _ Hv)). Qed.

Lemma unwinding_bind_cases {A B C} (c : M T A) (R : A → M T B) cl (K : B → M T C) w :
  bind (unwinding (bind c R) cl) K w =
  match c w with
  | Ok a w2 => bind (unwinding (R a) cl) K w2
  | Throw w2 =>
      match cl w2 with
      | Ok _ w3 => Throw w3
      | _ => Undefined
      end
  | Undefined => Undefined
  end.
Proof.
  unfold bind, unwinding. destruct (c w) as [a w2|w2|]; [done| |done].
  by destruct (cl w2).
Qed.

(** The outcomes of the allocation of a non-empty block. *)
Lemma RawMemory_ctor_cases w n :
  n ≠ 0 → fits_size_t T n →
  RawMemory_ctor n w =
  if decide (N.of_nat n ≤ max_alloc T)%N then
    match new_faults w with
    | true :: fs => Throw (set_new_faults fs w)
    | fs =>
        let l := fresh (dom (heap w)) in
        Ok (mkRaw (Some l) n)
           (add_event (EvNew l n)
              (set_heap (<[l := replicate n Raw]> (heap w)) (set_new_faults (tail fs) w)))
    end
  else Throw w.
Proof.
  intros Hn Hfit. unfold RawMemory_ctor, Allocate, bind, operator_new, ret.
  rewrite decide_True by done. rewrite block_slots by done.
  destruct (decide (N.of_nat n ≤ max_alloc T)%N) as [Hle|Hle].
  - rewrite decide_True by by apply block_bytes.
    by destruct (new_faults w) as [|[] fs].
  - rewrite decide_False; [done|]. by rewrite block_bytes.
Qed.

(** The outcomes of the construction of an element in an allocated slot. *)
Lemma construct_at_cases w l b p k x :
  heap w !! l = Some b → p < length b →
  construct_at (Ptr (Some l) p) k x w =
  match may_fail k w with
  | Ok _ w2 =>
      Ok tt (add_event (EvCtor k (Ptr (Some l) p))
               (set_heap (<[l := <[p := Live x]> b]> (heap w2)) w2))
  | Throw w2 => Throw w2
  | Undefined => Undefined
  end.
Proof.
  intros Hl Hp. destruct (lookup_lt_is_Some_2 b p Hp) as [s0 Hs].
  unfold construct_at, bind, read_slot, write_slot, log. simpl. rewrite Hl, Hs.
  unfold may_fail. destruct (may_throw k); simpl.
  - destruct (elem_faults w) as [|[] fs]; simpl; try done.
    all: by rewrite Hl, decide_True.
  - by rewrite Hl, decide_True.
Qed.

(** [Emplace] into a full vector allocates, then constructs the new element,
    and only then runs the rest of the reallocation. *)
Lemma Emplace_full_cases w this xs cap buf p k x :
  vec_rep w this xs cap buf → length xs = cap → p ≤ cap →
  ∃ rest : RawMemory → M T ptr,
    (∀ nd, extends (rest nd)) ∧
    Emplace this (Ptr buf p) k x w =
    match RawMemory_ctor (grown cap) w with
    | Ok nd w1 =>
        match construct_at (RawMemory_plus nd p) k x w1 with
        | Ok _ w2 => rest nd w2
        | Throw w2 =>
            match RawMemory_dtor nd w2 with
            | Ok _ w3 => Throw w3
            | _ => Undefined
            end
        | Undefined => Undefined
        end
    | Throw w1 => Throw w1
    | Undefined => Undefined
    end.
Proof.
  intros (Hv & Hb & Hle & Hcap) Hfull Hp. rewrite Hfull in Hv.
  pose proof (max_alloc_bound _ Hcap) as Hmax.
  eexists. split; cycle 1.
  - unfold Emplace.
    rewrite (bind_Ok _ _ _ _ _ (begin_Ok _ _ _ Hv)). simpl.
    unfold ptr_diff at 1. simpl. rewrite decide_True by done.
    rewrite (bind_Ok _ _ _ _ w eq_refl).
    rewrite to_size_t_small by lia.
    replace (Z.to_nat _) with p by lia.
    rewrite (bind_Ok _ _ _ _ _ (get_vec_Ok _ _ _ Hv)).
    rewrite (bind_Ok _ _ _ _ _ (Capacity_Ok _ _ _ Hv)). simpl.
    rewrite decide_False by lia.
    assert (Hg : (if decide (cap = 0) then 1 else size_mul cap 2) = grown cap).
    { unfold grown. case_decide; [done|]. apply size_mul_small. lia. }
    rewrite Hg.
    rewrite !bind_assoc_at. unfold bind at 1.
    destruct (RawMemory_ctor (grown cap) w) as [nd w1|w1|]; [|done..].
    rewrite bind_assoc_at, unwinding_bind_cases.
    destruct (construct_at (RawMemory_plus nd p) k x w1) as [[] w2|w2|]; [|done..].
    reflexivity.
  - simpl. intros nd.
    repeat first
      [ apply extends_transfer_n
      | apply extends_destroy_n
      | apply extends_set_data
      | apply extends_set_size
      | apply extends_ret
      | apply extends_RawMemory_dtor
      | apply extends_get_vec
      | apply extends_begin
      | apply extends_unwinding
      | apply extends_bind; [|intros] ].
Qed.

End EmplaceFull.

(** ** Insertion and removal, for every position *)

Section Positions.
Context {T : Type} `{ET : Elem T}.
Implicit Types (w : World T) (h : gmap positive (list (slot T))) (vs : gmap nat Vector)
               (buf : option positive) (xs : list T).

Lemma load_Ok w buf (b : list (slot T)) i x :
  block_rep (heap w) buf b → b !! i = Some (Live x) → load (Ptr buf i) w = Ok x w.
Proof.
  destruct buf as [l|]; simpl; [|by intros ->].
  intros Hl Hi. unfold load, bind, read_slot. simpl. by rewrite Hl, Hi.
Qed.

Lemma snoc_cases (l : list T) : l ≠ [] → ∃ l' z, l = l' ++ [z].
Proof.
  induction l as [|z l' _] using rev_ind; [done|]. intros _. by exists l', z.
Qed.

(** Inserting [x] before position [p] of [xs], index by index. *)
Lemma insert_at_lookups xs p (x : T) :
  p ≤ length xs →
  let ys := take p xs ++ x :: drop p xs in
  length ys = S (length xs) ∧
  (∀ i, i < p → ys !! i = xs !! i) ∧
  ys !! p = Some x ∧
  (∀ i, p ≤ i → ys !! S i = xs !! i).
Proof.
  intros Hp ys. unfold ys.
  assert (Hlen : length (take p xs) = p) by (rewrite length_take; lia).
  repeat split.
  - rewrite length_app. simpl. rewrite length_take, length_drop. lia.
  - intros i Hi. rewrite lookup_app_l by lia. by apply lookup_take_lt.
  - by apply list_lookup_middle.
  - intros i Hi. rewrite lookup_app_r by lia. rewrite Hlen.
    replace (S i - p) with (S (i - p)) by lia. simpl.
    rewrite lookup_drop. f_equal. lia.
Qed.

(** Removing position [i] of [xs], index by index. *)
Lemma remove_at_lookups xs i :
  i < length xs →
  let ys := take i xs ++ drop (S i) xs in
  length ys = length xs - 1 ∧
  (∀ j, j < i → ys !! j = xs !! j) ∧
  (∀ j, i < j → ys !! (j - 1) = xs !! j).
Proof.
  intros Hi ys. unfold ys.
  assert (Hlen : length (take i xs) = i) by (rewrite length_take; lia).
  repeat split.
  - rewrite length_app, length_take, length_drop. lia.
  - intros j Hj. rewrite lookup_app_l by lia. by apply lookup_take_lt.
  - intros j Hj. rewrite lookup_app_r by lia. rewrite Hlen, lookup_drop.
    f_equal. lia.
Qed.

(** [Emplace] at any valid position, when the new block, if one is needed,
    can be allocated. *)
Lemma runs_Emplace h vs this xs cap buf p k x :
  vec_rep_mem h vs this xs cap buf → p ≤ length xs →
  length xs < cap ∨ (N.of_nat (grown cap) ≤ max_alloc T)%N →
  ∃ h' cap' buf',
    runs h vs (Emplace this (Ptr buf p) k x) (Ptr buf' p) h'
         (<[this := mkVec (mkRaw buf' cap') (S (length xs))]> vs) ∧
    block_rep h' buf' (map Live (take p xs ++ x :: drop p xs) ++
                       replicate (cap' - S (length xs)) Raw) ∧
    S (length xs) ≤ cap' ∧
    (N.of_nat cap' ≤ max_alloc T)%N ∧
    cap' = (if decide (length xs < cap) then cap else grown cap).
Proof.
  intros Hrep Hp Hfit. pose proof Hrep as (Hv & Hb & Hle & Hcap).
  assert (Hlen : length (take p xs) = p) by (rewrite length_take; lia).
  destruct (decide (length xs < cap)) as [Hlt|Hnlt].
  - destruct (decide (p = length xs)) as [->|Hne].
    + exists (upd h buf (map Live (xs ++ [x]) ++ replicate (cap - S (length xs)) Raw)), cap, buf.
      rewrite take_ge, drop_ge by lia.
      split; [by apply runs_Emplace_end|].
      split; [|by split; [lia|]].
      eapply block_rep_upd; [exact Hb|]. solve_length.
    + destruct (snoc_cases (drop p xs)) as (ys & z & Hdrop).
      { intros Hnil. apply (f_equal length) in Hnil. rewrite length_drop in Hnil.
        simpl in Hnil. lia. }
      assert (Hxs : xs = take p xs ++ ys ++ [z]) by (by rewrite <- Hdrop, take_drop).
      assert (Hlxs : length xs = p + (length ys + 1)).
      { rewrite Hxs at 1. rewrite !length_app, Hlen. done. }
      exists (upd h buf (map Live (take p xs ++ x :: ys ++ [z]) ++
                         replicate (cap - S (length xs)) Raw)), cap, buf.
      rewrite Hdrop.
      assert (Hrun := runs_Emplace_middle h vs this (take p xs) ys z cap buf k x).
      rewrite <- Hxs, Hlen in Hrun.
      split; [by apply Hrun|].
      split; [|by split; [lia|]].
      eapply block_rep_upd; [exact Hb|]. solve_length.
  - assert (Hfull : length xs = cap) by lia.
    destruct Hfit as [?|Hgrown]; [lia|].
    pose proof (grown_gt cap) as Hgt.
    set (nb := new_buf h (grown cap)).
    exists (del (upd h nb (map Live (take p xs ++ x :: drop p xs) ++
                            replicate (grown cap - S cap) Raw)) buf), (grown cap), nb.
    rewrite <- (take_drop p xs) in Hrep, Hfull.
    pose proof (runs_Emplace_full h vs this (take p xs) (drop p xs) cap buf k x
                  Hrep Hfull Hgrown) as Hrun.
    rewrite Hlen in Hrun. simpl in Hrun. fold nb in Hrun.
    rewrite take_drop in Hfull. rewrite Hfull.
    split; [exact Hrun|].
    split; [|by split; [lia|]].
    apply block_rep_del_ne; [apply apart_sym; by eapply new_buf_apart|].
    eapply block_rep_upd; [apply (new_buf_block h (grown cap))|].
    rewrite length_replicate, length_app, length_map, length_replicate.
    rewrite length_app. simpl. rewrite length_take, length_drop. lia.
Qed.

(** A new block that cannot be allocated: [Emplace] into a full vector
    throws. *)
Lemma Emplace_too_big w this xs cap buf p k x :
  vec_rep w this xs cap buf → length xs = cap → p ≤ cap →
  ¬ (N.of_nat (grown cap) ≤ max_alloc T)%N →
  Emplace this (Ptr buf p) k x w = Throw w.
Proof.
  intros Hrep Hfull Hp Hbig.
  destruct (Emplace_full_cases w this xs cap buf p k x Hrep Hfull Hp) as (rest & _ & ->).
  pose proof (grown_gt cap).
  rewrite RawMemory_ctor_cases; [|lia|by apply grown_fits, Hrep]. by rewrite decide_False.
Qed.

(** The same for [PushBack]. *)
Lemma PushBack_too_big w this xs cap buf k (x : operand T) :
  vec_rep w this xs cap buf → length xs = cap →
  ¬ (N.of_nat (grown cap) ≤ max_alloc T)%N →
  PushBack_with k this x w = Throw w.
Proof.
  intros (Hv & Hb & Hle & Hcap) Hfull Hbig. rewrite Hfull in Hv.
  pose proof (max_alloc_bound _ Hcap) as Hmax.
  pose proof (grown_gt cap).
  unfold PushBack_with.
  rewrite (bind_Ok _ _ _ _ _ (get_vec_Ok _ _ _ Hv)).
  rewrite (bind_Ok _ _ _ _ _ (Capacity_Ok _ _ _ Hv)). simpl.
  rewrite decide_True by done.
  assert (Hg : (if decide (cap = 0) then 1 else size_mul cap 2) = grown cap).
  { unfold grown. case_decide; [done|]. apply size_mul_small. lia. }
  rewrite Hg, !bind_assoc_at. unfold bind at 1.
  rewrite RawMemory_ctor_cases; [|lia|by apply grown_fits]. by rewrite decide_False.
Qed.

Lemma lookup_map_Live xs (post : list (slot T)) i (x : T) :
  xs !! i = Some x → (map Live xs ++ post) !! i = Some (Live x).
Proof.
  revert i. induction xs as [|y xs IH]; intros [|i]; simpl; try done.
  - by intros [= ->].
  - apply IH.
Qed.

Lemma vec_rep_of_mem w this xs cap buf h vs :
  heap w = h → vecs w = vs → vec_rep_mem h vs this xs cap buf → vec_rep w this xs cap buf.
Proof. unfold vec_rep. by intros -> ->. Qed.

(** [Erase] at any valid position. *)
Lemma runs_Erase_at h vs this xs cap buf i :
  vec_rep_mem h vs this xs cap buf → i < length xs →
  runs h vs (Erase this (Ptr buf i)) (Ptr buf i)
       (upd h buf (map Live (take i xs ++ drop (S i) xs) ++
                   replicate (cap - (length xs - 1)) Raw))
       (<[this := mkVec (mkRaw buf cap) (length xs - 1)]> vs).
Proof.
  intros Hrep Hi.
  destruct (lookup_lt_is_Some_2 xs i Hi) as [x Hx].
  assert (Hlen : length (take i xs) = i) by (rewrite length_take; lia).
  assert (Hl : length (take i xs ++ drop (S i) xs) = length xs - 1).
  { rewrite length_app, length_take, length_drop. lia. }
  rewrite <- (take_drop_middle xs i x Hx) in Hrep.
  pose proof (runs_Erase h vs this (take i xs) x (drop (S i) xs) cap buf Hrep) as Hrun.
  by rewrite Hlen, Hl in Hrun.
Qed.

(** A vector object has one representation. *)
Lemma vec_rep_inj w this xs ys cap1 cap2 buf1 buf2 :
  vec_rep w this xs cap1 buf1 → vec_rep w this ys cap2 buf2 →
  xs = ys ∧ cap1 = cap2 ∧ buf1 = buf2.
Proof.
  intros (Hv1 & Hb1 & _) (Hv2 & Hb2 & _).
  rewrite Hv1 in Hv2. injection Hv2 as -> -> Hlen.
  split; [|done].
  pose proof (block_rep_inj _ _ _ _ Hb1 Hb2) as Heq. rewrite Hlen in Heq.
  apply app_inv_tail in Heq.
  clear -Heq. revert ys Heq. induction xs as [|x xs IH]; intros [|y ys]; simpl; try done.
  intros [= -> Hrest]. f_equal. by apply IH.
Qed.

(** The object of a vector that [Emplace] has grown. *)
Lemma Emplace_full_object w this xs cap buf p k x r w' :
  vec_rep w this xs cap buf → length xs = cap → p ≤ cap →
  Emplace this (Ptr buf p) k x w = Ok r w' →
  ∃ nb, vecs w' !! this = Some (mkVec (mkRaw nb (grown cap)) (S cap)).
Proof.
  intros Hrep Hfull Hp HOk.
  destruct (decide (N.of_nat (grown cap) ≤ max_alloc T)%N) as [Hfit|Hbig].
  - destruct (runs_Emplace _ _ _ _ _ _ p k x Hrep) as (h' & cap' & buf' & Hrun & _ & _ & _ & ->);
      [lia|by right|].
    pose proof (spec_Ok _ _ _ _ _ (Hrun w eq_refl eq_refl) HOk) as (_ & _ & Hvs).
    exists buf'. rewrite Hvs, lookup_insert_eq, decide_False, Hfull by lia. done.
  - by rewrite (Emplace_too_big w this xs cap buf p k x) in HOk.
Qed.

(** The object of a vector that [PushBack] has grown. *)
Lemma PushBack_full_object w this xs cap buf k x w' :
  vec_rep w this xs cap buf → length xs = cap →
  PushBack_with k this (Outside x) w = Ok tt w' →
  ∃ nb, vecs w' !! this = Some (mkVec (mkRaw nb (grown cap)) (S cap)).
Proof.
  intros Hrep Hfull HOk.
  destruct (decide (N.of_nat (grown cap) ≤ max_alloc T)%N) as [Hfit|Hbig].
  - pose proof (runs_PushBack_full _ _ _ _ _ _ k x Hrep Hfull Hfit w eq_refl eq_refl) as Hrun.
    pose proof (spec_Ok _ _ _ _ _ Hrun HOk) as (_ & _ & Hvs).
    eexists. rewrite Hvs. apply lookup_insert_eq.
  - by rewrite (PushBack_too_big w this xs cap buf k (Outside x)) in HOk.
Qed.

Lemma bind_ret_Ok {A} (m : M T A) w w' :
  bind m (λ _, ret tt) w = Ok tt w' → ∃ a, m w = Ok a w'.
Proof. unfold bind, ret. destruct (m w) as [a w1| |]; [|done..]. intros [= <-]. eauto. Qed.

(** ** Every operation that returns keeps the vector consistent *)

Lemma vec_rep_after w w' this h vs ys cap buf (b : list (slot T)) :
  heap w' = upd h buf b → vecs w' = <[this := mkVec (mkRaw buf cap) (length ys)]> vs →
  b = map Live ys ++ replicate (cap - length ys) Raw →
  (buf = None → b = []) →
  length ys ≤ cap → (N.of_nat cap ≤ max_alloc T)%N →
  vec_rep w' this ys cap buf.
Proof.
  intros Hh Hvs -> Hnull Hle Hcap. unfold vec_rep, vec_rep_mem. rewrite Hh, Hvs.
  split; [apply lookup_insert_eq|]. split; [|done].
  destruct buf as [l|]; simpl; [apply lookup_insert_eq|by apply Hnull].
Qed.

Lemma block_rep_null h (b : list (slot T)) : block_rep h None b → b = [].
Proof. done. Qed.

Lemma Emplace_keeps_rep w this xs cap buf p k x r w' :
  vec_rep w this xs cap buf → p ≤ length xs →
  Emplace this (Ptr buf p) k x w = Ok r w' →
  represented w' this.
Proof.
  intros Hrep Hp HOk. pose proof Hrep as (Hv & Hb & Hle & Hcap).
  assert (Hfit : length xs < cap ∨ (N.of_nat (grown cap) ≤ max_alloc T)%N).
  { destruct (decide (length xs < cap)) as [|Hnlt]; [by left|].
    destruct (decide (N.of_nat (grown cap) ≤ max_alloc T)%N) as [|Hbig]; [by right|].
    rewrite (Emplace_too_big w this xs cap buf p k x) in HOk; [done|done|lia|lia|done]. }
  destruct (runs_Emplace _ _ _ _ _ _ p k x Hrep Hp Hfit)
    as (h' & cap' & buf' & Hrun & Hblk & Hle' & Hcap' & _).
  pose proof (spec_Ok _ _ _ _ _ (Hrun w eq_refl eq_refl) HOk) as (_ & Hh & Hvs).
  destruct (insert_at_lookups xs p x Hp) as (Hlen & _).
  exists (take p xs ++ x :: drop p xs), cap', buf'.
  unfold vec_rep, vec_rep_mem. rewrite Hh, Hvs, Hlen.
  split; [apply lookup_insert_eq|]. by split; [|split].
Qed.

Lemma PushBack_keeps_rep w this xs cap buf k x w' :
  vec_rep w this xs cap buf →
  PushBack_with k this (Outside x) w = Ok tt w' →
  represented w' this.
Proof.
  intros Hrep HOk. pose proof Hrep as (Hv & Hb & Hle & Hcap).
  destruct (decide (length xs < cap)) as [Hlt|Hnlt].
  - pose proof (runs_PushBack_room _ _ _ _ _ _ k x Hrep Hlt w eq_refl eq_refl) as Hrun.
    pose proof (spec_Ok _ _ _ _ _ Hrun HOk) as (_ & Hh & Hvs).
    exists (xs ++ [x]), cap, buf.
    unfold vec_rep, vec_rep_mem. rewrite Hh, Hvs, length_app. simpl.
    replace (length xs + 1) with (S (length xs)) by lia.
    split; [apply lookup_insert_eq|]. split; [|split; [lia|done]].
    eapply block_rep_upd; [exact Hb|]. solve_length.
  - assert (Hfull : length xs = cap) by lia.
    destruct (decide (N.of_nat (grown cap) ≤ max_alloc T)%N) as [Hfit|Hbig];
      [|by rewrite (PushBack_too_big w this xs cap buf k (Outside x)) in HOk].
    pose proof (runs_PushBack_full _ _ _ _ _ _ k x Hrep Hfull Hfit w eq_refl eq_refl) as Hrun.
    pose proof (spec_Ok _ _ _ _ _ Hrun HOk) as (_ & Hh & Hvs). simpl in Hh, Hvs.
    pose proof (grown_gt cap) as Hgt.
    set (nb := new_buf (heap w) (grown cap)) in *.
    exists (xs ++ [x]), (grown cap), nb.
    unfold vec_rep, vec_rep_mem. rewrite Hh, Hvs, length_app, Hfull. simpl.
    replace (cap + 1) with (S cap) by lia.
    split; [apply lookup_insert_eq|]. split; [|split; [lia|done]].
    apply block_rep_del_ne; [apply apart_sym; by eapply new_buf_apart|].
    eapply block_rep_upd; [apply (new_buf_block (heap w) (grown cap))|].
    solve_length.
Qed.

(** A new block that cannot be allocated: [Reserve] throws. *)
Lemma Reserve_too_big w this v n :
  vecs w !! this = Some v → capacity_ (data_ v) < n →
  ¬ (N.of_nat n ≤ max_alloc T)%N → fits_size_t T n →
  Reserve this n w = Throw w.
Proof.
  intros Hv Hlt Hbig Hfits. unfold Reserve.
  rewrite (bind_Ok _ _ _ _ _ (get_vec_Ok _ _ _ Hv)).
  rewrite decide_False by (unfold RawMemory_Capacity; lia).
  unfold bind at 1. rewrite RawMemory_ctor_cases; [|lia|done]. by rewrite decide_False.
Qed.

Lemma Reserve_keeps_rep w this xs cap buf n w' :
  vec_rep w this xs cap buf → fits_size_t T n →
  Reserve this n w = Ok tt w' →
  ∃ cap' buf', vec_rep w' this xs cap' buf'.
Proof.
  intros Hrep Hfits HOk. pose proof Hrep as (Hv & Hb & Hle & Hcap).
  destruct (decide (n ≤ cap)) as [Hfit|Hgrow].
  - unfold Reserve in HOk. rewrite (bind_Ok _ _ _ _ _ (get_vec_Ok _ _ _ Hv)) in HOk.
    rewrite decide_True in HOk by done. injection HOk as <-. eauto.
  - destruct (decide (N.of_nat n ≤ max_alloc T)%N) as [Hn|Hbig];
      [|rewrite (Reserve_too_big w this _ n Hv) in HOk; [done|simpl; lia|done|done]].
    assert (Hlt : cap < n) by lia.
    pose proof (runs_Reserve_grow _ _ _ _ _ _ n Hrep Hlt Hn w eq_refl eq_refl) as Hrun.
    pose proof (spec_Ok _ _ _ _ _ Hrun HOk) as (_ & Hh & Hvs). simpl in Hh, Hvs.
    set (nb := new_buf (heap w) n) in *.
    exists n, nb.
    unfold vec_rep, vec_rep_mem. rewrite Hh, Hvs.
    split; [apply lookup_insert_eq|]. split; [|split; [lia|done]].
    apply block_rep_del_ne; [apply apart_sym; by eapply new_buf_apart|].
    eapply block_rep_upd; [apply (new_buf_block (heap w) n)|]. solve_length.
Qed.

Lemma Resize_keeps_rep w this xs cap buf n w' :
  vec_rep w this xs cap buf → fits_size_t T n →
  Resize this n w = Ok tt w' →
  represented w' this.
Proof.
  intros Hrep Hfits HOk. pose proof Hrep as (Hv & Hb & Hle & Hcap).
  destruct (decide (n < length xs)) as [Hshrink|Hnshrink].
  - pose proof (runs_Resize_shrink _ _ _ _ _ _ n Hrep Hshrink w eq_refl eq_refl) as Hrun.
    pose proof (spec_Ok _ _ _ _ _ Hrun HOk) as (_ & Hh & Hvs).
    assert (Hl : length (take n xs) = n) by (rewrite length_take; lia).
    exists (take n xs), cap, buf.
    unfold vec_rep, vec_rep_mem. rewrite Hh, Hvs, Hl.
    split; [apply lookup_insert_eq|]. split; [|split; [lia|done]].
    eapply block_rep_upd; [exact Hb|]. solve_length.
  - destruct (decide (n = length xs)) as [->|Hne].
    + (* nothing to construct or destroy *)
      unfold Resize in HOk. rewrite (bind_Ok _ _ _ _ _ (get_vec_Ok _ _ _ Hv)) in HOk.
      simpl in HOk. rewrite !decide_False in HOk by lia.
      rewrite (bind_Ok _ _ w tt w eq_refl) in HOk.
      unfold set_size in HOk. rewrite (bind_Ok _ _ _ _ _ (get_vec_Ok _ _ _ Hv)) in HOk.
      injection HOk as <-.
      exists xs, cap, buf. unfold vec_rep, vec_rep_mem. simpl.
      split; [apply lookup_insert_eq|]. by split; [|split].
    + assert (Hgrow : length xs < n) by lia.
      assert (Hl : length (xs ++ replicate (n - length xs) value_init) = n).
      { rewrite length_app, length_replicate. lia. }
      destruct (decide (n ≤ cap)) as [Hfit|Hnofit].
      * pose proof (runs_Resize_grow_room _ _ _ _ _ _ n Hrep Hgrow Hfit w eq_refl eq_refl)
          as Hrun.
        pose proof (spec_Ok _ _ _ _ _ Hrun HOk) as (_ & Hh & Hvs).
        exists (xs ++ replicate (n - length xs) value_init), cap, buf.
        unfold vec_rep, vec_rep_mem. rewrite Hh, Hvs, Hl.
        split; [apply lookup_insert_eq|]. split; [|split; [lia|done]].
        eapply block_rep_upd; [exact Hb|]. solve_length.
      * assert (Hlt : cap < n) by lia.
        destruct (decide (N.of_nat n ≤ max_alloc T)%N) as [Hn|Hbig].
        -- pose proof (runs_Resize_grow_realloc _ _ _ _ _ _ n Hrep Hlt Hn w eq_refl eq_refl)
             as Hrun.
           pose proof (spec_Ok _ _ _ _ _ Hrun HOk) as (_ & Hh & Hvs). simpl in Hh, Hvs.
           set (nb := new_buf (heap w) n) in *.
           exists (xs ++ replicate (n - length xs) value_init), n, nb.
           unfold vec_rep, vec_rep_mem. rewrite Hh, Hvs, Hl, Nat.sub_diag. simpl.
           rewrite app_nil_r.
           split; [apply lookup_insert_eq|]. split; [|split; [lia|done]].
           apply block_rep_del_ne; [apply apart_sym; by eapply new_buf_apart|].
           eapply block_rep_upd; [apply (new_buf_block (heap w) n)|]. solve_length.
        -- unfold Resize in HOk. rewrite (bind_Ok _ _ _ _ _ (get_vec_Ok _ _ _ Hv)) in HOk.
           simpl in HOk. rewrite decide_False, decide_True in HOk by lia.
           rewrite !bind_assoc_at in HOk. unfold bind at 1 in HOk.
           by rewrite (Reserve_too_big w this _ n Hv) in HOk by (simpl; lia || done).
Qed.

Lemma PopBack_keeps_rep w this xs cap buf w' :
  vec_rep w this xs cap buf →
  PopBack this w = Ok tt w' →
  represented w' this.
Proof.
  intros Hrep HOk. pose proof Hrep as (Hv & Hb & Hle & Hcap).
  destruct (decide (xs = [])) as [->|Hne].
  - (* the assertion fails *)
    unfold PopBack in HOk. rewrite (bind_Ok _ _ _ _ _ (get_vec_Ok _ _ _ Hv)) in HOk.
    simpl in HOk. done.
  - destruct (snoc_cases xs Hne) as (pre & x & ->).
    pose proof (runs_PopBack _ _ _ _ _ _ _ Hrep w eq_refl eq_refl) as Hrun.
    pose proof (spec_Ok _ _ _ _ _ Hrun HOk) as (_ & Hh & Hvs).
    rewrite length_app in Hle. simpl in Hle.
    exists pre, cap, buf.
    unfold vec_rep, vec_rep_mem. rewrite Hh, Hvs.
    split; [apply lookup_insert_eq|]. split; [|split; [lia|done]].
    eapply block_rep_upd; [exact Hb|]. solve_length.
Qed.

Lemma Erase_keeps_rep w this xs cap buf i r w' :
  vec_rep w this xs cap buf → i < length xs →
  Erase this (Ptr buf i) w = Ok r w' →
  represented w' this.
Proof.
  intros Hrep Hi HOk. pose proof Hrep as (Hv & Hb & Hle & Hcap).
  pose proof (runs_Erase_at _ _ _ _ _ _ i Hrep Hi w eq_refl eq_refl) as Hrun.
  pose proof (spec_Ok _ _ _ _ _ Hrun HOk) as (_ & Hh & Hvs).
  destruct (remove_at_lookups xs i Hi) as (Hlen & _).
  exists (take i xs ++ drop (S i) xs), cap, buf.
  unfold vec_rep, vec_rep_mem. rewrite Hh, Hvs, Hlen.
  split; [apply lookup_insert_eq|]. split; [|split; [lia|done]].
  eapply block_rep_upd; [exact Hb|].
  rewrite !length_app, !length_map, !length_replicate, length_app,
    length_take, length_drop. lia.
Qed.

(** Every operation on one vector that returns normally leaves it in a
    consistent state: [size_ <= capacity_], the slots below [size_] alive
    and the slots from [size_] on raw; the byte count of a block asked for
    must not wrap. *)
Lemma normal_return_keeps_representation w this op w' :
  represented w this →
  (∀ xs cap buf, vec_rep w this xs cap buf → positions_valid (length xs) op) →
  request_fits op →
  run_operation this op w = Ok tt w' →
  represented w' this.
Proof.
  intros (xs & cap & buf & Hrep) Hvalid Hfits HOk. specialize (Hvalid _ _ _ Hrep).
  pose proof Hrep as (Hv & _).
  assert (Hemplace : ∀ p k x, p ≤ length xs →
            bind (begin_ this) (λ b, bind (Emplace this (b +ₚ p) k x) (λ _, ret tt)) w
            = Ok tt w' → represented w' this).
  { intros p k x Hp. rewrite (bind_Ok _ _ _ _ _ (begin_Ok _ _ _ Hv)).
    intros (r & Hr)%bind_ret_Ok.
    by eapply (Emplace_keeps_rep w this xs cap buf p k x). }
  destruct op as [[value|value|k x|p k x|p value|p value]|n|n| |i]; simpl in HOk, Hvalid.
  - by eapply PushBack_keeps_rep.
  - by eapply PushBack_keeps_rep.
  - apply bind_ret_Ok in HOk as (r & Hr). unfold EmplaceBack in Hr.
    rewrite (bind_Ok _ _ _ _ _ (get_vec_Ok _ _ _ Hv)) in Hr.
    by eapply (Emplace_keeps_rep w this xs cap buf (length xs)).
  - apply (Hemplace p k x); [by apply Hvalid|done].
  - apply (Hemplace p CopyCtor value); [by apply Hvalid|done].
  - apply (Hemplace p MoveCtor value); [by apply Hvalid|done].
  - destruct (Reserve_keeps_rep _ _ _ _ _ _ _ Hrep Hfits HOk) as (cap' & buf' & Hrep').
    by exists xs, cap', buf'.
  - by eapply Resize_keeps_rep.
  - by eapply PopBack_keeps_rep.
  - rewrite (bind_Ok _ _ _ _ _ (begin_Ok _ _ _ Hv)) in HOk.
    apply bind_ret_Ok in HOk as (r & Hr).
    by eapply (Erase_keeps_rep w this xs cap buf i).
Qed.

End Positions.

(** ** What an operation leaves behind: the new vector and everything else *)

Section Effects.
Context {T : Type} `{ET : Elem T}.
Implicit Types (w : World T) (buf : option positive) (xs ys : list T).

Lemma untouched_refl w this buf : untouched_outside w w this buf.
Proof. by split. Qed.

Lemma untouched_trans w1 w2 w3 this buf1 buf2 :
  untouched_outside w1 w2 this buf1 → untouched_outside w2 w3 this buf2 →
  (∀ l b, buf1 ≠ Some l → heap w1 !! l = Some b → buf2 ≠ Some l) →
  untouched_outside w1 w3 this buf1.
Proof.
  intros [Ho1 Hb1] [Ho2 Hb2] Hown. split.
  - intros o Ho. rewrite Ho2, Ho1 by done. done.
  - intros l b Hl Hlb. apply Hb2; [by eapply Hown|]. by apply Hb1.
Qed.

(** Another vector, with a block of its own, is not affected. *)
Lemma vec_rep_frame w w' this buf other ys capo bufo :
  untouched_outside w w' this buf → other ≠ this → apart bufo buf →
  vec_rep w other ys capo bufo → vec_rep w' other ys capo bufo.
Proof.
  intros [Hobj Hblk] Hne Ha (Hv & Hb & Hle & Hcap).
  unfold vec_rep, vec_rep_mem. rewrite Hobj by done.
  split; [done|]. split; [|done].
  destruct bufo as [l|]; simpl in *; [|done].
  apply Hblk; [|done]. intros E. exact (Ha l eq_refl E).
Qed.

Lemma new_buf_is_new (h : gmap positive (list (slot T))) buf n :
  same_or_new h buf (new_buf h n).
Proof.
  right. intros l. unfold new_buf. case_decide; [|done].
  intros [= <-]. apply fresh_unused.
Qed.

(** A block that exists is apart from the block a vector has moved to. *)
Lemma apart_same_or_new (h : gmap positive (list (slot T))) buf buf' bufo (b : list (slot T)) :
  same_or_new h buf buf' → apart bufo buf → block_rep h bufo b → apart bufo buf'.
Proof.
  intros [->|Hnew] Ha Hb; [done|].
  intros l -> E. simpl in Hb. by rewrite (Hnew l E) in Hb.
Qed.

(** The vector after an operation that rewrote its block in place. *)
Lemma in_place_effect w w' this xs cap buf ys (b : list (slot T)) n :
  vec_rep w this xs cap buf →
  heap w' = upd (heap w) buf b →
  vecs w' = <[this := mkVec (mkRaw buf cap) n]> (vecs w) →
  n = length ys → b = map Live ys ++ replicate (cap - n) Raw → n ≤ cap →
  vec_rep w' this ys cap buf ∧ untouched_outside w w' this buf.
Proof.
  intros (Hv & Hb & Hle & Hcap) Hh Hvs -> -> Hn. split.
  - unfold vec_rep, vec_rep_mem. rewrite Hh, Hvs.
    split; [apply lookup_insert_eq|]. split; [|done].
    eapply block_rep_upd; [exact Hb|]. solve_length.
  - split.
    + intros o Ho. rewrite Hvs. apply lookup_insert_ne. congruence.
    + intros l b Hl Hlb. rewrite Hh. destruct buf as [l0|]; simpl; [|done].
      rewrite lookup_insert_ne; [done|]. congruence.
Qed.

(** The vector after an operation that moved it into a new block of [n]
    elements and released the old one. *)
Lemma realloc_effect w w' this xs cap buf ys (b : list (slot T)) n m :
  vec_rep w this xs cap buf →
  heap w' = del (upd (heap w) (new_buf (heap w) n) b) buf →
  vecs w' = <[this := mkVec (mkRaw (new_buf (heap w) n) n) m]> (vecs w) →
  m = length ys → b = map Live ys ++ replicate (n - m) Raw → m ≤ n →
  (N.of_nat n ≤ max_alloc T)%N →
  vec_rep w' this ys n (new_buf (heap w) n) ∧ untouched_outside w w' this buf.
Proof.
  intros (Hv & Hb & Hle & Hcap) Hh Hvs -> -> Hm Hn.
  assert (Ha : apart buf (new_buf (heap w) n)) by (by eapply new_buf_apart).
  split.
  - unfold vec_rep, vec_rep_mem. rewrite Hh, Hvs.
    split; [apply lookup_insert_eq|]. split; [|done].
    apply block_rep_del_ne; [by apply apart_sym|].
    eapply block_rep_upd; [apply (new_buf_block (heap w) n)|]. solve_length.
  - split.
    + intros o Ho. rewrite Hvs. apply lookup_insert_ne. congruence.
    + intros l b' Hl Hlb. rewrite Hh.
      assert (Hin : ∀ b0, upd (heap w) (new_buf (heap w) n) b0 !! l = Some b').
      { intros b0. unfold new_buf. case_decide; simpl; [|done].
        rewrite lookup_insert_ne; [done|]. intros <-. by rewrite fresh_unused in Hlb. }
      destruct buf as [l0|]; simpl; [|by apply Hin].
      rewrite lookup_delete_ne; [by apply Hin|congruence].
Qed.

(** [PushBack] of an operand, from what its clean runs leave: the elements
    [ys], in the block the vector had or in a new one. *)
Lemma PushBack_effect_from w this xs cap buf k value ys w' :
  vec_rep w this xs cap buf → length ys = S (length xs) →
  (length xs < cap →
   runs (heap w) (vecs w) (PushBack_with k this value) tt
        (upd (heap w) buf (map Live ys ++ replicate (cap - S (length xs)) Raw))
        (<[this := mkVec (mkRaw buf cap) (S (length xs))]> (vecs w))) →
  (length xs = cap → (N.of_nat (grown cap) ≤ max_alloc T)%N →
   runs (heap w) (vecs w) (PushBack_with k this value) tt
        (del (upd (heap w) (new_buf (heap w) (grown cap))
                  (map Live ys ++ replicate (grown cap - S cap) Raw)) buf)
        (<[this := mkVec (mkRaw (new_buf (heap w) (grown cap)) (grown cap)) (S cap)]>
           (vecs w))) →
  PushBack_with k this value w = Ok tt w' →
  ∃ buf', vec_rep w' this ys
                  (if decide (length xs < cap) then cap else grown cap) buf' ∧
          (length xs < cap → buf' = buf) ∧
          untouched_outside w w' this buf ∧
          same_or_new (heap w) buf buf'.
Proof.
  intros Hrep Hys Hroom Hgrow HOk. pose proof Hrep as (Hv & Hb & Hle & Hcap).
  destruct (decide (length xs < cap)) as [Hlt|Hnlt].
  - pose proof (spec_Ok _ _ _ _ _ (Hroom Hlt w eq_refl eq_refl) HOk) as (_ & Hh & Hvs).
    destruct (in_place_effect w w' this xs cap buf ys _ _ Hrep Hh Hvs)
      as [Hrep' Hout]; [lia|done|lia|].
    exists buf. split; [done|]. split; [done|]. split; [done|by left].
  - assert (Hfull : length xs = cap) by lia.
    destruct (decide (N.of_nat (grown cap) ≤ max_alloc T)%N) as [Hfit|Hbig];
      [|by rewrite (PushBack_too_big w this xs cap buf k value) in HOk].
    pose proof (spec_Ok _ _ _ _ _ (Hgrow Hfull Hfit w eq_refl eq_refl) HOk) as (_ & Hh & Hvs).
    simpl in Hh, Hvs.
    pose proof (grown_gt cap) as Hgt.
    destruct (realloc_effect w w' this xs cap buf ys _ _ _ Hrep Hh Hvs)
      as [Hrep' Hout]; [lia|done|lia|done|].
    exists (new_buf (heap w) (grown cap)).
    split; [done|]. split; [lia|]. split; [done|apply new_buf_is_new].
Qed.

Lemma PushBack_effect w this xs cap buf k x w' :
  vec_rep w this xs cap buf →
  PushBack_with k this (Outside x) w = Ok tt w' →
  ∃ buf', vec_rep w' this (xs ++ [x])
                  (if decide (length xs < cap) then cap else grown cap) buf' ∧
          (length xs < cap → buf' = buf) ∧
          untouched_outside w w' this buf ∧
          same_or_new (heap w) buf buf'.
Proof.
  intros Hrep HOk.
  apply (PushBack_effect_from w this xs cap buf k (Outside x)); [done|solve_length| | |done].
  - intros Hlt. by apply runs_PushBack_room.
  - intros Hfull Hfit. by apply runs_PushBack_full.
Qed.

(** [PushBack] of an element of the vector itself. *)
Lemma PushBack_effect_own w this xs cap buf k i x w' :
  vec_rep w this xs cap buf → xs !! i = Some x →
  PushBack_with k this (Element (Ptr buf i)) w = Ok tt w' →
  ∃ buf', vec_rep w' this
                  (if decide (length xs < cap)
                   then (if decide (k = MoveCtor) then <[i := moved_from x]> xs else xs) ++ [x]
                   else xs ++ [transferred x])
                  (if decide (length xs < cap) then cap else grown cap) buf' ∧
          (length xs < cap → buf' = buf) ∧
          untouched_outside w w' this buf ∧
          same_or_new (heap w) buf buf'.
Proof.
  intros Hrep Hx HOk.
  apply (PushBack_effect_from w this xs cap buf k (Element (Ptr buf i))); [done| | | |done].
  - repeat case_decide; rewrite length_app, ?length_insert; simpl; lia.
  - intros Hlt. rewrite decide_True by done. by apply runs_PushBack_room_own.
  - intros Hfull Hfit. rewrite decide_False by lia. by apply runs_PushBack_full_own.
Qed.

Lemma Emplace_effect w this xs cap buf p k x r w' :
  vec_rep w this xs cap buf → p ≤ length xs →
  Emplace this (Ptr buf p) k x w = Ok r w' →
  ∃ buf', vec_rep w' this (take p xs ++ x :: drop p xs)
                  (if decide (length xs < cap) then cap else grown cap) buf' ∧
          r = Ptr buf' p ∧
          (length xs < cap → buf' = buf) ∧
          untouched_outside w w' this buf ∧
          same_or_new (heap w) buf buf'.
Proof.
  intros Hrep Hp HOk. pose proof Hrep as (Hv & Hb & Hle & Hcap).
  assert (Hlen : length (take p xs) = p) by (rewrite length_take; lia).
  destruct (insert_at_lookups xs p x Hp) as (Hl & _).
  destruct (decide (length xs < cap)) as [Hlt|Hnlt].
  - assert (Hrun : runs (heap w) (vecs w) (Emplace this (Ptr buf p) k x) (Ptr buf p)
              (upd (heap w) buf (map Live (take p xs ++ x :: drop p xs) ++
                                 replicate (cap - S (length xs)) Raw))
              (<[this := mkVec (mkRaw buf cap) (S (length xs))]> (vecs w))).
    { destruct (decide (p = length xs)) as [->|Hne].
      - rewrite take_ge, drop_ge by lia. by apply runs_Emplace_end.
      - destruct (snoc_cases (drop p xs)) as (zs & z & Hdrop).
        { intros Hnil. apply (f_equal length) in Hnil. rewrite length_drop in Hnil.
          simpl in Hnil. lia. }
        assert (Hxs : xs = take p xs ++ zs ++ [z]) by (by rewrite <- Hdrop, take_drop).
        assert (Hrun := runs_Emplace_middle (heap w) (vecs w) this (take p xs) zs z cap buf k x).
        rewrite <- Hxs, Hlen in Hrun. rewrite Hdrop. by apply Hrun. }
    pose proof (spec_Ok _ _ _ _ _ (Hrun w eq_refl eq_refl) HOk) as (-> & Hh & Hvs).
    destruct (in_place_effect w w' this xs cap buf (take p xs ++ x :: drop p xs) _ _
                Hrep Hh Hvs) as [Hrep' Hout]; [done|done|lia|].
    exists buf. split; [done|]. split; [done|]. split; [done|]. split; [done|by left].
  - assert (Hfull : length xs = cap) by lia.
    destruct (decide (N.of_nat (grown cap) ≤ max_alloc T)%N) as [Hfit|Hbig];
      [|rewrite (Emplace_too_big w this xs cap buf p k x) in HOk; [done|done|done|lia|done]].
    pose proof (grown_gt cap) as Hgt.
    assert (Hrep2 := Hrep). rewrite <- (take_drop p xs) in Hrep2.
    assert (Hfull2 : length (take p xs ++ drop p xs) = cap) by (by rewrite take_drop).
    pose proof (runs_Emplace_full _ _ _ _ _ _ _ k x Hrep2 Hfull2 Hfit) as Hrun.
    rewrite Hlen in Hrun. simpl in Hrun.
    pose proof (spec_Ok _ _ _ _ _ (Hrun w eq_refl eq_refl) HOk) as (-> & Hh & Hvs).
    destruct (realloc_effect w w' this xs cap buf (take p xs ++ x :: drop p xs) _ _ _
                Hrep Hh Hvs) as [Hrep' Hout]; [lia|done|lia|done|].
    exists (new_buf (heap w) (grown cap)).
    split; [done|]. split; [done|]. split; [lia|]. split; [done|apply new_buf_is_new].
Qed.

Lemma Reserve_effect w this xs cap buf n w' :
  vec_rep w this xs cap buf → fits_size_t T n →
  Reserve this n w = Ok tt w' →
  ∃ buf', vec_rep w' this xs (if decide (n ≤ cap) then cap else n) buf' ∧
          (n ≤ cap → w' = w) ∧
          untouched_outside w w' this buf ∧
          same_or_new (heap w) buf buf'.
Proof.
  intros Hrep Hfits HOk. pose proof Hrep as (Hv & Hb & Hle & Hcap).
  destruct (decide (n ≤ cap)) as [Hfit|Hgrow].
  - unfold Reserve in HOk. rewrite (bind_Ok _ _ _ _ _ (get_vec_Ok _ _ _ Hv)) in HOk.
    rewrite decide_True in HOk by done. injection HOk as <-.
    exists buf. split; [done|]. split; [done|]. split; [apply untouched_refl|by left].
  - destruct (decide (N.of_nat n ≤ max_alloc T)%N) as [Hn|Hbig];
      [|rewrite (Reserve_too_big w this _ n Hv) in HOk; [done|simpl; lia|done|done]].
    assert (Hlt : cap < n) by lia.
    pose proof (runs_Reserve_grow _ _ _ _ _ _ n Hrep Hlt Hn w eq_refl eq_refl) as Hrun.
    pose proof (spec_Ok _ _ _ _ _ Hrun HOk) as (_ & Hh & Hvs). simpl in Hh, Hvs.
    destruct (realloc_effect w w' this xs cap buf xs _ _ _ Hrep Hh Hvs)
      as [Hrep' Hout]; [done|done|lia|done|].
    exists (new_buf (heap w) n).
    split; [done|]. split; [lia|]. split; [done|apply new_buf_is_new].
Qed.

Lemma Resize_effect w this xs cap buf n w' :
  vec_rep w this xs cap buf → fits_size_t T n →
  Resize this n w = Ok tt w' →
  ∃ buf', vec_rep w' this (take n xs ++ replicate (n - length xs) value_init)
                  (if decide (n ≤ cap) then cap else n) buf' ∧
          (n ≤ cap → buf' = buf) ∧
          untouched_outside w w' this buf ∧
          same_or_new (heap w) buf buf'.
Proof.
  intros Hrep Hfits HOk. pose proof Hrep as (Hv & Hb & Hle & Hcap).
  destruct (decide (n < length xs)) as [Hshrink|Hnshrink].
  - pose proof (runs_Resize_shrink _ _ _ _ _ _ n Hrep Hshrink w eq_refl eq_refl) as Hrun.
    pose proof (spec_Ok _ _ _ _ _ Hrun HOk) as (_ & Hh & Hvs).
    replace (n - length xs) with 0 by lia. simpl. rewrite app_nil_r.
    rewrite decide_True by lia.
    destruct (in_place_effect w w' this xs cap buf (take n xs) _ _ Hrep Hh Hvs)
      as [Hrep' Hout]; [rewrite length_take; lia|done|lia|].
    exists buf. split; [done|]. split; [done|]. split; [done|by left].
  - rewrite take_ge by lia.
    destruct (decide (n = length xs)) as [->|Hne].
    + (* nothing to construct or destroy *)
      unfold Resize in HOk. rewrite (bind_Ok _ _ _ _ _ (get_vec_Ok _ _ _ Hv)) in HOk.
      simpl in HOk. rewrite !decide_False in HOk by lia.
      rewrite (bind_Ok _ _ w tt w eq_refl) in HOk.
      unfold set_size in HOk. rewrite (bind_Ok _ _ _ _ _ (get_vec_Ok _ _ _ Hv)) in HOk.
      injection HOk as <-.
      rewrite Nat.sub_diag. simpl. rewrite app_nil_r, decide_True by lia.
      destruct (in_place_effect w (set_vecs (<[this := mkVec (mkRaw buf cap) (length xs)]> (vecs w)) w)
                  this xs cap buf xs (map Live xs ++ replicate (cap - length xs) Raw)
                  (length xs) Hrep) as [Hrep' Hout]; [|done|done|done|lia|].
      { simpl. symmetry. by apply upd_id. }
      exists buf. split; [done|]. split; [done|]. split; [done|by left].
    + assert (Hgrow : length xs < n) by lia.
      destruct (decide (n ≤ cap)) as [Hfit|Hnofit].
      * pose proof (runs_Resize_grow_room _ _ _ _ _ _ n Hrep Hgrow Hfit w eq_refl eq_refl)
          as Hrun.
        pose proof (spec_Ok _ _ _ _ _ Hrun HOk) as (_ & Hh & Hvs).
        destruct (in_place_effect w w' this xs cap buf
                    (xs ++ replicate (n - length xs) value_init) _ _ Hrep Hh Hvs)
          as [Hrep' Hout]; [solve_length|done|lia|].
        exists buf. split; [done|]. split; [done|]. split; [done|by left].
      * assert (Hlt : cap < n) by lia.
        destruct (decide (N.of_nat n ≤ max_alloc T)%N) as [Hn|Hbig].
        -- pose proof (runs_Resize_grow_realloc _ _ _ _ _ _ n Hrep Hlt Hn w eq_refl eq_refl)
             as Hrun.
           pose proof (spec_Ok _ _ _ _ _ Hrun HOk) as (_ & Hh & Hvs). simpl in Hh, Hvs.
           destruct (realloc_effect w w' this xs cap buf
                       (xs ++ replicate (n - length xs) value_init) _ _ _ Hrep Hh Hvs)
             as [Hrep' Hout]; [solve_length|by rewrite Nat.sub_diag, app_nil_r|lia|done|].
           exists (new_buf (heap w) n).
           split; [done|]. split; [lia|]. split; [done|apply new_buf_is_new].
        -- unfold Resize in HOk. rewrite (bind_Ok _ _ _ _ _ (get_vec_Ok _ _ _ Hv)) in HOk.
           simpl in HOk. rewrite decide_False, decide_True in HOk by lia.
           rewrite !bind_assoc_at in HOk. unfold bind at 1 in HOk.
           by rewrite (Reserve_too_big w this _ n Hv) in HOk by (simpl; lia || done).
Qed.

Lemma PopBack_effect w this xs cap buf w' :
  vec_rep w this xs cap buf →
  PopBack this w = Ok tt w' →
  xs ≠ [] ∧
  vec_rep w' this (take (length xs - 1) xs) cap buf ∧
  untouched_outside w w' this buf.
Proof.
  intros Hrep HOk. pose proof Hrep as (Hv & Hb & Hle & Hcap).
  destruct (decide (xs = [])) as [->|Hne].
  - (* the assertion fails *)
    unfold PopBack in HOk. rewrite (bind_Ok _ _ _ _ _ (get_vec_Ok _ _ _ Hv)) in HOk.
    simpl in HOk. done.
  - split; [done|].
    destruct (snoc_cases xs Hne) as (pre & x & ->).
    pose proof (runs_PopBack _ _ _ _ _ _ _ Hrep w eq_refl eq_refl) as Hrun.
    pose proof (spec_Ok _ _ _ _ _ Hrun HOk) as (_ & Hh & Hvs).
    rewrite length_app in *. simpl in *.
    replace (length pre + 1 - 1) with (length pre) by lia.
    rewrite take_app_length.
    apply (in_place_effect w w' this (pre ++ [x]) cap buf pre _ _ Hrep Hh Hvs); [done|done|lia].
Qed.

Lemma Erase_effect w this xs cap buf i r w' :
  vec_rep w this xs cap buf → i < length xs →
  Erase this (Ptr buf i) w = Ok r w' →
  vec_rep w' this (take i xs ++ drop (S i) xs) cap buf ∧
  r = Ptr buf i ∧
  untouched_outside w w' this buf.
Proof.
  intros Hrep Hi HOk. pose proof Hrep as (Hv & Hb & Hle & Hcap).
  pose proof (runs_Erase_at _ _ _ _ _ _ i Hrep Hi w eq_refl eq_refl) as Hrun.
  pose proof (spec_Ok _ _ _ _ _ Hrun HOk) as (-> & Hh & Hvs).
  destruct (remove_at_lookups xs i Hi) as (Hlen & _).
  destruct (in_place_effect w w' this xs cap buf (take i xs ++ drop (S i) xs) _ _
              Hrep Hh Hvs) as [Hrep' Hout]; [done|done|lia|].
  done.
Qed.

(** A request within the capacity, or one that can be satisfied, has a byte
    count that does not wrap. *)
Lemma within_capacity_fits w this xs cap buf op :
  vec_rep w this xs cap buf → within_capacity op (length xs) cap → request_fits op.
Proof.
  intros (_ & _ & _ & Hcap) Hin.
  destruct op as [?|n|n| |?]; simpl in *; try done.
  all: eapply fits_size_t_le; [exact Hin|by apply max_alloc_fits].
Qed.

Lemma can_complete_fits w this xs cap buf op :
  vec_rep w this xs cap buf → can_complete op (length xs) cap → request_fits op.
Proof.
  intros (_ & _ & _ & Hcap) (_ & _ & Hfit).
  destruct op as [?|n|n| |?]; simpl in *; try done.
  all: case_decide; [eapply fits_size_t_le; [eassumption|by apply max_alloc_fits]
                    |by apply max_alloc_fits].
Qed.

(** Every operation acts on the elements as its function on sequences. *)
Lemma operation_effect w this xs cap buf op w' :
  vec_rep w this xs cap buf → positions_valid (length xs) op →
  request_fits op →
  run_operation this op w = Ok tt w' →
  ∃ buf', vec_rep w' this (model_operation op xs)
                  (model_capacity op (length xs) cap) buf' ∧
          untouched_outside w w' this buf ∧
          same_or_new (heap w) buf buf' ∧
          (within_capacity op (length xs) cap → buf' = buf).
Proof.
  intros Hrep Hvalid Hfits HOk. pose proof Hrep as (Hv & _).
  assert (Hemplace : ∀ p k x, p ≤ length xs →
            bind (begin_ this) (λ b, bind (Emplace this (b +ₚ p) k x) (λ _, ret tt)) w
            = Ok tt w' →
            ∃ buf', vec_rep w' this (take p xs ++ x :: drop p xs)
                            (if decide (length xs < cap) then cap else grown cap) buf' ∧
                    untouched_outside w w' this buf ∧
                    same_or_new (heap w) buf buf' ∧
                    (length xs < cap → buf' = buf)).
  { intros p k x Hp. rewrite (bind_Ok _ _ _ _ _ (begin_Ok _ _ _ Hv)).
    intros (r & Hr)%bind_ret_Ok.
    destruct (Emplace_effect w this xs cap buf p k x r w' Hrep Hp Hr)
      as (buf' & Hrep' & _ & Hsame & Hout & Hnew). eauto 10. }
  destruct op as [[value|value|k x|p k x|p value|p value]|n|n| |i];
    simpl in HOk, Hvalid, Hfits |- *.
  - destruct (PushBack_effect _ _ _ _ _ _ _ _ Hrep HOk) as (buf' & ? & ? & ? & ?). eauto 10.
  - destruct (PushBack_effect _ _ _ _ _ _ _ _ Hrep HOk) as (buf' & ? & ? & ? & ?). eauto 10.
  - apply bind_ret_Ok in HOk as (r & Hr). unfold EmplaceBack in Hr.
    rewrite (bind_Ok _ _ _ _ _ (get_vec_Ok _ _ _ Hv)) in Hr.
    destruct (Emplace_effect w this xs cap buf (length xs) k x r w' Hrep (le_n _) Hr)
      as (buf' & Hrep' & _ & Hsame & Hout & Hnew).
    rewrite take_ge, drop_ge in Hrep' by lia. eauto 10.
  - apply (Hemplace p k x); [by apply Hvalid|done].
  - apply (Hemplace p CopyCtor value); [by apply Hvalid|done].
  - apply (Hemplace p MoveCtor value); [by apply Hvalid|done].
  - destruct (Reserve_effect _ _ _ _ _ _ _ Hrep Hfits HOk) as (buf' & Hrep' & Hsame & ? & ?).
    exists buf'. split; [done|]. split; [done|]. split; [done|].
    intros Hfit. specialize (Hsame Hfit). subst w'.
    by destruct (vec_rep_inj _ _ _ _ _ _ _ _ Hrep Hrep') as (_ & _ & ->).
  - destruct (Resize_effect _ _ _ _ _ _ _ Hrep Hfits HOk) as (buf' & ? & ? & ? & ?). eauto 10.
  - destruct (PopBack_effect _ _ _ _ _ _ Hrep HOk) as (_ & ? & ?).
    exists buf. split; [done|]. split; [done|]. split; [by left|done].
  - rewrite (bind_Ok _ _ _ _ _ (begin_Ok _ _ _ Hv)) in HOk.
    apply bind_ret_Ok in HOk as (r & Hr).
    destruct (Erase_effect w this xs cap buf i r w' Hrep Hvalid Hr) as (? & _ & ?).
    exists buf. split; [done|]. split; [done|]. split; [by left|done].
Qed.

(** *** Operations one after the other *)

Lemma operations_effect ops : ∀ w this xs cap buf w',
  vec_rep w this xs cap buf → positions_valid_all ops xs →
  Forall request_fits ops →
  run_operations this ops w = Ok tt w' →
  ∃ buf',
    vec_rep w' this (model_operations ops xs) (model_capacities ops xs cap) buf' ∧
    ∀ other ys capo bufo, other ≠ this → apart bufo buf →
      vec_rep w other ys capo bufo → vec_rep w' other ys capo bufo.
Proof.
  induction ops as [|op ops IH]; intros w this xs cap buf w' Hrep Hvalid Hfits HOk; simpl in *.
  - injection HOk as <-. eauto.
  - destruct Hvalid as [Hop Hrest]. apply Forall_cons in Hfits as [Hfit Hfits].
    unfold bind in HOk.
    destruct (run_operation this op w) as [[] w1| |] eqn:Hrun; [|done..].
    destruct (operation_effect w this xs cap buf op w1 Hrep Hop Hfit Hrun)
      as (buf1 & Hrep1 & Hout & Hnew & _).
    destruct (IH w1 this _ _ buf1 w' Hrep1 Hrest Hfits HOk) as (buf' & Hrep' & Hframe).
    exists buf'. split; [done|].
    intros other ys capo bufo Hne Ha Hother.
    apply Hframe; [done| |by eapply vec_rep_frame].
    destruct Hother as (_ & Hbo & _). by eapply apart_same_or_new.
Qed.

(** Operations within the capacity work in the block the vector has. *)
Lemma operations_in_place ops : ∀ w this xs cap buf w',
  vec_rep w this xs cap buf → positions_valid_all ops xs →
  within_capacity_all ops xs cap →
  run_operations this ops w = Ok tt w' →
  vec_rep w' this (model_operations ops xs) cap buf ∧
  untouched_outside w w' this buf.
Proof.
  induction ops as [|op ops IH]; intros w this xs cap buf w' Hrep Hvalid Hfit HOk; simpl in *.
  - injection HOk as <-. split; [done|apply untouched_refl].
  - destruct Hvalid as [Hop Hrest]. destruct Hfit as [Hfit Hfits].
    unfold bind in HOk.
    destruct (run_operation this op w) as [[] w1| |] eqn:Hrun; [|done..].
    destruct (operation_effect w this xs cap buf op w1 Hrep Hop
                (within_capacity_fits _ _ _ _ _ _ Hrep Hfit) Hrun)
      as (buf1 & Hrep1 & Hout & _ & Hsame).
    rewrite (Hsame Hfit) in Hrep1.
    assert (Hcap : model_capacity op (length xs) cap = cap).
    { destruct op; simpl in *; by rewrite ?decide_True by done. }
    rewrite Hcap in Hrep1.
    destruct (IH w1 this _ _ buf w' Hrep1 Hrest Hfits HOk) as (Hrep' & Hout').
    split; [done|]. eapply untouched_trans; [exact Hout|exact Hout'|done].
Qed.

(** *** Runs that nothing interrupts come to an end *)

Lemma spec_returns_clean {A} (m : M T A) w Q :
  spec m w Q → clean w → ∃ a w', m w = Ok a w' ∧ Q a w' ∧ clean w'.
Proof.
  unfold spec. intros Hs Hc. destruct (m w) as [a w'| |]; [|done..].
  exists a, w'. tauto.
Qed.

Lemma runs_returns {A} (m : M T A) w a h' vs' :
  runs (heap w) (vecs w) m a h' vs' → clean w →
  ∃ w', m w = Ok a w' ∧ heap w' = h' ∧ vecs w' = vs' ∧ clean w'.
Proof.
  intros Hrun Hc.
  destruct (spec_returns_clean _ _ _ (Hrun w eq_refl eq_refl) Hc)
    as (a' & w' & HOk & (-> & Hh & Hvs) & Hc').
  eauto 10.
Qed.

Lemma runs_Reserve_noop (h : gmap positive (list (slot T))) vs this xs cap buf n :
  vec_rep_mem h vs this xs cap buf → n ≤ cap →
  runs h vs (Reserve this n) tt h vs.
Proof.
  intros (Hv & _) Hle. unfold Reserve.
  eapply runs_bind; [by apply runs_get_vec|]. simpl.
  rewrite decide_True by done. apply runs_ret.
Qed.

Lemma runs_Resize_same (h : gmap positive (list (slot T))) vs this xs cap buf :
  vec_rep_mem h vs this xs cap buf →
  runs h vs (Resize this (length xs)) tt h
       (<[this := mkVec (mkRaw buf cap) (length xs)]> vs).
Proof.
  intros (Hv & _). unfold Resize.
  eapply runs_bind; [by apply runs_get_vec|]. simpl.
  rewrite !decide_False by lia.
  eapply runs_bind; [apply runs_ret|].
  eapply runs_eq; [by eapply runs_set_size|done..].
Qed.

(** An operation that can complete does, when nothing fails. *)
Lemma operation_returns w this xs cap buf op :
  vec_rep w this xs cap buf → can_complete op (length xs) cap → clean w →
  ∃ w', run_operation this op w = Ok tt w' ∧ clean w'.
Proof.
  intros Hrep (Hvalid & Hpop & Hfit) Hclean. pose proof Hrep as (Hv & Hb & Hle & Hcap).
  assert (Hdone : ∀ h' vs', runs (heap w) (vecs w) (run_operation this op) tt h' vs' →
            ∃ w', run_operation this op w = Ok tt w' ∧ clean w').
  { intros h' vs' Hrun. destruct (runs_returns _ _ _ _ _ Hrun Hclean) as (w' & ? & _ & _ & ?).
    eauto. }
  assert (Hemplace : ∀ p (k : elem_op) (x : T), p ≤ length xs →
            (N.of_nat (if decide (length xs < cap)%nat then cap else grown cap)
               ≤ max_alloc T)%N →
            ∃ h' vs', runs (heap w) (vecs w)
              (bind (begin_ this) (λ b, bind (Emplace this (b +ₚ p) k x) (λ _, ret tt)))
              tt h' vs').
  { intros p k x Hp Hgrown.
    destruct (runs_Emplace (heap w) (vecs w) this xs cap buf p k x Hrep Hp)
      as (h' & cap' & buf' & Hrun & _).
    { case_decide; [by left|by right]. }
    eexists _, _.
    eapply runs_bind; [by apply runs_begin|]. simpl. rewrite ptr_add_Ptr. simpl.
    eapply runs_bind; [exact Hrun|]. apply runs_ret. }
  destruct op as [[value|value|k x|p k x|p value|p value]|n|n| |i];
    simpl in Hvalid, Hfit |- *.
  - clear Hemplace. case_decide.
    + eapply Hdone. by apply runs_PushBack_room.
    + eapply Hdone. apply runs_PushBack_full; [done|lia|done].
  - clear Hemplace. case_decide.
    + eapply Hdone. by apply runs_PushBack_room.
    + eapply Hdone. apply runs_PushBack_full; [done|lia|done].
  - destruct (runs_Emplace (heap w) (vecs w) this xs cap buf (length xs) k x Hrep (le_n _))
      as (h' & cap' & buf' & Hrun & _).
    { case_decide; [by left|by right]. }
    eapply Hdone. unfold EmplaceBack.
    eapply runs_bind; [eapply runs_bind; [by apply runs_get_vec|exact Hrun]|]. apply runs_ret.
  - destruct (Hemplace p k x) as (h' & vs' & Hrun); [by apply Hvalid|done|]. by eapply Hdone.
  - destruct (Hemplace p CopyCtor value) as (h' & vs' & Hrun); [by apply Hvalid|done|].
    by eapply Hdone.
  - destruct (Hemplace p MoveCtor value) as (h' & vs' & Hrun); [by apply Hvalid|done|].
    by eapply Hdone.
  - clear Hemplace. case_decide.
    + eapply Hdone. by eapply runs_Reserve_noop.
    + eapply Hdone. eapply runs_Reserve_grow; [exact Hrep|lia|done].
  - clear Hemplace. destruct (decide (n < length xs)) as [Hshrink|Hnshrink].
    { eapply Hdone. by eapply runs_Resize_shrink. }
    destruct (decide (n = length xs)) as [->|Hne].
    { eapply Hdone. by eapply runs_Resize_same. }
    case_decide.
    + eapply Hdone. eapply runs_Resize_grow_room; [exact Hrep|lia|done].
    + eapply Hdone. eapply runs_Resize_grow_realloc; [exact Hrep|lia|done].
  - destruct (snoc_cases xs) as (pre & x & ->).
    { intros ->. specialize (Hpop eq_refl). simpl in Hpop. lia. }
    eapply Hdone. by eapply runs_PopBack.
  - eapply Hdone.
    eapply runs_bind; [by apply runs_begin|]. simpl. rewrite ptr_add_Ptr. simpl.
    eapply runs_bind; [by eapply runs_Erase_at|]. apply runs_ret.
Qed.

Lemma operations_return ops : ∀ w this xs cap buf,
  vec_rep w this xs cap buf → can_complete_all ops xs cap → clean w →
  ∃ w', run_operations this ops w = Ok tt w'.
Proof.
  induction ops as [|op ops IH]; intros w this xs cap buf Hrep Hcan Hclean; simpl in *.
  - by eexists.
  - destruct Hcan as [Hop Hrest].
    destruct (operation_returns w this xs cap buf op Hrep Hop Hclean) as (w1 & Hrun & Hclean1).
    destruct (operation_effect w this xs cap buf op w1 Hrep (proj1 Hop)
                (can_complete_fits _ _ _ _ _ _ Hrep Hop) Hrun)
      as (buf1 & Hrep1 & _).
    destruct (IH w1 this _ _ buf1 Hrep1 Hrest Hclean1) as (w' & HOk).
    exists w'. unfold bind. by rewrite Hrun.
Qed.

End Effects.

(** ** Code that does not depend on the fault schedules *)

Section Oblivious.
Context {T : Type} `{ET : Elem T}.
Implicit Types (w : World T).

Lemma with_faults_own w : with_faults (new_faults w) (elem_faults w) w = w.
Proof. by destruct w. Qed.

Lemma with_faults_twice w nf ef nf' ef' :
  with_faults nf ef (with_faults nf' ef' w) = with_faults nf ef w.
Proof. done. Qed.

Lemma oblivious_ret {A} (a : A) : oblivious (ret a : M T A).
Proof. done. Qed.

Lemma oblivious_undefined {A} : oblivious (undefined : M T A).
Proof. done. Qed.

Lemma oblivious_bind {A B} (m : M T A) (f : A → M T B) :
  oblivious m → (∀ a, oblivious (f a)) → oblivious (bind m f).
Proof.
  intros Hm Hf w nf ef. unfold bind. rewrite Hm.
  destruct (m w) as [a w1|w1|]; simpl; [apply Hf|done..].
Qed.

Lemma oblivious_unwinding {A} (m : M T A) c :
  oblivious m → oblivious c → oblivious (unwinding m c).
Proof.
  intros Hm Hc w nf ef. unfold unwinding. rewrite Hm.
  destruct (m w) as [a w1|w1|]; simpl; [done| |done].
  rewrite Hc. by destruct (c w1).
Qed.

Lemma oblivious_log e : oblivious (log e : M T unit).
Proof. done. Qed.

Lemma oblivious_read_slot p : oblivious (read_slot p : M T (slot T)).
Proof.
  intros w nf ef. unfold read_slot. simpl.
  destruct (p_base p) as [l|]; [|done].
  destruct (heap w !! l) as [blk|]; [|done]. by destruct (blk !! p_off p).
Qed.

Lemma oblivious_write_slot p s : oblivious (write_slot p s : M T unit).
Proof.
  intros w nf ef. unfold write_slot. simpl.
  destruct (p_base p) as [l|]; [|done].
  destruct (heap w !! l) as [blk|]; [|done]. by case_decide.
Qed.

Lemma oblivious_load p : oblivious (load p : M T T).
Proof.
  unfold load. apply oblivious_bind; [apply oblivious_read_slot|].
  intros [|x]; [apply oblivious_undefined|apply oblivious_ret].
Qed.

Lemma oblivious_may_fail k : may_throw k = false → oblivious (may_fail k).
Proof. intros Hk w nf ef. unfold may_fail. by rewrite Hk. Qed.

Lemma oblivious_ptr_diff p q : oblivious (ptr_diff p q : M T Z).
Proof. unfold ptr_diff. case_decide; [apply oblivious_ret|apply oblivious_undefined]. Qed.

Lemma oblivious_operator_delete buf : oblivious (operator_delete buf : M T unit).
Proof.
  intros w nf ef. unfold operator_delete. destruct buf as [l|]; [|done]. simpl.
  by destruct (heap w !! l).
Qed.

Lemma oblivious_get_vec this : oblivious (get_vec this : M T Vector).
Proof. intros w nf ef. unfold get_vec. simpl. by destruct (vecs w !! this). Qed.

Lemma oblivious_put_vec this v : oblivious (put_vec this v : M T unit).
Proof. done. Qed.

Lemma oblivious_del_vec this : oblivious (del_vec this : M T unit).
Proof. done. Qed.

Lemma oblivious_local_vec : oblivious (local_vec : M T nat).
Proof. done. Qed.

Lemma oblivious_RawMemory_at rm index : oblivious (RawMemory_at rm index : M T ptr).
Proof. unfold RawMemory_at. case_decide; [apply oblivious_ret|apply oblivious_undefined]. Qed.

End Oblivious.

(** Goals [oblivious m], by the structure of [m]. *)
Ltac oblivious_step :=
  first
    [ assumption
    | apply oblivious_ret
    | apply oblivious_undefined
    | apply oblivious_log
    | apply oblivious_read_slot
    | apply oblivious_write_slot
    | apply oblivious_load
    | apply oblivious_ptr_diff
    | apply oblivious_operator_delete
    | apply oblivious_get_vec
    | apply oblivious_put_vec
    | apply oblivious_del_vec
    | apply oblivious_local_vec
    | apply oblivious_RawMemory_at
    | apply oblivious_may_fail; assumption
    | apply oblivious_unwinding
    | apply oblivious_bind; [|intros ?]
    | match goal with |- oblivious (if ?c then _ else _) => destruct c end ].

Ltac solve_oblivious := repeat oblivious_step.

Section ObliviousCode.
Context {T : Type} `{ET : Elem T}.
Implicit Types (w : World T) (h : gmap positive (list (slot T))) (vs : gmap nat Vector).

Lemma oblivious_construct_at p k (x : T) :
  may_throw k = false → oblivious (construct_at p k x).
Proof. intros Hk. unfold construct_at. solve_oblivious. Qed.

Lemma oblivious_assign_at p k (x : T) :
  may_throw k = false → oblivious (assign_at p k x).
Proof. intros Hk. unfold assign_at. solve_oblivious. Qed.

Lemma oblivious_destroy_at p : oblivious (destroy_at p : M T unit).
Proof. unfold destroy_at. solve_oblivious. Qed.

Lemma oblivious_destroy_n p n : oblivious (destroy_n p n : M T unit).
Proof.
  revert p. induction n as [|n IH]; intros p; simpl; [apply oblivious_ret|].
  apply oblivious_bind; [apply oblivious_destroy_at|]. intros _. apply IH.
Qed.

Lemma oblivious_move_construct dst src :
  may_throw MoveCtor = false → oblivious (move_construct dst src : M T unit).
Proof.
  intros Hk. unfold move_construct.
  apply oblivious_bind; [apply oblivious_load|]. intros x.
  apply oblivious_bind; [by apply oblivious_construct_at|]. intros _.
  apply oblivious_write_slot.
Qed.

Lemma oblivious_move_assign dst src :
  may_throw MoveAssign = false → oblivious (move_assign dst src : M T unit).
Proof.
  intros Hk. unfold move_assign.
  apply oblivious_bind; [apply oblivious_load|]. intros x.
  apply oblivious_bind; [by apply oblivious_assign_at|]. intros _.
  apply oblivious_write_slot.
Qed.

Lemma oblivious_assign_forward (step : ptr → ptr → M T unit) first result n :
  (∀ p q, oblivious (step p q)) → oblivious (assign_forward step first result n).
Proof.
  intros Hstep. revert first result.
  induction n as [|n IH]; intros first result; simpl; [apply oblivious_ret|].
  apply oblivious_bind; [apply Hstep|]. intros _. apply IH.
Qed.

Lemma oblivious_std_move first last result :
  may_throw MoveAssign = false → oblivious (std_move first last result : M T unit).
Proof.
  intros Hk. unfold std_move.
  apply oblivious_bind; [apply oblivious_ptr_diff|]. intros d.
  apply oblivious_assign_forward. intros p q. by apply oblivious_move_assign.
Qed.

Lemma oblivious_move_backward_loop last d_last n :
  may_throw MoveAssign = false → oblivious (move_backward_loop last d_last n : M T unit).
Proof.
  intros Hk. revert last d_last.
  induction n as [|n IH]; intros last d_last; simpl; [apply oblivious_ret|].
  apply oblivious_bind; [by apply oblivious_move_assign|]. intros _. apply IH.
Qed.

Lemma oblivious_std_move_backward first last d_last :
  may_throw MoveAssign = false →
  oblivious (std_move_backward first last d_last : M T unit).
Proof.
  intros Hk. unfold std_move_backward.
  apply oblivious_bind; [apply oblivious_ptr_diff|]. intros d.
  by apply oblivious_move_backward_loop.
Qed.

Lemma oblivious_uninitialized_loop (step : ptr → ptr → M T unit) first result cur n :
  (∀ p q, oblivious (step p q)) →
  oblivious (uninitialized_loop step first result cur n).
Proof.
  intros Hstep. revert first cur.
  induction n as [|n IH]; intros first cur; simpl; [apply oblivious_ret|].
  apply oblivious_bind; [|intros _; apply IH].
  apply oblivious_unwinding; [apply Hstep|apply oblivious_destroy_n].
Qed.

Lemma oblivious_RawMemory_dtor rm : oblivious (RawMemory_dtor rm : M T unit).
Proof. apply oblivious_operator_delete. Qed.

Lemma oblivious_set_data this d : oblivious (set_data this d : M T unit).
Proof. unfold set_data. solve_oblivious. Qed.

Lemma oblivious_set_size this n : oblivious (set_size this n : M T unit).
Proof. unfold set_size. solve_oblivious. Qed.

Lemma oblivious_begin this : oblivious (begin_ this : M T ptr).
Proof. unfold begin_. solve_oblivious. Qed.

Lemma oblivious_end this : oblivious (end_ this : M T ptr).
Proof. unfold end_. solve_oblivious. Qed.

Lemma oblivious_Size this : oblivious (Size this : M T nat).
Proof. unfold Size. solve_oblivious. Qed.

Lemma oblivious_Capacity this : oblivious (Capacity this : M T nat).
Proof. unfold Capacity. solve_oblivious. Qed.

Lemma oblivious_Vector_at this index : oblivious (Vector_at this index : M T ptr).
Proof. unfold Vector_at. solve_oblivious. Qed.

Lemma oblivious_PopBack this : oblivious (PopBack this : M T unit).
Proof.
  unfold PopBack. apply oblivious_bind; [apply oblivious_get_vec|]. intros v.
  case_decide; [|apply oblivious_undefined].
  apply oblivious_bind; [apply oblivious_set_size|]. intros _.
  apply oblivious_bind; [apply oblivious_get_vec|]. intros v'.
  apply oblivious_destroy_at.
Qed.

Lemma oblivious_Swap this other : oblivious (Swap this other : M T unit).
Proof.
  unfold Swap. case_decide; [apply oblivious_ret|].
  apply oblivious_bind; [apply oblivious_get_vec|]. intros v.
  apply oblivious_bind; [apply oblivious_get_vec|]. intros o.
  unfold RawMemory_Swap. solve_oblivious.
Qed.

Lemma oblivious_Vector_dtor this : oblivious (Vector_dtor this : M T unit).
Proof.
  unfold Vector_dtor. apply oblivious_bind; [apply oblivious_get_vec|]. intros v.
  apply oblivious_bind; [apply oblivious_destroy_n|]. intros _.
  apply oblivious_bind; [apply oblivious_RawMemory_dtor|]. intros _.
  apply oblivious_del_vec.
Qed.

Lemma oblivious_Erase this pos :
  may_throw MoveAssign = false → oblivious (Erase this pos : M T ptr).
Proof.
  intros Hk. unfold Erase.
  apply oblivious_bind; [apply oblivious_begin|]. intros b.
  apply oblivious_bind; [apply oblivious_ptr_diff|]. intros d.
  apply oblivious_bind; [apply oblivious_end|]. intros e.
  apply oblivious_bind; [by apply oblivious_std_move|]. intros _.
  apply oblivious_bind; [apply oblivious_get_vec|]. intros v.
  apply oblivious_bind; [apply oblivious_destroy_at|]. intros _.
  apply oblivious_bind; [apply oblivious_set_size|]. intros _.
  apply oblivious_bind; [apply oblivious_begin|]. intros b'.
  apply oblivious_ret.
Qed.

(** What a clean run of such code does, it does under every schedule, and
    the schedules are left as they are. *)
Lemma oblivious_runs {A} (m : M T A) w a h' vs' :
  oblivious m → runs (heap w) (vecs w) m a h' vs' →
  ∃ w', m w = Ok a w' ∧ heap w' = h' ∧ vecs w' = vs' ∧
        new_faults w' = new_faults w ∧ elem_faults w' = elem_faults w.
Proof.
  intros Hm Hr.
  destruct (spec_returns _ _ _ (Hr (with_faults [] [] w) eq_refl eq_refl))
    as (a' & w0 & HOk & -> & Hh & Hv); [by split|].
  exists (with_faults (new_faults w) (elem_faults w) w0).
  split; [|done].
  rewrite <- (with_faults_own w) at 1.
  rewrite <- (with_faults_twice w _ _ [] []), Hm, HOk. done.
Qed.

End ObliviousCode.

(** Goals [oblivious m] for the code of the header. *)
Ltac prove_oblivious :=
  solve
    [ repeat first
        [ apply oblivious_destroy_at
        | apply oblivious_destroy_n
        | apply oblivious_set_data
        | apply oblivious_set_size
        | apply oblivious_begin
        | apply oblivious_end
        | apply oblivious_Size
        | apply oblivious_Capacity
        | apply oblivious_Vector_at
        | apply oblivious_RawMemory_dtor
        | apply oblivious_PopBack
        | apply oblivious_Swap
        | apply oblivious_Vector_dtor
        | apply oblivious_construct_at; assumption
        | apply oblivious_assign_at; assumption
        | apply oblivious_move_construct; assumption
        | apply oblivious_move_assign; assumption
        | apply oblivious_std_move; assumption
        | apply oblivious_std_move_backward; assumption
        | apply oblivious_Erase; assumption
        | oblivious_step ] ].

(** ** A logic of all outcomes *)

Section Total.
Context {T : Type} `{ET : Elem T}.
Implicit Types (w : World T) (h : gmap positive (list (slot T))) (vs : gmap nat Vector)
               (buf : option positive).

Lemma total_ret {A} h vs (a : A) (Q : A → _ → _ → Prop) E :
  Q a h vs → total h vs (ret a) Q E.
Proof. intros HQ w <- <-. exact HQ. Qed.

Lemma total_mono {A} h vs (m : M T A) (Q Q' : A → _ → _ → Prop) (E E' : _ → _ → Prop) :
  total h vs m Q E →
  (∀ a h' vs', Q a h' vs' → Q' a h' vs') → (∀ h' vs', E h' vs' → E' h' vs') →
  total h vs m Q' E'.
Proof.
  intros Hm HQ HE w Hh Hv. specialize (Hm w Hh Hv).
  destruct (m w) as [a w'|w'|]; [by apply HQ|by apply HE|done].
Qed.

Lemma total_bind {A B} h vs (m : M T A) (f : A → M T B) Q1 Q E :
  total h vs m Q1 E → (∀ a h1 vs1, Q1 a h1 vs1 → total h1 vs1 (f a) Q E) →
  total h vs (bind m f) Q E.
Proof.
  intros Hm Hf w Hh Hv. specialize (Hm w Hh Hv). unfold bind.
  destruct (m w) as [a w1|w1|]; [|done..].
  by apply (Hf a _ _ Hm).
Qed.

(** Code that does not depend on the schedules does what its clean run does. *)
Lemma total_runs {A} h vs (m : M T A) a h' vs' E :
  oblivious m → runs h vs m a h' vs' → total h vs m (exactly a h' vs') E.
Proof.
  intros Hm Hr w <- <-.
  destruct (oblivious_runs m w a h' vs' Hm Hr) as (w' & -> & ? & ? & _). done.
Qed.

Lemma total_runs_post {A} h vs (m : M T A) a h' vs' (Q : A → _ → _ → Prop) E :
  oblivious m → runs h vs m a h' vs' → Q a h' vs' → total h vs m Q E.
Proof.
  intros Hm Hr HQ. eapply total_mono; [exact (total_runs h vs m a h' vs' E Hm Hr)| |done].
  by intros a' h1 vs1 (-> & -> & ->).
Qed.

Lemma total_bind_runs {A B} h vs (m : M T A) (f : A → M T B) a h1 vs1 Q E :
  oblivious m → runs h vs m a h1 vs1 → total h1 vs1 (f a) Q E →
  total h vs (bind m f) Q E.
Proof.
  intros Hm Hr Hf. eapply total_bind; [exact (total_runs h vs m a h1 vs1 E Hm Hr)|].
  by intros a' h' vs' (-> & -> & ->).
Qed.

(** Stack unwinding: the cleanup runs from what the body left when it
    threw, and must itself complete. *)
Lemma total_unwinding {A} h vs (m : M T A) c Q E1 E :
  total h vs m Q E1 →
  (∀ h1 vs1, E1 h1 vs1 → total h1 vs1 c (λ _ h2 vs2, E h2 vs2) never) →
  total h vs (unwinding m c) Q E.
Proof.
  intros Hm Hc w Hh Hv. specialize (Hm w Hh Hv). unfold unwinding.
  destruct (m w) as [a w1|w1|]; [done| |done].
  specialize (Hc _ _ Hm w1 eq_refl eq_refl). by destruct (c w1).
Qed.

(** *** The two places where a failure can start *)

Lemma total_may_fail h vs k :
  total h vs (may_fail k) (exactly tt h vs) (λ h' vs', left_as h vs h' vs' ∧ may_throw k = true).
Proof.
  intros w <- <-. unfold may_fail.
  destruct (may_throw k); [|done].
  by destruct (elem_faults w) as [|[] fs].
Qed.

Lemma total_RawMemory_ctor h vs n :
  fits_size_t T n →
  total h vs (RawMemory_ctor n)
        (λ rm h' vs', (N.of_nat n ≤ max_alloc T)%N ∧
                      exactly (mkRaw (new_buf h n) n)
                              (upd h (new_buf h n) (replicate n Raw)) vs rm h' vs')
        (left_as h vs).
Proof.
  intros Hfit w <- <-. destruct (decide (n ≠ 0)) as [Hn|Hn].
  - rewrite RawMemory_ctor_cases by done. unfold new_buf.
    rewrite !(decide_True (P := n ≠ 0)) by done.
    case_decide; [|done]. by destruct (new_faults w) as [|[] fs].
  - unfold RawMemory_ctor, Allocate, new_buf, bind, ret. rewrite !decide_False by done.
    simpl. split; [|done]. assert (n = 0) as -> by lia. simpl. apply N.le_0_l.
Qed.

(** *** Construction of an element *)

Lemma total_construct_at h vs buf (pre post : list (slot T)) s0 i k x :
  block_rep h buf (pre ++ s0 :: post) → i = length pre →
  total h vs (construct_at (Ptr buf i) k x)
        (exactly tt (upd h buf (pre ++ Live x :: post)) vs)
        (λ h' vs', left_as h vs h' vs' ∧ may_throw k = true).
Proof.
  intros Hb Hi. unfold construct_at.
  eapply total_bind_runs;
    [apply oblivious_read_slot|eapply runs_read_slot; [exact Hb|by apply lookup_middle]|].
  eapply total_bind; [apply total_may_fail|].
  intros [] h1 vs1 (_ & -> & ->).
  eapply total_bind_runs;
    [apply oblivious_write_slot|eapply runs_write_slot; [exact Hb|by apply length_middle]|].
  rewrite insert_middle by done.
  apply total_runs; [apply oblivious_log|apply runs_log].
Qed.

(** *** The loops that construct a range and roll back on failure *)

(** The loop of the [std::uninitialized_*] algorithms for a step that
    leaves its source as it is.  [ys] are the values to construct, [done]
    the objects constructed so far; either every object gets constructed, or
    the objects constructed so far are destroyed again and the destination
    is raw as before the first step. *)
Lemma total_uninitialized_loop (step : ptr → ptr → M T unit)
    (I : gmap positive (list (slot T)) → Prop) bs bufd :
  (∀ h b, I h → I (upd h bufd b)) →
  ∀ (ys done : list T) j h vs (pre post : list (slot T)) r0,
  (∀ c y h1 vs1 (pre1 post1 : list (slot T)),
     ys !! c = Some y → I h1 → block_rep h1 bufd (pre1 ++ Raw :: post1) →
     total h1 vs1 (step (Ptr bufd (length pre1)) (Ptr bs (j + c)))
           (exactly tt (upd h1 bufd (pre1 ++ Live y :: post1)) vs1)
           (left_as h1 vs1)) →
  I h →
  block_rep h bufd (pre ++ map Live done ++ replicate (length ys) Raw ++ post) →
  r0 = length pre →
  total h vs
        (uninitialized_loop step (Ptr bs j) (Ptr bufd r0) (Ptr bufd (r0 + length done))
                            (length ys))
        (exactly tt (upd h bufd (pre ++ map Live done ++ map Live ys ++ post)) vs)
        (left_as (upd h bufd (pre ++ replicate (length done + length ys) Raw ++ post)) vs).
Proof.
  intros HI. induction ys as [|y ys IH]; intros done j h vs pre post r0 Hstep Hinv Hb Hr0.
  - simpl in *. apply total_ret. split; [done|]. split; [|done].
    symmetry. by apply upd_id.
  - simpl. subst r0.
    assert (Hcur : length pre + length done = length (pre ++ map Live done)) by solve_length.
    eapply total_bind.
    + eapply total_unwinding.
      * rewrite Hcur.
        pose proof (Hstep 0 y h vs (pre ++ map Live done)
                      (replicate (length ys) Raw ++ post) eq_refl Hinv) as H0.
        rewrite Nat.add_0_r in H0. apply H0.
        rewrite <- app_assoc. exact Hb.
      * intros h1 vs1 [-> ->]. simpl.
        replace (length pre + length done - length pre) with (length done) by lia.
        eapply total_runs_post; [apply oblivious_destroy_n| |].
        -- eapply (runs_destroy_n _ _ bufd pre done); [exact Hb|done..].
        -- split; [|done]. f_equal. f_equal.
           rewrite app_assoc, <- replicate_add. done.
    + intros [] h1 vs1 (_ & -> & ->). rewrite !ptr_add_Ptr.
      replace (length pre + length done + 1) with (length pre + length (done ++ [y]))
        by solve_length.
      eapply total_mono.
      * eapply (IH (done ++ [y]) (j + 1) _ vs pre post (length pre)).
        -- intros c y' h1 vs1 pre1 post1 Hc Hinv1 Hb1.
           replace (j + 1 + c) with (j + S c) by lia. by apply (Hstep (S c)).
        -- by apply HI.
        -- eapply block_rep_upd_eq; [exact Hb|solve_length|].
           rewrite map_app, <- !app_assoc. done.
        -- done.
      * intros [] h2 vs2 (_ & -> & ->). split; [done|]. split; [|done].
        rewrite upd_upd, map_app, <- !app_assoc. done.
      * intros h2 vs2 [-> ->]. split; [|done].
        rewrite upd_upd.
        by replace (length (done ++ [y]) + length ys) with (length done + S (length ys))
          by solve_length.
Qed.

(** [std::uninitialized_copy_n] into raw storage of another block: on
    failure the destination is raw again and the source is intact. *)
Lemma total_uninitialized_copy_n h vs bufs bufd xs (pre_s post_s pre_d post_d : list (slot T))
    i j n :
  apart bufs bufd →
  block_rep h bufs (pre_s ++ map Live xs ++ post_s) → j = length pre_s →
  block_rep h bufd (pre_d ++ replicate (length xs) Raw ++ post_d) → i = length pre_d →
  n = length xs →
  total h vs (uninitialized_copy_n (Ptr bufs j) n (Ptr bufd i))
        (exactly tt (upd h bufd (pre_d ++ map Live xs ++ post_d)) vs)
        (left_as h vs).
Proof.
  intros Ha Hs -> Hd -> ->. unfold uninitialized_copy_n.
  replace (Ptr bufd (length pre_d)) with (Ptr bufd (length pre_d + length (@nil T))) at 2
    by (simpl; f_equal; lia).
  eapply total_mono.
  - eapply (total_uninitialized_loop copy_construct
              (λ h1, block_rep h1 bufs (pre_s ++ map Live xs ++ post_s)) bufs bufd)
      with (done := []) (pre := pre_d) (post := post_d);
      [|
      |exact Hs|exact Hd|done].
    + intros h1 b Hb1. by apply block_rep_upd_ne.
    + intros c y h1 vs1 pre1 post1 Hc Hs1 Hd1. unfold copy_construct.
      eapply total_bind_runs; [apply oblivious_load| |].
      { eapply runs_load; [exact Hs1|].
        rewrite lookup_app_r by lia.
        replace (length pre_s + c - length pre_s) with c by lia.
        by apply lookup_map_Live. }
      eapply total_mono; [by eapply total_construct_at|done|].
      by intros h2 vs2 [? _].
  - done.
  - intros h1 vs1 [-> ->]. split; [|done]. simpl. by apply upd_id.
Qed.

(** [std::uninitialized_value_construct_n] on raw storage. *)
Lemma total_uninitialized_value_construct_n h vs buf (pre post : list (slot T)) i n :
  block_rep h buf (pre ++ replicate n Raw ++ post) → i = length pre →
  total h vs (uninitialized_value_construct_n (Ptr buf i) n)
        (exactly tt (upd h buf (pre ++ replicate n (Live value_init) ++ post)) vs)
        (left_as h vs).
Proof.
  intros Hb ->. unfold uninitialized_value_construct_n.
  replace (Ptr buf (length pre)) with (Ptr buf (length pre + length (@nil T))) at 3
    by (simpl; f_equal; lia).
  rewrite <- (length_replicate n (value_init : T)).
  eapply total_mono.
  - eapply (total_uninitialized_loop (λ cur _, value_construct cur) (λ _, True) buf buf)
      with (done := []) (pre := pre) (post := post); [done| |done| |done].
    + intros c y h1 vs1 pre1 post1 Hc _ Hb1.
      apply lookup_replicate in Hc as [-> _]. unfold value_construct.
      eapply total_mono; [by eapply total_construct_at|done|].
      by intros h2 vs2 [? _].
    + simpl. by rewrite length_replicate.
  - intros [] h1 vs1 (_ & -> & ->). split; [done|]. split; [|done].
    simpl. by rewrite map_Live_replicate, length_replicate.
  - intros h1 vs1 [-> ->]. split; [|done]. simpl. rewrite !length_replicate.
    by apply upd_id.
Qed.

End Total.

(** ** The operations that allocate, under every fault schedule *)

Section TotalOps.
Context {T : Type} `{ET : Elem T}.
Implicit Types (w : World T) (h : gmap positive (list (slot T))) (vs : gmap nat Vector)
               (buf : option positive) (xs ys : list T).

Lemma nothrow_move_ctor :
  is_nothrow_move_constructible T = true → may_throw MoveCtor = false.
Proof. unfold is_nothrow_move_constructible. by destruct (may_throw MoveCtor). Qed.

(** The transfer into a new block, for a type that is copied unless its
    move constructor cannot throw: on failure both blocks are as before. *)
Lemma total_transfer_n h vs bufs bufd xs (pre_s post_s pre_d post_d : list (slot T)) i j n :
  is_nothrow_move_constructible T || is_copy_constructible = true →
  apart bufs bufd →
  block_rep h bufs (pre_s ++ map Live xs ++ post_s) → j = length pre_s →
  block_rep h bufd (pre_d ++ replicate (length xs) Raw ++ post_d) → i = length pre_d →
  n = length xs →
  total h vs (transfer_n (Ptr bufs j) n (Ptr bufd i))
        (exactly tt (upd (upd h bufd (pre_d ++ map Live xs ++ post_d))
                         bufs (pre_s ++ map Live (map transferred xs) ++ post_s)) vs)
        (λ h' vs', left_as h vs h' vs' ∧ is_nothrow_move_constructible T = false).
Proof.
  intros Hsafe Ha Hs Hj Hd Hi Hn.
  destruct (is_nothrow_move_constructible T) eqn:Hmove.
  - (* the elements are moved, and moving cannot throw *)
    apply total_runs.
    + unfold transfer_n. rewrite Hmove. simpl. unfold uninitialized_move_n.
      apply oblivious_uninitialized_loop. intros p q.
      by apply oblivious_move_construct, nothrow_move_ctor.
    + eapply runs_transfer_n; [done|exact Hs|done|exact Hd|done| |done].
      by rewrite length_replicate.
  - (* the elements are copied *)
    simpl in Hsafe. unfold transfer_n, transferred. rewrite Hmove, Hsafe. simpl.
    eapply total_mono; [by eapply total_uninitialized_copy_n| |done].
    intros [] h1 vs1 (_ & -> & ->). split; [done|]. split; [|done].
    rewrite map_id. symmetry. apply upd_id. by apply block_rep_upd_ne.
Qed.

(** When the transfer copies, the old elements stay as they are. *)
Lemma transferred_copy xs :
  is_nothrow_move_constructible T || is_copy_constructible = true →
  is_nothrow_move_constructible T = false →
  map transferred xs = xs.
Proof.
  intros Hsafe Hmove. rewrite Hmove in Hsafe. simpl in Hsafe.
  unfold transferred. rewrite Hmove, Hsafe. simpl. apply map_id.
Qed.

(** The copy constructor. *)
Lemma total_Vector_copy h vs this other ys cap buf :
  vec_rep_mem h vs other ys cap buf → this ≠ other → vs !! this = None →
  let nb := new_buf h (length ys) in
  total h vs (Vector_copy this other)
        (exactly tt (upd h nb (map Live ys))
                 (<[this := mkVec (mkRaw nb (length ys)) (length ys)]> vs))
        (left_as h vs).
Proof.
  intros (Hv & Hb & Hle & Hcap) Hne Hnew nb.
  assert (Ha : apart buf nb) by (by eapply new_buf_apart).
  unfold Vector_copy.
  eapply total_bind_runs; [apply oblivious_get_vec|by apply runs_get_vec|]. simpl.
  eapply total_bind.
  { apply total_RawMemory_ctor.
    eapply fits_size_t_le; [exact Hle|by apply max_alloc_fits]. }
  intros rm h1 vs1 (Hfit & -> & -> & ->). fold nb.
  eapply total_bind_runs; [apply oblivious_put_vec|apply runs_put_vec|].
  pose proof (new_buf_block h (length ys)) as Hnb. fold nb in Hnb.
  eapply total_unwinding
    with (E1 := left_as (upd h nb (replicate (length ys) Raw))
                        (<[this := mkVec (mkRaw nb (length ys)) (length ys)]> vs)).
  - eapply total_bind_runs;
      [apply oblivious_get_vec|apply runs_get_vec, lookup_insert_eq|]. simpl.
    eapply total_bind_runs;
      [apply oblivious_get_vec|apply runs_get_vec; by rewrite lookup_insert_ne|]. simpl.
    unfold GetAddress. simpl.
    eapply total_mono.
    + eapply (total_uninitialized_copy_n _ _ buf nb ys [] _ [] []); simpl.
      * done.
      * by apply block_rep_upd_ne.
      * done.
      * by rewrite app_nil_r.
      * done.
      * done.
    + intros [] h2 vs2 (_ & -> & ->). split; [done|]. split; [|done].
      norm_heap. by rewrite app_nil_r.
    + done.
  - intros h2 vs2 [-> ->].
    eapply total_bind_runs;
      [apply oblivious_RawMemory_dtor|eapply runs_RawMemory_dtor; exact Hnb|].
    eapply total_runs_post; [apply oblivious_del_vec|apply runs_del_vec|].
    split; [apply del_upd_new|]. rewrite delete_insert_eq. by apply delete_id.
Qed.

(** The sized constructor. *)
Lemma total_Vector_sized h vs this n :
  vs !! this = None → fits_size_t T n →
  let nb := new_buf h n in
  total h vs (Vector_sized this n)
        (λ a h' vs', (N.of_nat n ≤ max_alloc T)%N ∧
                     exactly tt (upd h nb (map Live (replicate n value_init)))
                             (<[this := mkVec (mkRaw nb n) n]> vs) a h' vs')
        (left_as h vs).
Proof.
  intros Hnew Hfits nb. unfold Vector_sized.
  eapply total_bind; [by apply total_RawMemory_ctor|].
  intros rm h1 vs1 (Hfit & -> & -> & ->). fold nb.
  eapply total_bind_runs; [apply oblivious_put_vec|apply runs_put_vec|].
  pose proof (new_buf_block h n) as Hnb. fold nb in Hnb.
  eapply total_unwinding
    with (E1 := left_as (upd h nb (replicate n Raw)) (<[this := mkVec (mkRaw nb n) n]> vs)).
  - eapply total_bind_runs;
      [apply oblivious_get_vec|apply runs_get_vec, lookup_insert_eq|]. simpl.
    unfold GetAddress. simpl.
    eapply total_mono.
    + eapply (total_uninitialized_value_construct_n _ _ nb [] []); simpl; [|done].
      by rewrite app_nil_r.
    + intros [] h2 vs2 (_ & -> & ->). split; [done|]. split; [done|]. split; [|done].
      norm_heap. simpl. by rewrite app_nil_r, map_Live_replicate.
    + done.
  - intros h2 vs2 [-> ->].
    eapply total_bind_runs;
      [apply oblivious_RawMemory_dtor|eapply runs_RawMemory_dtor; exact Hnb|].
    eapply total_runs_post; [apply oblivious_del_vec|apply runs_del_vec|].
    split; [apply del_upd_new|]. rewrite delete_insert_eq. by apply delete_id.
Qed.

(** [Reserve] beyond the capacity. *)
Lemma total_Reserve_grow h vs this xs cap buf n :
  is_nothrow_move_constructible T || is_copy_constructible = true →
  vec_rep_mem h vs this xs cap buf → cap < n → fits_size_t T n →
  let nb := new_buf h n in
  total h vs (Reserve this n)
        (exactly tt (del (upd h nb (map Live xs ++ replicate (n - length xs) Raw)) buf)
                 (<[this := mkVec (mkRaw nb n) (length xs)]> vs))
        (left_as h vs).
Proof.
  intros Hsafe (Hv & Hb & Hle & Hcap) Hlt Hfits nb.
  assert (Ha : apart buf nb) by (by eapply new_buf_apart).
  unfold Reserve.
  eapply total_bind_runs; [apply oblivious_get_vec|by apply runs_get_vec|]. simpl.
  rewrite decide_False by (unfold RawMemory_Capacity; simpl; lia).
  eapply total_bind; [by apply total_RawMemory_ctor|].
  intros rm h1 vs1 (Hn & -> & -> & ->). fold nb.
  pose proof (new_buf_block h n) as Hnb. fold nb in Hnb.
  rewrite (replicate_split (length xs) 0 n) in Hnb |- * by lia. simpl in Hnb |- *.
  rewrite Nat.sub_0_r in Hnb |- *.
  eapply total_bind.
  { eapply total_unwinding
      with (E1 := left_as (upd h nb (replicate (length xs) Raw ++
                                     replicate (n - length xs) Raw)) vs).
    - unfold GetAddress. simpl.
      eapply total_bind.
      { eapply total_mono.
        - eapply (total_transfer_n _ _ buf nb xs [] _ [] _); simpl;
            [done|done|by apply block_rep_upd_ne|done|exact Hnb|done|done].
        - intros a h2 vs2 HQ. exact HQ.
        - by intros h2 vs2 [? _]. }
      intros [] h2 vs2 (_ & -> & ->). norm_heap.
      eapply total_bind_runs; [apply oblivious_destroy_n| |].
      { eapply (runs_destroy_n _ _ buf [] (map transferred xs)); simpl.
        - eapply block_rep_upd; [exact Hb|]. solve_length.
        - done.
        - solve_length. }
      norm_heap. unfold RawMemory_Swap. simpl.
      eapply total_bind_runs; [apply oblivious_set_data|by eapply runs_set_data|].
      apply total_runs; [apply oblivious_ret|apply runs_ret].
    - intros h2 vs2 [-> ->].
      eapply total_runs_post;
        [apply oblivious_RawMemory_dtor|eapply runs_RawMemory_dtor; exact Hnb|].
      split; [apply del_upd_new|done]. }
  intros old h3 vs3 (-> & -> & ->).
  eapply total_runs_post; [apply oblivious_RawMemory_dtor| |].
  - eapply (runs_RawMemory_dtor _ _ buf). eapply block_rep_upd; [exact Hb|]. solve_length.
  - split; [done|]. split; [by rewrite del_upd|done].
Qed.

(** Copy assignment when the source does not fit: copy and swap. *)
Lemma total_Vector_assign_realloc h vs this rhs xs ys capa capb bufa bufb :
  this ≠ rhs →
  vec_rep_mem h vs this xs capa bufa → vec_rep_mem h vs rhs ys capb bufb →
  capa < length ys →
  let nb := new_buf h (length ys) in
  total h vs (Vector_assign this rhs)
        (exactly tt (del (upd h nb (map Live ys)) bufa)
                 (<[this := mkVec (mkRaw nb (length ys)) (length ys)]> vs))
        (left_as h vs).
Proof.
  intros Hne Hrepa Hrepb Hlt nb.
  pose proof Hrepa as (Hva & Hba & Hlea & Hcapa).
  pose proof Hrepb as (Hvb & Hbb & Hleb & Hcapb).
  assert (Hanb : apart bufa nb) by (by eapply new_buf_apart).
  pose proof (fresh_vec_unused vs) as Hfresh.
  set (tmp := fresh (dom vs)) in *.
  assert (Hta : this ≠ tmp) by (intros ->; congruence).
  assert (Htb : tmp ≠ rhs) by (intros ->; congruence).
  unfold Vector_assign. rewrite decide_False by done.
  eapply total_bind_runs; [prove_oblivious|by apply runs_get_vec|].
  eapply total_bind_runs; [prove_oblivious|by apply runs_get_vec|]. simpl.
  rewrite decide_True by (unfold RawMemory_Capacity; simpl; lia).
  eapply total_bind_runs; [prove_oblivious|apply runs_local_vec|]. fold tmp.
  eapply total_bind; [by eapply total_Vector_copy|].
  intros [] h1 vs1 (_ & -> & ->). fold nb.
  eapply total_bind_runs; [prove_oblivious| |].
  { eapply runs_Swap; [done|by rewrite lookup_insert_ne|apply lookup_insert_eq]. }
  simpl.
  eapply total_runs_post; [prove_oblivious| |].
  - eapply (runs_Vector_dtor _ _ tmp xs capa bufa). repeat split.
    + apply lookup_insert_eq.
    + by apply block_rep_upd_ne.
    + done.
    + done.
  - split; [done|]. split; [done|].
    rewrite delete_insert_eq, delete_insert_ne by done.
    by rewrite delete_insert_eq, delete_id.
Qed.

(** The construction of the new element of [PushBack] from an operand that
    is alive: it either throws before anything is written, or it leaves
    every block that held live objects only, other than the one constructed
    in, with live objects only. *)
Lemma total_construct_from h vs bd (ps qs : list (slot T)) (s0 : slot T) i k value :
  block_rep h bd (ps ++ s0 :: qs) → i = length ps → operand_alive h value →
  total h vs (construct_from (Ptr bd i) k value)
        (λ _ h' vs', vs' = vs ∧
           ∀ bs (zs : list T), apart bs bd → block_rep h bs (map Live zs) →
             ∃ zs', block_rep h' bs (map Live zs') ∧ length zs' = length zs)
        (λ h' vs', left_as h vs h' vs' ∧ may_throw k = true).
Proof.
  intros Hd Hi Halive. destruct value as [x|[bq j]]; simpl.
  - eapply total_mono; [by eapply total_construct_at| |done].
    intros [] h' vs' (_ & -> & ->). split; [done|].
    intros bs zs Ha Hs. exists zs. split; [by apply block_rep_upd_ne|done].
  - destruct Halive as (l & b & x & Hbase & Hl & Hj). simpl in Hbase, Hj. subst bq.
    eapply total_bind_runs; [apply oblivious_load|by eapply (runs_load _ _ (Some l))|].
    eapply total_bind; [by eapply total_construct_at|].
    intros [] h1 vs1 (_ & -> & ->).
    assert (Hkeep : ∀ bs (zs : list T), apart bs bd → block_rep h bs (map Live zs) →
              block_rep (upd h bd (ps ++ Live x :: qs)) bs (map Live zs)).
    { intros bs zs Ha Hs. by apply block_rep_upd_ne. }
    case_decide; [|apply total_ret; split; [done|]; intros bs zs Ha Hs; eauto].
    assert (Hl1 : ∃ b1, block_rep (upd h bd (ps ++ Live x :: qs)) (Some l) b1 ∧
                        length b1 = length b).
    { destruct (decide (bd = Some l)) as [->|Hne].
      - simpl in Hd. rewrite Hl in Hd. injection Hd as ->.
        eexists. split; [simpl; apply lookup_insert_eq|]. solve_length.
      - exists b. split; [|done]. apply block_rep_upd_ne; [|done].
        intros l' [= <-] E. by destruct Hne. }
    destruct Hl1 as (b1 & Hb1 & Hlen1).
    eapply total_runs_post; [apply oblivious_write_slot| |].
    { eapply runs_write_slot; [exact Hb1|]. rewrite Hlen1. by eapply lookup_lt_Some. }
    split; [done|]. intros bs zs Ha Hs. specialize (Hkeep bs zs Ha Hs).
    destruct (decide (bs = Some l)) as [->|Hne].
    + pose proof (block_rep_inj _ _ _ _ Hb1 Hkeep) as ->.
      exists (<[j := moved_from x]> zs). split; [|by rewrite length_insert].
      simpl. rewrite lookup_insert_eq. by rewrite list_fmap_insert.
    + exists zs. split; [|done]. apply block_rep_upd_ne; [|done].
      intros l' -> [= <-]. by destruct Hne.
Qed.

(** An operand that is alive is alive after the transfer of the elements to
    a new block: an element of the vector is then what the transfer left. *)
Lemma operand_alive_transferred h buf nb xs (b : list (slot T)) value :
  operand_alive h value → block_rep h buf (map Live xs) →
  (∀ l, h !! l ≠ None → nb ≠ Some l) →
  operand_alive (upd (upd h nb b) buf (map Live (map transferred xs))) value.
Proof.
  intros Halive Hb Hnew. destruct value as [x|q]; [done|].
  destruct Halive as (l & c & x & Hbase & Hl & Hj).
  assert (Hnb : nb ≠ Some l) by (apply Hnew; by rewrite Hl).
  destruct (decide (buf = Some l)) as [->|Hne].
  - simpl in Hb. rewrite Hl in Hb. injection Hb as ->.
    rewrite list_lookup_fmap in Hj.
    destruct (xs !! p_off q) as [y|] eqn:Hy; [|done]. injection Hj as ->.
    exists l, (map Live (map transferred xs)), (transferred x).
    split; [done|]. split; [simpl; apply lookup_insert_eq|].
    by rewrite !list_lookup_fmap, Hy.
  - exists l, c, x. split; [done|]. split; [|done].
    assert (Hl1 : upd h nb b !! l = Some c).
    { destruct nb as [l1|]; simpl; [|done]. rewrite lookup_insert_ne; [done|congruence]. }
    destruct buf as [l2|]; simpl; [|done]. rewrite lookup_insert_ne; [done|congruence].
Qed.

(** [PushBack] with room left: a failure leaves everything as it was. *)
Lemma total_PushBack_room h vs this xs cap buf k value :
  vec_rep_mem h vs this xs cap buf → length xs < cap → operand_alive h value →
  total h vs (PushBack_with k this value) (λ _ _ _, True) (left_as h vs).
Proof.
  intros (Hv & Hb & Hle & Hcap) Hlt Halive. pose proof (max_alloc_bound _ Hcap) as Hmax.
  unfold PushBack_with.
  eapply total_bind_runs; [prove_oblivious|by apply runs_get_vec|]. simpl.
  eapply total_bind_runs; [prove_oblivious|by apply runs_Capacity|]. simpl.
  eapply total_bind.
  { rewrite decide_False by lia. unfold RawMemory_plus. simpl.
    replace (cap - length xs) with (S (cap - S (length xs))) in Hb by lia.
    eapply total_mono.
    - eapply (total_construct_from _ _ _ (map Live xs));
        [exact Hb|by rewrite length_map|done].
    - intros a h1 vs1 HQ. exact (proj1 HQ).
    - by intros h1 vs1 [? _]. }
  intros [] h1 vs1 ->.
  eapply total_bind_runs; [prove_oblivious|by apply runs_get_vec|]. simpl.
  eapply total_runs_post; [prove_oblivious|by eapply runs_set_size|done].
Qed.

Lemma del_upd_new_other h buf n (b c : list (slot T)) :
  apart buf (new_buf h n) →
  del (upd (upd h (new_buf h n) b) buf c) (new_buf h n) = upd h buf c.
Proof. intros Ha. by rewrite <- upd_del_comm, del_upd_new. Qed.

(** [PushBack] onto a full vector.  A failure leaves the object as it was
    and the elements either as they were or, when it is the construction of
    the new element that throws after the old ones were moved, moved-from. *)
Lemma total_PushBack_full h vs this xs cap buf k value :
  is_nothrow_move_constructible T || is_copy_constructible = true →
  vec_rep_mem h vs this xs cap buf →
  length xs = cap →
  operand_alive h value →
  total h vs (PushBack_with k this value)
        (λ _ _ _, True)
        (λ h' vs', vs' = vs ∧
                   (h' = h ∨ (h' = upd h buf (map Live (map transferred xs)) ∧
                              may_throw k = true))).
Proof.
  intros Hsafe (Hv & Hb & Hle & Hcap) Hfull Halive.
  set (nb := new_buf h (grown cap)).
  pose proof (max_alloc_bound _ Hcap) as Hmax.
  pose proof (grown_gt cap) as Hgt.
  assert (Ha : apart buf nb) by (by eapply new_buf_apart).
  rewrite Hfull in Hv, Hb. rewrite Nat.sub_diag in Hb. simpl in Hb.
  rewrite app_nil_r in Hb.
  unfold PushBack_with.
  eapply total_bind_runs; [prove_oblivious|by apply runs_get_vec|]. simpl.
  eapply total_bind_runs; [prove_oblivious|by apply runs_Capacity|]. simpl.
  eapply total_bind with (Q1 := λ _ _ vs', ∃ v, vs' !! this = Some v).
  { rewrite decide_True by done.
    assert (Hg : (if decide (cap = 0) then 1 else size_mul cap 2) = grown cap).
    { unfold grown. case_decide; [done|]. apply size_mul_small. lia. }
    rewrite Hg. clear Hg.
    eapply total_bind.
    { eapply total_mono; [apply total_RawMemory_ctor; by apply grown_fits| |].
      - intros a h1 vs1 HQ. exact HQ.
      - intros h1 vs1 [-> ->]. split; [done|by left]. }
    intros rm h1 vs1 (Hgrown & -> & -> & ->).
    pose proof (max_alloc_bound _ Hgrown) as Hgmax.
    fold nb.
    pose proof (new_buf_block h (grown cap)) as Hnb. fold nb in Hnb.
    rewrite (replicate_split (length xs) 1 (grown cap)) in Hnb by lia.
    simpl in Hnb.
    rewrite (replicate_split (length xs) 1 (grown cap)) by lia.
    simpl.
    eapply total_bind with (Q1 := λ old h' vs', old = mkRaw buf cap ∧
                                   (∃ b, block_rep h' buf b) ∧
                                   ∃ v, vs' !! this = Some v).
    { eapply total_unwinding
        with (E1 := λ h' vs', vs' = vs ∧ (∃ b, block_rep h' nb b) ∧
                     (del h' nb = h ∨
                      (del h' nb = upd h buf (map Live (map transferred xs)) ∧
                       may_throw k = true))).
      - unfold RawMemory_plus, GetAddress. simpl.
        eapply total_bind.
        { eapply total_mono.
          - eapply (total_transfer_n _ _ buf nb xs [] [] [] _); simpl;
              [done|done| |done|exact Hnb|done|done].
            eapply block_rep_upd_ne; [done|]. by rewrite app_nil_r.
          - intros a h2 vs2 HQ. exact HQ.
          - intros h2 vs2 [[-> ->] _]. split; [done|]. split; [by eexists|].
            left. apply del_upd_new. }
        intros [] h2 vs2 (_ & -> & ->). norm_heap. simpl. rewrite app_nil_r.
        assert (Hnb2 : block_rep
                  (upd (upd h nb (map Live xs ++ Raw ::
                                   replicate (grown cap - length xs - 1) Raw))
                       buf (map Live (map transferred xs)))
                  nb (map Live xs ++ Raw :: replicate (grown cap - length xs - 1) Raw)).
        { apply block_rep_upd_ne; [by apply apart_sym|].
          eapply block_rep_upd; [exact Hnb|]. solve_length. }
        eapply total_bind.
        { eapply total_mono.
          - eapply (total_construct_from _ _ nb (map Live xs)); [exact Hnb2|solve_length|].
            apply operand_alive_transferred; [done|done|].
            intros l Hl. unfold nb, new_buf. case_decide; [|done].
            intros [= E]. rewrite <- E in Hl. by rewrite fresh_unused in Hl.
          - intros a h3 vs3 HQ. exact HQ.
          - intros h3 vs3 [[-> ->] Hk]. split; [done|]. split; [by eexists|].
            right. split; [|done]. by apply del_upd_new_other. }
        intros [] h3 vs3 (-> & Hkeep).
        destruct (Hkeep buf (map transferred xs)) as (zs & Hzs & Hlen); [done| |].
        { eapply block_rep_upd_eq; [exact Hb|solve_length|done]. }
        rewrite length_map in Hlen.
        eapply total_bind_runs; [prove_oblivious| |].
        { eapply (runs_destroy_n _ _ buf [] zs []); simpl.
          - by rewrite app_nil_r.
          - done.
          - lia. }
        unfold RawMemory_Swap. simpl.
        eapply total_bind_runs; [prove_oblivious|by eapply runs_set_data|].
        apply total_ret. split; [done|]. split.
        + eexists. eapply block_rep_upd; [exact Hzs|]. solve_length.
        + eexists. apply lookup_insert_eq.
      - intros h2 vs2 (-> & [b Hblk] & Hdel).
        eapply total_runs_post;
          [prove_oblivious|eapply runs_RawMemory_dtor; exact Hblk|].
        by split. }
    intros old h4 vs4 (-> & (b & Hblk) & Hthis).
    eapply total_runs_post;
      [prove_oblivious|by eapply (runs_RawMemory_dtor _ _ buf)|exact Hthis]. }
  intros [] h5 vs5 (v & Hv5). simpl.
  eapply total_bind_runs; [prove_oblivious|by apply runs_get_vec|].
  eapply total_runs_post; [prove_oblivious|by eapply runs_set_size|done].
Qed.

(** [new (data + i + 1) T(std::move(data[i]))] *)
Lemma total_move_construct_next h vs buf (pre post : list (slot T)) x s0 i :
  block_rep h buf (pre ++ Live x :: s0 :: post) → i = length pre →
  total h vs (move_construct (Ptr buf (i + 1)) (Ptr buf i))
        (exactly tt (upd h buf (pre ++ Live (moved_from x) :: Live x :: post)) vs)
        (left_as h vs).
Proof.
  intros Hb Hi. unfold move_construct.
  eapply total_bind_runs;
    [prove_oblivious|eapply runs_load; [exact Hb|by apply lookup_middle]|].
  eapply total_bind.
  { eapply total_mono.
    - eapply (total_construct_at _ _ buf (pre ++ [Live x]) post s0).
      + by rewrite <- app_assoc.
      + solve_length.
    - intros a h1 vs1 HQ. exact HQ.
    - by intros h1 vs1 [? _]. }
  intros [] h1 vs1 (_ & -> & ->).
  eapply total_runs_post; [prove_oblivious| |].
  - eapply runs_write_slot.
    + eapply block_rep_upd; [exact Hb|]. solve_length.
    + solve_length.
  - split; [done|]. split; [|done]. rewrite upd_upd. f_equal.
    rewrite <- app_assoc. simpl. by rewrite insert_middle.
Qed.

(** [Emplace] with room left, at the end. *)
Lemma total_Emplace_end h vs this xs cap buf k x :
  vec_rep_mem h vs this xs cap buf → length xs < cap →
  total h vs (Emplace this (Ptr buf (length xs)) k x)
        (exactly (Ptr buf (length xs))
           (upd h buf (map Live (xs ++ [x]) ++ replicate (cap - S (length xs)) Raw))
           (<[this := mkVec (mkRaw buf cap) (S (length xs))]> vs))
        (left_as h vs).
Proof.
  intros (Hv & Hb & Hle & Hcap) Hlt. pose proof (max_alloc_bound _ Hcap) as Hmax.
  unfold Emplace.
  eapply total_bind_runs; [prove_oblivious|by apply runs_begin|]. simpl.
  eapply total_bind_runs; [prove_oblivious|apply runs_ptr_diff|].
  rewrite to_size_t_small by lia.
  replace (Z.to_nat _) with (length xs) by lia.
  eapply total_bind_runs; [prove_oblivious|by apply runs_get_vec|]. simpl.
  eapply total_bind_runs; [prove_oblivious|by apply runs_Capacity|]. simpl.
  eapply total_bind.
  { rewrite decide_True by done.
    eapply total_bind_runs; [prove_oblivious|by apply runs_end|]. simpl.
    rewrite decide_True by done. unfold RawMemory_plus. simpl.
    replace (cap - length xs) with (S (cap - S (length xs))) in Hb by lia.
    eapply total_mono.
    - eapply (total_construct_at _ _ _ (map Live xs)); [exact Hb|by rewrite length_map].
    - intros a h1 vs1 HQ. exact HQ.
    - by intros h1 vs1 [? _]. }
  intros [] h1 vs1 (_ & -> & ->).
  eapply total_bind_runs; [prove_oblivious|by apply runs_get_vec|]. simpl.
  rewrite size_add_small by lia.
  eapply total_bind_runs; [prove_oblivious|by eapply runs_set_size|]. simpl.
  eapply total_bind_runs; [prove_oblivious|eapply runs_begin; apply lookup_insert_eq|]. simpl.
  eapply total_runs_post; [prove_oblivious|apply runs_ret|].
  split; [done|]. split.
  - f_equal. rewrite map_app, <- app_assoc. done.
  - do 2 f_equal. lia.
Qed.

(** [Emplace] with room left, before an existing element, for a type whose
    move assignment cannot throw. *)
Lemma total_Emplace_middle h vs this pre ys z cap buf k x :
  may_throw MoveAssign = false →
  vec_rep_mem h vs this (pre ++ ys ++ [z]) cap buf →
  length (pre ++ ys ++ [z]) < cap →
  total h vs (Emplace this (Ptr buf (length pre)) k x)
        (exactly (Ptr buf (length pre))
           (upd h buf (map Live (pre ++ x :: ys ++ [z]) ++
                       replicate (cap - S (length (pre ++ ys ++ [z]))) Raw))
           (<[this := mkVec (mkRaw buf cap) (S (length (pre ++ ys ++ [z])))]> vs))
        (left_as h vs).
Proof.
  intros Hma (Hv & Hb & Hle & Hcap) Hlt. pose proof (max_alloc_bound _ Hcap) as Hmax.
  rewrite !length_app in *. simpl in *.
  set (n := length pre + (length ys + 1)) in *.
  replace (cap - n) with (S (cap - S n)) in Hb by lia.
  rewrite !map_app in Hb. simpl in Hb. rewrite <- !app_assoc in Hb. simpl in Hb.
  unfold Emplace.
  eapply total_bind_runs; [prove_oblivious|by apply runs_begin|]. simpl.
  eapply total_bind_runs; [prove_oblivious|apply runs_ptr_diff|].
  rewrite to_size_t_small by lia.
  replace (Z.to_nat _) with (length pre) by lia.
  eapply total_bind_runs; [prove_oblivious|by apply runs_get_vec|]. simpl.
  eapply total_bind_runs; [prove_oblivious|by apply runs_Capacity|]. simpl.
  eapply total_bind.
  { rewrite decide_True by done.
    eapply total_bind_runs; [prove_oblivious|by apply runs_end|]. simpl.
    rewrite decide_False by (intros [=]; lia).
    eapply total_bind.
    { eapply total_mono; [apply total_may_fail| |].
      - intros a h1 vs1 HQ. exact HQ.
      - by intros h1 vs1 [? _]. }
    intros [] h1 vs1 (_ & -> & ->).
    eapply total_bind_runs; [prove_oblivious|apply runs_log|].
    rewrite size_sub_small by lia.
    eapply total_bind_runs; [prove_oblivious|apply runs_RawMemory_at; simpl; lia|]. simpl.
    unfold RawMemory_plus. simpl.
    eapply total_bind.
    { replace n with (n - 1 + 1) at 1 by lia.
      eapply (total_move_construct_next _ _ _ (map Live pre ++ map Live ys)).
      - rewrite <- app_assoc. exact Hb.
      - solve_length. }
    intros [] h2 vs2 (_ & -> & ->).
    eapply total_bind_runs; [prove_oblivious|by apply runs_begin|]. simpl.
    eapply total_bind_runs; [prove_oblivious|by apply runs_end|]. simpl.
    rewrite !ptr_add_Ptr, !ptr_sub_Ptr. simpl.
    eapply total_bind_runs; [prove_oblivious| |].
    { eapply (runs_std_move_backward _ _ _ ys (map Live pre)).
      - rewrite <- app_assoc. eapply block_rep_upd; [exact Hb|].
        solve_length.
      - by rewrite length_map.
      - lia.
      - lia. }
    rewrite upd_upd.
    eapply total_bind_runs; [prove_oblivious|apply runs_RawMemory_at; simpl; lia|]. simpl.
    eapply total_bind_runs; [prove_oblivious| |].
    { eapply (runs_assign_at _ _ _ (map Live pre)).
      - eapply block_rep_upd; [exact Hb|].
        solve_length.
      - by rewrite length_map. }
    rewrite upd_upd. apply total_runs; [prove_oblivious|apply runs_log]. }
  intros [] h3 vs3 (_ & -> & ->).
  eapply total_bind_runs; [prove_oblivious|by apply runs_get_vec|]. simpl.
  rewrite size_add_small by lia.
  eapply total_bind_runs; [prove_oblivious|by eapply runs_set_size|]. simpl.
  eapply total_bind_runs; [prove_oblivious|eapply runs_begin; apply lookup_insert_eq|]. simpl.
  eapply total_runs_post; [prove_oblivious|apply runs_ret|].
  split; [done|]. split.
  - f_equal. rewrite !map_app. simpl. rewrite !map_app. simpl.
    rewrite <- !app_assoc. simpl. by rewrite <- !app_assoc.
  - do 2 f_equal. lia.
Qed.

(** [Emplace] into a full vector, for a type that is copied unless its move
    constructor cannot throw. *)
Lemma total_Emplace_full h vs this pre suf cap buf k x :
  is_nothrow_move_constructible T || is_copy_constructible = true →
  vec_rep_mem h vs this (pre ++ suf) cap buf →
  length (pre ++ suf) = cap →
  let nb := new_buf h (grown cap) in
  total h vs (Emplace this (Ptr buf (length pre)) k x)
        (exactly (Ptr nb (length pre))
           (del (upd h nb (map Live (pre ++ x :: suf) ++ replicate (grown cap - S cap) Raw))
                buf)
           (<[this := mkVec (mkRaw nb (grown cap)) (S cap)]> vs))
        (left_as h vs).
Proof.
  intros Hsafe (Hv & Hb & Hle & Hcap) Hfull nb.
  pose proof (max_alloc_bound _ Hcap) as Hmax.
  pose proof (grown_gt cap) as Hgt.
  assert (Ha : apart buf nb) by (by eapply new_buf_apart).
  rewrite Hfull in Hv, Hb. rewrite Nat.sub_diag in Hb. simpl in Hb.
  rewrite length_app in Hfull.
  rewrite app_nil_r, map_app in Hb.
  unfold Emplace.
  eapply total_bind_runs; [prove_oblivious|by apply runs_begin|]. simpl.
  eapply total_bind_runs; [prove_oblivious|apply runs_ptr_diff|].
  rewrite to_size_t_small by lia.
  replace (Z.to_nat _) with (length pre) by lia.
  eapply total_bind_runs; [prove_oblivious|by apply runs_get_vec|]. simpl.
  eapply total_bind_runs; [prove_oblivious|by apply runs_Capacity|]. simpl.
  eapply total_bind.
  { rewrite decide_False by lia.
    assert (Hg0 : (if decide (cap = 0) then 1 else size_mul cap 2) = grown cap).
    { unfold grown. case_decide; [done|]. apply size_mul_small. lia. }
    rewrite Hg0.
    eapply total_bind; [apply total_RawMemory_ctor; by apply grown_fits|].
    intros rm h1 vs1 (Hgrown & -> & -> & ->).
    pose proof (max_alloc_bound _ Hgrown) as Hgmax.
    assert (Hg : (if decide (cap = 0) then 1 else size_mul cap 2) = grown cap).
    { unfold grown. case_decide; [done|]. apply size_mul_small. lia. }
    rewrite Hg in *. clear Hg. fold nb.
    pose proof (new_buf_block h (grown cap)) as Hnb. fold nb in Hnb.
    rewrite (replicate_split (length pre) (S (length suf)) (grown cap)) in Hnb by lia.
    simpl in Hnb.
    rewrite (replicate_split (length pre) (S (length suf)) (grown cap)) by lia.
    simpl.
    eapply total_bind.
    { eapply total_unwinding
        with (E1 := λ h' vs', vs' = vs ∧ (∃ b, block_rep h' nb b) ∧ del h' nb = h).
      - unfold RawMemory_plus, GetAddress. simpl.
        eapply total_bind.
        { eapply total_mono.
          - eapply (total_construct_at _ _ _ (replicate (length pre) Raw));
              [exact Hnb|by rewrite length_replicate].
          - intros a h2 vs2 HQ. exact HQ.
          - intros h2 vs2 [[-> ->] _]. split; [done|]. split; [by eexists|].
            apply del_upd_new. }
        intros [] h2 vs2 (_ & -> & ->). rewrite upd_upd.
        eapply total_bind.
        { eapply total_mono.
          - eapply (total_transfer_n _ _ buf nb pre [] (map Live suf) [] _); simpl;
              [done|done|by apply block_rep_upd_ne|done| |done|done].
            eapply block_rep_upd; [exact Hnb|]. solve_length.
          - intros a h3 vs3 HQ. exact HQ.
          - intros h3 vs3 [[-> ->] _]. split; [done|]. split.
            + eexists. eapply block_rep_upd; [exact Hnb|]. solve_length.
            + apply del_upd_new. }
        intros [] h3 vs3 (_ & -> & ->).
        rewrite upd_upd. rewrite !ptr_add_Ptr. simpl.
        rewrite size_sub_small by lia.
        eapply total_bind.
        { eapply total_mono.
          - eapply (total_transfer_n _ _ buf nb suf (map Live (map transferred pre)) []
                      (map Live pre ++ [Live x]) _); simpl.
            + done.
            + done.
            + rewrite app_nil_r. eapply block_rep_upd; [exact Hb|].
              solve_length.
            + solve_length.
            + rewrite <- app_assoc. simpl. apply block_rep_upd_ne; [by apply apart_sym|].
              eapply block_rep_upd; [exact Hnb|]. solve_length.
            + solve_length.
            + lia.
          - intros a h4 vs4 HQ. exact HQ.
          - intros h4 vs4 [[-> ->] Hcopy]. split; [done|]. split.
            + eexists. apply block_rep_upd_ne; [by apply apart_sym|].
              eapply block_rep_upd; [exact Hnb|]. solve_length.
            + etrans; [by apply del_upd_new_other|].
              rewrite transferred_copy by done. by apply upd_id. }
        intros [] h4 vs4 (_ & -> & ->). norm_heap.
        eapply total_bind_runs; [prove_oblivious| |].
        { eapply (runs_destroy_n _ _ buf [] (map transferred pre ++ map transferred suf) []);
            simpl.
          - eapply block_rep_upd_eq; [exact Hb|solve_length|].
            by rewrite map_app, !app_nil_r.
          - done.
          - solve_length. }
        rewrite upd_upd. unfold RawMemory_Swap. simpl.
        eapply total_bind_runs; [prove_oblivious|by eapply runs_set_data|].
        apply total_runs; [prove_oblivious|apply runs_ret].
      - intros h2 vs2 (-> & [b Hblk] & Hdel).
        eapply total_runs_post;
          [prove_oblivious|eapply runs_RawMemory_dtor; exact Hblk|].
        by split. }
    intros old h5 vs5 (-> & -> & ->).
    eapply total_runs; [prove_oblivious|].
    eapply (runs_RawMemory_dtor _ _ buf).
    eapply block_rep_upd; [exact Hb|]. solve_length. }
  intros [] h6 vs6 (_ & -> & ->). simpl.
  eapply total_bind_runs; [prove_oblivious|apply runs_get_vec, lookup_insert_eq|]. simpl.
  rewrite size_add_small by lia.
  eapply total_bind_runs;
    [prove_oblivious|eapply runs_set_size; apply lookup_insert_eq|]. simpl.
  eapply total_bind_runs; [prove_oblivious|eapply runs_begin; apply lookup_insert_eq|]. simpl.
  eapply total_runs_post; [prove_oblivious|apply runs_ret|].
  split; [done|]. split.
  - rewrite del_upd. f_equal. f_equal.
    rewrite map_app. simpl. rewrite <- !app_assoc. simpl. do 3 f_equal.
    f_equal. lia.
  - rewrite insert_insert_eq. do 3 f_equal. lia.
Qed.

(** [Reserve] within the capacity. *)
Lemma total_Reserve_noop h vs this xs cap buf n E :
  vec_rep_mem h vs this xs cap buf → n ≤ cap →
  total h vs (Reserve this n) (exactly tt h vs) E.
Proof.
  intros (Hv & _) Hle. unfold Reserve.
  eapply total_bind_runs; [prove_oblivious|by apply runs_get_vec|]. simpl.
  rewrite decide_True by done. apply total_runs; [prove_oblivious|apply runs_ret].
Qed.

(** [Resize] to a larger size that fits the capacity. *)
Lemma total_Resize_grow_room h vs this xs cap buf n :
  vec_rep_mem h vs this xs cap buf → length xs < n → n ≤ cap →
  total h vs (Resize this n)
        (exactly tt
           (upd h buf (map Live (xs ++ replicate (n - length xs) value_init) ++
                       replicate (cap - n) Raw))
           (<[this := mkVec (mkRaw buf cap) n]> vs))
        (left_as h vs).
Proof.
  intros Hrep Hlt Hfit. pose proof Hrep as (Hv & Hb & Hle & Hcap).
  pose proof (max_alloc_bound _ Hcap) as Hmax.
  rewrite (replicate_split (n - length xs) 0 (cap - length xs)) in Hb by lia.
  simpl in Hb. rewrite Nat.sub_0_r in Hb.
  replace (cap - length xs - (n - length xs)) with (cap - n) in Hb by lia.
  unfold Resize.
  eapply total_bind_runs; [prove_oblivious|by apply runs_get_vec|]. simpl.
  rewrite decide_False by lia. rewrite decide_True by lia.
  eapply total_bind.
  { eapply total_bind; [by eapply total_Reserve_noop|].
    intros [] h1 vs1 (_ & -> & ->).
    eapply total_bind_runs; [prove_oblivious|by apply runs_get_vec|]. simpl.
    rewrite size_sub_small by lia.
    unfold GetAddress. rewrite ptr_add_Ptr. simpl.
    eapply (total_uninitialized_value_construct_n _ _ buf (map Live xs));
      [exact Hb|by rewrite length_map]. }
  intros [] h1 vs1 (_ & -> & ->).
  eapply total_runs_post; [prove_oblivious|by eapply runs_set_size|].
  split; [done|]. split; [|done].
  f_equal. by rewrite map_app, map_Live_replicate, <- app_assoc.
Qed.

(** [Resize] to a size beyond the capacity.  A failure leaves the vector as
    it was, or as [Reserve] left it: the same elements in the new block. *)
Lemma total_Resize_grow_realloc h vs this xs cap buf n :
  is_nothrow_move_constructible T || is_copy_constructible = true →
  vec_rep_mem h vs this xs cap buf → cap < n → fits_size_t T n →
  let nb := new_buf h n in
  total h vs (Resize this n)
        (exactly tt
           (del (upd h nb (map Live (xs ++ replicate (n - length xs) value_init))) buf)
           (<[this := mkVec (mkRaw nb n) n]> vs))
        (λ h' vs',
           left_as h vs h' vs' ∨
           ((N.of_nat n ≤ max_alloc T)%N ∧
            left_as (del (upd h nb (map Live xs ++ replicate (n - length xs) Raw)) buf)
                    (<[this := mkVec (mkRaw nb n) (length xs)]> vs) h' vs')).
Proof.
  intros Hsafe Hrep Hlt Hfits nb. pose proof Hrep as (Hv & Hb & Hle & Hcap).
  assert (Ha : apart nb buf) by (apply apart_sym; by eapply new_buf_apart).
  destruct (decide (N.of_nat n ≤ max_alloc T)%N) as [Hn|Hbig].
  - pose proof (max_alloc_bound _ Hn) as Hmax.
    assert (Hblk : block_rep (del (upd h nb (map Live xs ++ replicate (n - length xs) Raw)) buf)
                     nb (map Live xs ++ replicate (n - length xs) Raw ++ [])).
    { rewrite app_nil_r. apply block_rep_del_ne; [done|].
      eapply block_rep_upd; [apply (new_buf_block h n)|]. solve_length. }
    unfold Resize.
    eapply total_bind_runs; [prove_oblivious|by apply runs_get_vec|]. simpl.
    rewrite decide_False by lia. rewrite decide_True by lia.
    eapply total_bind.
    { eapply total_bind.
      { eapply total_mono; [by eapply total_Reserve_grow| |].
        - intros a h1 vs1 HQ. exact HQ.
        - intros h1 vs1 HE. by left. }
      intros [] h1 vs1 (_ & -> & ->). fold nb.
      eapply total_bind_runs; [prove_oblivious|apply runs_get_vec, lookup_insert_eq|]. simpl.
      rewrite size_sub_small by lia.
      unfold GetAddress. rewrite ptr_add_Ptr. simpl.
      eapply total_mono.
      - eapply (total_uninitialized_value_construct_n _ _ nb (map Live xs) []);
          [exact Hblk|by rewrite length_map].
      - intros a h2 vs2 HQ. exact HQ.
      - intros h2 vs2 HE. by right. }
    intros [] h2 vs2 (_ & -> & ->).
    eapply total_runs_post; [prove_oblivious|eapply runs_set_size; apply lookup_insert_eq|].
    split; [done|]. split.
    + rewrite upd_del_comm by done. rewrite upd_upd.
      by rewrite app_nil_r, map_app, map_Live_replicate.
    + by rewrite insert_insert_eq.
  - (* the block cannot be allocated *)
    intros w <- <-. unfold Resize.
    rewrite (bind_Ok _ _ _ _ _ (get_vec_Ok _ _ _ Hv)).
    simpl. rewrite decide_False, decide_True by lia.
    rewrite !bind_assoc_at. unfold bind at 1.
    rewrite (Reserve_too_big w this _ n Hv) by (simpl; lia || done).
    by left.
Qed.

(** [Resize] to a smaller size: nothing can fail. *)
Lemma total_Resize_shrink h vs this xs cap buf n E :
  vec_rep_mem h vs this xs cap buf → n < length xs →
  total h vs (Resize this n)
        (exactly tt (upd h buf (map Live (take n xs) ++ replicate (cap - n) Raw))
                 (<[this := mkVec (mkRaw buf cap) n]> vs))
        E.
Proof.
  intros (Hv & Hb & Hle & Hcap) Hlt. pose proof (max_alloc_bound _ Hcap) as Hmax.
  assert (Hl1 : length (take n xs) = n) by (rewrite length_take; lia).
  assert (Hl2 : length (drop n xs) = length xs - n) by (by rewrite length_drop).
  rewrite <- (take_drop n xs) in Hb at 1. rewrite map_app, <- app_assoc in Hb.
  unfold Resize.
  eapply total_bind_runs; [prove_oblivious|by apply runs_get_vec|]. simpl.
  rewrite decide_True by done. rewrite size_sub_small by lia.
  unfold GetAddress. rewrite ptr_add_Ptr. simpl.
  eapply total_bind_runs; [prove_oblivious| |].
  { eapply (runs_destroy_n _ _ buf (map Live (take n xs)) (drop n xs));
      [exact Hb|solve_length|lia]. }
  rewrite replicate_join by lia.
  eapply total_runs_post; [prove_oblivious|by eapply runs_set_size|done].
Qed.

(** [Resize] to the same size: nothing happens. *)
Lemma total_Resize_same h vs this xs cap buf E :
  vec_rep_mem h vs this xs cap buf →
  total h vs (Resize this (length xs))
        (exactly tt h (<[this := mkVec (mkRaw buf cap) (length xs)]> vs)) E.
Proof.
  intros (Hv & _). unfold Resize.
  eapply total_bind_runs; [prove_oblivious|by apply runs_get_vec|]. simpl.
  rewrite !decide_False by lia.
  eapply total_bind_runs; [prove_oblivious|apply runs_ret|].
  eapply total_runs_post; [prove_oblivious|by eapply runs_set_size|done].
Qed.

(** [Emplace] at any valid position, for a type whose move assignment
    cannot throw and that is copied unless its move constructor cannot
    throw. *)
Lemma total_Emplace h vs this xs cap buf p k x :
  may_throw MoveAssign = false →
  is_nothrow_move_constructible T || is_copy_constructible = true →
  vec_rep_mem h vs this xs cap buf → p ≤ length xs →
  total h vs (Emplace this (Ptr buf p) k x) (λ _ _ _, True) (left_as h vs).
Proof.
  intros Hma Hsafe Hrep Hp. pose proof Hrep as (Hv & Hb & Hle & Hcap).
  assert (Hlen : length (take p xs) = p) by (rewrite length_take; lia).
  destruct (decide (length xs < cap)) as [Hlt|Hnlt].
  - destruct (decide (p = length xs)) as [->|Hne].
    + eapply total_mono; [by apply total_Emplace_end|done..].
    + destruct (snoc_cases (drop p xs)) as (zs & z & Hdrop).
      { intros Hnil. apply (f_equal length) in Hnil. rewrite length_drop in Hnil.
        simpl in Hnil. lia. }
      assert (Hxs : xs = take p xs ++ zs ++ [z]) by (by rewrite <- Hdrop, take_drop).
      assert (Hrun := total_Emplace_middle h vs this (take p xs) zs z cap buf k x Hma).
      rewrite <- Hxs, Hlen in Hrun.
      eapply total_mono; [by apply Hrun|done..].
  - assert (Hfull : length xs = cap) by lia.
    assert (Hrep2 := Hrep). rewrite <- (take_drop p xs) in Hrep2.
    assert (Hfull2 : length (take p xs ++ drop p xs) = cap) by (by rewrite take_drop).
    pose proof (total_Emplace_full _ _ _ _ _ _ _ k x Hsafe Hrep2 Hfull2) as Hrun.
    rewrite Hlen in Hrun. simpl in Hrun.
    eapply total_mono; [exact Hrun|done..].
Qed.

End TotalOps.

(** ** [Erase] when the move assignment can throw *)

Section TotalShift.
Context {T : Type} `{ET : Elem T}.
Implicit Types (w : World T) (h : gmap positive (list (slot T))) (vs : gmap nat Vector)
               (buf : option positive) (xs : list T) (pre post : list (slot T)).

Lemma total_assign_at h vs buf pre post (y : T) i k x :
  block_rep h buf (pre ++ Live y :: post) → i = length pre →
  total h vs (assign_at (Ptr buf i) k x)
        (exactly tt (upd h buf (pre ++ Live x :: post)) vs)
        (λ h' vs', left_as h vs h' vs' ∧ may_throw k = true).
Proof.
  intros Hb Hi. unfold assign_at.
  eapply total_bind_runs;
    [apply oblivious_load|eapply runs_load; [exact Hb|by apply lookup_middle]|].
  eapply total_bind; [apply total_may_fail|].
  intros [] h1 vs1 (_ & -> & ->).
  eapply total_bind_runs;
    [apply oblivious_write_slot|eapply runs_write_slot; [exact Hb|by apply length_middle]|].
  rewrite insert_middle by done.
  apply total_runs; [apply oblivious_log|apply runs_log].
Qed.

(** One step of the shift to the left: the object at [i + 1] is moved onto
    the object at [i]. *)
Lemma total_move_assign_next h vs buf pre post (y x : T) i :
  block_rep h buf (pre ++ Live y :: Live x :: post) → i = length pre →
  total h vs (move_assign (Ptr buf i) (Ptr buf (i + 1)))
        (exactly tt (upd h buf (pre ++ Live x :: Live (moved_from x) :: post)) vs)
        (λ h' vs', left_as h vs h' vs' ∧ may_throw MoveAssign = true).
Proof.
  intros Hb Hi. unfold move_assign.
  eapply total_bind_runs;
    [apply oblivious_load|eapply runs_load; [exact Hb|by apply lookup_middle2]|].
  eapply total_bind; [by eapply total_assign_at|].
  intros [] h1 vs1 (_ & -> & ->).
  eapply total_runs_post; [apply oblivious_write_slot| |].
  - eapply runs_write_slot.
    + eapply block_rep_upd; [exact Hb|solve_length].
    + subst i. solve_length.
  - rewrite upd_upd, insert_middle2 by done. done.
Qed.

(** The loop of [std::move(first, last, first - 1)]: when a move assignment
    throws, every slot of the range still holds an object. *)
Lemma total_move_left xs : ∀ h vs buf pre (h0 : T) post i,
  block_rep h buf (pre ++ Live h0 :: map Live xs ++ post) → i = length pre →
  total h vs (assign_forward move_assign (Ptr buf (i + 1)) (Ptr buf i) (length xs))
        (exactly tt (upd h buf (pre ++ map Live xs ++ Live (left_hole h0 xs) :: post)) vs)
        (λ h' vs', vs' = vs ∧ may_throw MoveAssign = true ∧
                   ∃ zs, length zs = S (length xs) ∧
                         h' = upd h buf (pre ++ map Live zs ++ post)).
Proof.
  induction xs as [|x xs IH]; intros h vs buf pre h0 post i Hb Hi; simpl in *.
  - apply total_ret. split; [done|]. split; [|done]. symmetry. by apply upd_id.
  - eapply total_bind.
    + eapply total_mono; [by eapply total_move_assign_next|done|].
      intros h1 vs1 ((-> & ->) & Hma). split; [done|]. split; [done|].
      exists (h0 :: x :: xs). split; [done|]. simpl. symmetry. by apply upd_id.
    + intros [] h1 vs1 (_ & -> & ->). rewrite !ptr_add_Ptr.
      eapply total_mono.
      * apply (IH _ vs buf (pre ++ [Live x]) (moved_from x) post (i + 1)).
        -- rewrite <- app_assoc. simpl.
           eapply block_rep_upd; [exact Hb|solve_length].
        -- subst i. solve_length.
      * intros [] h2 vs2 (_ & -> & ->). split; [done|]. split; [|done].
        by rewrite upd_upd, <- app_assoc.
      * intros h2 vs2 (-> & Hma & zs & Hzs & ->). split; [done|]. split; [done|].
        exists (x :: zs). split; [simpl; lia|].
        by rewrite upd_upd, <- app_assoc.
Qed.

Lemma total_std_move_left h vs buf xs pre (h0 : T) post i first last :
  block_rep h buf (pre ++ Live h0 :: map Live xs ++ post) → i = length pre →
  first = i + 1 → last = i + 1 + length xs →
  total h vs (std_move (Ptr buf first) (Ptr buf last) (Ptr buf i))
        (exactly tt (upd h buf (pre ++ map Live xs ++ Live (left_hole h0 xs) :: post)) vs)
        (λ h' vs', vs' = vs ∧ may_throw MoveAssign = true ∧
                   ∃ zs, length zs = S (length xs) ∧
                         h' = upd h buf (pre ++ map Live zs ++ post)).
Proof.
  intros Hb Hi -> ->. unfold std_move.
  eapply total_bind_runs; [apply oblivious_ptr_diff|apply runs_ptr_diff|].
  replace (Z.to_nat _) with (length xs) by lia.
  by apply total_move_left.
Qed.

(** [Erase] under every fault schedule: when a move assignment throws, the
    vector has as many elements as before, all of them alive, and the
    elements before the position are the ones it had. *)
Lemma total_Erase h vs this (ps : list T) (x : T) (ss : list T) cap buf :
  vec_rep_mem h vs this (ps ++ x :: ss) cap buf →
  total h vs (Erase this (Ptr buf (length ps)))
        (exactly (Ptr buf (length ps))
           (upd h buf (map Live (ps ++ ss) ++ replicate (cap - length (ps ++ ss)) Raw))
           (<[this := mkVec (mkRaw buf cap) (length (ps ++ ss))]> vs))
        (λ h' vs', vs' = vs ∧ may_throw MoveAssign = true ∧
                   ∃ zs, length zs = S (length ss) ∧
                         h' = upd h buf (map Live (ps ++ zs) ++
                                         replicate (cap - length (ps ++ x :: ss)) Raw)).
Proof.
  intros (Hv & Hb & Hle & Hcap). pose proof (max_alloc_bound _ Hcap) as Hlt.
  rewrite length_app in *. simpl in *.
  rewrite map_app in Hb. simpl in Hb. rewrite <- app_assoc in Hb. simpl in Hb.
  unfold Erase.
  eapply total_bind_runs; [apply oblivious_begin|by apply runs_begin|]. simpl.
  eapply total_bind_runs; [apply oblivious_ptr_diff|apply runs_ptr_diff|].
  rewrite to_size_t_small by lia.
  replace (Z.to_nat _) with (length ps) by lia.
  eapply total_bind_runs; [apply oblivious_end|by apply runs_end|]. simpl.
  rewrite !ptr_add_Ptr. simpl.
  eapply total_bind.
  { eapply total_mono.
    - eapply (total_std_move_left _ _ _ ss (map Live ps) x);
        [exact Hb|by rewrite length_map|lia|lia].
    - intros a h1 vs1 HQ. exact HQ.
    - intros h1 vs1 (-> & Hma & zs & Hzs & ->). split; [done|]. split; [done|].
      exists zs. split; [done|]. by rewrite map_app, <- app_assoc, length_app. }
  intros [] h1 vs1 (_ & -> & ->).
  eapply total_bind_runs; [apply oblivious_get_vec|by apply runs_get_vec|]. simpl.
  unfold RawMemory_plus. simpl.
  rewrite size_sub_small by lia.
  eapply total_bind_runs; [apply oblivious_destroy_at| |].
  { eapply (runs_destroy_at _ _ _ (map Live ps ++ map Live ss)).
    - rewrite <- app_assoc. eapply block_rep_upd; [exact Hb|].
      rewrite !length_app. simpl. rewrite !length_app. simpl. lia.
    - rewrite length_app, !length_map. lia. }
  rewrite upd_upd.
  eapply total_bind_runs; [apply oblivious_set_size|by eapply runs_set_size|]. simpl.
  eapply total_bind_runs;
    [apply oblivious_begin|eapply runs_begin; apply lookup_insert_eq|]. simpl.
  apply total_ret. split; [done|]. split.
  - f_equal. rewrite map_app, <- !app_assoc. do 2 f_equal.
    by replace (cap - (length ps + length ss))
      with (S (cap - (length ps + S (length ss)))) by lia.
  - do 2 f_equal. lia.
Qed.

End TotalShift.

(** ** The events of the code *)

Section Events.
Context {T : Type} `{ET : Elem T}.
Implicit Types (w : World T) (P : event → Prop).

Lemma emits_quiet {A} P (m : M T A) :
  (∀ w w', final (m w) = Some w' → trace w' = trace w) → emits P m.
Proof.
  intros Hm w w' Hw. exists []. rewrite app_nil_r. split; [by apply Hm|constructor].
Qed.

Lemma emits_ret {A} P (a : A) : emits P (ret a : M T A).
Proof. apply emits_quiet. by intros w w' [= <-]. Qed.

Lemma emits_undefined {A} P : emits P (undefined : M T A).
Proof. by apply emits_quiet. Qed.

Lemma emits_bind {A B} P (m : M T A) (f : A → M T B) :
  emits P m → (∀ a, emits P (f a)) → emits P (bind m f).
Proof.
  intros Hm Hf w w'. unfold bind. specialize (Hm w).
  destruct (m w) as [a w1|w1|]; simpl in *; [|apply Hm|done].
  intros Hw'. destruct (Hm w1 eq_refl) as (evs1 & Ht1 & H1).
  destruct (Hf a w1 w' Hw') as (evs2 & Ht2 & H2).
  exists (evs1 ++ evs2). rewrite Ht2, Ht1, app_assoc. split; [done|].
  apply Forall_app. by split.
Qed.

Lemma emits_unwinding {A} P (m : M T A) c :
  emits P m → emits P c → emits P (unwinding m c).
Proof.
  intros Hm Hc w w'. unfold unwinding. specialize (Hm w).
  destruct (m w) as [a w1|w1|]; simpl in *; [apply Hm| |done].
  specialize (Hc w1). destruct (c w1) as [[] w2|w2|]; simpl in *; [|done..].
  intros [= <-].
  destruct (Hm w1 eq_refl) as (evs1 & Ht1 & H1).
  destruct (Hc w2 eq_refl) as (evs2 & Ht2 & H2).
  exists (evs1 ++ evs2). rewrite Ht2, Ht1, app_assoc. split; [done|].
  apply Forall_app. by split.
Qed.

Lemma emits_log P e : P e → emits P (log e : M T unit).
Proof. intros He w w' [= <-]. exists [e]. split; [done|]. by constructor. Qed.

Lemma emits_may_fail P k : emits P (may_fail k).
Proof.
  apply emits_quiet. intros w w'. unfold may_fail.
  destruct (may_throw k); [|by intros [= <-]].
  destruct (elem_faults w) as [|[] fs]; by intros [= <-].
Qed.

Lemma emits_read_slot P p : emits P (read_slot p : M T (slot T)).
Proof.
  apply emits_quiet. intros w w'. unfold read_slot.
  destruct (p_base p) as [l|]; [|done].
  destruct (heap w !! l) as [blk|]; [|done].
  destruct (blk !! p_off p); [|done]. by intros [= <-].
Qed.

Lemma emits_write_slot P p s : emits P (write_slot p s : M T unit).
Proof.
  apply emits_quiet. intros w w'. unfold write_slot.
  destruct (p_base p) as [l|]; [|done].
  destruct (heap w !! l) as [blk|]; [|done].
  case_decide; [|done]. by intros [= <-].
Qed.

Lemma emits_load P p : emits P (load p : M T T).
Proof.
  unfold load. apply emits_bind; [apply emits_read_slot|].
  intros [|x]; [apply emits_undefined|apply emits_ret].
Qed.

Lemma emits_ptr_diff P p q : emits P (ptr_diff p q : M T Z).
Proof. unfold ptr_diff. case_decide; [apply emits_ret|apply emits_undefined]. Qed.

Lemma emits_get_vec P this : emits P (get_vec this : M T Vector).
Proof.
  apply emits_quiet. intros w w'. unfold get_vec.
  destruct (vecs w !! this); [|done]. by intros [= <-].
Qed.

Lemma emits_put_vec P this v : emits P (put_vec this v : M T unit).
Proof. apply emits_quiet. by intros w w' [= <-]. Qed.

Lemma emits_del_vec P this : emits P (del_vec this : M T unit).
Proof. apply emits_quiet. by intros w w' [= <-]. Qed.

Lemma emits_local_vec P : emits P (local_vec : M T nat).
Proof. apply emits_quiet. by intros w w' [= <-]. Qed.

Lemma emits_RawMemory_at P rm index : emits P (RawMemory_at rm index : M T ptr).
Proof. unfold RawMemory_at. case_decide; [apply emits_ret|apply emits_undefined]. Qed.

Lemma emits_operator_new P size :
  (∀ l n, P (EvNew l n)) → emits P (operator_new size : M T positive).
Proof.
  intros Hnew w w'. unfold operator_new.
  case_decide; [|intros [= <-]; exists []; by rewrite app_nil_r].
  destruct (new_faults w) as [|[] fs]; intros [= <-]; simpl.
  - eexists [_]. split; [done|]. by constructor.
  - exists []. by rewrite app_nil_r.
  - eexists [_]. split; [done|]. by constructor.
Qed.

Lemma emits_operator_delete P buf :
  (∀ l, P (EvDelete l)) → emits P (operator_delete buf : M T unit).
Proof.
  intros Hdel w w'. unfold operator_delete.
  destruct buf as [l|]; [|intros [= <-]; exists []; by rewrite app_nil_r].
  destruct (heap w !! l); [|done]. intros [= <-]. simpl.
  eexists [_]. split; [done|]. by constructor.
Qed.

End Events.

(** Goals [emits P m], by the structure of [m]. *)
Ltac emits_step :=
  first
    [ assumption
    | apply emits_ret
    | apply emits_undefined
    | apply emits_may_fail
    | apply emits_read_slot
    | apply emits_write_slot
    | apply emits_load
    | apply emits_ptr_diff
    | apply emits_get_vec
    | apply emits_put_vec
    | apply emits_del_vec
    | apply emits_local_vec
    | apply emits_RawMemory_at
    | apply emits_log; solve [auto]
    | apply emits_operator_new; solve [auto]
    | apply emits_operator_delete; solve [auto]
    | apply emits_unwinding
    | apply emits_bind; [|intros ?]
    | match goal with |- emits _ (if ?c then _ else _) => destruct c end ].

Ltac solve_emits := repeat emits_step.

Section EventsOfCode.
Context {T : Type} `{ET : Elem T} (P : event → Prop).
Context (Hnew : ∀ l n, P (EvNew l n)) (Hdelete : ∀ l, P (EvDelete l))
        (Hdtor : ∀ p, P (EvDtor p)) (Hlocal : P EvLocalDtor).

Lemma emits_construct_at p k (x : T) :
  (∀ q, P (EvCtor k q)) → emits P (construct_at p k x).
Proof. intros Hk. unfold construct_at. solve_emits. Qed.

Lemma emits_assign_at p k (x : T) :
  (∀ q, P (EvAssign k q)) → emits P (assign_at p k x).
Proof. intros Hk. unfold assign_at. solve_emits. Qed.

Lemma emits_destroy_at p : emits P (destroy_at p : M T unit).
Proof. unfold destroy_at. solve_emits. Qed.

Lemma emits_destroy_n p n : emits P (destroy_n p n : M T unit).
Proof.
  revert p. induction n as [|n IH]; intros p; simpl; [apply emits_ret|].
  apply emits_bind; [apply emits_destroy_at|]. intros _. apply IH.
Qed.

Lemma emits_move_construct dst src :
  (∀ q, P (EvCtor MoveCtor q)) → emits P (move_construct dst src : M T unit).
Proof.
  intros Hk. unfold move_construct.
  apply emits_bind; [apply emits_load|]. intros x.
  apply emits_bind; [by apply emits_construct_at|]. intros _. apply emits_write_slot.
Qed.

Lemma emits_copy_construct dst src :
  (∀ q, P (EvCtor CopyCtor q)) → emits P (copy_construct dst src : M T unit).
Proof.
  intros Hk. unfold copy_construct.
  apply emits_bind; [apply emits_load|]. intros x. by apply emits_construct_at.
Qed.

Lemma emits_move_assign dst src :
  (∀ q, P (EvAssign MoveAssign q)) → emits P (move_assign dst src : M T unit).
Proof.
  intros Hk. unfold move_assign.
  apply emits_bind; [apply emits_load|]. intros x.
  apply emits_bind; [by apply emits_assign_at|]. intros _. apply emits_write_slot.
Qed.

Lemma emits_assign_forward (step : ptr → ptr → M T unit) first result n :
  (∀ p q, emits P (step p q)) → emits P (assign_forward step first result n).
Proof.
  intros Hstep. revert first result.
  induction n as [|n IH]; intros first result; simpl; [apply emits_ret|].
  apply emits_bind; [apply Hstep|]. intros _. apply IH.
Qed.

Lemma emits_std_move first last result :
  (∀ q, P (EvAssign MoveAssign q)) → emits P (std_move first last result : M T unit).
Proof.
  intros Hk. unfold std_move.
  apply emits_bind; [apply emits_ptr_diff|]. intros d.
  apply emits_assign_forward. intros p q. by apply emits_move_assign.
Qed.

Lemma emits_move_backward_loop last d_last n :
  (∀ q, P (EvAssign MoveAssign q)) →
  emits P (move_backward_loop last d_last n : M T unit).
Proof.
  intros Hk. revert last d_last.
  induction n as [|n IH]; intros last d_last; simpl; [apply emits_ret|].
  apply emits_bind; [by apply emits_move_assign|]. intros _. apply IH.
Qed.

Lemma emits_std_move_backward first last d_last :
  (∀ q, P (EvAssign MoveAssign q)) →
  emits P (std_move_backward first last d_last : M T unit).
Proof.
  intros Hk. unfold std_move_backward.
  apply emits_bind; [apply emits_ptr_diff|]. intros d.
  by apply emits_move_backward_loop.
Qed.

Lemma emits_uninitialized_loop (step : ptr → ptr → M T unit) first result cur n :
  (∀ p q, emits P (step p q)) → emits P (uninitialized_loop step first result cur n).
Proof.
  intros Hstep. revert first cur.
  induction n as [|n IH]; intros first cur; simpl; [apply emits_ret|].
  apply emits_bind; [|intros _; apply IH].
  apply emits_unwinding; [apply Hstep|apply emits_destroy_n].
Qed.

Lemma emits_uninitialized_value_construct_n first n :
  (∀ q, P (EvCtor ValueInit q)) →
  emits P (uninitialized_value_construct_n first n : M T unit).
Proof.
  intros Hk. apply emits_uninitialized_loop. intros p q. by apply emits_construct_at.
Qed.

Lemma emits_transfer_n first n result :
  (∀ q, P (EvCtor transfer_ctor q)) → emits P (transfer_n first n result : M T unit).
Proof.
  unfold transfer_ctor, transfer_n, uninitialized_move_n, uninitialized_copy_n.
  destruct (_ || _); intros Hk; apply emits_uninitialized_loop; intros p q.
  - by apply emits_move_construct.
  - by apply emits_copy_construct.
Qed.

Lemma emits_RawMemory_ctor n : emits P (RawMemory_ctor n : M T RawMemory).
Proof. unfold RawMemory_ctor, Allocate. solve_emits. Qed.

Lemma emits_RawMemory_dtor rm : emits P (RawMemory_dtor rm : M T unit).
Proof. unfold RawMemory_dtor, Deallocate. solve_emits. Qed.

Lemma emits_set_data this d : emits P (set_data this d : M T unit).
Proof. unfold set_data. solve_emits. Qed.

Lemma emits_set_size this n : emits P (set_size this n : M T unit).
Proof. unfold set_size. solve_emits. Qed.

Lemma emits_begin this : emits P (begin_ this : M T ptr).
Proof. unfold begin_. solve_emits. Qed.

Lemma emits_end this : emits P (end_ this : M T ptr).
Proof. unfold end_. solve_emits. Qed.

Lemma emits_Capacity this : emits P (Capacity this : M T nat).
Proof. unfold Capacity. solve_emits. Qed.

Lemma emits_Swap this other : emits P (Swap this other : M T unit).
Proof.
  unfold Swap. case_decide; [apply emits_ret|].
  apply emits_bind; [apply emits_get_vec|]. intros v.
  apply emits_bind; [apply emits_get_vec|]. intros o.
  unfold RawMemory_Swap. solve_emits.
Qed.

Lemma emits_Vector_move_assign this rhs : emits P (Vector_move_assign this rhs : M T unit).
Proof.
  unfold Vector_move_assign. case_decide; [apply emits_Swap|apply emits_ret].
Qed.

Lemma emits_Vector_move this other : emits P (Vector_move this other : M T unit).
Proof.
  unfold Vector_move.
  apply emits_bind; [apply emits_put_vec|]. intros _.
  apply emits_bind; [apply emits_get_vec|]. intros v.
  apply emits_bind; [apply emits_get_vec|]. intros o.
  unfold RawMemory_Swap. solve_emits.
Qed.

Lemma emits_Vector_dtor this : emits P (Vector_dtor this : M T unit).
Proof.
  unfold Vector_dtor. apply emits_bind; [apply emits_get_vec|]. intros v.
  apply emits_bind; [apply emits_destroy_n|]. intros _.
  apply emits_bind; [apply emits_RawMemory_dtor|]. intros _.
  apply emits_del_vec.
Qed.

Lemma emits_Vector_sized this n :
  (∀ q, P (EvCtor ValueInit q)) → emits P (Vector_sized this n : M T unit).
Proof.
  intros Hk. unfold Vector_sized.
  apply emits_bind; [apply emits_RawMemory_ctor|]. intros d.
  apply emits_bind; [apply emits_put_vec|]. intros _.
  apply emits_unwinding.
  - apply emits_bind; [apply emits_get_vec|]. intros v.
    by apply emits_uninitialized_value_construct_n.
  - apply emits_bind; [apply emits_RawMemory_dtor|]. intros _. apply emits_del_vec.
Qed.

Lemma emits_PopBack this : emits P (PopBack this : M T unit).
Proof.
  unfold PopBack. apply emits_bind; [apply emits_get_vec|]. intros v.
  case_decide; [|apply emits_undefined].
  apply emits_bind; [apply emits_set_size|]. intros _.
  apply emits_bind; [apply emits_get_vec|]. intros v'.
  apply emits_destroy_at.
Qed.

Lemma emits_Erase this pos :
  (∀ q, P (EvAssign MoveAssign q)) → emits P (Erase this pos : M T ptr).
Proof.
  intros Hk. unfold Erase.
  apply emits_bind; [apply emits_begin|]. intros b.
  apply emits_bind; [apply emits_ptr_diff|]. intros d.
  apply emits_bind; [apply emits_end|]. intros e.
  apply emits_bind; [by apply emits_std_move|]. intros _.
  apply emits_bind; [apply emits_get_vec|]. intros v.
  apply emits_bind; [apply emits_destroy_at|]. intros _.
  apply emits_bind; [apply emits_set_size|]. intros _.
  apply emits_bind; [apply emits_begin|]. intros b'.
  apply emits_ret.
Qed.

Lemma emits_Reserve this n :
  (∀ q, P (EvCtor transfer_ctor q)) → emits P (Reserve this n : M T unit).
Proof.
  intros Hk. unfold Reserve.
  apply emits_bind; [apply emits_get_vec|]. intros v.
  case_decide; [apply emits_ret|].
  apply emits_bind; [apply emits_RawMemory_ctor|]. intros new_data.
  apply emits_bind; [|intros old; apply emits_RawMemory_dtor].
  apply emits_unwinding; [|apply emits_RawMemory_dtor].
  apply emits_bind; [by apply emits_transfer_n|]. intros _.
  apply emits_bind; [apply emits_destroy_n|]. intros _.
  unfold RawMemory_Swap.
  apply emits_bind; [apply emits_set_data|]. intros _. apply emits_ret.
Qed.

Lemma emits_Resize this n :
  (∀ q, P (EvCtor transfer_ctor q)) → (∀ q, P (EvCtor ValueInit q)) →
  emits P (Resize this n : M T unit).
Proof.
  intros Hk Hv. unfold Resize.
  apply emits_bind; [apply emits_get_vec|]. intros v.
  apply emits_bind; [|intros _; apply emits_set_size].
  case_decide; [apply emits_destroy_n|].
  case_decide; [|apply emits_ret].
  apply emits_bind; [by apply emits_Reserve|]. intros _.
  apply emits_bind; [apply emits_get_vec|]. intros v'.
  by apply emits_uninitialized_value_construct_n.
Qed.

Lemma emits_construct_from p k (value : operand T) :
  (∀ q, P (EvCtor k q)) → emits P (construct_from p k value).
Proof.
  intros Hk. destruct value as [x|src]; simpl; [by apply emits_construct_at|].
  apply emits_bind; [apply emits_load|]. intros x.
  apply emits_bind; [by apply emits_construct_at|]. intros _.
  case_decide; [apply emits_write_slot|apply emits_ret].
Qed.

Lemma emits_PushBack_with k this (value : operand T) :
  (∀ q, P (EvCtor transfer_ctor q)) → (∀ q, P (EvCtor k q)) →
  emits P (PushBack_with k this value).
Proof.
  intros Ht Hk. unfold PushBack_with.
  apply emits_bind; [apply emits_get_vec|]. intros v.
  apply emits_bind; [apply emits_Capacity|]. intros c.
  apply emits_bind.
  - case_decide; [|by apply emits_construct_from].
    apply emits_bind; [apply emits_RawMemory_ctor|]. intros new_data.
    apply emits_bind; [|intros old; apply emits_RawMemory_dtor].
    apply emits_unwinding; [|apply emits_RawMemory_dtor].
    apply emits_bind; [by apply emits_transfer_n|]. intros _.
    apply emits_bind; [by apply emits_construct_from|]. intros _.
    apply emits_bind; [apply emits_destroy_n|]. intros _.
    unfold RawMemory_Swap.
    apply emits_bind; [apply emits_set_data|]. intros _. apply emits_ret.
  - intros _. apply emits_bind; [apply emits_get_vec|]. intros v'.
    apply emits_set_size.
Qed.

Lemma emits_Emplace this pos k (x : T) :
  (∀ q, P (EvCtor transfer_ctor q)) → (∀ q, P (EvCtor k q)) → P (EvLocalCtor k) →
  (∀ q, P (EvCtor MoveCtor q)) → (∀ q, P (EvAssign MoveAssign q)) →
  emits P (Emplace this pos k x).
Proof.
  intros Ht Hk Hlk Hmc Hma. unfold Emplace.
  apply emits_bind; [apply emits_begin|]. intros b.
  apply emits_bind; [apply emits_ptr_diff|]. intros d.
  apply emits_bind; [apply emits_get_vec|]. intros v.
  apply emits_bind; [apply emits_Capacity|]. intros c.
  apply emits_bind.
  - case_decide.
    + apply emits_bind; [apply emits_end|]. intros e.
      case_decide; [by apply emits_construct_at|].
      apply emits_bind; [apply emits_may_fail|]. intros _.
      apply emits_bind; [by apply emits_log|]. intros _.
      apply emits_bind; [apply emits_RawMemory_at|]. intros last.
      apply emits_bind; [by apply emits_move_construct|]. intros _.
      apply emits_bind; [apply emits_begin|]. intros b'.
      apply emits_bind; [apply emits_end|]. intros e'.
      apply emits_bind; [by apply emits_std_move_backward|]. intros _.
      apply emits_bind; [apply emits_RawMemory_at|]. intros p.
      apply emits_bind; [by apply emits_assign_at|]. intros _.
      by apply emits_log.
    + apply emits_bind; [apply emits_RawMemory_ctor|]. intros new_data.
      apply emits_bind; [|intros old; apply emits_RawMemory_dtor].
      apply emits_unwinding; [|apply emits_RawMemory_dtor].
      apply emits_bind; [by apply emits_construct_at|]. intros _.
      apply emits_bind; [by apply emits_transfer_n|]. intros _.
      apply emits_bind; [by apply emits_transfer_n|]. intros _.
      apply emits_bind; [apply emits_destroy_n|]. intros _.
      unfold RawMemory_Swap.
      apply emits_bind; [apply emits_set_data|]. intros _. apply emits_ret.
  - intros _. apply emits_bind; [apply emits_get_vec|]. intros v'.
    apply emits_bind; [apply emits_set_size|]. intros _.
    apply emits_bind; [apply emits_begin|]. intros b'. apply emits_ret.
Qed.

(** The operations on one vector, for the constructors and assignments they
    use. *)
Lemma emits_run_operation this (op : operation) :
  (∀ q, P (EvCtor transfer_ctor q)) → (∀ q, P (EvCtor ValueInit q)) →
  (∀ q, P (EvCtor MoveCtor q)) → (∀ q, P (EvAssign MoveAssign q)) →
  (∀ ins, op = DoInsert ins →
     (∀ q, P (EvCtor (insertion_ctor ins) q)) ∧ P (EvLocalCtor (insertion_ctor ins))) →
  emits P (run_operation this op).
Proof.
  intros Ht Hv Hmc Hma Hins.
  assert (Hemplace : ∀ i k (x : T), (∀ q, P (EvCtor k q)) → P (EvLocalCtor k) →
            emits P (bind (begin_ this) (λ b, bind (Emplace this (b +ₚ i) k x) (λ _, ret tt)))).
  { intros i k x Hk Hlk. apply emits_bind; [apply emits_begin|]. intros b.
    apply emits_bind; [by apply emits_Emplace|]. intros _. apply emits_ret. }
  destruct op as [ins|n|n| |i]; simpl.
  - destruct (Hins ins eq_refl) as [Hk Hlk].
    destruct ins as [value|value|k x|p k x|p value|p value]; simpl in *.
    + by apply emits_PushBack_with.
    + by apply emits_PushBack_with.
    + apply emits_bind; [|intros _; apply emits_ret]. unfold EmplaceBack.
      apply emits_bind; [apply emits_get_vec|]. intros v. by apply emits_Emplace.
    + by apply Hemplace.
    + by apply Hemplace.
    + by apply Hemplace.
  - by apply emits_Reserve.
  - by apply emits_Resize.
  - apply emits_PopBack.
  - apply emits_bind; [apply emits_begin|]. intros b.
    apply emits_bind; [by apply emits_Erase|]. intros _. apply emits_ret.
Qed.

Lemma emits_run_operations this (ops : list operation) :
  (∀ q, P (EvCtor transfer_ctor q)) → (∀ q, P (EvCtor ValueInit q)) →
  (∀ q, P (EvCtor MoveCtor q)) → (∀ q, P (EvAssign MoveAssign q)) →
  Forall (λ op, ∀ ins, op = DoInsert ins →
            (∀ q, P (EvCtor (insertion_ctor ins) q)) ∧
            P (EvLocalCtor (insertion_ctor ins))) ops →
  emits P (run_operations this ops).
Proof.
  intros Ht Hv Hmc Hma Hops. induction Hops as [|op ops Hop Hops IH]; simpl.
  - apply emits_ret.
  - apply emits_bind; [by apply emits_run_operation|]. intros _. exact IH.
Qed.

End EventsOfCode.

(** ** Runs under a given fault schedule *)

Section ScheduledRuns.
Context {T : Type} `{ET : Elem T}.
Implicit Types (h : gmap positive (list (slot T))) (vs : gmap nat Vector)
               (nf ef : list bool) (tr : list event) (buf : option positive)
               (b : list (slot T)).

Lemma bind_Throw {A B} (m : M T A) (f : A → M T B) (w w1 : World T) :
  m w = Throw w1 → bind m f w = Throw w1.
Proof. intros Hm. unfold bind. by rewrite Hm. Qed.

Lemma unwinding_Ok {A} (m : M T A) c (w : World T) a w1 :
  m w = Ok a w1 → unwinding m c w = Ok a w1.
Proof. intros Hm. unfold unwinding. by rewrite Hm. Qed.

Lemma unwinding_Throw {A} (m : M T A) c (w w1 w2 : World T) :
  m w = Throw w1 → c w1 = Ok tt w2 → unwinding m c w = Throw w2.
Proof. intros Hm Hc. unfold unwinding. by rewrite Hm, Hc. Qed.

(** A call of [k] that succeeds uses up one entry of the schedule if [k] can
    throw, and none otherwise. *)
Lemma may_fail_passes h vs nf ef tr k :
  may_fail k (mkWorld h vs nf ((if may_throw k then [false] else []) ++ ef) tr)
  = Ok tt (mkWorld h vs nf ef tr).
Proof. unfold may_fail. simpl. by destruct (may_throw k). Qed.

Lemma may_fail_throws h vs nf ef tr k :
  may_throw k = true →
  may_fail k (mkWorld h vs nf (true :: ef) tr) = Throw (mkWorld h vs nf ef tr).
Proof. intros Hk. unfold may_fail. simpl. by rewrite Hk. Qed.

Lemma read_slot_at h vs nf ef tr buf b i s :
  block_rep h buf b → b !! i = Some s →
  read_slot (Ptr buf i) (mkWorld h vs nf ef tr) = Ok s (mkWorld h vs nf ef tr).
Proof.
  intros Hb Hs. destruct buf as [l|]; simpl in Hb; [|by subst b].
  unfold read_slot. simpl. by rewrite Hb, Hs.
Qed.

Lemma write_slot_at h vs nf ef tr buf b i s :
  block_rep h buf b → i < length b →
  write_slot (Ptr buf i) s (mkWorld h vs nf ef tr)
  = Ok tt (mkWorld (upd h buf (<[i := s]> b)) vs nf ef tr).
Proof.
  intros Hb Hi. destruct buf as [l|]; simpl in Hb; [|subst b; simpl in Hi; lia].
  unfold write_slot. simpl. rewrite Hb. by rewrite decide_True.
Qed.

Lemma load_at h vs nf ef tr buf b i (x : T) :
  block_rep h buf b → b !! i = Some (Live x) →
  load (Ptr buf i) (mkWorld h vs nf ef tr) = Ok x (mkWorld h vs nf ef tr).
Proof. intros Hb Hx. by apply (load_Ok (mkWorld h vs nf ef tr) buf b). Qed.

Lemma construct_at_passes h vs nf ef tr buf b i k (x : T) :
  block_rep h buf b → i < length b →
  construct_at (Ptr buf i) k x
    (mkWorld h vs nf ((if may_throw k then [false] else []) ++ ef) tr)
  = Ok tt (mkWorld (upd h buf (<[i := Live x]> b)) vs nf ef (tr ++ [EvCtor k (Ptr buf i)])).
Proof.
  intros Hb Hi. destruct (lookup_lt_is_Some_2 b i Hi) as [s Hs].
  unfold construct_at.
  rewrite (bind_Ok _ _ _ _ _ (read_slot_at _ _ _ _ _ _ _ _ _ Hb Hs)).
  rewrite (bind_Ok _ _ _ _ _ (may_fail_passes _ _ _ _ _ _)).
  by rewrite (bind_Ok _ _ _ _ _ (write_slot_at _ _ _ _ _ _ _ _ (Live x) Hb Hi)).
Qed.

Lemma construct_at_throws h vs nf ef tr buf b i k (x : T) :
  block_rep h buf b → i < length b → may_throw k = true →
  construct_at (Ptr buf i) k x (mkWorld h vs nf (true :: ef) tr)
  = Throw (mkWorld h vs nf ef tr).
Proof.
  intros Hb Hi Hk. destruct (lookup_lt_is_Some_2 b i Hi) as [s Hs].
  unfold construct_at.
  rewrite (bind_Ok _ _ _ _ _ (read_slot_at _ _ _ _ _ _ _ _ _ Hb Hs)).
  by rewrite (bind_Throw _ _ _ _ (may_fail_throws _ _ _ _ _ _ Hk)).
Qed.

(** The same for the construction from an operand that is alive: the
    operand is read, and the constructor throws before anything is
    written. *)
Lemma construct_from_throws h vs nf ef tr buf b i k (value : operand T) :
  block_rep h buf b → i < length b → may_throw k = true → operand_alive h value →
  construct_from (Ptr buf i) k value (mkWorld h vs nf (true :: ef) tr)
  = Throw (mkWorld h vs nf ef tr).
Proof.
  intros Hb Hi Hk Halive. destruct value as [x|[bq j]]; simpl.
  - by eapply construct_at_throws.
  - destruct Halive as (l & c & x & Hbase & Hl & Hj). simpl in Hbase, Hj. subst bq.
    rewrite (bind_Ok _ _ _ _ _ (load_at h vs nf (true :: ef) tr (Some l) c j x Hl Hj)).
    apply bind_Throw. by eapply construct_at_throws.
Qed.

(** One step of the transfer: the constructor [transfer_ctor] builds the
    object at [i] of the new block from the one at [j] of the old block, and
    leaves that one [transferred]. *)
Lemma transfer_step_passes h vs nf ef tr bs bd (b_s b_d : list (slot T)) i j (x : T) :
  apart bs bd →
  block_rep h bs b_s → b_s !! j = Some (Live x) → block_rep h bd b_d → i < length b_d →
  (if is_nothrow_move_constructible T || negb is_copy_constructible
   then move_construct else copy_construct) (Ptr bd i) (Ptr bs j)
    (mkWorld h vs nf ((if may_throw transfer_ctor then [false] else []) ++ ef) tr)
  = Ok tt (mkWorld (upd (upd h bd (<[i := Live x]> b_d)) bs (<[j := Live (transferred x)]> b_s))
                   vs nf ef (tr ++ [EvCtor transfer_ctor (Ptr bd i)])).
Proof.
  intros Ha Hs Hx Hd Hi. unfold transfer_ctor, transferred.
  destruct (_ || _).
  - unfold move_construct.
    rewrite (bind_Ok _ _ _ _ _ (load_at _ _ _ _ _ _ _ _ _ Hs Hx)).
    rewrite (bind_Ok _ _ _ _ _ (construct_at_passes _ _ _ _ _ _ _ _ MoveCtor x Hd Hi)).
    apply write_slot_at; [by apply block_rep_upd_ne|by eapply lookup_lt_Some].
  - unfold copy_construct.
    rewrite (bind_Ok _ _ _ _ _ (load_at _ _ _ _ _ _ _ _ _ Hs Hx)).
    rewrite (construct_at_passes _ _ _ _ _ _ _ _ CopyCtor x Hd Hi).
    do 2 f_equal. rewrite (list_insert_id b_s j (Live x) Hx). symmetry.
    apply upd_id. by apply block_rep_upd_ne.
Qed.

(** The loop of the transfer when every construction succeeds. *)
Lemma transfer_loop_passes bs bd :
  apart bs bd →
  ∀ (xs done : list T) h vs nf ef tr (post_s post_d : list (slot T)),
    block_rep h bs (map Live (map transferred done) ++ map Live xs ++ post_s) →
    block_rep h bd (map Live done ++ replicate (length xs) Raw ++ post_d) →
    uninitialized_loop
      (if is_nothrow_move_constructible T || negb is_copy_constructible
       then move_construct else copy_construct)
      (Ptr bs (length done)) (Ptr bd 0) (Ptr bd (length done)) (length xs)
      (mkWorld h vs nf
               ((if may_throw transfer_ctor then replicate (length xs) false else []) ++ ef) tr)
    = Ok tt (mkWorld (upd (upd h bd (map Live (done ++ xs) ++ post_d)) bs
                          (map Live (map transferred (done ++ xs)) ++ post_s))
                     vs nf ef
                     (tr ++ map (λ i, EvCtor transfer_ctor (Ptr bd i))
                                (seq (length done) (length xs)))).
Proof.
  intros Ha. induction xs as [|x xs IH]; intros done h vs nf ef tr post_s post_d Hs Hd.
  - simpl in *. rewrite !app_nil_r.
    replace ((if may_throw transfer_ctor then [] else []) ++ ef) with ef
      by (by destruct (may_throw transfer_ctor)).
    unfold ret. do 2 f_equal.
    rewrite (upd_id h bd) by done. by rewrite upd_id.
  - simpl in *.
    replace ((if may_throw transfer_ctor then false :: replicate (length xs) false else [])
             ++ ef)
      with ((if may_throw transfer_ctor then [false] else []) ++
            ((if may_throw transfer_ctor then replicate (length xs) false else []) ++ ef))
      by (by destruct (may_throw transfer_ctor)).
    assert (Hj : length done = length (map Live (map transferred done)))
      by (by rewrite !length_map).
    assert (Hi : length done = length (map (@Live T) done)) by (by rewrite length_map).
    rewrite (bind_Ok _ _ _ _ _
               (unwinding_Ok _ _ _ _ _
                  (transfer_step_passes _ _ _ _ _ bs bd _ _ (length done) (length done) x
                     Ha Hs (lookup_middle _ _ _ _ Hj) Hd (length_middle _ _ _ _ Hi)))).
    rewrite (insert_middle _ _ _ _ _ Hj), (insert_middle _ _ _ _ _ Hi).
    rewrite !ptr_add_Ptr.
    replace (length done + 1) with (length (done ++ [x])) by solve_length.
    rewrite (IH (done ++ [x]) _ vs nf ef _ post_s post_d).
    + do 2 f_equal.
      * rewrite <- !app_assoc. simpl. by norm_heap.
      * rewrite <- app_assoc, length_app. simpl. by rewrite Nat.add_1_r.
    + rewrite !map_app, <- app_assoc. simpl.
      eapply block_rep_upd; [exact Hs|solve_length].
    + rewrite map_app, <- app_assoc. simpl.
      apply block_rep_upd_ne; [by apply apart_sym|].
      eapply block_rep_upd; [exact Hd|solve_length].
Qed.

Lemma transfer_n_passes bs bd (xs : list T) h vs nf ef tr (post_d : list (slot T)) :
  apart bs bd →
  block_rep h bs (map Live xs) →
  block_rep h bd (replicate (length xs) Raw ++ post_d) →
  transfer_n (Ptr bs 0) (length xs) (Ptr bd 0)
    (mkWorld h vs nf
             ((if may_throw transfer_ctor then replicate (length xs) false else []) ++ ef) tr)
  = Ok tt (mkWorld (upd (upd h bd (map Live xs ++ post_d)) bs (map Live (map transferred xs)))
                   vs nf ef
                   (tr ++ map (λ i, EvCtor transfer_ctor (Ptr bd i)) (seq 0 (length xs)))).
Proof.
  intros Ha Hs Hd.
  pose proof (transfer_loop_passes bs bd Ha xs [] h vs nf ef tr [] post_d) as Hloop.
  simpl in Hloop. rewrite !app_nil_r in Hloop.
  rewrite <- Hloop by done.
  unfold transfer_n, uninitialized_move_n, uninitialized_copy_n. by destruct (_ || _).
Qed.

Lemma RawMemory_ctor_passes h vs nf ef tr n :
  n ≠ 0 → (N.of_nat n ≤ max_alloc T)%N → head nf ≠ Some true →
  RawMemory_ctor n (mkWorld h vs nf ef tr)
  = Ok (mkRaw (Some (fresh (dom h))) n)
       (mkWorld (<[fresh (dom h) := replicate n Raw]> h) vs (tail nf) ef
                (tr ++ [EvNew (fresh (dom h)) n])).
Proof.
  intros Hn Hfit Hnf.
  rewrite RawMemory_ctor_cases by (done || by apply max_alloc_fits).
  rewrite decide_True by done. simpl.
  by destruct nf as [|[] nf].
Qed.

Lemma RawMemory_dtor_at h vs nf ef tr l cap b :
  h !! l = Some b →
  RawMemory_dtor (mkRaw (Some l) cap) (mkWorld h vs nf ef tr)
  = Ok tt (mkWorld (delete l h) vs nf ef (tr ++ [EvDelete l])).
Proof.
  intros Hl. unfold RawMemory_dtor, Deallocate, operator_delete. simpl. by rewrite Hl.
Qed.

(** [PushBack] on a full vector, when the allocation succeeds, every
    transfer succeeds and the construction of the new element throws. *)
Lemma PushBack_full_throws_after_transfer h vs nf ef tr this (xs : list T) cap buf k
    (value : operand T) :
  vec_rep_mem h vs this xs cap buf → length xs = cap →
  (N.of_nat (grown cap) ≤ max_alloc T)%N → head nf ≠ Some true →
  may_throw k = true → operand_alive h value →
  let l := fresh (dom h) in
  PushBack_with k this value
    (mkWorld h vs nf
       ((if may_throw transfer_ctor then replicate cap false else []) ++ true :: ef) tr)
  = Throw (mkWorld (upd h buf (map Live (map transferred xs))) vs (tail nf) ef
                   (tr ++ EvNew l (grown cap) ::
                          map (λ i, EvCtor transfer_ctor (Ptr (Some l) i)) (seq 0 cap) ++
                          [EvDelete l])).
Proof.
  intros (Hv & Hb & Hle & Hcap) Hfull Hfit Hnf Hk Halive l. subst cap.
  pose proof (max_alloc_bound _ Hcap) as Hmax.
  pose proof (max_alloc_bound _ Hfit) as Hgmax.
  pose proof (grown_gt (length xs)) as Hgt.
  assert (Hl : h !! l = None) by apply fresh_unused.
  assert (Ha : apart buf (Some l)).
  { intros l' -> [= ->]. simpl in Hb. by rewrite Hl in Hb. }
  rewrite Nat.sub_diag in Hb. simpl in Hb. rewrite app_nil_r in Hb.
  assert (Hg : (if decide (length xs = 0) then 1 else size_mul (length xs) 2)
               = grown (length xs)).
  { unfold grown. case_decide; [done|]. apply size_mul_small. lia. }
  unfold PushBack_with.
  rewrite (bind_Ok _ _ _ _ _ (get_vec_Ok (mkWorld h vs nf _ tr) this _ Hv)).
  rewrite (bind_Ok _ _ _ _ _ (Capacity_Ok (mkWorld h vs nf _ tr) this _ Hv)). simpl.
  rewrite decide_True by done. rewrite Hg.
  apply bind_Throw.
  rewrite (bind_Ok _ _ _ _ _ (RawMemory_ctor_passes h vs nf _ tr (grown (length xs))
                                ltac:(lia) Hfit Hnf)).
  fold l. apply bind_Throw.
  set (h1 := <[l := replicate (grown (length xs)) Raw]> h).
  assert (Hb1 : block_rep h1 buf (map Live xs)).
  { apply (block_rep_upd_ne h buf (Some l)); done. }
  assert (Hnb1 : block_rep h1 (Some l)
                   (replicate (length xs) Raw ++
                    replicate (grown (length xs) - length xs) Raw)).
  { simpl. unfold h1. rewrite lookup_insert_eq. f_equal.
    rewrite <- replicate_add. f_equal. lia. }
  eapply unwinding_Throw.
  - unfold GetAddress, RawMemory_plus. simpl.
    rewrite (bind_Ok _ _ _ _ _
               (transfer_n_passes buf (Some l) xs h1 vs (tail nf) (true :: ef) _ _
                  Ha Hb1 Hnb1)).
    apply bind_Throw.
    eapply (construct_from_throws _ _ _ _ _ (Some l)
              (map Live xs ++ replicate (grown (length xs) - length xs) Raw)); [| |done|].
    + apply block_rep_upd_ne; [by apply apart_sym|].
      eapply block_rep_upd; [exact Hnb1|solve_length].
    + rewrite length_app, length_map, length_replicate. lia.
    + assert (E : ∀ c : list (slot T), upd h1 (Some l) c = upd h (Some l) c).
      { intros c. unfold h1. simpl. apply insert_insert_eq. }
      rewrite E. apply operand_alive_transferred; [done|done|].
      intros l' Hl' [= E']. rewrite <- E' in Hl'. by rewrite Hl in Hl'.
  - rewrite (RawMemory_dtor_at _ _ _ _ _ l (grown (length xs))
               (map Live xs ++ replicate (grown (length xs) - length xs) Raw)).
    + f_equal. f_equal.
      * match goal with |- delete l ?X = _ => change (del X (Some l) = upd h buf
                                                      (map Live (map transferred xs))) end.
        rewrite <- (upd_del_comm _ buf (Some l)) by done. simpl. unfold h1.
        rewrite !delete_insert_eq. f_equal. by apply delete_id.
      * by rewrite <- !app_assoc.
    + apply (block_rep_upd_ne _ (Some l) buf); [by apply apart_sym|].
      simpl. apply lookup_insert_eq.
Qed.

End ScheduledRuns.

(** ** Consequences for the vector as a whole *)

Section Consequences.
Context {T : Type} `{ET : Elem T}.
Implicit Types (w : World T) (buf : option positive) (xs ys : list T).

Lemma untouched_same w w' this buf :
  heap w' = heap w → vecs w' = vecs w → untouched_outside w w' this buf.
Proof. intros Hh Hv. split; intros; by rewrite ?Hh, ?Hv. Qed.

(** A construction that returns has found its slot inside the block, and
    leaves the block with the length it had. *)
Lemma construct_at_returns w l (b : list (slot T)) i k (x : T) w' :
  heap w !! l = Some b →
  construct_at (Ptr (Some l) i) k x w = Ok tt w' →
  i < length b ∧ ∃ b', heap w' !! l = Some b' ∧ length b' = length b.
Proof.
  intros Hl HOk. destruct (decide (i < length b)) as [Hi|Hi].
  - split; [done|]. rewrite (construct_at_cases w l b i k x Hl Hi) in HOk.
    assert (Hheap : ∀ w2, may_fail k w = Ok tt w2 → heap w2 = heap w).
    { unfold may_fail. destruct (may_throw k); [|by intros w2 [= <-]].
      destruct (elem_faults w) as [|[] fs]; intros w2 [= <-]; done. }
    destruct (may_fail k w) as [[] w2| |] eqn:Hm; [|done..].
    injection HOk as <-. simpl. rewrite (Hheap w2 eq_refl), lookup_insert_eq.
    eexists. split; [done|]. by rewrite length_insert.
  - unfold construct_at, bind, read_slot in HOk. simpl in HOk. rewrite Hl in HOk.
    rewrite lookup_ge_None_2 in HOk by lia. done.
Qed.

(** The loop that value-constructs [n] objects from [cur] on returns only
    if the block has room for them. *)
Lemma value_construct_loop_room n : ∀ first result l i w w' (b : list (slot T)),
  heap w !! l = Some b → i ≤ length b →
  uninitialized_loop (λ cur _, value_construct cur) first result (Ptr (Some l) i) n w
    = Ok tt w' →
  i + n ≤ length b.
Proof.
  induction n as [|n IH]; intros first result l i w w' b Hl Hle HOk; simpl in HOk; [lia|].
  unfold bind, unwinding in HOk.
  destruct (value_construct (Ptr (Some l) i) w) as [[] w1|w1|] eqn:Hc;
    [|by destruct (destroy_n _ _ w1)|done].
  destruct (construct_at_returns w l b i ValueInit value_init w1 Hl Hc)
    as (Hi & b1 & Hl1 & Hlen).
  change (Ptr (Some l) i +ₚ 1) with (Ptr (Some l) (i + 1)) in HOk.
  assert (Hle1 : i + 1 ≤ length b1) by lia.
  pose proof (IH _ _ l (i + 1) w1 w' b1 Hl1 Hle1 HOk). lia.
Qed.

(** What [RawMemory(n)] leaves when it returns for a nonzero [n]: a new
    block with room for as many elements as the byte count holds. *)
Lemma RawMemory_ctor_returns w n rm w' :
  n ≠ 0 → RawMemory_ctor n w = Ok rm w' →
  ∃ l, rm = mkRaw (Some l) n ∧ heap w !! l = None ∧ vecs w' = vecs w ∧
       heap w' = <[l := replicate (size_mul n (Pos.to_nat sizeof) / Pos.to_nat sizeof) Raw]>
                   (heap w).
Proof.
  intros Hn. unfold RawMemory_ctor, Allocate, bind, operator_new, ret.
  rewrite decide_True by done. case_decide; [|done].
  destruct (new_faults w) as [|[] fs]; intros [= <- <-]; simpl.
  all: eexists; split; [done|]; split; [apply fresh_unused|done].
Qed.

(** The sized constructor returns only if the byte count of its block is
    below the wrap-around: a block of fewer elements is overrun. *)
Lemma Vector_sized_returns_fits w this n w' :
  Vector_sized this n w = Ok tt w' → fits_size_t T n.
Proof.
  intros HOk.
  destruct (Z.lt_dec (Z.of_nat n * Z.pos sizeof) (2 ^ size_t_bits))%Z as [Hfit|Hwrap];
    [done|exfalso].
  assert (Hn : n ≠ 0).
  { intros ->. apply Hwrap. unfold size_t_bits. lia. }
  pose proof (block_slots_wrapped n Hwrap) as Hslots.
  unfold Vector_sized in HOk. unfold bind at 1 in HOk.
  destruct (RawMemory_ctor n w) as [rm w1| |] eqn:Hctor; [|done..].
  destruct (RawMemory_ctor_returns w n rm w1 Hn Hctor) as (l & -> & Hl & Hvs1 & Hh1).
  unfold bind at 1 in HOk. unfold put_vec at 1 in HOk.
  unfold unwinding in HOk.
  match type of HOk with
  | match ?body ?w2 with _ => _ end = _ =>
      destruct (body w2) as [[] w3|w3|] eqn:Hbody; [| |done]
  end.
  2: { match type of HOk with match ?c with _ => _ end = _ => by destruct c end. }
  unfold bind, get_vec in Hbody. simpl in Hbody. rewrite lookup_insert_eq in Hbody.
  unfold uninitialized_value_construct_n, GetAddress in Hbody. simpl in Hbody.
  eapply (value_construct_loop_room n _ _ l 0) in Hbody;
    [|simpl; rewrite Hh1; apply lookup_insert_eq|lia].
  rewrite length_replicate in Hbody. lia.
Qed.

(** The outcome of a run, read off a [total] judgement. *)
Lemma total_at {A} w (m : M T A) Q E :
  total (heap w) (vecs w) m Q E →
  match m w with
  | Ok a w' => Q a (heap w') (vecs w')
  | Throw w' => E (heap w') (vecs w')
  | Undefined => False
  end.
Proof. intros Hm. by apply Hm. Qed.

(** [Emplace] at the end and [PushBack] leave the same memory. *)
Lemma EmplaceBack_as_PushBack w this xs cap buf k x r w1 w2 :
  vec_rep w this xs cap buf →
  Emplace this (Ptr buf (length xs)) k x w = Ok r w1 →
  PushBack_with k this (Outside x) w = Ok tt w2 →
  heap w1 = heap w2 ∧ vecs w1 = vecs w2.
Proof.
  intros Hrep H1 H2. pose proof Hrep as (Hv & Hb & Hle & Hcap).
  destruct (decide (length xs < cap)) as [Hlt|Hnlt].
  - pose proof (spec_Ok _ _ _ _ _
                  (runs_Emplace_end _ _ _ _ _ _ k x Hrep Hlt w eq_refl eq_refl) H1)
      as (_ & Hh1 & Hv1).
    pose proof (spec_Ok _ _ _ _ _
                  (runs_PushBack_room _ _ _ _ _ _ k x Hrep Hlt w eq_refl eq_refl) H2)
      as (_ & Hh2 & Hv2).
    by rewrite Hh1, Hh2, Hv1, Hv2.
  - assert (Hfull : length xs = cap) by lia.
    destruct (decide (N.of_nat (grown cap) ≤ max_alloc T)%N) as [Hfit|Hbig];
      [|by rewrite (PushBack_too_big w this xs cap buf k (Outside x)) in H2].
    assert (Hrep2 := Hrep). rewrite <- (app_nil_r xs) in Hrep2.
    assert (Hfull2 : length (xs ++ []) = cap) by (by rewrite app_nil_r).
    pose proof (spec_Ok _ _ _ _ _
                  (runs_Emplace_full _ _ _ _ _ _ _ k x Hrep2 Hfull2 Hfit w eq_refl eq_refl) H1)
      as (_ & Hh1 & Hv1).
    pose proof (spec_Ok _ _ _ _ _
                  (runs_PushBack_full _ _ _ _ _ _ k x Hrep Hfull Hfit w eq_refl eq_refl) H2)
      as (_ & Hh2 & Hv2).
    by rewrite Hh1, Hh2, Hv1, Hv2.
Qed.

(** The element at index [i] of a vector is alive in its block. *)
Lemma vec_rep_load w this xs cap buf i x :
  vec_rep w this xs cap buf → xs !! i = Some x → load (Ptr buf i) w = Ok x w.
Proof.
  intros (_ & Hb & _) Hi. eapply load_Ok; [exact Hb|]. by apply lookup_map_Live.
Qed.

(** The slot at index [size_] and beyond holds no object. *)
Lemma vec_rep_load_beyond w this xs cap buf i :
  vec_rep w this xs cap buf → length xs ≤ i → load (Ptr buf i) w = Undefined.
Proof.
  intros (_ & Hb & _) Hi. unfold load, bind, read_slot. simpl.
  destruct buf as [l|]; [|done]. simpl in Hb. rewrite Hb.
  rewrite lookup_app_r by (rewrite length_map; lia).
  rewrite length_map.
  destruct (replicate (cap - length xs) Raw !! (i - length xs)) as [s|] eqn:Hs; [|done].
  by apply lookup_replicate in Hs as [-> _].
Qed.

(** A vector constructed in a new block of [n] elements. *)
Lemma fresh_vector_effect w w' this ys n :
  heap w' = upd (heap w) (new_buf (heap w) n) (map Live ys) →
  vecs w' = <[this := mkVec (mkRaw (new_buf (heap w) n) n) n]> (vecs w) →
  n = length ys → (N.of_nat n ≤ max_alloc T)%N →
  vec_rep w' this ys n (new_buf (heap w) n) ∧
  untouched_outside w w' this None ∧
  (n = 0 → heap w' = heap w).
Proof.
  intros Hh Hvs -> Hn. split; [|split].
  - unfold vec_rep, vec_rep_mem. rewrite Hh, Hvs.
    split; [apply lookup_insert_eq|]. split; [|done].
    rewrite Nat.sub_diag. simpl. rewrite app_nil_r.
    eapply block_rep_upd; [apply (new_buf_block (heap w) (length ys))|]. solve_length.
  - split.
    + intros o Ho. rewrite Hvs. apply lookup_insert_ne. congruence.
    + intros l b _ Hlb. rewrite Hh. unfold new_buf. case_decide; simpl; [|done].
      rewrite lookup_insert_ne; [done|]. intros <-. by rewrite fresh_unused in Hlb.
  - intros Hz. rewrite Hh. unfold new_buf. by rewrite decide_False by lia.
Qed.

(** [Swap] of two vectors under every fault schedule. *)
Lemma Swap_effect w a b xs ys capa capb bufa bufb :
  vec_rep w a xs capa bufa → vec_rep w b ys capb bufb →
  ∃ w', Swap a b w = Ok tt w' ∧
        vec_rep w' a ys capb bufb ∧ vec_rep w' b xs capa bufa ∧
        heap w' = heap w ∧ trace w' = trace w ∧
        new_faults w' = new_faults w ∧ elem_faults w' = elem_faults w ∧
        (∀ o, o ≠ a → o ≠ b → vecs w' !! o = vecs w !! o).
Proof.
  intros Hrepa Hrepb.
  destruct (decide (a = b)) as [->|Hne].
  - destruct (vec_rep_inj _ _ _ _ _ _ _ _ Hrepa Hrepb) as (-> & -> & ->).
    exists w. unfold Swap. rewrite decide_True by done.
    split; [done|]. split; [exact Hrepa|]. split; [exact Hrepb|]. by repeat split.
  - pose proof Hrepa as (Hva & Hba & Hlea & Hcapa).
    pose proof Hrepb as (Hvb & Hbb & Hleb & Hcapb).
    unfold Swap. rewrite decide_False by done.
    unfold bind, get_vec, put_vec, RawMemory_Swap. rewrite Hva, Hvb. simpl.
    eexists. split; [reflexivity|].
    unfold vec_rep, vec_rep_mem. simpl.
    split; [|split; [|split; [done|split; [done|split; [done|split; [done|]]]]]].
    + split; [|done]. rewrite lookup_insert_ne by done. apply lookup_insert_eq.
    + split; [|done]. apply lookup_insert_eq.
    + intros o Hoa Hob. by rewrite !lookup_insert_ne by done.
Qed.

(** The destructor under every fault schedule. *)
Lemma Vector_dtor_effect w this xs cap buf :
  vec_rep w this xs cap buf →
  ∃ w', Vector_dtor this w = Ok tt w' ∧
        heap w' = del (heap w) buf ∧ vecs w' = delete this (vecs w) ∧
        new_faults w' = new_faults w ∧ elem_faults w' = elem_faults w.
Proof.
  intros Hrep.
  exact (oblivious_runs _ w tt _ _ (oblivious_Vector_dtor this)
           (runs_Vector_dtor _ _ _ _ _ _ Hrep)).
Qed.

(** Removing what was inserted. *)
Lemma remove_inserted xs p (x : T) :
  p ≤ length xs →
  take p (take p xs ++ x :: drop p xs) ++ drop (S p) (take p xs ++ x :: drop p xs) = xs.
Proof.
  intros Hp.
  assert (Hlen : length (take p xs) = p) by (rewrite length_take; lia).
  rewrite take_app_length' by done.
  rewrite (cons_middle x), app_assoc.
  rewrite drop_app_length' by solve_length.
  apply take_drop.
Qed.

(** Appending to a vector whose capacity is 0 or a power of two that is
    less than twice its size: the sizes and capacities that follow. *)
Lemma appends_keep_size_within_capacity (ops : list (@operation T)) : ∀ xs cap,
  Forall (λ op, ∃ ins, op = DoInsert ins ∧ insertion_offset ins = None) ops →
  (length xs = 0 ∧ cap = 0) ∨ (∃ k, cap = 2 ^ k ∧ length xs ≤ cap ∧ cap < 2 * length xs) →
  positions_valid_all ops xs ∧
  length (model_operations ops xs) = length xs + length ops ∧
  ((length xs + length ops = 0 ∧ model_capacities ops xs cap = 0) ∨
   (∃ k, model_capacities ops xs cap = 2 ^ k ∧
         length xs + length ops ≤ model_capacities ops xs cap ∧
         model_capacities ops xs cap < 2 * (length xs + length ops))).
Proof.
  induction ops as [|op ops IH]; intros xs cap Hops Hinv; simpl.
  - rewrite Nat.add_0_r. done.
  - apply Forall_cons in Hops as [(ins & -> & Hnone) Hops].
    assert (Hlen : length (model_insertion ins xs) = S (length xs)).
    { destruct ins; simpl in *; try discriminate; solve_length. }
    destruct (IH (model_insertion ins xs)
                 (if decide (length xs < cap) then cap else grown cap) Hops)
      as (Hvalid & Hsize & Hcap).
    { rewrite Hlen. right. unfold grown.
      destruct Hinv as [[Hz ->]|(k & -> & Hle & Hlt)].
      - exists 0. rewrite decide_False by lia. rewrite decide_True by done. simpl. lia.
      - case_decide; [exists k; lia|].
        exists (S k). rewrite decide_False by lia. rewrite Nat.pow_succ_r'. lia. }
    rewrite Hlen in Hsize, Hcap.
    replace (length xs + S (length ops)) with (S (length xs) + length ops) by lia.
    split; [|done]. split; [|done].
    intros p Hp. by rewrite Hnone in Hp.
Qed.

Lemma get_vec_rep w this xs cap buf :
  vec_rep w this xs cap buf →
  get_vec this w = Ok (mkVec (mkRaw buf cap) (length xs)) w.
Proof. intros (Hv & _). by apply get_vec_Ok. Qed.

End Consequences.

(** ** Code confined to one vector *)

(** The operations on the vector [this] reach memory through its [data_]
    and through the blocks they allocate, whatever state the vector is in;
    a vector [other] that has a block of its own is out of their reach. *)
Section Confinement.
Context {T : Type} `{ET : Elem T}.
Context (this other : nat) (vo : Vector) (bo : list (slot T)) (Hother : other ≠ this).
Implicit Types (w : World T).

Local Abbreviation Inv := (beside this other vo bo).
Local Abbreviation bufo := (buffer_ (data_ vo)).
Local Abbreviation safe p := (apart bufo (p_base p)).
Local Abbreviation any := (λ _, True).

Lemma keeps_ret {A} (a : A) (Φ : A → Prop) : Φ a → keeps Inv (ret a) Φ.
Proof. by intros Ha w a' w' HInv [= <- <-]. Qed.

Lemma keeps_undefined {A} (Φ : A → Prop) : keeps Inv (undefined : M T A) Φ.
Proof. by intros w a w' HInv. Qed.

Lemma keeps_bind {A B} (m : M T A) (f : A → M T B) (Φ : A → Prop) (Ψ : B → Prop) :
  keeps Inv m Φ → (∀ a, Φ a → keeps Inv (f a) Ψ) → keeps Inv (bind m f) Ψ.
Proof.
  intros Hm Hf w b w' HInv. unfold bind.
  destruct (m w) as [a w1| |] eqn:E; [|done..].
  destruct (Hm w a w1 HInv E) as [HInv1 Ha]. by apply Hf.
Qed.

Lemma keeps_mono {A} (m : M T A) (Φ Ψ : A → Prop) :
  keeps Inv m Φ → (∀ a, Φ a → Ψ a) → keeps Inv m Ψ.
Proof. intros Hm Himp w a w' HInv HOk. destruct (Hm w a w' HInv HOk). auto. Qed.

Lemma keeps_unwinding {A} (m : M T A) c (Φ : A → Prop) :
  keeps Inv m Φ → keeps Inv (unwinding m c) Φ.
Proof.
  intros Hm w a w' HInv. unfold unwinding.
  destruct (m w) as [a1 w1|w1|] eqn:E; [|by destruct (c w1)|done].
  intros [= <- <-]. by apply (Hm w).
Qed.

(** Code that changes neither the heap nor the objects. *)
Lemma keeps_quiet {A} (m : M T A) :
  (∀ w a w', m w = Ok a w' → heap w' = heap w ∧ vecs w' = vecs w) → keeps Inv m any.
Proof.
  intros Hm w a w' HInv HOk. destruct (Hm w a w' HOk) as [Hh Hv].
  split; [|done]. unfold beside. by rewrite Hh, Hv.
Qed.

Lemma keeps_read_slot p : keeps Inv (read_slot p : M T (slot T)) any.
Proof.
  apply keeps_quiet. intros w a w'. unfold read_slot.
  destruct (p_base p) as [l|]; [|done]. destruct (heap w !! l) as [b|]; [|done].
  destruct (b !! p_off p); [|done]. by intros [= _ <-].
Qed.

Lemma keeps_load p : keeps Inv (load p : M T T) any.
Proof.
  unfold load. eapply keeps_bind; [apply keeps_read_slot|]. intros [|x] _.
  - apply keeps_undefined.
  - by apply keeps_ret.
Qed.

Lemma keeps_may_fail k : keeps Inv (may_fail k) any.
Proof.
  apply keeps_quiet. intros w a w'. unfold may_fail.
  destruct (may_throw k); [|by intros [= _ <-]].
  by destruct (elem_faults w) as [|[] fs]; intros [= _ <-].
Qed.

Lemma keeps_log e : keeps Inv (log e : M T unit) any.
Proof. apply keeps_quiet. by intros w a w' [= _ <-]. Qed.

Lemma keeps_ptr_diff p q : keeps Inv (ptr_diff p q : M T Z) any.
Proof.
  apply keeps_quiet. intros w a w'. unfold ptr_diff.
  case_decide; [|done]. by intros [= _ <-].
Qed.

(** A write through a pointer into another block. *)
Lemma keeps_write_slot p s : safe p → keeps Inv (write_slot p s : M T unit) any.
Proof.
  intros Hp w a w' (Ho & Hb & Ht). unfold write_slot.
  destruct (p_base p) as [l|] eqn:Hl; [|done].
  destruct (heap w !! l) as [b|]; [|done]. case_decide; [|done].
  intros [= _ <-]. split; [|done]. split; [done|]. split; [|done].
  simpl. destruct bufo as [lo|] eqn:Hlo; simpl in *; [|done].
  rewrite lookup_insert_ne; [done|]. intros <-. by apply (Hp l).
Qed.

(** The object [this] and the object [other]. *)
Lemma keeps_get_vec :
  keeps Inv (get_vec this) (λ v, apart bufo (buffer_ (data_ v))).
Proof.
  intros w v w' HInv. unfold get_vec.
  destruct (vecs w !! this) as [v0|] eqn:Hv; [|done].
  intros [= <- <-]. split; [done|]. destruct HInv as (_ & _ & Ht). by apply Ht.
Qed.

Lemma keeps_put_vec v :
  apart bufo (buffer_ (data_ v)) → keeps Inv (put_vec this v : M T unit) any.
Proof.
  intros Hv w a w' (Ho & Hb & Ht) [= _ <-]. split; [|done]. split; [|split; [done|]].
  - simpl. by rewrite lookup_insert_ne.
  - simpl. intros v'. rewrite lookup_insert_eq. by intros [= <-].
Qed.

(** A new block is not the block of [other], and the block of [other]
    is not released with another one. *)
Lemma keeps_operator_new size :
  keeps Inv (operator_new size : M T positive) (λ l, apart bufo (Some l)).
Proof.
  intros w l w' (Ho & Hb & Ht). unfold operator_new.
  case_decide; [|done].
  assert (Hfresh : apart bufo (Some (fresh (dom (heap w))))).
  { intros lo Hlo [= E]. rewrite Hlo in Hb. simpl in Hb.
    rewrite <- E in Hb. by rewrite fresh_unused in Hb. }
  assert (Hkeep : ∀ fs tr0, beside this other vo bo
            (mkWorld (<[fresh (dom (heap w)) :=
                         replicate (size / Pos.to_nat sizeof) Raw]> (heap w))
                     (vecs w) fs (elem_faults w) tr0)).
  { intros fs tr0. split; [done|]. split; [|done]. simpl.
    destruct bufo as [lo|] eqn:Hlo; simpl in *; [|done].
    rewrite lookup_insert_ne; [done|]. intros E. by apply (Hfresh lo eq_refl), f_equal. }
  destruct (new_faults w) as [|[] fs]; [|done|]; intros [= <- <-]; split; try done.
  all: apply Hkeep.
Qed.

Lemma keeps_operator_delete buf :
  apart bufo buf → keeps Inv (operator_delete buf : M T unit) any.
Proof.
  intros Ha w a w' (Ho & Hb & Ht). unfold operator_delete.
  destruct buf as [l|]; [|by intros [= _ <-]].
  destruct (heap w !! l) as [b|]; [|done]. intros [= _ <-].
  split; [|done]. split; [done|]. split; [|done]. simpl.
  destruct bufo as [lo|] eqn:Hlo; simpl in *; [|done].
  rewrite lookup_delete_ne; [done|]. intros <-. by apply (Ha l).
Qed.

(** *** The operations of the element type and the standard algorithms *)

Lemma safe_add p n : safe p → safe (p +ₚ n).
Proof. done. Qed.

Lemma safe_sub p n : safe p → safe (p -ₚ n).
Proof. done. Qed.

Lemma keeps_construct_at p k (x : T) : safe p → keeps Inv (construct_at p k x) any.
Proof.
  intros Hp. unfold construct_at.
  eapply keeps_bind; [apply keeps_read_slot|]. intros _ _.
  eapply keeps_bind; [apply keeps_may_fail|]. intros _ _.
  eapply keeps_bind; [by apply keeps_write_slot|]. intros _ _. apply keeps_log.
Qed.

Lemma keeps_assign_at p k (x : T) : safe p → keeps Inv (assign_at p k x) any.
Proof.
  intros Hp. unfold assign_at.
  eapply keeps_bind; [apply keeps_load|]. intros _ _.
  eapply keeps_bind; [apply keeps_may_fail|]. intros _ _.
  eapply keeps_bind; [by apply keeps_write_slot|]. intros _ _. apply keeps_log.
Qed.

Lemma keeps_destroy_at p : safe p → keeps Inv (destroy_at p : M T unit) any.
Proof.
  intros Hp. unfold destroy_at.
  eapply keeps_bind; [apply keeps_load|]. intros _ _.
  eapply keeps_bind; [by apply keeps_write_slot|]. intros _ _. apply keeps_log.
Qed.

Lemma keeps_copy_construct dst src :
  safe dst → keeps Inv (copy_construct dst src : M T unit) any.
Proof.
  intros Hd. unfold copy_construct.
  eapply keeps_bind; [apply keeps_load|]. intros x _. by apply keeps_construct_at.
Qed.

Lemma keeps_move_construct dst src :
  safe dst → safe src → keeps Inv (move_construct dst src : M T unit) any.
Proof.
  intros Hd Hs. unfold move_construct.
  eapply keeps_bind; [apply keeps_load|]. intros x _.
  eapply keeps_bind; [by apply keeps_construct_at|]. intros _ _.
  by apply keeps_write_slot.
Qed.

Lemma keeps_move_assign dst src :
  safe dst → safe src → keeps Inv (move_assign dst src : M T unit) any.
Proof.
  intros Hd Hs. unfold move_assign.
  eapply keeps_bind; [apply keeps_load|]. intros x _.
  eapply keeps_bind; [by apply keeps_assign_at|]. intros _ _.
  by apply keeps_write_slot.
Qed.

Lemma keeps_destroy_n p n : safe p → keeps Inv (destroy_n p n : M T unit) any.
Proof.
  revert p. induction n as [|n IH]; intros p Hp; simpl; [by apply keeps_ret|].
  eapply keeps_bind; [by apply keeps_destroy_at|]. intros _ _. by apply IH.
Qed.

Lemma keeps_uninitialized_loop (step : ptr → ptr → M T unit) first result cur n :
  (∀ p q, safe p → safe q → keeps Inv (step p q) any) →
  safe first → safe cur →
  keeps Inv (uninitialized_loop step first result cur n) any.
Proof.
  intros Hstep. revert first cur.
  induction n as [|n IH]; intros first cur Hf Hc; simpl; [by apply keeps_ret|].
  eapply keeps_bind; [apply keeps_unwinding; by apply Hstep|].
  intros _ _. by apply IH.
Qed.

Lemma keeps_uninitialized_value_construct_n first n :
  safe first → keeps Inv (uninitialized_value_construct_n first n : M T unit) any.
Proof.
  intros Hf. apply keeps_uninitialized_loop; [|done..].
  intros p q Hp _. by apply keeps_construct_at.
Qed.

Lemma keeps_transfer_n first n result :
  safe first → safe result → keeps Inv (transfer_n first n result : M T unit) any.
Proof.
  intros Hf Hr. unfold transfer_n, uninitialized_move_n, uninitialized_copy_n.
  destruct (_ || _); apply keeps_uninitialized_loop; try done; intros p q Hp Hq.
  - by apply keeps_move_construct.
  - by apply keeps_copy_construct.
Qed.

Lemma keeps_assign_forward (step : ptr → ptr → M T unit) first result n :
  (∀ p q, safe p → safe q → keeps Inv (step p q) any) →
  safe first → safe result →
  keeps Inv (assign_forward step first result n) any.
Proof.
  intros Hstep. revert first result.
  induction n as [|n IH]; intros first result Hf Hr; simpl; [by apply keeps_ret|].
  eapply keeps_bind; [by apply Hstep|]. intros _ _. by apply IH.
Qed.

Lemma keeps_std_move first last result :
  safe first → safe result → keeps Inv (std_move first last result : M T unit) any.
Proof.
  intros Hf Hr. unfold std_move.
  eapply keeps_bind; [apply keeps_ptr_diff|]. intros d _.
  apply keeps_assign_forward; [|done..]. intros p q Hp Hq. by apply keeps_move_assign.
Qed.

Lemma keeps_move_backward_loop last d_last n :
  safe last → safe d_last → keeps Inv (move_backward_loop last d_last n : M T unit) any.
Proof.
  revert last d_last.
  induction n as [|n IH]; intros last d_last Hl Hd; simpl; [by apply keeps_ret|].
  eapply keeps_bind; [by apply keeps_move_assign|]. intros _ _. by apply IH.
Qed.

Lemma keeps_std_move_backward first last d_last :
  safe last → safe d_last →
  keeps Inv (std_move_backward first last d_last : M T unit) any.
Proof.
  intros Hl Hd. unfold std_move_backward.
  eapply keeps_bind; [apply keeps_ptr_diff|]. intros d _.
  by apply keeps_move_backward_loop.
Qed.

(** *** [RawMemory] and the members of [Vector] *)

Lemma keeps_RawMemory_ctor n :
  keeps Inv (RawMemory_ctor n : M T RawMemory) (λ rm, apart bufo (buffer_ rm)).
Proof.
  unfold RawMemory_ctor, Allocate.
  eapply keeps_bind with (Φ := λ b, apart bufo b).
  - case_decide; [|by apply keeps_ret].
    eapply keeps_bind; [apply keeps_operator_new|]. intros l Hl. by apply keeps_ret.
  - intros b Hb. by apply keeps_ret.
Qed.

Lemma keeps_RawMemory_dtor rm :
  apart bufo (buffer_ rm) → keeps Inv (RawMemory_dtor rm : M T unit) any.
Proof. intros Ha. unfold RawMemory_dtor, Deallocate. by apply keeps_operator_delete. Qed.

Lemma keeps_RawMemory_at rm index :
  apart bufo (buffer_ rm) → keeps Inv (RawMemory_at rm index : M T ptr) (λ p, safe p).
Proof.
  intros Ha. unfold RawMemory_at. case_decide; [by apply keeps_ret|apply keeps_undefined].
Qed.

Lemma keeps_set_data d :
  apart bufo (buffer_ d) → keeps Inv (set_data this d : M T unit) any.
Proof.
  intros Hd. unfold set_data.
  eapply keeps_bind; [apply keeps_get_vec|]. intros v _. by apply keeps_put_vec.
Qed.

Lemma keeps_set_size n : keeps Inv (set_size this n : M T unit) any.
Proof.
  unfold set_size.
  eapply keeps_bind; [apply keeps_get_vec|]. intros v Hv. by apply keeps_put_vec.
Qed.

Lemma keeps_begin : keeps Inv (begin_ this : M T ptr) (λ p, safe p).
Proof.
  unfold begin_. eapply keeps_bind; [apply keeps_get_vec|]. intros v Hv. by apply keeps_ret.
Qed.

Lemma keeps_end : keeps Inv (end_ this : M T ptr) (λ p, safe p).
Proof.
  unfold end_. eapply keeps_bind; [apply keeps_get_vec|]. intros v Hv. by apply keeps_ret.
Qed.

Lemma keeps_Capacity : keeps Inv (Capacity this : M T nat) any.
Proof.
  unfold Capacity. eapply keeps_bind; [apply keeps_get_vec|]. intros v Hv. by apply keeps_ret.
Qed.

(** The reallocation that [Emplace], [Reserve] and [PushBack] end with. *)
Lemma keeps_swap_in (v : Vector) (new_data : RawMemory) :
  apart bufo (buffer_ (data_ v)) → apart bufo (buffer_ new_data) →
  keeps Inv (let '(d', nd') := RawMemory_Swap (data_ v) new_data in
           bind (set_data this d') (λ _, ret nd') : M T RawMemory)
        (λ rm, apart bufo (buffer_ rm)).
Proof.
  intros Hv Hn. unfold RawMemory_Swap.
  eapply keeps_bind; [by apply keeps_set_data|]. intros _ _. by apply keeps_ret.
Qed.

Lemma keeps_Reserve n : keeps Inv (Reserve this n) any.
Proof.
  unfold Reserve. eapply keeps_bind; [apply keeps_get_vec|]. intros v Hv.
  case_decide; [by apply keeps_ret|].
  eapply keeps_bind; [apply keeps_RawMemory_ctor|]. intros new_data Hn.
  eapply keeps_bind with (Φ := λ rm, apart bufo (buffer_ rm));
      [|intros old Hold; by apply keeps_RawMemory_dtor].
  apply keeps_unwinding.
  eapply keeps_bind; [by apply keeps_transfer_n|]. intros _ _.
  eapply keeps_bind; [by apply keeps_destroy_n|]. intros _ _.
  by apply keeps_swap_in.
Qed.

Lemma keeps_Resize n : keeps Inv (Resize this n) any.
Proof.
  unfold Resize. eapply keeps_bind; [apply keeps_get_vec|]. intros v Hv.
  eapply keeps_bind with (Φ := any); [|intros _ _; apply keeps_set_size].
  case_decide; [by apply keeps_destroy_n|].
  case_decide; [|by apply keeps_ret].
  eapply keeps_bind; [apply keeps_Reserve|]. intros _ _.
  eapply keeps_bind; [apply keeps_get_vec|]. intros v' Hv'.
  by apply keeps_uninitialized_value_construct_n.
Qed.

Lemma keeps_PopBack : keeps Inv (PopBack this) any.
Proof.
  unfold PopBack. eapply keeps_bind; [apply keeps_get_vec|]. intros v Hv.
  case_decide; [|apply keeps_undefined].
  eapply keeps_bind; [apply keeps_set_size|]. intros _ _.
  eapply keeps_bind; [apply keeps_get_vec|]. intros v' Hv'.
  by apply keeps_destroy_at.
Qed.

Lemma keeps_Erase pos : keeps Inv (Erase this pos) any.
Proof.
  unfold Erase. eapply keeps_bind; [apply keeps_begin|]. intros b Hb.
  eapply keeps_bind; [apply keeps_ptr_diff|]. intros d _.
  eapply keeps_bind; [apply keeps_end|]. intros e He.
  eapply keeps_bind; [by apply keeps_std_move|]. intros _ _.
  eapply keeps_bind; [apply keeps_get_vec|]. intros v Hv.
  eapply keeps_bind; [by apply keeps_destroy_at|]. intros _ _.
  eapply keeps_bind; [apply keeps_set_size|]. intros _ _.
  eapply keeps_bind; [apply keeps_begin|]. intros b' Hb'. by apply keeps_ret.
Qed.

Lemma keeps_Emplace pos k (x : T) : keeps Inv (Emplace this pos k x) any.
Proof.
  unfold Emplace. eapply keeps_bind; [apply keeps_begin|]. intros b Hb.
  eapply keeps_bind; [apply keeps_ptr_diff|]. intros d _.
  eapply keeps_bind; [apply keeps_get_vec|]. intros v Hv.
  eapply keeps_bind; [apply keeps_Capacity|]. intros c _.
  eapply keeps_bind with (Φ := any).
  - case_decide.
    + eapply keeps_bind; [apply keeps_end|]. intros e He.
      case_decide; [by apply keeps_construct_at|].
      eapply keeps_bind; [apply keeps_may_fail|]. intros _ _.
      eapply keeps_bind; [apply keeps_log|]. intros _ _.
      eapply keeps_bind; [by apply keeps_RawMemory_at|]. intros last Hlast.
      eapply keeps_bind; [by apply keeps_move_construct|]. intros _ _.
      eapply keeps_bind; [apply keeps_begin|]. intros b' Hb'.
      eapply keeps_bind; [apply keeps_end|]. intros e' He'.
      eapply keeps_bind; [by apply keeps_std_move_backward|]. intros _ _.
      eapply keeps_bind; [by apply keeps_RawMemory_at|]. intros p Hp.
      eapply keeps_bind; [by apply keeps_assign_at|]. intros _ _.
      apply keeps_log.
    + eapply keeps_bind; [apply keeps_RawMemory_ctor|]. intros new_data Hn.
      eapply keeps_bind with (Φ := λ rm, apart bufo (buffer_ rm));
      [|intros old Hold; by apply keeps_RawMemory_dtor].
      apply keeps_unwinding.
      eapply keeps_bind; [by apply keeps_construct_at|]. intros _ _.
      eapply keeps_bind; [by apply keeps_transfer_n|]. intros _ _.
      eapply keeps_bind; [by apply keeps_transfer_n|]. intros _ _.
      eapply keeps_bind; [by apply keeps_destroy_n|]. intros _ _.
      by apply keeps_swap_in.
  - intros _ _. eapply keeps_bind; [apply keeps_get_vec|]. intros v' Hv'.
    eapply keeps_bind; [apply keeps_set_size|]. intros _ _.
    eapply keeps_bind; [apply keeps_begin|]. intros b' Hb'. by apply keeps_ret.
Qed.

(** [PushBack] of an object that is not in the block of [other], or that is
    copied. *)
Lemma keeps_construct_from p k (value : operand T) :
  safe p →
  (∀ q, value = Element q → k = MoveCtor → safe q) →
  keeps Inv (construct_from p k value) any.
Proof.
  intros Hp Hq. destruct value as [x|q]; simpl; [by apply keeps_construct_at|].
  eapply keeps_bind; [apply keeps_load|]. intros x _.
  eapply keeps_bind; [by apply keeps_construct_at|]. intros _ _.
  case_decide; [|by apply keeps_ret]. apply keeps_write_slot. by apply Hq.
Qed.

Lemma keeps_PushBack_with k (value : operand T) :
  (∀ q, value = Element q → k = MoveCtor → safe q) →
  keeps Inv (PushBack_with k this value) any.
Proof.
  intros Hq. unfold PushBack_with.
  eapply keeps_bind; [apply keeps_get_vec|]. intros v Hv.
  eapply keeps_bind; [apply keeps_Capacity|]. intros c _.
  eapply keeps_bind with (Φ := any).
  - case_decide; [|by apply keeps_construct_from].
    eapply keeps_bind; [apply keeps_RawMemory_ctor|]. intros new_data Hn.
    eapply keeps_bind with (Φ := λ rm, apart bufo (buffer_ rm));
      [|intros old Hold; by apply keeps_RawMemory_dtor].
    apply keeps_unwinding.
    eapply keeps_bind; [by apply keeps_transfer_n|]. intros _ _.
    eapply keeps_bind; [by apply keeps_construct_from|]. intros _ _.
    eapply keeps_bind; [by apply keeps_destroy_n|]. intros _ _.
    by apply keeps_swap_in.
  - intros _ _. eapply keeps_bind; [apply keeps_get_vec|]. intros v' Hv'.
    apply keeps_set_size.
Qed.

Lemma keeps_run_operation (op : operation) : keeps Inv (run_operation this op) any.
Proof.
  assert (Hemplace : ∀ i k (x : T),
            keeps Inv (bind (begin_ this)
                       (λ b, bind (Emplace this (b +ₚ i) k x) (λ _, ret tt))) any).
  { intros i k x. eapply keeps_bind; [apply keeps_begin|]. intros b Hb.
    eapply keeps_bind; [apply keeps_Emplace|]. intros _ _. by apply keeps_ret. }
  destruct op as [[value|value|k x|p k x|p value|p value]|n|n| |i]; simpl.
  - by apply keeps_PushBack_with.
  - by apply keeps_PushBack_with.
  - eapply keeps_bind with (Φ := any); [|intros _ _; by apply keeps_ret]. unfold EmplaceBack.
    eapply keeps_bind; [apply keeps_get_vec|]. intros v Hv. apply keeps_Emplace.
  - apply Hemplace.
  - apply Hemplace.
  - apply Hemplace.
  - apply keeps_Reserve.
  - apply keeps_Resize.
  - apply keeps_PopBack.
  - eapply keeps_bind; [apply keeps_begin|]. intros b Hb.
    eapply keeps_bind; [apply keeps_Erase|]. intros _ _. by apply keeps_ret.
Qed.

Lemma keeps_run_operations (ops : list operation) : keeps Inv (run_operations this ops) any.
Proof.
  induction ops as [|op ops IH]; simpl; [by apply keeps_ret|].
  eapply keeps_bind; [apply keeps_run_operation|]. intros _ _. apply IH.
Qed.

End Confinement.

(** A series of operations on one vector that returns, from any state of
    that vector, leaves a vector that has a block of its own as it was. *)
Lemma operations_confined {T : Type} `{ET : Elem T} (w : World T) (this other : nat)
    (ys : list T) (capo : nat) (bufo : option positive) (ops : list operation)
    (w' : World T) :
  vec_rep w other ys capo bufo → other ≠ this →
  (∀ v, vecs w !! this = Some v → apart bufo (buffer_ (data_ v))) →
  run_operations this ops w = Ok tt w' →
  vec_rep w' other ys capo bufo.
Proof.
  intros (Hv & Hb & Hle & Hcap) Hne Ha HOk.
  destruct (keeps_run_operations this other (mkVec (mkRaw bufo capo) (length ys))
              (map Live ys ++ replicate (capo - length ys) Raw) Hne ops
              w tt w') as [(Hv' & Hb' & _) _]; [|done|].
  - split; [done|]. split; [exact Hb|exact Ha].
  - by split; [|split].
Qed.

(** * The properties of the specification *)

(** C1, at an input where the code breaks it.  The string vector {"a"} is
    full; [PushBack(const T&)] allocates the new block, moves "a" into it and
    only then copy-constructs the new element, which throws.  The exception
    propagates, size and capacity are still 1, but the element is now the
    moved-from empty string. *)
Theorem PushBack_copy_failure_loses_elements :
  ∃ w', PushBack_copy 0 (Outside "b"%string) w_a_faulty = Throw w' ∧
        Size 0 w' = Ok 1 w' ∧
        Capacity 0 w' = Ok 1 w' ∧
        contents w_a_faulty 0 = Some [Live "a"%string] ∧
        contents w' 0 = Some [Live EmptyString].
Proof.
  eexists. split; [vm_compute; reflexivity|].
  repeat split; vm_compute; reflexivity.
Qed.

(** C2. [Emplace] (and so [Insert]) at a valid position of a full vector.
    When the allocation of the new block fails, or the constructor of the
    new element throws, the exception propagates and heap and objects are
    what they were before the call, so size, capacity and elements of the
    vector are unchanged.  And in every run the first thing done after the
    allocation is the construction of the new element at offset [p] of the
    new block: the events of a run are none (no allocation), or the
    allocation and release of the new block (the constructor threw), or the
    allocation followed by that construction and then everything else. *)
Theorem Emplace_full_failure_is_strong {T : Type} `{ET : Elem T}
    (w : World T) (this : nat) (xs : list T) (cap : nat) (buf : option positive)
    (p : nat) (k : elem_op) (x : T) :
  vec_rep w this xs cap buf →
  length xs = cap →
  p ≤ length xs →
  (alloc_fails w (grown cap) ∨ op_fails w k →
   ∃ w', Emplace this (Ptr buf p) k x w = Throw w' ∧
         heap w' = heap w ∧ vecs w' = vecs w ∧
         vec_rep w' this xs cap buf) ∧
  (∀ w', final (Emplace this (Ptr buf p) k x w) = Some w' →
   ∃ evs, trace w' = trace w ++ evs ∧
     (evs = [] ∨
      ∃ l, evs = [EvNew l (grown cap); EvDelete l] ∨
           ∃ rest, evs = EvNew l (grown cap) :: EvCtor k (Ptr (Some l) p) :: rest)).
Proof.
  intros Hrep Hfull Hp.
  destruct (Emplace_full_cases w this xs cap buf p k x Hrep Hfull) as (rest & Hrest & ->);
    [lia|].
  pose proof (grown_gt cap) as Hgt.
  rewrite RawMemory_ctor_cases; [|lia|by apply grown_fits, Hrep].
  set (l := fresh (dom (heap w))).
  set (n := grown cap) in *.
  assert (Hcons : ∀ w1, heap w1 = <[l := replicate n Raw]> (heap w) →
            construct_at (RawMemory_plus (mkRaw (Some l) n) p) k x w1 =
            match may_fail k w1 with
            | Ok _ w2 =>
                Ok tt (add_event (EvCtor k (Ptr (Some l) p))
                         (set_heap (<[l := <[p := Live x]> (replicate n Raw)]> (heap w2)) w2))
            | Throw w2 => Throw w2
            | Undefined => Undefined
            end).
  { intros w1 Hh1. apply construct_at_cases.
    - rewrite Hh1. apply lookup_insert_eq.
    - rewrite length_replicate. lia. }
  split.
  - (* the failures *)
    intros Hfail.
    case_decide as Hfit.
    + destruct (new_faults w) as [|[] fs] eqn:Hnf.
      * (* the allocation succeeds, so the constructor throws *)
        destruct Hfail as [[Hbig|Hhd]|[Hk Hhd]];
          [by destruct Hbig|by rewrite Hnf in Hhd|].
        cbv beta iota zeta. rewrite Hcons by done. unfold may_fail. simpl. rewrite Hk.
        destruct (elem_faults w) as [|[] fs'] eqn:Hef; try done.
        unfold RawMemory_dtor, Deallocate, operator_delete. simpl.
        rewrite lookup_insert_eq. eexists. split; [reflexivity|]. simpl.
        assert (Hh : delete l (<[l := replicate n Raw]> (heap w)) = heap w).
        { rewrite delete_insert_eq. apply delete_id, fresh_unused. }
        split; [exact Hh|]. split; [done|].
        by apply (vec_rep_ext w).
      * eexists. split; [reflexivity|]. split; [done|]. split; [done|].
        by apply (vec_rep_ext w).
      * destruct Hfail as [[Hbig|Hhd]|[Hk Hhd]];
          [by destruct Hbig|by rewrite Hnf in Hhd|].
        cbv beta iota zeta. rewrite Hcons by done. unfold may_fail. simpl. rewrite Hk.
        destruct (elem_faults w) as [|[] fs'] eqn:Hef; try done.
        unfold RawMemory_dtor, Deallocate, operator_delete. simpl.
        rewrite lookup_insert_eq. eexists. split; [reflexivity|]. simpl.
        assert (Hh : delete l (<[l := replicate n Raw]> (heap w)) = heap w).
        { rewrite delete_insert_eq. apply delete_id, fresh_unused. }
        split; [exact Hh|]. split; [done|].
        by apply (vec_rep_ext w).
    + eexists. split; [reflexivity|]. by split; [|split].
  - (* the order of events *)
    intros w'.
    assert (Hgo : ∀ fs w1,
        w1 = add_event (EvNew l n)
               (set_heap (<[l := replicate n Raw]> (heap w)) (set_new_faults fs w)) →
        final match construct_at (RawMemory_plus (mkRaw (Some l) n) p) k x w1 with
              | Ok _ w2 => rest (mkRaw (Some l) n) w2
              | Throw w2 =>
                  match RawMemory_dtor (mkRaw (Some l) n) w2 with
                  | Ok _ w3 => Throw w3
                  | _ => Undefined
                  end
              | Undefined => Undefined
              end = Some w' →
        ∃ evs, trace w' = trace w ++ evs ∧
          (evs = [] ∨
           ∃ l, evs = [EvNew l n; EvDelete l] ∨
                ∃ rest, evs = EvNew l n :: EvCtor k (Ptr (Some l) p) :: rest)).
    { intros fs w1 Hw1. rewrite Hcons by (by rewrite Hw1).
      assert (Hthrow : ∀ w2, heap w2 = heap w1 → trace w2 = trace w1 →
                final match RawMemory_dtor (mkRaw (Some l) n) w2 with
                      | Ok _ w3 => Throw w3
                      | _ => @Undefined T ptr
                      end = Some w' →
                trace w' = trace w ++ [EvNew l n; EvDelete l]).
      { intros w2 Hh2 Ht2. unfold RawMemory_dtor, Deallocate, operator_delete. simpl.
        rewrite Hh2, Hw1. simpl. rewrite lookup_insert_eq. intros [= <-]. simpl.
        rewrite Ht2, Hw1. simpl. by rewrite <- app_assoc. }
      assert (Hok : ∀ w2, trace w2 = trace w1 →
                final (rest (mkRaw (Some l) n)
                         (add_event (EvCtor k (Ptr (Some l) p))
                            (set_heap (<[l := <[p := Live x]> (replicate n Raw)]> (heap w2))
                               w2))) = Some w' →
                ∃ more, trace w' = trace w ++ EvNew l n :: EvCtor k (Ptr (Some l) p) :: more).
      { intros w2 Ht2 Hfin. destruct (Hrest _ _ _ Hfin) as [more Hmore].
        exists more. rewrite Hmore. simpl. rewrite Ht2, Hw1. simpl.
        by rewrite <- !app_assoc. }
      unfold may_fail. destruct (may_throw k).
      - destruct (elem_faults w1) as [|[] fs'] eqn:Hef.
        + intros Hfin. destruct (Hok w1 eq_refl Hfin) as [more Hmore]. eauto 10.
        + intros Hfin. eexists.
          split; [exact (Hthrow (set_elem_faults fs' w1) eq_refl eq_refl Hfin)|]. eauto.
        + intros Hfin.
          destruct (Hok (set_elem_faults fs' w1) eq_refl Hfin) as [more Hmore]. eauto 10.
      - intros Hfin. destruct (Hok w1 eq_refl Hfin) as [more Hmore]. eauto 10. }
    case_decide as Hfit.
    + destruct (new_faults w) as [|[] fs] eqn:Hnf.
      * by apply (Hgo []).
      * intros [= <-]. exists []. simpl. split; [by rewrite app_nil_r|by left].
      * by apply (Hgo fs).
    + intros [= <-]. exists []. split; [by rewrite app_nil_r|by left].
Qed.

Lemma Emplace_full_failure_is_strong_witness :
  vec_rep w_a_faulty 0 ["a"%string] 1 (Some 1%positive) ∧
  length ["a"%string] = 1 ∧
  0 ≤ length ["a"%string] ∧
  op_fails w_a_faulty CopyCtor ∧
  ∃ w', Insert_copy 0 (Ptr (Some 1%positive) 0) "b"%string w_a_faulty = Throw w' ∧
        heap w' = heap w_a_faulty ∧ vecs w' = vecs w_a_faulty ∧
        contents w' 0 = Some [Live "a"%string].
Proof.
  assert (Hrep : vec_rep w_a_faulty 0 ["a"%string] 1 (Some 1%positive)) by concrete_rep.
  assert (Hfails : op_fails w_a_faulty CopyCtor) by (by split).
  split; [exact Hrep|]. split; [reflexivity|]. split; [simpl; lia|]. split; [exact Hfails|].
  destruct (Emplace_full_failure_is_strong w_a_faulty 0 ["a"%string] 1 (Some 1%positive) 0
              CopyCtor "b"%string Hrep eq_refl) as [Hstrong _]; [simpl; lia|].
  destruct Hstrong as (w' & Hthrow & Hh & Hvs & _); [by right|].
  exists w'. split; [exact Hthrow|]. split; [exact Hh|]. split; [exact Hvs|].
  unfold contents. rewrite Hvs, Hh. reflexivity.
Defined.



(** C4. [Erase] at offset [i < size] of a vector with elements [xs]: when it
    returns, the vector has one element less, the elements before [i] are
    unchanged, and every former element at [j > i] is at [j - 1]; capacity
    and block are the same.  And it does return when no failure is
    scheduled. *)
Theorem Erase_removes_at_position {T : Type} `{ET : Elem T}
    (w : World T) (this : nat) (xs : list T) (cap : nat) (buf : option positive)
    (i : nat) :
  vec_rep w this xs cap buf →
  i < length xs →
  (∀ r w', Erase this (Ptr buf i) w = Ok r w' →
     ∃ ys,
       vec_rep w' this ys cap buf ∧
       length ys = length xs - 1 ∧
       (∀ j, j < i → ys !! j = xs !! j) ∧
       (∀ j, i < j → ys !! (j - 1) = xs !! j)) ∧
  (clean w → ∃ r w', Erase this (Ptr buf i) w = Ok r w').
Proof.
  intros Hrep Hi. pose proof Hrep as (Hv & Hb & Hle & Hcap).
  pose proof (runs_Erase_at _ _ _ _ _ _ i Hrep Hi w eq_refl eq_refl) as Hrun.
  destruct (remove_at_lookups xs i Hi) as (Hlen & Hpre & Hsuf).
  split.
  - intros r w' HOk.
    pose proof (spec_Ok _ _ _ _ _ Hrun HOk) as (-> & Hh & Hvs).
    exists (take i xs ++ drop (S i) xs).
    split; [|by repeat split].
    unfold vec_rep, vec_rep_mem. rewrite Hh, Hvs, Hlen.
    split; [apply lookup_insert_eq|]. split; [|split; [lia|done]].
    eapply block_rep_upd; [exact Hb|].
    rewrite !length_app, !length_map, !length_replicate, length_app,
      length_take, length_drop. lia.
  - intros Hclean.
    destruct (spec_returns _ _ _ Hrun Hclean) as (r & w' & HOk & _). eauto.
Qed.

(** The example of the specification: erasing the element 1 of {1, 42, 2}
    gives {42, 2}. *)
Lemma Erase_removes_at_position_witness :
  vec_rep w_1_42_2 0 [1%Z; 42%Z; 2%Z] 4 (Some 1%positive) ∧
  0 < length [1%Z; 42%Z; 2%Z] ∧
  ∃ r w', Erase 0 (Ptr (Some 1%positive) 0) w_1_42_2 = Ok r w' ∧
          contents w' 0 = Some [Live 42%Z; Live 2%Z] ∧
          Size 0 w' = Ok 2 w'.
Proof.
  assert (Hrep : vec_rep w_1_42_2 0 [1%Z; 42%Z; 2%Z] 4 (Some 1%positive)) by concrete_rep.
  assert (Hi : 0 < length [1%Z; 42%Z; 2%Z]) by (simpl; lia).
  split; [exact Hrep|]. split; [exact Hi|].
  destruct (Erase_removes_at_position w_1_42_2 0 [1%Z; 42%Z; 2%Z] 4 (Some 1%positive) 0
              Hrep Hi) as [_ Hreturns].
  destruct Hreturns as (r & w' & HOk); [by split|].
  exists r, w'. split; [exact HOk|].
  vm_compute in HOk. injection HOk as <- <-.
  split; vm_compute; reflexivity.
Defined.

(** C5. Copy assignment [a = b].  When it returns, [a] has the elements [b]
    had, [b] still has them, and if they fitted into [a]'s capacity then
    [a] has the same capacity and the same block as before.  Assigning a
    vector to itself returns at once and changes nothing.  And the
    assignment does return when no failure is scheduled. *)
Theorem Vector_assign_copies_elements {T : Type} `{ET : Elem T}
    (w : World T) (a b : nat) (xs ys : list T) (capa capb : nat)
    (bufa bufb : option positive) :
  vec_rep w a xs capa bufa →
  vec_rep w b ys capb bufb →
  (a ≠ b → apart bufa bufb) →
  (∀ w', Vector_assign a b w = Ok tt w' →
     ∃ cap' buf',
       vec_rep w' a ys cap' buf' ∧
       vec_rep w' b ys capb bufb ∧
       (length ys ≤ capa → cap' = capa ∧ buf' = bufa)) ∧
  (a = b → Vector_assign a b w = Ok tt w) ∧
  (clean w → ∃ w', Vector_assign a b w = Ok tt w').
Proof.
  intros Hrepa Hrepb Hown.
  destruct (decide (a = b)) as [->|Hne].
  - (* self-assignment *)
    assert (Hself : Vector_assign b b w = Ok tt w).
    { unfold Vector_assign. by rewrite decide_True. }
    destruct (vec_rep_inj _ _ _ _ _ _ _ _ Hrepa Hrepb) as (-> & -> & ->).
    split; [|by eauto].
    intros w'. rewrite Hself. intros [= <-]. by exists capb, bufb.
  - specialize (Hown Hne).
    pose proof Hrepa as (Hva & Hba & Hlea & Hcapa).
    pose proof Hrepb as (Hvb & Hbb & Hleb & Hcapb).
    destruct (decide (length ys ≤ capa)) as [Hfit|Hnofit].
    + (* the block of [a] is reused *)
      pose proof (runs_Vector_assign_inplace _ _ _ _ _ _ _ _ _ _ Hne Hown Hrepa Hrepb Hfit
                    w eq_refl eq_refl) as Hrun.
      split; [|split; [done|]].
      * intros w' HOk.
        pose proof (spec_Ok _ _ _ _ _ Hrun HOk) as (_ & Hh & Hvs).
        exists capa, bufa. split; [|split; [|done]].
        -- unfold vec_rep, vec_rep_mem. rewrite Hh, Hvs.
           split; [apply lookup_insert_eq|]. split; [|done].
           eapply block_rep_upd; [exact Hba|].
           rewrite !length_app, !length_map, !length_replicate. lia.
        -- unfold vec_rep, vec_rep_mem. rewrite Hh, Hvs.
           split; [by rewrite lookup_insert_ne|]. split; [|done].
           apply block_rep_upd_ne; [by apply apart_sym|done].
      * intros Hclean. destruct (spec_returns _ _ _ Hrun Hclean) as ([] & w' & HOk & _).
        eauto.
    + (* copy and swap *)
      assert (Hlt : capa < length ys) by lia.
      pose proof (runs_Vector_assign_realloc _ _ _ _ _ _ _ _ _ _ Hne Hrepa Hrepb Hlt
                    w eq_refl eq_refl) as Hrun.
      simpl in Hrun.
      split; [|split; [done|]].
      * intros w' HOk.
        pose proof (spec_Ok _ _ _ _ _ Hrun HOk) as (_ & Hh & Hvs).
        set (nb := new_buf (heap w) (length ys)) in *.
        assert (Hanb : apart bufa nb) by (by eapply new_buf_apart).
        assert (Hbnb : apart bufb nb) by (by eapply new_buf_apart).
        exists (length ys), nb. split; [|split; [|lia]].
        -- unfold vec_rep, vec_rep_mem. rewrite Hh, Hvs.
           split; [apply lookup_insert_eq|]. split; [|split; [lia|lia]].
           apply block_rep_del_ne; [by apply apart_sym|].
           rewrite Nat.sub_diag. simpl. rewrite app_nil_r.
           eapply block_rep_upd; [apply (new_buf_block (heap w) (length ys))|].
           by rewrite length_map, length_replicate.
        -- unfold vec_rep, vec_rep_mem. rewrite Hh, Hvs.
           split; [by rewrite lookup_insert_ne|]. split; [|done].
           apply block_rep_del_ne; [by apply apart_sym|].
           by apply block_rep_upd_ne.
      * intros Hclean. destruct (spec_returns _ _ _ Hrun Hclean) as ([] & w' & HOk & _).
        eauto.
Qed.

Lemma Vector_assign_copies_elements_witness :
  vec_rep w_12_7 0 [1%Z; 2%Z] 2 (Some 1%positive) ∧
  vec_rep w_12_7 1 [7%Z] 1 (Some 2%positive) ∧
  (0 ≠ 1 → apart (Some 1%positive) (Some 2%positive)) ∧
  ∃ w', Vector_assign 0 1 w_12_7 = Ok tt w' ∧
        contents w' 0 = Some [Live 7%Z] ∧
        Size 0 w' = Ok 1 w' ∧
        Capacity 0 w' = Ok 2 w'.
Proof.
  assert (Hrepa : vec_rep w_12_7 0 [1%Z; 2%Z] 2 (Some 1%positive)) by concrete_rep.
  assert (Hrepb : vec_rep w_12_7 1 [7%Z] 1 (Some 2%positive)) by concrete_rep.
  assert (Hown : 0 ≠ 1 → apart (Some 1%positive) (Some 2%positive)).
  { intros _ l Hl1 Hl2. injection Hl1 as <-. discriminate Hl2. }
  split; [exact Hrepa|]. split; [exact Hrepb|]. split; [exact Hown|].
  destruct (Vector_assign_copies_elements w_12_7 0 1 [1%Z; 2%Z] [7%Z] 2 1
              (Some 1%positive) (Some 2%positive) Hrepa Hrepb Hown) as (_ & _ & Hreturns).
  destruct Hreturns as (w' & HOk); [by split|].
  exists w'. split; [exact HOk|].
  vm_compute in HOk. injection HOk as <-.
  repeat split; vm_compute; reflexivity.
Defined.

(** C6. [Reserve(n)] with [n <= Capacity()] returns at once: the whole state
    is what it was, so capacity, size and elements are unchanged, the vector
    still owns the same block, and nothing was allocated, constructed or
    destroyed (the trace is unchanged too). *)
Theorem Reserve_within_capacity_is_noop {T : Type} `{ET : Elem T}
    (w : World T) (this : nat) (v : Vector) (n : nat) :
  vecs w !! this = Some v →
  n ≤ capacity_ (data_ v) →
  Reserve this n w = Ok tt w.
Proof.
  intros Hv Hle. unfold Reserve, bind, get_vec. rewrite Hv.
  unfold RawMemory_Capacity. by rewrite decide_True.
Qed.

Lemma Reserve_within_capacity_is_noop_witness :
  vecs w_12 !! 0 = Some (mkVec (mkRaw (Some 1%positive) 2) 2) ∧
  1 ≤ 2 ∧
  Reserve 0 1 w_12 = Ok tt w_12.
Proof.
  split; [reflexivity|]. split; [lia|].
  apply (Reserve_within_capacity_is_noop w_12 0 (mkVec (mkRaw (Some 1%positive) 2) 2) 1).
  - reflexivity.
  - simpl. lia.
Defined.

(** C7. An insertion into a full vector, by [PushBack] of either overload,
    [EmplaceBack], [Emplace] or [Insert] at a valid position: every run that
    returns leaves the capacity at 1 when the vector was empty and at twice
    the old size otherwise.  The same holds when the argument of [PushBack]
    is an element of the vector itself.  And the insertion does return, when
    no failure is scheduled and a block of the new capacity can be
    allocated. *)
Theorem growth_doubles_capacity {T : Type} `{ET : Elem T}
    (w : World T) (this : nat) (xs : list T) (cap : nat) (buf : option positive)
    (op : insertion) :
  vec_rep w this xs cap buf →
  length xs = cap →
  (∀ p, insertion_offset op = Some p → p ≤ length xs) →
  (∀ w', run_insertion this op w = Ok tt w' →
         Capacity this w' = Ok (if decide (length xs = 0) then 1 else 2 * length xs) w') ∧
  (∀ k i x w', xs !! i = Some x →
         PushBack_with k this (Element (Ptr buf i)) w = Ok tt w' →
         Capacity this w' = Ok (2 * length xs) w') ∧
  (clean w → (N.of_nat (grown cap) ≤ max_alloc T)%N →
   ∃ w', run_insertion this op w = Ok tt w' ∧
         Capacity this w' = Ok (if decide (length xs = 0) then 1 else 2 * length xs) w').
Proof.
  intros Hrep Hfull Hpos. pose proof Hrep as (Hv & _).
  assert (Hgrown : grown cap = if decide (length xs = 0) then 1 else 2 * length xs).
  { rewrite Hfull. unfold grown. case_decide; lia. }
  assert (Hreturned : ∀ w', run_insertion this op w = Ok tt w' →
            Capacity this w' = Ok (if decide (length xs = 0) then 1 else 2 * length xs) w').
  { intros w' HOk.
    assert (Hobj : ∃ nb, vecs w' !! this = Some (mkVec (mkRaw nb (grown cap)) (S cap))).
    { assert (Hemplace : ∀ p k x, p ≤ cap →
                bind (begin_ this) (λ b, bind (Emplace this (b +ₚ p) k x) (λ _, ret tt)) w
                = Ok tt w' →
                ∃ nb, vecs w' !! this = Some (mkVec (mkRaw nb (grown cap)) (S cap))).
      { intros p k x Hp. rewrite (bind_Ok _ _ _ _ _ (begin_Ok _ _ _ Hv)).
        intros (r & Hr)%bind_ret_Ok.
        by eapply (Emplace_full_object w this xs cap buf p k x). }
      destruct op as [value|value|k x|p k x|p value|p value]; simpl in HOk.
      - by eapply PushBack_full_object.
      - by eapply PushBack_full_object.
      - apply bind_ret_Ok in HOk as (r & Hr). unfold EmplaceBack in Hr.
        rewrite (bind_Ok _ _ _ _ _ (get_vec_Ok _ _ _ Hv)) in Hr. simpl in Hr.
        unfold RawMemory_plus in Hr. simpl in Hr.
        eapply (Emplace_full_object w this xs cap buf (length xs)); [done|done|lia|done].
      - apply (Hemplace p k x); [|done]. rewrite <- Hfull. by apply Hpos.
      - apply (Hemplace p CopyCtor value); [|done]. rewrite <- Hfull. by apply Hpos.
      - apply (Hemplace p MoveCtor value); [|done]. rewrite <- Hfull. by apply Hpos. }
    destruct Hobj as (nb & Hobj).
    rewrite (Capacity_Ok _ _ _ Hobj). simpl. by rewrite Hgrown. }
  split; [exact Hreturned|]. split.
  - intros k i x w' Hx HOk.
    destruct (PushBack_effect_own w this xs cap buf k i x w' Hrep Hx HOk)
      as (buf' & (Hv' & _) & _).
    rewrite (Capacity_Ok _ _ _ Hv'). simpl.
    rewrite decide_False by lia. rewrite Hgrown.
    apply lookup_lt_Some in Hx. rewrite decide_False by lia. done.
  - intros Hclean Hfit.
    destruct (operation_returns w this xs cap buf (DoInsert op) Hrep) as (w' & HOk & _);
      [|done|].
    + split; [exact Hpos|]. split; [done|]. simpl. by rewrite decide_False by lia.
    + exists w'. split; [exact HOk|]. by apply Hreturned.
Qed.

(** The [int] vector {1, 2} at full capacity: each way of inserting returns
    and leaves the capacity at 4, [v.PushBack(v[0])] included; and the empty
    vector without a block gets capacity 1. *)
Lemma growth_doubles_capacity_witness :
  vec_rep w_12 0 [1%Z; 2%Z] 2 (Some 1%positive) ∧
  vec_rep w_empty 0 [] 0 None ∧
  Forall (λ op, ∃ w', run_insertion 0 op w_12 = Ok tt w' ∧ Capacity 0 w' = Ok 4 w')
         [ByPushBackCopy 7%Z; ByPushBackMove 7%Z; ByEmplaceBack ArgsCtor 7%Z;
          ByEmplace 0 ArgsCtor 7%Z; ByInsertCopy 1 42%Z; ByInsertMove 2 42%Z] ∧
  Forall (λ op, ∃ w', run_insertion 0 op w_empty = Ok tt w' ∧ Capacity 0 w' = Ok 1 w')
         [ByPushBackCopy 7%Z; ByPushBackMove 7%Z; ByEmplaceBack ArgsCtor 7%Z;
          ByInsertCopy 0 42%Z] ∧
  ∃ w', PushBack_copy 0 (Element (Ptr (Some 1%positive) 0)) w_12 = Ok tt w' ∧
        Capacity 0 w' = Ok 4 w'.
Proof.
  assert (Hrep : vec_rep w_12 0 [1%Z; 2%Z] 2 (Some 1%positive)) by concrete_rep.
  assert (Hrep0 : vec_rep w_empty 0 [] 0 None) by concrete_rep.
  assert (Hfull : ∀ op, (∀ p, insertion_offset op = Some p → p ≤ 2) →
            ∃ w', run_insertion 0 op w_12 = Ok tt w' ∧ Capacity 0 w' = Ok 4 w').
  { intros op Hpos.
    destruct (growth_doubles_capacity w_12 0 [1%Z; 2%Z] 2 (Some 1%positive) op
                Hrep eq_refl Hpos) as (_ & _ & Hret).
    apply Hret; [done|by vm_compute]. }
  assert (Hempty : ∀ op, (∀ p, insertion_offset op = Some p → p ≤ 0) →
            ∃ w', run_insertion 0 op w_empty = Ok tt w' ∧ Capacity 0 w' = Ok 1 w').
  { intros op Hpos.
    destruct (growth_doubles_capacity w_empty 0 [] 0 None op Hrep0 eq_refl Hpos)
      as (_ & _ & Hret).
    apply Hret; [done|by vm_compute]. }
  split; [exact Hrep|]. split; [exact Hrep0|]. split; [|split].
  - repeat first [apply List.Forall_nil
                 |apply List.Forall_cons;
                  [apply Hfull; intros p Hp; simplify_eq/=; lia|]].
  - repeat first [apply List.Forall_nil
                 |apply List.Forall_cons;
                  [apply Hempty; intros p Hp; simplify_eq/=; lia|]].
  - assert (HOk : PushBack_copy 0 (Element (Ptr (Some 1%positive) 0)) w_12 = Ok tt _)
      by (vm_compute; reflexivity).
    eexists. split; [exact HOk|].
    destruct (growth_doubles_capacity w_12 0 [1%Z; 2%Z] 2 (Some 1%positive)
                (ByPushBackCopy 7%Z) Hrep eq_refl ltac:(by intros p [=]))
      as (_ & Hown & _).
    exact (Hown CopyCtor 0 1%Z _ eq_refl HOk).
Defined.

(** C8. Move construction returns normally from every state, whatever
    failures are scheduled; the new vector [d] then has the elements, size,
    capacity and block of the source [s], the source is empty with no block,
    and no operation of the element type ran and nothing was allocated: heap
    and trace are what they were, so no element was copied. *)
Theorem Vector_move_steals_storage {T : Type} `{ET : Elem T}
    (w : World T) (d s : nat) (xs : list T) (cap : nat) (buf : option positive) :
  vec_rep w s xs cap buf →
  d ≠ s →
  ∃ w', Vector_move d s w = Ok tt w' ∧
        vec_rep w' d xs cap buf ∧
        vec_rep w' s [] 0 None ∧
        Size s w' = Ok 0 w' ∧
        heap w' = heap w ∧
        trace w' = trace w.
Proof.
  intros (Hv & Hb & Hle & Hcap) Hne.
  unfold Vector_move, bind, put_vec, get_vec, RawMemory_Swap, RawMemory_default. simpl.
  rewrite lookup_insert_eq. simpl.
  rewrite lookup_insert_ne, Hv by done. simpl.
  rewrite lookup_insert_ne, lookup_insert_eq by done. simpl.
  rewrite lookup_insert_eq. simpl.
  eexists. split; [reflexivity|].
  unfold vec_rep, vec_rep_mem, Size, bind, get_vec, set_vecs. simpl.
  rewrite lookup_insert_eq, lookup_insert_ne, lookup_insert_eq by done.
  repeat split; first [done|apply N.le_0_l].
Qed.

Lemma Vector_move_steals_storage_witness :
  vec_rep w_12 0 [1%Z; 2%Z] 2 (Some 1%positive) ∧
  7 ≠ 0 ∧
  ∃ w', Vector_move 7 0 w_12 = Ok tt w' ∧
        vec_rep w' 7 [1%Z; 2%Z] 2 (Some 1%positive) ∧
        vec_rep w' 0 [] 0 None ∧
        Size 0 w' = Ok 0 w' ∧
        heap w' = heap w_12 ∧
        trace w' = trace w_12.
Proof.
  assert (Hrep : vec_rep w_12 0 [1%Z; 2%Z] 2 (Some 1%positive)).
  { concrete_rep. }
  split; [exact Hrep|]. split; [lia|].
  apply (Vector_move_steals_storage w_12 7 0 [1%Z; 2%Z] 2 (Some 1%positive) Hrep).
  lia.
Defined.

(** C9, at an input where the code breaks it.  Assigning the string vector
    {"z"} to the string vector {"x", "y"} destroys the surplus element "y"
    first; the copy assignment of "z" then throws, and [size_] is still 2.
    The vector claims two elements, the second of which is destroyed, so no
    list of elements represents it any more. *)
Theorem Vector_assign_failure_breaks_invariant :
  ∃ w', Vector_assign 0 1 w_xy_z_faulty = Throw w' ∧
        Size 0 w' = Ok 2 w' ∧
        contents w' 0 = Some [Live "x"%string; Raw] ∧
        ∀ xs cap buf, ¬ vec_rep w' 0 xs cap buf.
Proof.
  eexists. split; [vm_compute; reflexivity|].
  split; [vm_compute; reflexivity|]. split; [vm_compute; reflexivity|].
  intros xs cap buf (Hv & Hb & _).
  vm_compute in Hv. injection Hv as <- <- Hlen.
  destruct xs as [|x1 [|x2 [|x3 xs]]]; try discriminate Hlen.
  vm_compute in Hb. discriminate Hb.
Qed.

(** The in-place path of [Emplace] leaves such a state as well, on the other
    side of [size_]: inserting at the front of {1, 2, 3} move-constructs the
    last element into the slot at index 3, and when the move assignment of
    the shift then throws, that slot stays constructed while [size_] is
    still 3. *)
Lemma Emplace_failure_leaves_extra_element :
  ∃ w', Emplace (ET := MoveAssignThrows) 0 (Ptr (Some 1%positive) 0) ArgsCtor 9 w_123_faulty
          = Throw w' ∧
        Size 0 w' = Ok 3 w' ∧
        heap w' !! 1%positive = Some [Live 1; Live 2; Live 3; Live 3] ∧
        ∀ xs cap buf, ¬ vec_rep (ET := MoveAssignThrows) w' 0 xs cap buf.
Proof.
  eexists. split; [vm_compute; reflexivity|].
  split; [vm_compute; reflexivity|]. split; [vm_compute; reflexivity|].
  intros xs cap buf (Hv & Hb & _).
  vm_compute in Hv. injection Hv as <- <- Hlen.
  destruct xs as [|x1 [|x2 [|x3 [|x4 xs]]]]; try discriminate Hlen.
  vm_compute in Hb. discriminate Hb.
Qed.

(** C10. The iterator [Erase] returns is [begin() + i] of the resulting
    vector: it dereferences to the element that followed the erased one, and
    it is [end()] when the last element was erased. *)
Theorem Erase_returns_same_position {T : Type} `{ET : Elem T}
    (w : World T) (this : nat) (xs : list T) (cap : nat) (buf : option positive)
    (i : nat) (r : ptr) (w' : World T) :
  vec_rep w this xs cap buf →
  i < length xs →
  Erase this (Ptr buf i) w = Ok r w' →
  begin_ this w' = Ok (Ptr buf 0) w' ∧
  r = Ptr buf 0 +ₚ i ∧
  (∀ y, xs !! S i = Some y → load r w' = Ok y w') ∧
  (S i = length xs → end_ this w' = Ok r w').
Proof.
  intros Hrep Hi HOk. pose proof Hrep as (Hv & Hb & Hle & Hcap).
  pose proof (runs_Erase_at _ _ _ _ _ _ i Hrep Hi w eq_refl eq_refl) as Hrun.
  pose proof (spec_Ok _ _ _ _ _ Hrun HOk) as (-> & Hh & Hvs).
  assert (Hget : get_vec this w' = Ok (mkVec (mkRaw buf cap) (length xs - 1)) w').
  { apply get_vec_Ok. rewrite Hvs. apply lookup_insert_eq. }
  assert (Hlen : length (take i xs) = i) by (rewrite length_take; lia).
  split; [|split; [|split]].
  - unfold begin_. by rewrite (bind_Ok _ _ _ _ _ Hget).
  - done.
  - intros y Hy. eapply load_Ok.
    + rewrite Hh. eapply block_rep_upd; [exact Hb|].
      rewrite !length_app, !length_map, !length_replicate, length_app,
        length_take, length_drop. lia.
    + apply lookup_map_Live. rewrite lookup_app_r by lia.
      rewrite Hlen, Nat.sub_diag, lookup_drop. by rewrite Nat.add_0_r.
  - intros Hlast. unfold end_. rewrite (bind_Ok _ _ _ _ _ Hget). simpl.
    unfold ret. do 2 f_equal. unfold GetAddress, ptr_add. simpl. f_equal. lia.
Qed.

Lemma Erase_returns_same_position_witness :
  ∃ r w',
    vec_rep w_1_42_2 0 [1%Z; 42%Z; 2%Z] 4 (Some 1%positive) ∧
    0 < length [1%Z; 42%Z; 2%Z] ∧
    Erase 0 (Ptr (Some 1%positive) 0) w_1_42_2 = Ok r w' ∧
    begin_ 0 w' = Ok (Ptr (Some 1%positive) 0) w' ∧
    r = Ptr (Some 1%positive) 0 +ₚ 0 ∧
    load r w' = Ok 42%Z w'.
Proof.
  assert (Hrep : vec_rep w_1_42_2 0 [1%Z; 42%Z; 2%Z] 4 (Some 1%positive)) by concrete_rep.
  assert (Hi : 0 < length [1%Z; 42%Z; 2%Z]) by (simpl; lia).
  eexists _, _.
  split; [exact Hrep|]. split; [exact Hi|].
  assert (HOk : Erase 0 (Ptr (Some 1%positive) 0) w_1_42_2 = Ok _ _)
    by (vm_compute; reflexivity).
  split; [exact HOk|].
  destruct (Erase_returns_same_position w_1_42_2 0 [1%Z; 42%Z; 2%Z] 4 (Some 1%positive) 0
              _ _ Hrep Hi HOk) as (Hbegin & Hr & Hnext & _).
  split; [exact Hbegin|]. split; [exact Hr|].
  by apply Hnext.
Defined.

(** * Further properties of the code *)

(** X1. [PushBack], both overloads, with its argument taken by reference.
    When the call returns, the vector holds the elements [pushed] computes.
    For an argument outside the heap these are the old elements followed by
    the argument.  For an argument that is an element of the vector itself
    and a vector with room they are the old elements followed by that
    element, which [PushBack(T&&)] leaves moved-from in its old place.  On a
    full vector the argument is read only after the elements have been
    transferred to the new block, so what is appended is what the transfer
    left of the element: the moved-from value if the elements are moved.
    The capacity is the old one if there was room, and otherwise 1 for a
    vector without capacity and twice the size for any other; if there was
    room the block is the same; nothing outside the vector has changed.  The
    call returns when no failure is scheduled and the new block, if one is
    needed, can be allocated. *)
Theorem PushBack_appends {T : Type} `{ET : Elem T}
    (w : World T) (this : nat) (xs : list T) (cap : nat) (buf : option positive)
    (push : nat → operand T → M T unit) (k : elem_op) (value : operand T) (ys : list T) :
  vec_rep w this xs cap buf →
  (push = PushBack_copy ∧ k = CopyCtor) ∨ (push = PushBack_move ∧ k = MoveCtor) →
  pushed k value xs cap buf = Some ys →
  (∀ w', push this value w = Ok tt w' →
     ∃ buf', vec_rep w' this ys
                     (if decide (length xs < cap) then cap else grown cap) buf' ∧
             (length xs < cap → buf' = buf) ∧
             untouched_outside w w' this buf) ∧
  (clean w → length xs < cap ∨ (N.of_nat (grown cap) ≤ max_alloc T)%N →
   ∃ w', push this value w = Ok tt w').
Proof.
  intros Hrep Hpush Hys.
  assert (Hk : push = PushBack_with k) by (by destruct Hpush as [[-> ->]|[-> ->]]).
  subst push. clear Hpush. pose proof Hrep as (_ & _ & Hle & _).
  destruct value as [x|[bq i]]; simpl in Hys.
  - injection Hys as <-. split.
    + intros w' HOk.
      destruct (PushBack_effect w this xs cap buf k x w' Hrep HOk)
        as (buf' & Hrep' & Hsame & Hout & _).
      eauto.
    + intros Hclean Hfit.
      assert (Hrun : ∃ h' vs',
                runs (heap w) (vecs w) (PushBack_with k this (Outside x)) tt h' vs').
      { destruct (decide (length xs < cap)) as [Hlt|Hnlt].
        - eexists _, _. by apply runs_PushBack_room.
        - destruct Hfit as [?|Hfit]; [lia|].
          eexists _, _. apply runs_PushBack_full; [done|lia|done]. }
      destruct Hrun as (h' & vs' & Hrun).
      destruct (runs_returns _ _ _ _ _ Hrun Hclean) as (w' & HOk & _). eauto.
  - case_decide as Hbase; [|done]. subst bq.
    destruct (xs !! i) as [x|] eqn:Hx; [|done]. injection Hys as <-. split.
    + intros w' HOk.
      destruct (PushBack_effect_own w this xs cap buf k i x w' Hrep Hx HOk)
        as (buf' & Hrep' & Hsame & Hout & _).
      eauto.
    + intros Hclean Hfit.
      assert (Hrun : ∃ h' vs',
                runs (heap w) (vecs w) (PushBack_with k this (Element (Ptr buf i))) tt h' vs').
      { destruct (decide (length xs < cap)) as [Hlt|Hnlt].
        - eexists _, _. by eapply runs_PushBack_room_own.
        - destruct Hfit as [?|Hfit]; [lia|].
          eexists _, _. eapply runs_PushBack_full_own; [done|lia|done|done]. }
      destruct Hrun as (h' & vs' & Hrun).
      destruct (runs_returns _ _ _ _ _ Hrun Hclean) as (w' & HOk & _). eauto.
Qed.

(** The string vector {"a"} at full capacity, and [v.PushBack(v[0])]: "a" is
    moved to the new block first, so the copy that is appended is a copy of
    the moved-from, empty string. *)
Lemma PushBack_appends_witness :
  vec_rep w_a 0 ["a"%string] 1 (Some 1%positive) ∧
  ((PushBack_copy = PushBack_copy ∧ CopyCtor = CopyCtor) ∨
   (PushBack_copy = PushBack_move ∧ CopyCtor = MoveCtor)) ∧
  pushed CopyCtor (Element (Ptr (Some 1%positive) 0)) ["a"%string] 1 (Some 1%positive)
    = Some ["a"%string; EmptyString] ∧
  ∃ w', PushBack_copy 0 (Element (Ptr (Some 1%positive) 0)) w_a = Ok tt w' ∧
        contents w' 0 = Some [Live "a"%string; Live EmptyString] ∧
        Capacity 0 w' = Ok 2 w' ∧
        ∃ buf', vec_rep w' 0 ["a"%string; EmptyString] 2 buf'.
Proof.
  assert (Hrep : vec_rep w_a 0 ["a"%string] 1 (Some 1%positive)) by concrete_rep.
  assert (Hys : pushed CopyCtor (Element (Ptr (Some 1%positive) 0)) ["a"%string] 1
                  (Some 1%positive) = Some ["a"%string; EmptyString]) by reflexivity.
  split; [exact Hrep|]. split; [by left|]. split; [exact Hys|].
  destruct (PushBack_appends w_a 0 ["a"%string] 1 (Some 1%positive) PushBack_copy CopyCtor
              (Element (Ptr (Some 1%positive) 0)) ["a"%string; EmptyString]
              Hrep (or_introl (conj eq_refl eq_refl)) Hys) as [Heffect Hreturns].
  destruct Hreturns as (w' & HOk).
  - by split.
  - right. by vm_compute.
  - exists w'. split; [exact HOk|].
    destruct (Heffect w' HOk) as (buf' & Hrep' & _).
    vm_compute in HOk. injection HOk as <-.
    split; [vm_compute; reflexivity|]. split; [vm_compute; reflexivity|].
    exists buf'. exact Hrep'.
Defined.

(** X2. What a failing [PushBack] leaves behind, for an element type that is
    copied into the new block unless its move constructor cannot throw, and
    for any argument that refers to a live object: one outside the heap, an
    element of the vector itself or an element of another vector.
    [PushBack(const T&)] is [PushBack_with CopyCtor] and [PushBack(T&&)] is
    [PushBack_with MoveCtor].  Under every fault schedule the call has no
    undefined behaviour, and when it throws the vector has the size, the
    capacity and the block it had and nothing outside it has changed.  Its
    elements are the old ones, with one exception: the vector was full, its
    elements were moved to the new block, and then the constructor of the new
    element threw; the elements are then in their moved-from state. *)
Theorem PushBack_failure_keeps_size_and_capacity {T : Type} `{ET : Elem T}
    (w : World T) (this : nat) (xs : list T) (cap : nat) (buf : option positive)
    (k : elem_op) (value : operand T) :
  is_nothrow_move_constructible T || is_copy_constructible = true →
  vec_rep w this xs cap buf →
  operand_alive (heap w) value →
  match PushBack_with k this value w with
  | Ok _ _ => True
  | Throw w' =>
      ∃ xs', vec_rep w' this xs' cap buf ∧
             untouched_outside w w' this buf ∧
             (xs' = xs ∨
              (xs' = map moved_from xs ∧ length xs = cap ∧
               may_throw k = true ∧ is_nothrow_move_constructible T = true))
  | Undefined => False
  end.
Proof.
  intros Hsafe Hrep Halive. pose proof Hrep as (Hv & Hb & Hle & Hcap).
  destruct (decide (length xs < cap)) as [Hlt|Hnlt].
  - pose proof (total_at w _ _ _ (total_PushBack_room _ _ _ _ _ _ k value Hrep Hlt Halive))
      as Hrun.
    destruct (PushBack_with k this value w) as [[] w'|w'|]; [done| |done].
    destruct Hrun as [Hh Hvs]. exists xs.
    split; [by apply (vec_rep_ext w)|]. split; [by apply untouched_same|by left].
  - assert (Hfull : length xs = cap) by lia.
    pose proof (total_at w _ _ _
                  (total_PushBack_full _ _ _ _ _ _ k value Hsafe Hrep Hfull Halive))
      as Hrun.
    destruct (PushBack_with k this value w) as [[] w'|w'|]; [done| |done].
    destruct Hrun as (Hvs & [Hh|[Hh Hk]]).
    + exists xs. split; [by apply (vec_rep_ext w)|]. split; [by apply untouched_same|by left].
    + assert (Hvs' : vecs w' = <[this := mkVec (mkRaw buf cap) (length (map transferred xs))]>
                                 (vecs w)).
      { rewrite Hvs, length_map. symmetry. by apply insert_id. }
      destruct (in_place_effect w w' this xs cap buf (map transferred xs) _ _ Hrep Hh Hvs')
        as [Hrep' Hout].
      * done.
      * rewrite length_map, Hfull, Nat.sub_diag. simpl. by rewrite app_nil_r.
      * rewrite length_map. lia.
      * assert (Hmode : is_nothrow_move_constructible T = true ∨
                        is_nothrow_move_constructible T = false)
          by (destruct (is_nothrow_move_constructible T); auto).
        destruct Hmode as [Hmove|Hmove].
        -- exists (map moved_from xs). split; [|split; [done|by right]].
           unfold transferred in Hrep'. by rewrite Hmove in Hrep'.
        -- exists xs. split; [|split; [done|by left]].
           by rewrite transferred_copy in Hrep'.
Qed.

(** The string vector {"a"} at full capacity and [v.PushBack(v[0])], when
    the copy of the new element throws: "a" has been moved to the new block,
    which is released, and the vector is left with the moved-from string. *)
Lemma PushBack_failure_keeps_size_and_capacity_witness :
  is_nothrow_move_constructible string || is_copy_constructible = true ∧
  vec_rep w_a_faulty 0 ["a"%string] 1 (Some 1%positive) ∧
  operand_alive (heap w_a_faulty) (Element (Ptr (Some 1%positive) 0)) ∧
  ∃ w', PushBack_copy 0 (Element (Ptr (Some 1%positive) 0)) w_a_faulty = Throw w' ∧
        ∃ xs', vec_rep w' 0 xs' 1 (Some 1%positive) ∧
               (xs' = ["a"%string] ∨ xs' = map moved_from ["a"%string]) ∧
               contents w' 0 = Some [Live EmptyString].
Proof.
  assert (Hrep : vec_rep w_a_faulty 0 ["a"%string] 1 (Some 1%positive)) by concrete_rep.
  assert (Halive : operand_alive (heap w_a_faulty) (Element (Ptr (Some 1%positive) 0))).
  { exists 1%positive, [Live "a"%string], "a"%string. by vm_compute. }
  split; [reflexivity|]. split; [exact Hrep|]. split; [exact Halive|].
  pose proof (PushBack_failure_keeps_size_and_capacity w_a_faulty 0 ["a"%string] 1
                (Some 1%positive) CopyCtor (Element (Ptr (Some 1%positive) 0))
                eq_refl Hrep Halive) as Hrun.
  assert (HT : PushBack_copy 0 (Element (Ptr (Some 1%positive) 0)) w_a_faulty = Throw _)
    by (vm_compute; reflexivity).
  unfold PushBack_copy in HT. rewrite HT in Hrun.
  destruct Hrun as (xs' & Hrep' & _ & Hxs').
  eexists. split; [exact HT|]. exists xs'. split; [exact Hrep'|]. split.
  - destruct Hxs' as [?|(? & _)]; [by left|by right].
  - vm_compute. reflexivity.
Defined.



(** X4. [PopBack] under every fault schedule: on an empty vector the
    assertion fails (undefined behaviour), on any other it returns, never
    throws, and leaves the vector without its last element, with the same
    capacity and block; nothing outside the vector has changed and no fault
    was consumed. *)
Theorem PopBack_removes_last {T : Type} `{ET : Elem T}
    (w : World T) (this : nat) (xs : list T) (cap : nat) (buf : option positive) :
  vec_rep w this xs cap buf →
  match PopBack this w with
  | Ok _ w' =>
      ∃ pre x, xs = pre ++ [x] ∧
               vec_rep w' this pre cap buf ∧
               untouched_outside w w' this buf ∧
               new_faults w' = new_faults w ∧ elem_faults w' = elem_faults w
  | Throw _ => False
  | Undefined => xs = []
  end.
Proof.
  intros Hrep. pose proof Hrep as (Hv & Hb & Hle & Hcap).
  destruct (decide (xs = [])) as [->|Hne].
  - unfold PopBack. rewrite (bind_Ok _ _ _ _ _ (get_vec_Ok _ _ _ Hv)). simpl. done.
  - destruct (snoc_cases xs Hne) as (pre & x & ->).
    destruct (oblivious_runs _ w tt _ _ (oblivious_PopBack this)
                (runs_PopBack _ _ _ _ _ _ _ Hrep)) as (w' & -> & Hh & Hvs & Hnf & Hef).
    exists pre, x. split; [done|].
    destruct (in_place_effect w w' this (pre ++ [x]) cap buf pre _ _ Hrep Hh Hvs)
      as [Hrep' Hout]; [done|done| |done].
    rewrite length_app in Hle. simpl in Hle. lia.
Qed.

Lemma PopBack_removes_last_witness :
  vec_rep w_12 0 [1%Z; 2%Z] 2 (Some 1%positive) ∧
  ∃ w', PopBack 0 w_12 = Ok tt w' ∧
        vec_rep w' 0 [1%Z] 2 (Some 1%positive) ∧
        contents w' 0 = Some [Live 1%Z].
Proof.
  assert (Hrep : vec_rep w_12 0 [1%Z; 2%Z] 2 (Some 1%positive)) by concrete_rep.
  split; [exact Hrep|].
  pose proof (PopBack_removes_last w_12 0 [1%Z; 2%Z] 2 (Some 1%positive) Hrep) as Hrun.
  assert (HOk : PopBack 0 w_12 = Ok tt _) by (vm_compute; reflexivity).
  rewrite HOk in Hrun. destruct Hrun as (pre & x & Hxs & Hrep' & _).
  assert (pre = [1%Z]) as ->.
  { destruct pre as [|a [|b pre]]; [discriminate Hxs| |].
    - injection Hxs as <- _. reflexivity.
    - injection Hxs as _ _ Hnil. by destruct pre. }
  eexists. split; [exact HOk|]. split; [exact Hrep'|]. vm_compute. reflexivity.
Defined.

(** X5. [Reserve(n)] with [n] larger than the capacity and a byte count
    [n * sizeof(T)] that does not wrap in [size_t]: when it returns, the
    vector has the same elements and size and capacity exactly [n], in a
    block that did not exist before; the old block is released; nothing else
    has changed.  It returns when no failure is scheduled and a block of [n]
    elements can be allocated, that is, when [n * sizeof(T)] is at most
    [PTRDIFF_MAX]. *)
Theorem Reserve_grows_capacity {T : Type} `{ET : Elem T}
    (w : World T) (this : nat) (xs : list T) (cap : nat) (buf : option positive)
    (n : nat) :
  vec_rep w this xs cap buf →
  cap < n →
  (fits_size_t T n → ∀ w', Reserve this n w = Ok tt w' →
     ∃ buf', vec_rep w' this xs n buf' ∧
             (∀ l, buf' = Some l → heap w !! l = None) ∧
             (∀ l, buf = Some l → heap w' !! l = None) ∧
             untouched_outside w w' this buf) ∧
  (clean w → (N.of_nat n ≤ max_alloc T)%N → ∃ w', Reserve this n w = Ok tt w').
Proof.
  intros Hrep Hlt. pose proof Hrep as (Hv & Hb & Hle & Hcap). split.
  - intros Hfits w' HOk.
    destruct (decide (N.of_nat n ≤ max_alloc T)%N) as [Hn|Hbig];
      [|rewrite (Reserve_too_big w this _ n Hv) in HOk; [done|simpl; lia|done|done]].
    pose proof (runs_Reserve_grow _ _ _ _ _ _ n Hrep Hlt Hn w eq_refl eq_refl) as Hrun.
    pose proof (spec_Ok _ _ _ _ _ Hrun HOk) as (_ & Hh & Hvs). simpl in Hh, Hvs.
    destruct (realloc_effect w w' this xs cap buf xs _ _ _ Hrep Hh Hvs)
      as [Hrep' Hout]; [done|done|lia|done|].
    exists (new_buf (heap w) n). split; [done|]. split; [|split; [|done]].
    + destruct (new_buf_is_new (heap w) buf n) as [Heq|Hnew]; [|done].
      intros l Hl. rewrite Heq in Hl.
      pose proof (new_buf_apart (heap w) n buf _ Hb l Hl) as Hne. by rewrite Heq, Hl in Hne.
    + intros l ->. rewrite Hh. simpl. apply lookup_delete_eq.
  - intros Hclean Hn.
    destruct (runs_returns _ _ _ _ _ (runs_Reserve_grow _ _ _ _ _ _ n Hrep Hlt Hn) Hclean)
      as (w' & HOk & _). eauto.
Qed.

Lemma Reserve_grows_capacity_witness :
  vec_rep w_12 0 [1%Z; 2%Z] 2 (Some 1%positive) ∧
  2 < 5 ∧
  ∃ w', Reserve 0 5 w_12 = Ok tt w' ∧
        contents w' 0 = Some [Live 1%Z; Live 2%Z] ∧
        Capacity 0 w' = Ok 5 w' ∧
        heap w' !! 1%positive = None.
Proof.
  assert (Hrep : vec_rep w_12 0 [1%Z; 2%Z] 2 (Some 1%positive)) by concrete_rep.
  split; [exact Hrep|]. split; [lia|].
  destruct (Reserve_grows_capacity w_12 0 [1%Z; 2%Z] 2 (Some 1%positive) 5 Hrep)
    as [_ Hreturns]; [lia|].
  destruct Hreturns as (w' & HOk).
  - by split.
  - by vm_compute.
  - exists w'. split; [exact HOk|].
    vm_compute in HOk. injection HOk as <-.
    repeat split; vm_compute; reflexivity.
Defined.

(** X6. [Reserve(n)] gives the strong guarantee, for an element type that is
    copied into the new block unless its move constructor cannot throw and
    for a byte count [n * sizeof(T)] that does not wrap in [size_t]: under
    every fault schedule it has no undefined behaviour, and when it throws
    (the allocation failed, or the copy of an element threw and the copies
    made so far were destroyed again) heap and objects are what they were
    before the call. *)
Theorem Reserve_strong_guarantee {T : Type} `{ET : Elem T}
    (w : World T) (this : nat) (xs : list T) (cap : nat) (buf : option positive)
    (n : nat) :
  is_nothrow_move_constructible T || is_copy_constructible = true →
  vec_rep w this xs cap buf →
  fits_size_t T n →
  match Reserve this n w with
  | Ok _ _ => True
  | Throw w' => heap w' = heap w ∧ vecs w' = vecs w
  | Undefined => False
  end.
Proof.
  intros Hsafe Hrep Hfits.
  destruct (decide (n ≤ cap)) as [Hle|Hgt].
  - pose proof (total_at w _ _ _
                  (total_Reserve_noop _ _ _ _ _ _ n (left_as (heap w) (vecs w)) Hrep Hle))
      as Hrun.
    by destruct (Reserve this n w).
  - assert (Hlt : cap < n) by lia.
    pose proof (total_at w _ _ _ (total_Reserve_grow _ _ _ _ _ _ n Hsafe Hrep Hlt Hfits))
      as Hrun.
    by destruct (Reserve this n w).
Qed.

(** The vector {1, 2, 3} of elements that are copied into a new block is
    reserved a larger block, and the copy of the second element throws. *)
Lemma Reserve_strong_guarantee_witness :
  @is_nothrow_move_constructible T3 CopyOnly || @is_copy_constructible T3 CopyOnly = true ∧
  vec_rep (ET := CopyOnly) w_copy_faulty 0 [1; 2; 3] 3 (Some 1%positive) ∧
  @fits_size_t T3 CopyOnly 8 ∧
  ∃ w', Reserve (ET := CopyOnly) 0 8 w_copy_faulty = Throw w' ∧
        heap w' = heap w_copy_faulty ∧ vecs w' = vecs w_copy_faulty ∧
        elem_faults w' = [].
Proof.
  assert (Hrep : vec_rep (ET := CopyOnly) w_copy_faulty 0 [1; 2; 3] 3 (Some 1%positive)) by concrete_rep.
  assert (Hfits : @fits_size_t T3 CopyOnly 8) by reflexivity.
  split; [reflexivity|]. split; [exact Hrep|]. split; [exact Hfits|].
  pose proof (Reserve_strong_guarantee (ET := CopyOnly) w_copy_faulty 0 [1; 2; 3] 3
                (Some 1%positive) 8 eq_refl Hrep Hfits) as Hrun.
  assert (HT : Reserve (ET := CopyOnly) 0 8 w_copy_faulty = Throw _)
    by (vm_compute; reflexivity).
  rewrite HT in Hrun. destruct Hrun as [Hh Hvs].
  eexists. split; [exact HT|]. split; [exact Hh|]. split; [exact Hvs|].
  vm_compute. reflexivity.
Defined.

(** X7. [Resize(n)] for a byte count [n * sizeof(T)] that does not wrap in
    [size_t]: when it returns, the vector holds its first [n] elements if it
    had at least [n], and otherwise all its elements followed by
    value-initialised ones up to size [n]; the capacity is the old one if
    [n] fits into it and [n] otherwise; with [n] within the capacity the
    block is the same; nothing outside the vector has changed.  It returns
    when no failure is scheduled and a block of [n] elements can be
    allocated, that is, when [n * sizeof(T)] is at most [PTRDIFF_MAX]. *)
Theorem Resize_truncates_or_pads {T : Type} `{ET : Elem T}
    (w : World T) (this : nat) (xs : list T) (cap : nat) (buf : option positive)
    (n : nat) :
  vec_rep w this xs cap buf →
  (fits_size_t T n → ∀ w', Resize this n w = Ok tt w' →
     ∃ buf', vec_rep w' this (take n xs ++ replicate (n - length xs) value_init)
                     (if decide (n ≤ cap) then cap else n) buf' ∧
             Size this w' = Ok n w' ∧
             (n ≤ cap → buf' = buf) ∧
             untouched_outside w w' this buf) ∧
  (clean w → (N.of_nat n ≤ max_alloc T)%N → ∃ w', Resize this n w = Ok tt w').
Proof.
  intros Hrep. pose proof Hrep as (Hv & Hb & Hle & Hcap). split.
  - intros Hfits w' HOk.
    destruct (Resize_effect w this xs cap buf n w' Hrep Hfits HOk)
      as (buf' & Hrep' & Hsame & Hout & _).
    exists buf'. split; [done|]. split; [|done].
    unfold Size. rewrite (bind_Ok _ _ _ _ _ (get_vec_rep _ _ _ _ _ Hrep')). simpl.
    unfold ret. do 2 f_equal. rewrite length_app, length_take, length_replicate. lia.
  - intros Hclean Hn.
    destruct (operation_returns w this xs cap buf (DoResize n) Hrep) as (w' & HOk & _);
      [|done|by eauto].
    split; [done|]. split; [done|]. simpl. by case_decide.
Qed.

Lemma Resize_truncates_or_pads_witness :
  vec_rep w_12 0 [1%Z; 2%Z] 2 (Some 1%positive) ∧
  ∃ w', Resize 0 4 w_12 = Ok tt w' ∧
        contents w' 0 = Some [Live 1%Z; Live 2%Z; Live 0%Z; Live 0%Z] ∧
        Capacity 0 w' = Ok 4 w'.
Proof.
  assert (Hrep : vec_rep w_12 0 [1%Z; 2%Z] 2 (Some 1%positive)) by concrete_rep.
  split; [exact Hrep|].
  destruct (Resize_truncates_or_pads w_12 0 [1%Z; 2%Z] 2 (Some 1%positive) 4 Hrep)
    as [_ Hreturns].
  destruct Hreturns as (w' & HOk).
  - by split.
  - by vm_compute.
  - exists w'. split; [exact HOk|].
    vm_compute in HOk. injection HOk as <-.
    split; vm_compute; reflexivity.
Defined.

(** X8. What a failing [Resize(n)] leaves behind, for an element type that is
    copied into a new block unless its move constructor cannot throw and for
    a byte count [n * sizeof(T)] that does not wrap in [size_t].  Under
    every fault schedule the call has no undefined behaviour; it can throw
    only when the vector is to grow; and when it throws the vector still has
    exactly its old elements and size, nothing outside it has changed, and
    its capacity is the old one or, if the reallocation was already done
    when the construction of a new element threw, [n]. *)
Theorem Resize_failure_keeps_elements {T : Type} `{ET : Elem T}
    (w : World T) (this : nat) (xs : list T) (cap : nat) (buf : option positive)
    (n : nat) :
  is_nothrow_move_constructible T || is_copy_constructible = true →
  vec_rep w this xs cap buf →
  fits_size_t T n →
  match Resize this n w with
  | Ok _ _ => True
  | Throw w' =>
      length xs < n ∧
      ∃ cap' buf', vec_rep w' this xs cap' buf' ∧
                   (cap' = cap ∨ (cap < n ∧ cap' = n)) ∧
                   untouched_outside w w' this buf
  | Undefined => False
  end.
Proof.
  intros Hsafe Hrep Hfits. pose proof Hrep as (Hv & Hb & Hle & Hcap).
  assert (Hsame : ∀ w', heap w' = heap w → vecs w' = vecs w →
            ∃ cap' buf', vec_rep w' this xs cap' buf' ∧
                         (cap' = cap ∨ (cap < n ∧ cap' = n)) ∧
                         untouched_outside w w' this buf).
  { intros w' Hh Hvs. exists cap, buf.
    split; [by apply (vec_rep_ext w)|]. split; [by left|by apply untouched_same]. }
  destruct (decide (n < length xs)) as [Hshrink|Hnshrink].
  { pose proof (total_at w _ _ _ (total_Resize_shrink _ _ _ _ _ _ n never Hrep Hshrink)) as Hrun.
    by destruct (Resize this n w). }
  destruct (decide (n = length xs)) as [->|Hne].
  { pose proof (total_at w _ _ _ (total_Resize_same _ _ _ _ _ _ never Hrep)) as Hrun.
    by destruct (Resize this (length xs) w). }
  assert (Hgrow : length xs < n) by lia.
  destruct (decide (n ≤ cap)) as [Hfit|Hnofit].
  - pose proof (total_at w _ _ _ (total_Resize_grow_room _ _ _ _ _ _ n Hrep Hgrow Hfit)) as Hrun.
    destruct (Resize this n w) as [[] w'|w'|]; [done| |done].
    destruct Hrun as [Hh Hvs]. split; [done|]. by apply Hsame.
  - assert (Hlt : cap < n) by lia.
    pose proof (total_at w _ _ _
                  (total_Resize_grow_realloc _ _ _ _ _ _ n Hsafe Hrep Hlt Hfits))
      as Hrun.
    destruct (Resize this n w) as [[] w'|w'|]; [done| |done].
    split; [done|].
    destruct Hrun as [[Hh Hvs]|(Hn & Hh & Hvs)]; [by apply Hsame|].
    destruct (realloc_effect w w' this xs cap buf xs _ _ _ Hrep Hh Hvs)
      as [Hrep' Hout]; [done|done|lia|done|].
    exists n, (new_buf (heap w) n). split; [done|]. split; [right; done|done].
Qed.

(** The vector {1, 2, 3} is resized to 5; the reallocation copies the three
    elements, then the construction of the first new element throws. *)
Lemma Resize_failure_keeps_elements_witness :
  @is_nothrow_move_constructible T3 CopyOnly || @is_copy_constructible T3 CopyOnly = true ∧
  vec_rep (ET := CopyOnly) w_copy_resize 0 [1; 2; 3] 3 (Some 1%positive) ∧
  @fits_size_t T3 CopyOnly 5 ∧
  ∃ w', Resize (ET := CopyOnly) 0 5 w_copy_resize = Throw w' ∧
        contents w' 0 = Some [Live 1; Live 2; Live 3] ∧
        Size 0 w' = Ok 3 w' ∧
        ∃ cap' buf', vec_rep (ET := CopyOnly) w' 0 [1; 2; 3] cap' buf' ∧ (cap' = 3 ∨ cap' = 5).
Proof.
  assert (Hrep : vec_rep (ET := CopyOnly) w_copy_resize 0 [1; 2; 3] 3 (Some 1%positive)) by concrete_rep.
  assert (Hfits : @fits_size_t T3 CopyOnly 5) by reflexivity.
  split; [reflexivity|]. split; [exact Hrep|]. split; [exact Hfits|].
  pose proof (Resize_failure_keeps_elements (ET := CopyOnly) w_copy_resize 0 [1; 2; 3] 3
                (Some 1%positive) 5 eq_refl Hrep Hfits) as Hrun.
  assert (HT : Resize (ET := CopyOnly) 0 5 w_copy_resize = Throw _)
    by (vm_compute; reflexivity).
  rewrite HT in Hrun. destruct Hrun as (_ & cap' & buf' & Hrep' & Hcap' & _).
  eexists. split; [exact HT|]. split; [vm_compute; reflexivity|].
  split; [vm_compute; reflexivity|].
  exists cap', buf'. split; [exact Hrep'|]. destruct Hcap' as [?|[_ ?]]; [by left|by right].
Defined.

(** X9. The sized constructor [Vector(n)], for an object that does not exist
    yet, under every fault schedule.  When it returns, the vector holds [n]
    value-initialised elements and its capacity is [n]; for [n = 0] it has
    no block and the heap is unchanged.  When the byte count [n * sizeof(T)]
    does not wrap in [size_t] and the constructor throws (the allocation
    failed, or a value construction threw and the elements constructed so
    far were destroyed and the block released), heap and objects are what
    they were: nothing leaks and the object does not exist.  Undefined
    behaviour occurs only when the byte count wraps: the block is then too
    small for [n] elements and the constructor writes beyond it, so a
    constructor that returns has not wrapped.  The constructor returns when
    no failure is scheduled and a block of [n] elements can be allocated,
    that is, when [n * sizeof(T)] is at most [PTRDIFF_MAX]. *)
Theorem Vector_sized_value_initialises {T : Type} `{ET : Elem T}
    (w : World T) (this : nat) (n : nat) :
  vecs w !! this = None →
  match Vector_sized this n w with
  | Ok _ w' =>
      ∃ buf, vec_rep w' this (replicate n value_init) n buf ∧
             (n = 0 → buf = None ∧ heap w' = heap w) ∧
             untouched_outside w w' this None
  | Throw w' => fits_size_t T n → heap w' = heap w ∧ vecs w' = vecs w
  | Undefined => ¬ fits_size_t T n
  end ∧
  (clean w → (N.of_nat n ≤ max_alloc T)%N → ∃ w', Vector_sized this n w = Ok tt w').
Proof.
  intros Hnew. split.
  - assert (Hrun : fits_size_t T n →
              match Vector_sized this n w with
              | Ok a w' =>
                  (N.of_nat n ≤ max_alloc T)%N ∧
                  exactly tt (upd (heap w) (new_buf (heap w) n)
                                  (map Live (replicate n value_init)))
                          (<[this := mkVec (mkRaw (new_buf (heap w) n) n) n]> (vecs w))
                          a (heap w') (vecs w')
              | Throw w' => left_as (heap w) (vecs w) (heap w') (vecs w')
              | Undefined => False
              end).
    { intros Hfits.
      exact (total_at w _ _ _ (total_Vector_sized (heap w) (vecs w) this n Hnew Hfits)). }
    pose proof (Vector_sized_returns_fits w this n) as Hret.
    destruct (Vector_sized this n w) as [[] w'|w'|]; [|done|by intros ?%Hrun].
    destruct (Hrun (Hret w' eq_refl)) as (Hn & _ & Hh & Hvs).
    destruct (fresh_vector_effect w w' this (replicate n value_init) n Hh Hvs)
      as (Hrep' & Hout & Hzero); [by rewrite length_replicate|done|].
    exists (new_buf (heap w) n). split; [done|]. split; [|done].
    intros Hz. split; [|by apply Hzero]. unfold new_buf. by rewrite decide_False by lia.
  - intros Hclean Hn.
    destruct (runs_returns _ _ _ _ _ (runs_Vector_sized (heap w) (vecs w) this n Hn) Hclean)
      as (w' & HOk & _). eauto.
Qed.

Lemma Vector_sized_value_initialises_witness :
  vecs w_12 !! 5 = None ∧
  ∃ w', Vector_sized 5 3 w_12 = Ok tt w' ∧
        contents w' 5 = Some [Live 0%Z; Live 0%Z; Live 0%Z] ∧
        Capacity 5 w' = Ok 3 w' ∧
        contents w' 0 = Some [Live 1%Z; Live 2%Z].
Proof.
  split; [reflexivity|].
  destruct (Vector_sized_value_initialises w_12 5 3 eq_refl) as [_ Hreturns].
  destruct Hreturns as (w' & HOk).
  - by split.
  - by vm_compute.
  - exists w'. split; [exact HOk|].
    vm_compute in HOk. injection HOk as <-.
    repeat split; vm_compute; reflexivity.
Defined.

(** X10. The copy constructor [Vector(other)], for an object that does not
    exist yet, under every fault schedule.  When it returns, the new vector
    holds the elements of [other] in a block of its own that did not exist
    before, and its capacity is the size of [other], not its capacity;
    [other] and everything else are unchanged.  When it throws (the
    allocation failed, or the copy of an element threw and the copies made
    so far were destroyed and the block released), heap and objects are what
    they were.  There is no undefined behaviour, and the constructor returns
    when no failure is scheduled. *)
Theorem Vector_copy_copies {T : Type} `{ET : Elem T}
    (w : World T) (this other : nat) (ys : list T) (cap : nat) (buf : option positive) :
  vec_rep w other ys cap buf →
  this ≠ other →
  vecs w !! this = None →
  match Vector_copy this other w with
  | Ok _ w' =>
      ∃ buf', vec_rep w' this ys (length ys) buf' ∧
              vec_rep w' other ys cap buf ∧
              (∀ l, buf' = Some l → heap w !! l = None) ∧
              untouched_outside w w' this None
  | Throw w' => heap w' = heap w ∧ vecs w' = vecs w
  | Undefined => False
  end ∧
  (clean w → ∃ w', Vector_copy this other w = Ok tt w').
Proof.
  intros Hrep Hne Hnew. pose proof Hrep as (Hv & Hb & Hle & Hcap). split.
  - pose proof (total_at w _ _ _ (total_Vector_copy _ _ this other _ _ _ Hrep Hne Hnew))
      as Hrun.
    destruct (Vector_copy this other w) as [[] w'|w'|]; [|done..].
    destruct Hrun as (_ & Hh & Hvs).
    destruct (fresh_vector_effect w w' this ys (length ys) Hh Hvs)
      as (Hrep' & Hout & _); [done|lia|].
    exists (new_buf (heap w) (length ys)). split; [done|]. split; [|split; [|done]].
    + eapply vec_rep_frame; [exact Hout|done| |done]. by intros l _.
    + destruct (new_buf_is_new (heap w) None (length ys)) as [Heq|Hfresh]; [|done].
      intros l Hl. by rewrite Heq in Hl.
  - intros Hclean.
    destruct (runs_returns _ _ _ _ _ (runs_Vector_copy _ _ this other _ _ _ Hrep Hne) Hclean)
      as (w' & HOk & _). eauto.
Qed.

Lemma Vector_copy_copies_witness :
  vec_rep w_1_42_2 0 [1%Z; 42%Z; 2%Z] 4 (Some 1%positive) ∧
  5 ≠ 0 ∧
  vecs w_1_42_2 !! 5 = None ∧
  ∃ w', Vector_copy 5 0 w_1_42_2 = Ok tt w' ∧
        contents w' 5 = Some [Live 1%Z; Live 42%Z; Live 2%Z] ∧
        Capacity 5 w' = Ok 3 w' ∧
        Capacity 0 w' = Ok 4 w'.
Proof.
  assert (Hrep : vec_rep w_1_42_2 0 [1%Z; 42%Z; 2%Z] 4 (Some 1%positive)) by concrete_rep.
  split; [exact Hrep|]. split; [lia|]. split; [reflexivity|].
  destruct (Vector_copy_copies w_1_42_2 5 0 [1%Z; 42%Z; 2%Z] 4 (Some 1%positive) Hrep)
    as [_ Hreturns]; [lia|reflexivity|].
  destruct Hreturns as (w' & HOk); [by split|].
  exists w'. split; [exact HOk|].
  vm_compute in HOk. injection HOk as <-.
  repeat split; vm_compute; reflexivity.
Defined.

(** X11. The destructor [~Vector()], followed by the destructor of the
    member [data_], under every fault schedule: it returns and never throws;
    afterwards the object does not exist and its block is released; every
    other object and every other block is as it was, and no scheduled fault
    is consumed. *)
Theorem Vector_dtor_releases {T : Type} `{ET : Elem T}
    (w : World T) (this : nat) (xs : list T) (cap : nat) (buf : option positive) :
  vec_rep w this xs cap buf →
  ∃ w', Vector_dtor this w = Ok tt w' ∧
        vecs w' !! this = None ∧
        (∀ l, buf = Some l → heap w' !! l = None) ∧
        (∀ o, o ≠ this → vecs w' !! o = vecs w !! o) ∧
        (∀ l, buf ≠ Some l → heap w' !! l = heap w !! l) ∧
        new_faults w' = new_faults w ∧ elem_faults w' = elem_faults w.
Proof.
  intros Hrep.
  destruct (Vector_dtor_effect w this xs cap buf Hrep) as (w' & HOk & Hh & Hvs & Hnf & Hef).
  exists w'. split; [done|]. rewrite Hh, Hvs.
  split; [apply lookup_delete_eq|]. split; [|split; [|split; [|done]]].
  - intros l ->. simpl. apply lookup_delete_eq.
  - intros o Ho. by apply lookup_delete_ne.
  - intros l Hl. destruct buf as [l0|]; simpl; [|done].
    apply lookup_delete_ne. congruence.
Qed.

Lemma Vector_dtor_releases_witness :
  vec_rep w_12_7 0 [1%Z; 2%Z] 2 (Some 1%positive) ∧
  ∃ w', Vector_dtor 0 w_12_7 = Ok tt w' ∧
        contents w' 0 = None ∧
        heap w' !! 1%positive = None ∧
        contents w' 1 = Some [Live 7%Z].
Proof.
  assert (Hrep : vec_rep w_12_7 0 [1%Z; 2%Z] 2 (Some 1%positive)) by concrete_rep.
  split; [exact Hrep|].
  destruct (Vector_dtor_releases w_12_7 0 [1%Z; 2%Z] 2 (Some 1%positive) Hrep)
    as (w' & HOk & _).
  exists w'. split; [exact HOk|].
  vm_compute in HOk. injection HOk as <-.
  repeat split; vm_compute; reflexivity.
Defined.

(** X12. Construction followed by destruction is a round trip.  For an
    object that does not exist yet: when [Vector(n)] or [Vector(other)]
    returns, the destructor of the new object returns as well and leaves the
    heap and the objects exactly as they were before the construction; no
    block is leaked and [other] is untouched. *)
Theorem construct_then_destroy_restores {T : Type} `{ET : Elem T}
    (w : World T) (this : nat) :
  vecs w !! this = None →
  (∀ n w1, Vector_sized this n w = Ok tt w1 →
     ∃ w2, Vector_dtor this w1 = Ok tt w2 ∧ heap w2 = heap w ∧ vecs w2 = vecs w) ∧
  (∀ other ys cap buf w1,
     vec_rep w other ys cap buf → this ≠ other →
     Vector_copy this other w = Ok tt w1 →
     ∃ w2, Vector_dtor this w1 = Ok tt w2 ∧ heap w2 = heap w ∧ vecs w2 = vecs w).
Proof.
  intros Hnew.
  assert (Hback : ∀ w1 ys n,
            heap w1 = upd (heap w) (new_buf (heap w) n) (map Live ys) →
            vecs w1 = <[this := mkVec (mkRaw (new_buf (heap w) n) n) n]> (vecs w) →
            n = length ys → (N.of_nat n ≤ max_alloc T)%N →
            ∃ w2, Vector_dtor this w1 = Ok tt w2 ∧ heap w2 = heap w ∧ vecs w2 = vecs w).
  { intros w1 ys n Hh Hvs Hn Hfit.
    destruct (fresh_vector_effect w w1 this ys n Hh Hvs Hn Hfit) as (Hrep1 & _ & _).
    destruct (Vector_dtor_effect w1 this ys n _ Hrep1) as (w2 & HOk & Hh2 & Hvs2 & _).
    exists w2. split; [done|]. rewrite Hh2, Hvs2, Hh, Hvs. split.
    - unfold new_buf. case_decide; simpl; [|done].
      rewrite delete_insert_eq. apply delete_id, fresh_unused.
    - rewrite delete_insert_eq. by apply delete_id. }
  split.
  - intros n w1 HOk.
    pose proof (total_at w _ _ _
                  (total_Vector_sized (heap w) (vecs w) this n Hnew
                     (Vector_sized_returns_fits w this n w1 HOk))) as Hrun.
    rewrite HOk in Hrun. destruct Hrun as (Hn & _ & Hh & Hvs).
    apply (Hback w1 (replicate n value_init) n); [done|done| |done].
    by rewrite length_replicate.
  - intros other ys cap buf w1 Hrep Hne HOk.
    pose proof Hrep as (_ & _ & Hle & Hcap).
    pose proof (total_at w _ _ _ (total_Vector_copy _ _ this other _ _ _ Hrep Hne Hnew))
      as Hrun.
    rewrite HOk in Hrun. destruct Hrun as (_ & Hh & Hvs).
    apply (Hback w1 ys (length ys)); [done|done|done|lia].
Qed.

Lemma construct_then_destroy_restores_witness :
  vecs w_1_42_2 !! 5 = None ∧
  ∃ w1 w2, Vector_copy 5 0 w_1_42_2 = Ok tt w1 ∧
           contents w1 5 = Some [Live 1%Z; Live 42%Z; Live 2%Z] ∧
           Vector_dtor 5 w1 = Ok tt w2 ∧
           heap w2 = heap w_1_42_2 ∧ vecs w2 = vecs w_1_42_2.
Proof.
  split; [reflexivity|].
  assert (Hrep : vec_rep w_1_42_2 0 [1%Z; 42%Z; 2%Z] 4 (Some 1%positive)) by concrete_rep.
  assert (HOk : Vector_copy 5 0 w_1_42_2 = Ok tt _) by (vm_compute; reflexivity).
  destruct (construct_then_destroy_restores w_1_42_2 5 eq_refl) as [_ Hcopy].
  destruct (Hcopy 0 _ _ _ _ Hrep ltac:(lia) HOk) as (w2 & Hd & Hh & Hvs).
  eexists _, w2. split; [exact HOk|]. split; [vm_compute; reflexivity|]. done.
Defined.

(** X13. [Swap], with [RawMemory::Swap], under every fault schedule: it
    returns and never throws; each vector then has the elements, the size,
    the capacity and the block the other one had; the heap and the trace are
    unchanged, so no element is constructed, assigned or destroyed and
    nothing is allocated or released; no other object changes.  Swapping a
    second time restores the state completely, and a vector may be swapped
    with itself. *)
Theorem Swap_exchanges {T : Type} `{ET : Elem T}
    (w : World T) (a b : nat) (xs ys : list T) (capa capb : nat)
    (bufa bufb : option positive) :
  vec_rep w a xs capa bufa →
  vec_rep w b ys capb bufb →
  ∃ w', Swap a b w = Ok tt w' ∧
        vec_rep w' a ys capb bufb ∧ vec_rep w' b xs capa bufa ∧
        heap w' = heap w ∧ trace w' = trace w ∧
        new_faults w' = new_faults w ∧ elem_faults w' = elem_faults w ∧
        (∀ o, o ≠ a → o ≠ b → vecs w' !! o = vecs w !! o) ∧
        Swap a b w' = Ok tt w.
Proof.
  intros Hrepa Hrepb.
  destruct (Swap_effect w a b xs ys capa capb bufa bufb Hrepa Hrepb)
    as (w' & HOk & Hrepa' & Hrepb' & Hh & Htr & Hnf & Hef & Hothers).
  exists w'. do 8 (split; [done|]).
  destruct (Swap_effect w' a b ys xs capb capa bufb bufa Hrepa' Hrepb')
    as (w'' & HOk' & Hrepa'' & Hrepb'' & Hh' & Htr' & Hnf' & Hef' & Hothers').
  rewrite HOk'. f_equal.
  assert (Hvs : vecs w'' = vecs w).
  { apply map_eq. intros o.
    destruct (decide (o = a)) as [->|Hoa].
    { destruct Hrepa'' as (-> & _). by destruct Hrepa as (-> & _). }
    destruct (decide (o = b)) as [->|Hob].
    { destruct Hrepb'' as (-> & _). by destruct Hrepb as (-> & _). }
    by rewrite Hothers', Hothers. }
  destruct w, w''. simpl in *. congruence.
Qed.

Lemma Swap_exchanges_witness :
  vec_rep w_12_7 0 [1%Z; 2%Z] 2 (Some 1%positive) ∧
  vec_rep w_12_7 1 [7%Z] 1 (Some 2%positive) ∧
  ∃ w', Swap 0 1 w_12_7 = Ok tt w' ∧
        contents w' 0 = Some [Live 7%Z] ∧
        contents w' 1 = Some [Live 1%Z; Live 2%Z] ∧
        Swap 0 1 w' = Ok tt w_12_7.
Proof.
  assert (Hrepa : vec_rep w_12_7 0 [1%Z; 2%Z] 2 (Some 1%positive)) by concrete_rep.
  assert (Hrepb : vec_rep w_12_7 1 [7%Z] 1 (Some 2%positive)) by concrete_rep.
  split; [exact Hrepa|]. split; [exact Hrepb|].
  destruct (Swap_exchanges w_12_7 0 1 _ _ _ _ _ _ Hrepa Hrepb)
    as (w' & HOk & _ & _ & _ & _ & _ & _ & _ & Hback).
  exists w'. split; [exact HOk|].
  vm_compute in HOk. injection HOk as <-.
  split; [vm_compute; reflexivity|]. split; [vm_compute; reflexivity|exact Hback].
Defined.

(** X14. Move assignment [operator=(Vector&&)] under every fault schedule:
    it returns and never throws; [*this] then has the elements, the capacity
    and the block of [rhs], and [rhs] has the former elements of [*this],
    which are not destroyed; the heap and the trace are unchanged, so no
    element is constructed, assigned or destroyed and nothing is allocated
    or released.  Assigning a vector to itself changes nothing. *)
Theorem Vector_move_assign_exchanges {T : Type} `{ET : Elem T}
    (w : World T) (this rhs : nat) (xs ys : list T) (capa capb : nat)
    (bufa bufb : option positive) :
  vec_rep w this xs capa bufa →
  vec_rep w rhs ys capb bufb →
  ∃ w', Vector_move_assign this rhs w = Ok tt w' ∧
        vec_rep w' this ys capb bufb ∧ vec_rep w' rhs xs capa bufa ∧
        heap w' = heap w ∧ trace w' = trace w ∧
        new_faults w' = new_faults w ∧ elem_faults w' = elem_faults w ∧
        (∀ o, o ≠ this → o ≠ rhs → vecs w' !! o = vecs w !! o) ∧
        (this = rhs → w' = w).
Proof.
  intros Hrepa Hrepb.
  assert (Hswap : Vector_move_assign this rhs w = Swap this rhs w).
  { unfold Vector_move_assign, Swap.
    destruct (decide (this = rhs)) as [->|Hne].
    - by rewrite decide_False by (intros Hne; by apply Hne).
    - by rewrite decide_True by done. }
  destruct (Swap_effect w this rhs xs ys capa capb bufa bufb Hrepa Hrepb)
    as (w' & HOk & Hrepa' & Hrepb' & Hh & Htr & Hnf & Hef & Hothers).
  exists w'. rewrite Hswap. do 8 (split; [done|]).
  intros ->. unfold Swap in HOk. rewrite decide_True in HOk by done.
  by injection HOk.
Qed.

Lemma Vector_move_assign_exchanges_witness :
  vec_rep w_12_7 0 [1%Z; 2%Z] 2 (Some 1%positive) ∧
  vec_rep w_12_7 1 [7%Z] 1 (Some 2%positive) ∧
  ∃ w', Vector_move_assign 0 1 w_12_7 = Ok tt w' ∧
        contents w' 0 = Some [Live 7%Z] ∧
        contents w' 1 = Some [Live 1%Z; Live 2%Z] ∧
        Capacity 0 w' = Ok 1 w'.
Proof.
  assert (Hrepa : vec_rep w_12_7 0 [1%Z; 2%Z] 2 (Some 1%positive)) by concrete_rep.
  assert (Hrepb : vec_rep w_12_7 1 [7%Z] 1 (Some 2%positive)) by concrete_rep.
  split; [exact Hrepa|]. split; [exact Hrepb|].
  destruct (Vector_move_assign_exchanges w_12_7 0 1 _ _ _ _ _ _ Hrepa Hrepb)
    as (w' & HOk & _).
  exists w'. split; [exact HOk|].
  vm_compute in HOk. injection HOk as <-.
  repeat split; vm_compute; reflexivity.
Defined.

(** X15. [operator[]], of [Vector] and of [RawMemory], under every fault
    schedule.  For an index below the size it returns a reference to the
    element at that index and changes nothing; the assertion of
    [RawMemory::operator[]] cannot fail then.  For any other index the
    assertion of [Vector::operator[]] fails.  It never throws. *)
Theorem Vector_at_checks_bounds {T : Type} `{ET : Elem T}
    (w : World T) (this : nat) (xs : list T) (cap : nat) (buf : option positive)
    (index : nat) :
  vec_rep w this xs cap buf →
  match Vector_at this index w with
  | Ok p w' => w' = w ∧ p = Ptr buf index ∧ ∃ x, xs !! index = Some x ∧ load p w = Ok x w
  | Throw _ => False
  | Undefined => length xs ≤ index
  end.
Proof.
  intros Hrep. pose proof Hrep as (Hv & Hb & Hle & Hcap).
  unfold Vector_at. rewrite (bind_Ok _ _ _ _ _ (get_vec_Ok _ _ _ Hv)). simpl.
  destruct (decide (index < length xs)) as [Hlt|Hge]; [|unfold undefined; lia].
  unfold RawMemory_at. simpl. rewrite decide_True by lia. unfold ret.
  split; [done|]. split; [done|].
  destruct (lookup_lt_is_Some_2 xs index Hlt) as [x Hx].
  exists x. split; [done|]. by eapply vec_rep_load.
Qed.

Lemma Vector_at_checks_bounds_witness :
  vec_rep w_1_42_2 0 [1%Z; 42%Z; 2%Z] 4 (Some 1%positive) ∧
  (∃ p, Vector_at 0 1 w_1_42_2 = Ok p w_1_42_2 ∧ load p w_1_42_2 = Ok 42%Z w_1_42_2) ∧
  Vector_at 0 3 w_1_42_2 = Undefined.
Proof.
  assert (Hrep : vec_rep w_1_42_2 0 [1%Z; 42%Z; 2%Z] 4 (Some 1%positive)) by concrete_rep.
  split; [exact Hrep|]. split; [|vm_compute; reflexivity].
  pose proof (Vector_at_checks_bounds w_1_42_2 0 _ _ _ 1 Hrep) as Hrun.
  assert (HOk : Vector_at 0 1 w_1_42_2 = Ok (Ptr (Some 1%positive) 1) w_1_42_2)
    by (vm_compute; reflexivity).
  rewrite HOk in Hrun. destruct Hrun as (_ & _ & x & Hx & Hload).
  injection Hx as <-. eexists. split; [exact HOk|exact Hload].
Defined.

(** X16. The iterators and the observers.  [begin()] and [end()], and
    [cbegin()] and [cend()] with them, delimit exactly the elements:
    [end() - begin()] is [Size()], the element at index [i] is the object at
    [begin() + i], and no object lives at [end()] or beyond, so that
    dereferencing there is undefined; an empty vector has
    [begin() == end()].  [Capacity()] is the capacity of the block.  None of
    them changes the state. *)
Theorem iterators_delimit_elements {T : Type} `{ET : Elem T}
    (w : World T) (this : nat) (xs : list T) (cap : nat) (buf : option positive) :
  vec_rep w this xs cap buf →
  ∃ b e, begin_ this w = Ok b w ∧ end_ this w = Ok e w ∧
         cbegin this w = Ok b w ∧ cend this w = Ok e w ∧
         Size this w = Ok (length xs) w ∧ Capacity this w = Ok cap w ∧
         ptr_diff e b w = Ok (Z.of_nat (length xs)) w ∧
         e = b +ₚ length xs ∧
         (∀ i x, xs !! i = Some x → load (b +ₚ i) w = Ok x w) ∧
         (∀ i, length xs ≤ i → load (b +ₚ i) w = Undefined) ∧
         (xs = [] → b = e).
Proof.
  intros Hrep. pose proof Hrep as (Hv & Hb & Hle & Hcap).
  pose proof (get_vec_Ok _ _ _ Hv) as Hget.
  exists (Ptr buf 0), (Ptr buf (length xs)).
  unfold cbegin, cend, begin_, end_, Size, Capacity.
  rewrite !(bind_Ok _ _ _ _ _ Hget). simpl.
  unfold ret, GetAddress, RawMemory_Capacity, ptr_add, ptr_diff. simpl.
  rewrite decide_True by done. unfold ret.
  do 6 (split; [done|]).
  split; [do 2 f_equal; lia|]. split; [done|]. split; [|split].
  - intros i x Hx. by eapply vec_rep_load.
  - intros i Hi. by eapply vec_rep_load_beyond.
  - by intros ->.
Qed.

Lemma iterators_delimit_elements_witness :
  vec_rep w_1_42_2 0 [1%Z; 42%Z; 2%Z] 4 (Some 1%positive) ∧
  ∃ b e, begin_ 0 w_1_42_2 = Ok b w_1_42_2 ∧ end_ 0 w_1_42_2 = Ok e w_1_42_2 ∧
         ptr_diff e b w_1_42_2 = Ok 3%Z w_1_42_2 ∧
         load (b +ₚ 2) w_1_42_2 = Ok 2%Z w_1_42_2 ∧
         load e w_1_42_2 = Undefined.
Proof.
  assert (Hrep : vec_rep w_1_42_2 0 [1%Z; 42%Z; 2%Z] 4 (Some 1%positive)) by concrete_rep.
  split; [exact Hrep|].
  destruct (iterators_delimit_elements w_1_42_2 0 _ _ _ Hrep)
    as (b & e & Hb & He & _ & _ & _ & _ & Hd & Hbe & Hin & Hout & _).
  exists b, e. split; [exact Hb|]. split; [exact He|]. split; [exact Hd|].
  split; [by apply Hin|]. rewrite Hbe. by apply Hout.
Defined.









(** X21. [Erase] at a valid position, under every fault schedule.  There
    is no undefined behaviour.  When it returns, it returns its argument and
    the element at that position is gone.  It throws only if the move
    assignment of the element type can throw, which is what its conditional
    [noexcept] says; and when it throws, the vector has the size, the
    capacity and the block it had, each of its elements is alive, and the
    elements before the position are the ones it had (the basic guarantee:
    the elements from the position on may have been shifted or left in
    their moved-from state).  Nothing outside the vector changes. *)
Theorem Erase_basic_guarantee {T : Type} `{ET : Elem T}
    (w : World T) (this : nat) (xs : list T) (cap : nat) (buf : option positive)
    (i : nat) :
  vec_rep w this xs cap buf →
  i < length xs →
  match Erase this (Ptr buf i) w with
  | Ok r w' =>
      r = Ptr buf i ∧
      vec_rep w' this (take i xs ++ drop (S i) xs) cap buf ∧
      untouched_outside w w' this buf
  | Throw w' =>
      may_throw MoveAssign = true ∧
      ∃ ys, vec_rep w' this ys cap buf ∧
            length ys = length xs ∧ take i ys = take i xs ∧
            untouched_outside w w' this buf
  | Undefined => False
  end.
Proof.
  intros Hrep Hi.
  destruct (lookup_lt_is_Some_2 xs i Hi) as [x Hx].
  assert (Hlen : length (take i xs) = i) by (rewrite length_take; lia).
  pose proof (take_drop_middle xs i x Hx) as Hxs.
  assert (Hrep0 := Hrep). rewrite <- Hxs in Hrep0.
  pose proof (total_at w _ _ _ (total_Erase _ _ this _ x _ cap buf Hrep0)) as Hrun.
  rewrite Hlen, Hxs in Hrun.
  destruct (Erase this (Ptr buf i) w) as [r w'|w'|] eqn:HOk; [| |done].
  - destruct (Erase_effect w this xs cap buf i r w' Hrep Hi HOk) as (? & ? & ?). done.
  - destruct Hrun as (Hvs & Hma & zs & Hzs & Hh). split; [done|].
    exists (take i xs ++ zs).
    assert (Hl : length (take i xs ++ zs) = length xs).
    { rewrite length_app, Hlen, Hzs, length_drop. lia. }
    pose proof Hrep as (Hv & _ & Hle & _).
    assert (Hvs' : vecs w' = <[this := mkVec (mkRaw buf cap) (length (take i xs ++ zs))]>
                               (vecs w)).
    { rewrite Hvs, Hl. symmetry. by apply insert_id. }
    destruct (in_place_effect w w' this xs cap buf (take i xs ++ zs) _ _ Hrep Hh Hvs')
      as [Hrep' Hout]; [done|by rewrite Hl|lia|].
    split; [done|]. split; [done|]. split; [|done].
    by rewrite take_app_length' by done.
Qed.

(** The vector {1, 2, 3} of elements whose move assignment can throw;
    [Erase] of the first element throws in the first move assignment. *)
Lemma Erase_basic_guarantee_witness :
  vec_rep (ET := MoveAssignThrows) w_123_faulty 0 [1; 2; 3] 4 (Some 1%positive) ∧
  0 < 3 ∧
  ∃ w', Erase (ET := MoveAssignThrows) 0 (Ptr (Some 1%positive) 0) w_123_faulty = Throw w' ∧
        Size 0 w' = Ok 3 w' ∧
        ∃ ys, vec_rep (ET := MoveAssignThrows) w' 0 ys 4 (Some 1%positive) ∧ length ys = 3.
Proof.
  assert (Hrep : vec_rep (ET := MoveAssignThrows) w_123_faulty 0 [1; 2; 3] 4 (Some 1%positive)) by concrete_rep.
  split; [exact Hrep|]. split; [lia|].
  pose proof (Erase_basic_guarantee (ET := MoveAssignThrows) w_123_faulty 0 [1; 2; 3] 4
                (Some 1%positive) 0 Hrep ltac:(simpl; lia)) as Hrun.
  assert (HT : Erase (ET := MoveAssignThrows) 0 (Ptr (Some 1%positive) 0) w_123_faulty
               = Throw _) by (vm_compute; reflexivity).
  rewrite HT in Hrun. destruct Hrun as (_ & ys & Hrep' & Hl & _).
  eexists. split; [exact HT|]. split; [vm_compute; reflexivity|].
  exists ys. split; [exact Hrep'|exact Hl].
Defined.



(** X23. Copy assignment from a vector with more elements than [*this] has
    capacity: the copy-and-swap path.  Under every fault schedule there is
    no undefined behaviour.  When the call returns, [*this] holds the
    elements of [rhs] in a block that did not exist before, its capacity is
    the size of [rhs], the block it had is released, and [rhs], which has a
    block of its own, is unchanged.
    When it throws, the blocks of the heap and the vector objects are what
    they were before the call. *)
Theorem Vector_assign_larger_copies_and_swaps {T : Type} `{ET : Elem T}
    (w : World T) (this rhs : nat) (xs ys : list T) (capa capb : nat)
    (bufa bufb : option positive) :
  this ≠ rhs →
  vec_rep w this xs capa bufa →
  vec_rep w rhs ys capb bufb →
  capa < length ys →
  match Vector_assign this rhs w with
  | Ok _ w' =>
      ∃ buf', vec_rep w' this ys (length ys) buf' ∧
              (∀ l, buf' = Some l → heap w !! l = None) ∧
              (∀ l, bufa = Some l → heap w' !! l = None) ∧
              (apart bufb bufa → vec_rep w' rhs ys capb bufb) ∧
              untouched_outside w w' this bufa
  | Throw w' => heap w' = heap w ∧ vecs w' = vecs w
  | Undefined => False
  end.
Proof.
  intros Hne Hrepa Hrepb Hlt.
  pose proof Hrepa as (_ & Hba & _). pose proof Hrepb as (_ & _ & Hleb & Hcapb).
  pose proof (total_at w _ _ _
                (total_Vector_assign_realloc _ _ this rhs _ _ _ _ _ _ Hne Hrepa Hrepb Hlt))
    as Hrun.
  destruct (Vector_assign this rhs w) as [[] w'|w'|]; [|done..].
  destruct Hrun as (_ & Hh & Hvs).
  destruct (realloc_effect w w' this xs capa bufa ys (map Live ys) (length ys) (length ys)
              Hrepa Hh Hvs) as [Hrep' Hout].
  { done. } { by rewrite Nat.sub_diag, app_nil_r. } { done. } { lia. }
  exists (new_buf (heap w) (length ys)). split; [done|].
  split; [|split; [|split; [|done]]].
  - destruct (new_buf_is_new (heap w) bufa (length ys)) as [Heq|Hnew]; [|done].
    intros l Hl. rewrite Heq in Hl.
    pose proof (new_buf_apart (heap w) (length ys) bufa _ Hba l Hl) as Hnl.
    by rewrite Heq, Hl in Hnl.
  - intros l ->. rewrite Hh. simpl. apply lookup_delete_eq.
  - intros Ha. eapply vec_rep_frame; [exact Hout|done|done|done].
Qed.

Lemma Vector_assign_larger_copies_and_swaps_witness :
  1 ≠ 0 ∧
  vec_rep w_12_7 1 [7%Z] 1 (Some 2%positive) ∧
  vec_rep w_12_7 0 [1%Z; 2%Z] 2 (Some 1%positive) ∧
  1 < 2 ∧
  ∃ w', Vector_assign 1 0 w_12_7 = Ok tt w' ∧
        contents w' 1 = Some [Live 1%Z; Live 2%Z] ∧
        Capacity 1 w' = Ok 2 w' ∧
        heap w' !! 2%positive = None ∧
        contents w' 0 = Some [Live 1%Z; Live 2%Z].
Proof.
  assert (Hrepa : vec_rep w_12_7 1 [7%Z] 1 (Some 2%positive)) by concrete_rep.
  assert (Hrepb : vec_rep w_12_7 0 [1%Z; 2%Z] 2 (Some 1%positive)) by concrete_rep.
  split; [lia|]. split; [exact Hrepa|]. split; [exact Hrepb|]. split; [lia|].
  pose proof (Vector_assign_larger_copies_and_swaps w_12_7 1 0 _ _ _ _ _ _
                ltac:(lia) Hrepa Hrepb ltac:(simpl; lia)) as Hrun.
  assert (HOk : Vector_assign 1 0 w_12_7 = Ok tt _) by (vm_compute; reflexivity).
  rewrite HOk in Hrun. destruct Hrun as (buf' & _ & _ & Hgone & _).
  eexists. split; [exact HOk|]. split; [vm_compute; reflexivity|].
  split; [vm_compute; reflexivity|]. split; [by apply Hgone|vm_compute; reflexivity].
Defined.

(** X24. Growth is geometric.  A vector that is default-constructed and then
    only appended to, by [PushBack] of either overload or by [EmplaceBack],
    has, when the calls have returned, as many elements as there were calls
    and a capacity that is a power of two, at least the size and less than
    twice the size: capacities 1, 2, 4, 8, ... and never more than half of
    the block unused.  A default-constructed vector has no block, size 0 and
    capacity 0. *)
Theorem appends_grow_geometrically {T : Type} `{ET : Elem T}
    (w : World T) (this : nat) (ops : list operation) (w' : World T) :
  Forall (λ op, ∃ ins, op = DoInsert ins ∧ insertion_offset ins = None) ops →
  (Vector_default this;; run_operations this ops) w = Ok tt w' →
  ∃ cap, Size this w' = Ok (length ops) w' ∧
         Capacity this w' = Ok cap w' ∧
         (ops = [] → cap = 0 ∧ begin_ this w' = Ok (Ptr None 0) w') ∧
         (ops ≠ [] → ∃ k, cap = 2 ^ k ∧ length ops ≤ cap ∧ cap < 2 * length ops).
Proof.
  intros Hops HOk. unfold bind, Vector_default, put_vec in HOk.
  set (w0 := set_vecs (<[this := mkVec RawMemory_default 0]> (vecs w)) w) in HOk.
  assert (Hrep : vec_rep w0 this [] 0 None).
  { split; [apply lookup_insert_eq|]. split; [done|]. split; [done|]. apply N.le_0_l. }
  destruct (appends_keep_size_within_capacity ops [] 0 Hops) as (Hvalid & Hsize & Hcap);
    [by left|].
  assert (Hfits : Forall request_fits ops).
  { eapply Forall_impl; [exact Hops|]. by intros op (ins & -> & _). }
  destruct (operations_effect ops w0 this [] 0 None w' Hrep Hvalid Hfits HOk)
    as (buf' & Hrep' & _).
  pose proof (get_vec_rep _ _ _ _ _ Hrep') as Hget. simpl in Hsize, Hcap.
  exists (model_capacities ops [] 0).
  unfold Size, Capacity, begin_. rewrite !(bind_Ok _ _ _ _ _ Hget). simpl.
  rewrite Hsize. split; [done|]. split; [done|]. split.
  - intros ->. simpl in *. injection HOk as <-. split; [done|].
    by destruct (vec_rep_inj _ _ _ _ _ _ _ _ Hrep Hrep') as (_ & _ & <-).
  - intros Hne. destruct Hcap as [[Hz _]|Hpow]; [|done].
    destruct ops; [done|simpl in Hz; lia].
Qed.

Lemma appends_grow_geometrically_witness :
  let ops := [DoInsert (ByPushBackCopy 1%Z); DoInsert (ByPushBackMove 2%Z);
              DoInsert (ByEmplaceBack ArgsCtor 3%Z); DoInsert (ByPushBackCopy 4%Z);
              DoInsert (ByPushBackCopy 5%Z)] in
  ∃ w', (Vector_default 3;; run_operations 3 ops) w_12 = Ok tt w' ∧
        contents w' 3 = Some [Live 1%Z; Live 2%Z; Live 3%Z; Live 4%Z; Live 5%Z] ∧
        Size 3 w' = Ok 5 w' ∧
        ∃ cap, Capacity 3 w' = Ok cap w' ∧ ∃ k, cap = 2 ^ k ∧ 5 ≤ cap ∧ cap < 10.
Proof.
  intros ops.
  assert (HOk : (Vector_default 3;; run_operations 3 ops) w_12 = Ok tt _)
    by (vm_compute; reflexivity).
  assert (Hops : Forall (λ op, ∃ ins, op = DoInsert ins ∧ insertion_offset ins = None) ops).
  { repeat first [apply List.Forall_nil
                 |apply List.Forall_cons; [eexists; split; reflexivity|]]. }
  destruct (appends_grow_geometrically w_12 3 ops _ Hops HOk)
    as (cap & Hsize & Hcapacity & _ & Hpow).
  destruct (Hpow ltac:(discriminate)) as (k & Hk).
  eexists. split; [exact HOk|]. split; [vm_compute; reflexivity|].
  split; [exact Hsize|]. exists cap. split; [exact Hcapacity|]. exists k. exact Hk.
Defined.

(** X25. [Allocate] and [Deallocate], of [RawMemory] and the private copies
    in [Vector].  [Allocate(0)] returns the null pointer and does nothing,
    so it cannot fail.  For any other count [n] it asks [operator new] for
    [n * sizeof(T)] bytes, the product taken in [size_t].  It either returns
    a block that did not exist before, all raw, with room for as many
    elements as those bytes hold, or throws because [operator new] failed,
    and then the heap is unchanged.  When the product does not wrap, the
    block has room for exactly [n] elements, [n] is at most
    [PTRDIFF_MAX / sizeof(T)], and a failure means that [n] is larger than
    that or that no memory was left.  When the product wraps, the block has
    room for fewer than [n] elements.  [Deallocate] of what [Allocate]
    returned, the null pointer included, gives the heap back as it was.  The
    helpers of [Vector] behave as those of [RawMemory]. *)
Theorem Allocate_then_Deallocate {T : Type} `{ET : Elem T} (w : World T) (n : nat) :
  match Allocate n w with
  | Ok b w1 =>
      (n = 0 → b = None ∧ w1 = w) ∧
      (n ≠ 0 →
       (N.of_nat (size_mul n (Pos.to_nat sizeof)) ≤ max_bytes)%N ∧
       ∃ l, b = Some l ∧ heap w !! l = None ∧
            heap w1 = <[l := replicate (size_mul n (Pos.to_nat sizeof) / Pos.to_nat sizeof)
                                       Raw]> (heap w)) ∧
      (fits_size_t T n →
       size_mul n (Pos.to_nat sizeof) / Pos.to_nat sizeof = n ∧
       (N.of_nat n ≤ max_alloc T)%N) ∧
      (¬ fits_size_t T n → size_mul n (Pos.to_nat sizeof) / Pos.to_nat sizeof < n) ∧
      vecs w1 = vecs w ∧
      ∃ w2, Deallocate b w1 = Ok tt w2 ∧ heap w2 = heap w ∧ vecs w2 = vecs w
  | Throw w1 =>
      n ≠ 0 ∧
      (¬ (N.of_nat (size_mul n (Pos.to_nat sizeof)) ≤ max_bytes)%N ∨
       head (new_faults w) = Some true) ∧
      (fits_size_t T n → alloc_fails w n) ∧
      heap w1 = heap w ∧ vecs w1 = vecs w ∧ trace w1 = trace w
  | Undefined => False
  end ∧
  Vector_Allocate n w = Allocate n w ∧
  (∀ b, Vector_Deallocate b w = Deallocate b w).
Proof.
  split; [|done].
  assert (Hback : ∀ w1 l m, heap w !! l = None →
            heap w1 = <[l := replicate m Raw]> (heap w) → vecs w1 = vecs w →
            ∃ w2, Deallocate (Some l) w1 = Ok tt w2 ∧ heap w2 = heap w ∧ vecs w2 = vecs w).
  { intros w1 l m Hl Hh Hvs. unfold Deallocate, operator_delete.
    rewrite Hh, lookup_insert_eq. eexists. split; [reflexivity|]. simpl.
    split; [|done]. rewrite delete_insert_eq. by apply delete_id. }
  unfold Allocate. destruct (decide (n ≠ 0)) as [Hn|Hn].
  - unfold bind, operator_new, ret, alloc_fails.
    destruct (decide (N.of_nat (size_mul n (Pos.to_nat sizeof)) ≤ max_bytes)%N)
      as [Hfit|Hbig].
    + pose proof (fresh_unused (heap w)) as Hfresh.
      assert (Hsize : fits_size_t T n →
                size_mul n (Pos.to_nat sizeof) / Pos.to_nat sizeof = n ∧
                (N.of_nat n ≤ max_alloc T)%N).
      { intros Hfits. split; [by apply block_slots|by apply block_bytes]. }
      destruct (new_faults w) as [|[] fs] eqn:Hnf; cbv beta iota zeta.
      * split; [done|]. split; [by eauto|]. split; [done|].
        split; [apply block_slots_wrapped|]. split; [done|]. by eapply Hback.
      * split; [done|]. split; [by right|]. split; [by right|done].
      * split; [done|]. split; [by eauto|]. split; [done|].
        split; [apply block_slots_wrapped|]. split; [done|]. by eapply Hback.
    + split; [done|]. split; [by left|]. split; [|done].
      intros Hfits. left. by rewrite <- block_bytes.
  - unfold ret. assert (n = 0) as -> by lia.
    split; [done|]. split; [done|]. split.
    { intros _. split; [|apply N.le_0_l]. unfold size_mul, to_size_t. simpl.
      rewrite Z.mod_0_l by done. apply Nat.Div0.div_0_l. }
    split; [|split; [done|by exists w]].
    intros Hwrap. destruct Hwrap. unfold fits_size_t, size_t_bits. lia.
Qed.

(** X26. The private helpers [DestroyN], [Destroy] and [CopyConstruct].
    For a count that a [size_t] can hold, the loop of [DestroyN] does what
    [std::destroy_n] does, in every state; applied to the elements of a
    vector it returns under every fault schedule and leaves every slot of
    the block raw.  [CopyConstruct] at the first unused slot of a vector
    that is not full either constructs the copy there or throws, if the copy
    constructor can throw, and then changes nothing; it has no undefined
    behaviour. *)
Theorem DestroyN_and_CopyConstruct_act_on_slots {T : Type} `{ET : Elem T}
    (w : World T) (this : nat) (xs : list T) (cap : nat) (buf : option positive) :
  vec_rep w this xs cap buf →
  (∀ p n (w0 : World T),
     (Z.of_nat n < 2 ^ 64)%Z → DestroyN p n w0 = destroy_n p n w0) ∧
  (∃ w', DestroyN (Ptr buf 0) (length xs) w = Ok tt w' ∧
         heap w' = upd (heap w) buf (replicate cap Raw) ∧
         vecs w' = vecs w ∧
         new_faults w' = new_faults w ∧ elem_faults w' = elem_faults w) ∧
  (length xs < cap → ∀ elem,
     match CopyConstruct (Ptr buf (length xs)) elem w with
     | Ok _ w' =>
         heap w' = upd (heap w) buf (map Live (xs ++ [elem]) ++
                                     replicate (cap - S (length xs)) Raw) ∧
         vecs w' = vecs w
     | Throw w' => may_throw CopyCtor = true ∧ heap w' = heap w ∧ vecs w' = vecs w
     | Undefined => False
     end).
Proof.
  intros Hrep. pose proof Hrep as (Hv & Hb & Hle & Hcap).
  assert (Hsame : ∀ p n (w0 : World T), (Z.of_nat n < 2 ^ 64)%Z →
            DestroyN p n w0 = destroy_n p n w0).
  { intros p n w0 Hn. unfold DestroyN.
    assert (Hloop : ∀ todo i (w1 : World T), (Z.of_nat (i + todo) < 2 ^ 64)%Z →
              DestroyN_loop p i todo w1 = destroy_n (p +ₚ i) todo w1).
    { induction todo as [|todo IH]; intros i w1 Hi; simpl; [done|].
      unfold bind, Destroy.
      destruct (destroy_at (p +ₚ i) w1) as [[] w2|w2|]; [|done..].
      rewrite size_add_small by lia. rewrite IH by lia.
      by replace (p +ₚ i +ₚ 1) with (p +ₚ (i + 1))
        by (unfold ptr_add; simpl; f_equal; lia). }
    rewrite Hloop by (simpl; lia).
    by replace (p +ₚ 0) with p by (destruct p; unfold ptr_add; simpl; f_equal; lia). }
  split; [exact Hsame|]. split.
  - pose proof (max_alloc_bound _ Hcap) as Hlt.
    rewrite Hsame by lia.
    destruct (oblivious_runs _ w tt _ _ (oblivious_destroy_n (Ptr buf 0) (length xs))
                (runs_destroy_n (heap w) (vecs w) buf [] xs _ 0 (length xs) Hb eq_refl eq_refl))
      as (w' & HOk & Hh & Hvs & Hnf & Hef).
    exists w'. split; [done|]. split; [|done].
    rewrite Hh. simpl. rewrite <- replicate_add. do 2 f_equal. lia.
  - intros Hroom elem.
    replace (cap - length xs) with (S (cap - S (length xs))) in Hb by lia.
    simpl in Hb.
    pose proof (total_at w _ _ _
                  (total_construct_at (heap w) (vecs w) buf (map Live xs) _ Raw
                     (length xs) CopyCtor elem Hb ltac:(by rewrite length_map))) as Hrun.
    unfold CopyConstruct.
    destruct (construct_at (Ptr buf (length xs)) CopyCtor elem w) as [[] w'|w'|]; [| |done].
    + destruct Hrun as (_ & -> & ->). split; [|done].
      by rewrite map_app, <- app_assoc.
    + by destruct Hrun as ([-> ->] & ->).
Qed.

Lemma DestroyN_and_CopyConstruct_act_on_slots_witness :
  vec_rep w_1_42_2 0 [1%Z; 42%Z; 2%Z] 4 (Some 1%positive) ∧
  (∃ w', DestroyN (Ptr (Some 1%positive) 0) 3 w_1_42_2 = Ok tt w' ∧
         heap w' !! 1%positive = Some [Raw; Raw; Raw; Raw] ∧
         destroy_n (Ptr (Some 1%positive) 0) 3 w_1_42_2 = Ok tt w') ∧
  (∃ w', CopyConstruct (Ptr (Some 1%positive) 3) 9%Z w_1_42_2 = Ok tt w' ∧
         heap w' !! 1%positive = Some [Live 1%Z; Live 42%Z; Live 2%Z; Live 9%Z]).
Proof.
  assert (Hrep : vec_rep w_1_42_2 0 [1%Z; 42%Z; 2%Z] 4 (Some 1%positive)) by concrete_rep.
  split; [exact Hrep|].
  destruct (DestroyN_and_CopyConstruct_act_on_slots w_1_42_2 0 _ _ _ Hrep)
    as (Hsame & (w' & HOk & Hh & _) & Hcopy).
  split.
  - exists w'. split; [exact HOk|]. split.
    + rewrite Hh. simpl. apply lookup_insert_eq.
    + rewrite <- Hsame by (simpl; lia). exact HOk.
  - specialize (Hcopy ltac:(simpl; lia) 9%Z).
    assert (HOk' : CopyConstruct (Ptr (Some 1%positive) 3) 9%Z w_1_42_2 = Ok tt _)
      by (vm_compute; reflexivity).
    simpl in Hcopy. rewrite HOk' in Hcopy. destruct Hcopy as [Hh' _].
    eexists. split; [exact HOk'|]. rewrite Hh'. simpl. apply lookup_insert_eq.
Defined.



(** X28. Reallocation copies when moving could fail.  For an element type
    that can be copied and whose move constructor can throw, [Reserve],
    [Resize] and [PushBack(const T&)], whatever its argument refers to,
    never call the move constructor: the elements are copied into the new
    block, so that the old block is intact if a copy throws.  (For any other element type the elements are moved:
    the constructor used for the transfer is [transfer_ctor].) *)
Theorem reallocation_copies_if_move_can_throw {T : Type} `{ET : Elem T}
    (this : nat) (n : nat) (value : operand T) :
  is_nothrow_move_constructible T = false →
  is_copy_constructible = true →
  transfer_ctor = CopyCtor ∧
  emits (λ e, ¬ is_move_construction e) (Reserve this n) ∧
  emits (λ e, ¬ is_move_construction e) (Resize this n) ∧
  emits (λ e, ¬ is_move_construction e) (PushBack_copy this value).
Proof.
  intros Hmove Hcopy.
  assert (Hmode : transfer_ctor = CopyCtor).
  { unfold transfer_ctor. by rewrite Hmove, Hcopy. }
  assert (Hnew : ∀ l m, ¬ is_move_construction (EvNew l m)) by (by intros l m []).
  assert (Hdelete : ∀ l, ¬ is_move_construction (EvDelete l)) by (by intros l []).
  assert (Hdtor : ∀ p, ¬ is_move_construction (EvDtor p)) by (by intros p []).
  assert (Hctor : ∀ k q, k ≠ MoveCtor → ¬ is_move_construction (EvCtor k q)).
  { intros k q Hk. destruct k; simpl; first [tauto|congruence]. }
  assert (Ht : ∀ q, ¬ is_move_construction (EvCtor transfer_ctor q)).
  { intros q. rewrite Hmode. by apply Hctor. }
  split; [done|]. split; [|split].
  - by apply emits_Reserve.
  - by apply emits_Resize.
  - by apply emits_PushBack_with.
Qed.

(** The vector {1, 2, 3} of elements whose move constructor can throw is
    reserved a larger block: three copy constructions, no move. *)
Lemma reallocation_copies_if_move_can_throw_witness :
  @is_nothrow_move_constructible T3 CopyOnly = false ∧
  @is_copy_constructible T3 CopyOnly = true ∧
  ∃ w', Reserve (ET := CopyOnly) 0 8 w_copy_resize = Ok tt w' ∧
        contents w' 0 = Some [Live 1; Live 2; Live 3] ∧
        Forall (λ e, ¬ is_move_construction e) (trace w') ∧
        trace w' = [EvNew 2 8;
                    EvCtor CopyCtor (Ptr (Some 2%positive) 0);
                    EvCtor CopyCtor (Ptr (Some 2%positive) 1);
                    EvCtor CopyCtor (Ptr (Some 2%positive) 2);
                    EvDtor (Ptr (Some 1%positive) 0);
                    EvDtor (Ptr (Some 1%positive) 1);
                    EvDtor (Ptr (Some 1%positive) 2);
                    EvDelete 1].
Proof.
  split; [reflexivity|]. split; [reflexivity|].
  assert (HOk : Reserve (ET := CopyOnly) 0 8 w_copy_resize = Ok tt _)
    by (vm_compute; reflexivity).
  destruct (reallocation_copies_if_move_can_throw (ET := CopyOnly) 0 8 (Outside 0)
              eq_refl eq_refl)
    as (_ & Hemits & _).
  destruct (Hemits w_copy_resize _ ltac:(rewrite HOk; reflexivity)) as (evs & Htrace & Hevs).
  eexists. split; [exact HOk|]. split; [vm_compute; reflexivity|].
  split; [rewrite Htrace; exact Hevs|].
  vm_compute. reflexivity.
Defined.

(** X29. What a failing [PushBack] does to the elements it has already
    transferred.  On a full vector, when the allocation of the new block
    and the transfer of every element succeed and the constructor of the
    new element then throws, the call ends in that exception after exactly
    these steps: the new block is allocated, one object per element is
    constructed in it by the transfer constructor (move, or copy if the move
    constructor can throw and the type is copyable), and the block is
    released.  No destructor is called: the objects in the new block are
    abandoned with it.  The vector keeps its block, size and capacity, with
    its elements as the transfer left them.  The argument of [PushBack] may
    be an object outside the heap or any live element, one of the vector
    itself included. *)
Theorem PushBack_failure_abandons_transferred_elements {T : Type} `{ET : Elem T}
    (w : World T) (this : nat) (xs : list T) (cap : nat) (buf : option positive)
    (k : elem_op) (value : operand T) (rest : list bool) :
  vec_rep w this xs cap buf →
  length xs = cap →
  (N.of_nat (grown cap) ≤ max_alloc T)%N →
  head (new_faults w) ≠ Some true →
  may_throw k = true →
  operand_alive (heap w) value →
  elem_faults w
    = (if may_throw transfer_ctor then replicate cap false else []) ++ true :: rest →
  ∃ w' l,
    PushBack_with k this value w = Throw w' ∧
    heap w !! l = None ∧
    trace w' = trace w ++ EvNew l (grown cap) ::
                 map (λ i, EvCtor transfer_ctor (Ptr (Some l) i)) (seq 0 cap) ++
                 [EvDelete l] ∧
    heap w' !! l = None ∧
    vec_rep w' this (map transferred xs) cap buf ∧
    elem_faults w' = rest.
Proof.
  intros Hrep Hfull Hfit Hnf Hk Hval Hef.
  destruct w as [h vs nf ef tr]. simpl in Hnf, Hval, Hef. subst ef.
  pose proof (PushBack_full_throws_after_transfer h vs nf rest tr this xs cap buf k value
                Hrep Hfull Hfit Hnf Hk Hval) as Hrun.
  simpl in Hrun. rewrite Hrun.
  pose proof (fresh_unused h) as Hl.
  eexists _, (fresh (dom h)). split; [reflexivity|]. simpl.
  split; [done|]. split; [done|].
  pose proof Hrep as (Hv & Hb & Hle & Hcap). simpl in Hv, Hb.
  split; [|split; [|done]].
  - destruct buf as [l0|]; simpl; [|done].
    rewrite lookup_insert_ne; [done|]. intros ->. simpl in Hb. by rewrite Hl in Hb.
  - split; [|split; [|split; [|done]]]; simpl.
    + by rewrite !length_map.
    + rewrite !length_map, Hfull, Nat.sub_diag. simpl. rewrite app_nil_r.
      eapply block_rep_upd; [exact Hb|].
      rewrite Hfull, Nat.sub_diag. simpl. rewrite app_nil_r. by rewrite !length_map.
    + by rewrite !length_map.
Qed.

(** The vector {1, 2, 3} at full capacity, of elements that are copied into
    the new block, is pushed its own first element: the three copies
    succeed, the copy of the new element throws. *)
Lemma PushBack_failure_abandons_transferred_elements_witness :
  vec_rep (ET := CopyOnly) w_copy_resize 0 [1; 2; 3] 3 (Some 1%positive) ∧
  @may_throw T3 CopyOnly CopyCtor = true ∧
  ∃ w', PushBack_copy (ET := CopyOnly) 0 (Element (Ptr (Some 1%positive) 0)) w_copy_resize
          = Throw w' ∧
        trace w' = [EvNew 2 6;
                    EvCtor CopyCtor (Ptr (Some 2%positive) 0);
                    EvCtor CopyCtor (Ptr (Some 2%positive) 1);
                    EvCtor CopyCtor (Ptr (Some 2%positive) 2);
                    EvDelete 2] ∧
        contents w' 0 = Some [Live 1; Live 2; Live 3].
Proof.
  assert (Hrep : vec_rep (ET := CopyOnly) w_copy_resize 0 [1; 2; 3] 3 (Some 1%positive))
    by concrete_rep.
  split; [exact Hrep|]. split; [reflexivity|].
  destruct (PushBack_failure_abandons_transferred_elements (ET := CopyOnly)
              w_copy_resize 0 [1; 2; 3] 3 (Some 1%positive) CopyCtor
              (Element (Ptr (Some 1%positive) 0)) [] Hrep eq_refl)
    as (w' & l & HT & _ & Htrace & _).
  - vm_compute. discriminate.
  - simpl. discriminate.
  - reflexivity.
  - by exists 1%positive, [Live 1; Live 2; Live 3], 1.
  - reflexivity.
  - exists w'. split; [exact HT|].
    vm_compute in HT. injection HT as <-.
    split; vm_compute; reflexivity.
Defined.

(** X30. A copy is independent of its source.  After [Vector(other)] has
    returned, the new vector holds the elements of [other] in a block of its
    own, of exactly that many elements, and [other] is as it was.  The two
    vectors share no storage: whatever series of operations is then applied
    to the copy and returns, [other] still holds its elements in its block,
    with its capacity; and whatever series is applied to [other] and
    returns, the copy still holds the elements it was constructed with, in
    its block, with its capacity.  (In such a series the value given to
    [PushBack], [Insert] or [Emplace] is an object outside the two
    vectors.) *)
Theorem copies_are_independent {T : Type} `{ET : Elem T}
    (w : World T) (this other : nat) (ys : list T) (cap : nat) (buf : option positive)
    (w1 : World T) :
  vec_rep w other ys cap buf →
  this ≠ other →
  vecs w !! this = None →
  Vector_copy this other w = Ok tt w1 →
  ∃ buf1, vec_rep w1 this ys (length ys) buf1 ∧
          vec_rep w1 other ys cap buf ∧
          apart buf buf1 ∧
          (∀ ops w2, run_operations this ops w1 = Ok tt w2 →
                     vec_rep w2 other ys cap buf) ∧
          (∀ ops w2, run_operations other ops w1 = Ok tt w2 →
                     vec_rep w2 this ys (length ys) buf1).
Proof.
  intros Hrep Hne Hnew HOk. pose proof Hrep as (Hv & Hb & Hle & Hcap).
  pose proof (total_at w _ _ _ (total_Vector_copy _ _ this other _ _ _ Hrep Hne Hnew))
    as Hrun.
  rewrite HOk in Hrun. destruct Hrun as (_ & Hh & Hvs).
  destruct (fresh_vector_effect w w1 this ys (length ys) Hh Hvs)
    as (Hrep1 & Hout & _); [done|lia|].
  assert (Hother : vec_rep w1 other ys cap buf).
  { eapply vec_rep_frame; [exact Hout|done| |done]. by intros l _. }
  assert (Ha : apart buf (new_buf (heap w) (length ys))) by (by eapply new_buf_apart).
  exists (new_buf (heap w) (length ys)). split; [done|]. split; [done|]. split; [done|].
  split.
  - intros ops w2 HOk2.
    eapply operations_confined; [exact Hother|done| |exact HOk2].
    intros v Hvt. destruct Hrep1 as (Hv1 & _). rewrite Hvt in Hv1.
    injection Hv1 as ->. exact Ha.
  - intros ops w2 HOk2.
    eapply operations_confined; [exact Hrep1|done| |exact HOk2].
    intros v Hvt. destruct Hother as (Hv1 & _). rewrite Hvt in Hv1.
    injection Hv1 as ->. by apply apart_sym.
Qed.

(** The vector {1, 2} is copied; the copy is pushed a value, erased at the
    front and resized, and the source is as it was. *)
Lemma copies_are_independent_witness :
  let ops := [DoInsert (ByPushBackCopy 7%Z); DoErase 0; DoResize 5] in
  ∃ w1 w2, Vector_copy 5 0 w_12 = Ok tt w1 ∧
           run_operations 5 ops w1 = Ok tt w2 ∧
           contents w2 5 = Some [Live 2%Z; Live 7%Z; Live 0%Z; Live 0%Z; Live 0%Z] ∧
           vec_rep w2 0 [1%Z; 2%Z] 2 (Some 1%positive).
Proof.
  intros ops.
  assert (Hrep : vec_rep w_12 0 [1%Z; 2%Z] 2 (Some 1%positive)) by concrete_rep.
  assert (HOk : Vector_copy 5 0 w_12 = Ok tt _) by (vm_compute; reflexivity).
  destruct (copies_are_independent w_12 5 0 _ _ _ _ Hrep ltac:(lia) eq_refl HOk)
    as (buf1 & _ & _ & _ & Hcopy & _).
  assert (HOk2 : run_operations 5 ops
                   (match Vector_copy 5 0 w_12 with Ok _ w1 => w1 | _ => w_12 end)
                 = Ok tt _) by (vm_compute; reflexivity).
  rewrite HOk in HOk2.
  pose proof (Hcopy ops _ HOk2) as Hother.
  eexists _, _. split; [exact HOk|]. split; [exact HOk2|].
  split; [vm_compute; reflexivity|exact Hother].
Defined.
